(** * Sparse tensor storage and masked semiring multiplication

    A shallow embedding of the sparse-tensor runtime
    ([SparseTensorUtils.cpp]) and of the programs that the GraphBLAS
    lowering pass ([GraphBLASPasses.cpp]) emits for [num_vals],
    [convert_layout] and [matrix_multiply].

    Conventions.
    - A [std::vector] is a [list]; [v[i]] is the total lookup [v !!! i]
      and [v[i] = x] is [<[i:=x]> v].  The source never reads or writes
      past the end of a vector on the inputs the theorems speak about;
      the lemmas make the ranges explicit.
    - Buffer positions, buffer lengths and the counters stored in the
      pointer and index buffers are natural numbers: they are bounded by
      the length of a buffer that exists in memory, so their 64-bit
      arithmetic never wraps.  The places where the runtime multiplies
      user-supplied extents ([cum_size] in [verify], [sz] in the
      constructor) keep their 64-bit wrap-around, written with [u64].
    - A [reserve] or [resize] to a size that the caller supplies throws
      when the size is above what the vector can hold.  The check is
      kept where a storage is constructed: in the [reserve] and
      [resize] calls of the constructors and in the [resize] calls of
      [from_coordinates], against limits that are a parameter
      ([VectorLimits]).
    - A tensor handle ([void *]) is a key of a finite map of storage
      objects. *)

From stdpp Require Import base list gmap strings sorting.

Open Scope nat_scope.

(** ** Storage objects *)

(** [SparseTensorStorage<P, I, V>]: the private members of the class. *)
Record SparseTensorStorage (V : Type) : Type := mkStorage {
  sizes : list nat;            (* per-dimension sizes *)
  rev : list nat;              (* "reverse" permutation *)
  idx : list nat;              (* index cursor *)
  pointers : list (list nat);
  indices : list (list nat);
  values : list V
}.

Arguments mkStorage {V}.
Arguments sizes {V}.
Arguments rev {V}.
Arguments idx {V}.
Arguments pointers {V}.
Arguments indices {V}.
Arguments values {V}.

(** [getRank()] *)
Definition getRank {V} (t : SparseTensorStorage V) : nat := length (sizes t).

(** [isCompressedDim(d)] *)
Definition isCompressedDim {V} (t : SparseTensorStorage V) (d : nat) : bool :=
  negb (length (pointers t !!! d) =? 0).

(** 64-bit unsigned wrap-around. *)
Definition u64 (z : Z) : Z := (z mod 2 ^ 64)%Z.

(** ** The integrity check *)

(** [issorted(arr, start, stop)]: the loop from [i], with [n] iterations
    left. *)
Fixpoint issorted_loop (arr : list nat) (n i prev : nat) : bool :=
  match n with
  | O => true
  | S n' =>
      let cur := arr !!! i in
      if cur =? prev then issorted_loop arr n' (S i) prev
      else if cur <? prev then false
      else issorted_loop arr n' (S i) cur
  end.

Definition issorted (arr : list nat) (start stop : nat) : bool :=
  if stop <=? start + 1 then true
  else issorted_loop arr (stop - (start + 1)) (start + 1) (arr !!! start).

(** [isincreasing(arr, start, stop)] *)
Fixpoint isincreasing_loop (arr : list nat) (n i prev : nat) : bool :=
  match n with
  | O => true
  | S n' =>
      let cur := arr !!! i in
      if cur <=? prev then false
      else isincreasing_loop arr n' (S i) cur
  end.

Definition isincreasing (arr : list nat) (start stop : nat) : bool :=
  if stop <=? start + 1 then true
  else isincreasing_loop arr (stop - (start + 1)) (start + 1) (arr !!! start).

(** The first block of [verify]: [rev] has [ndim] entries, each below
    [ndim], and every position of [zeros] is hit. *)
Definition verify_rev (rev : list nat) (ndim : nat) : bool :=
  if negb (length rev =? ndim) then false
  else
    let in_range := forallb (fun i => negb (ndim <=? i)) rev in
    let zeros :=
      fold_left (fun z i => if ndim <=? i then z else <[i:=1]> z)
                rev (replicate ndim 0) in
    in_range && forallb (fun i => negb (i =? 0)) zeros.

(** The loop over the segments of [idx] when [check_idx] holds:
    [for (i = 1; i < ptr.size(); ++i)], with [n] iterations left. *)
Fixpoint verify_segments (ptr idx : list nat) (n i start : nat) : bool :=
  match n with
  | O => true
  | S n' =>
      let end_ := ptr !!! i in
      let ok := if length idx <? end_ then false
                else isincreasing idx start end_ in
      ok && verify_segments ptr idx n' (S i) end_
  end.

(** The local variables of [verify] that live across the loop over the
    dimensions. *)
Record verify_state : Type := mkVerify {
  rv : bool;
  is_dense : bool;
  cum_size : Z;
  prev_ptr_len : nat;
  prev_idx_len : nat
}.

(** One iteration of the loop over the dimensions; [None] is the early
    [return false] of a dimension of extent zero. *)
Definition verify_dim {V} (t : SparseTensorStorage V) (dim : nat)
    (a : verify_state) : option verify_state :=
  let ptr := pointers t !!! dim in
  let idx := indices t !!! dim in
  let size := sizes t !!! dim in
  if size <=? 0 then None
  else
    let cum := u64 (cum_size a * Z.of_nat size) in
    if length ptr =? 0 then
      Some (mkVerify (rv a && (length idx =? 0)) (is_dense a) cum
                     (prev_ptr_len a) (prev_idx_len a))
    else
      let ok_len :=
        if dim =? 0 then
          negb (length ptr <? 2)
          && negb ((if 2 <? length idx + 1 then length idx + 1 else 2)
                   <? length ptr)
        else
          (if is_dense a
           then (Z.of_nat (length ptr) =? u64 (cum / Z.of_nat size + 1))%Z
           else negb (length idx + 1 <? length ptr))
          && negb (length ptr <? 1) in
      let ok_ptr_cum := negb (u64 (cum + 1) <? Z.of_nat (length ptr))%Z in
      let ok_idx_cum := negb (cum <? Z.of_nat (length idx))%Z in
      let ok_sorted := issorted ptr 0 (length ptr) in
      let ok_first := ptr !!! 0 =? 0 in
      let ok_last := ptr !!! (length ptr - 1) =? length idx in
      let ok_bound := forallb (fun i => negb (size <=? i)) idx in
      let check_idx := ok_sorted && ok_first && ok_last && ok_bound in
      let ok_segments :=
        if check_idx
        then verify_segments ptr idx (length ptr - 1) 1 (ptr !!! 0)
        else true in
      let ok_prev :=
        negb (length ptr <=? prev_idx_len a)
        && negb (length idx <? prev_idx_len a)
        && negb (length ptr + 1 <? prev_ptr_len a)
        && negb (length idx + 2 <? prev_ptr_len a) in
      Some (mkVerify
              (rv a && ok_len && ok_ptr_cum && ok_idx_cum && check_idx
               && ok_segments && ok_prev)
              false cum (length ptr) (length idx)).

(** [for (size_t dim = 0; dim < ndim; ++dim)], with [n] iterations left. *)
Fixpoint verify_dims {V} (t : SparseTensorStorage V) (n dim : nat)
    (a : verify_state) : option verify_state :=
  match n with
  | O => Some a
  | S n' =>
      match verify_dim t dim a with
      | None => None
      | Some a' => verify_dims t n' (S dim) a'
      end
  end.

(** [SparseTensorStorage::verify()] *)
Definition verify {V} (t : SparseTensorStorage V) : bool :=
  let ndim := getRank t in
  if ndim =? 0 then false
  else
    let rv0 := verify_rev (rev t) ndim in
    if negb (length (pointers t) =? ndim) then false
    else if negb (length (indices t) =? ndim) then false
    else if negb (length (sizes t) =? ndim) then false
    else
      match verify_dims t ndim 0 (mkVerify rv0 true 1 0 0) with
      | None => false
      | Some a =>
          if is_dense a
          then rv a && (cum_size a =? Z.of_nat (length (values t)))%Z
          else rv a && (prev_idx_len a =? length (values t))
      end.


(** ** Assertions and exceptions *)

(** A call either returns, or stops at a failed [assert], whose message
    is kept, or is left by the exception of a [reserve] or [resize]
    that cannot be served. *)
Inductive outcome (A : Type) : Type :=
  | Done (a : A)
  | AssertionFailure (msg : string)
  | CapacityError.

Arguments Done {A}.
Arguments AssertionFailure {A}.
Arguments CapacityError {A}.

#[export] Instance outcome_ret : MRet outcome := @Done.
#[export] Instance outcome_bind : MBind outcome := λ A B f m,
  match m with
  | Done a => f a
  | AssertionFailure msg => AssertionFailure msg
  | CapacityError => CapacityError
  end.

(** ** Capacity *)

(** The largest sizes that [reserve] and [resize] serve for the vectors
    of the runtime: for the pointers ([std::vector<P>]), the indices
    ([std::vector<I>]), the values ([std::vector<V>]) and the elements
    of a coordinate scheme ([std::vector<Element<V>>]).  A limit is
    [max_size()] at most, and less where the allocator gives out
    earlier; the numbers are those of the implementation and of the
    machine. *)
Record VectorLimits : Type := mkLimits {
  limit_P : Z;
  limit_I : Z;
  limit_V : Z;
  limit_E : Z
}.

(** The limits when nothing but [max_size()] restricts, for an
    implementation whose [max_size()] is [PTRDIFF_MAX / sizeof(T)] with
    64-bit pointers, for pointers, indices and values of eight bytes
    and elements of thirty-two. *)
Definition limits_64 : VectorLimits :=
  mkLimits (2 ^ 60 - 1) (2 ^ 60 - 1) (2 ^ 60 - 1) (2 ^ 58 - 1).

(** [v.reserve(n)] and [v.resize(n)] on a vector with the given limit
    throw when [n] exceeds it: [std::length_error] above
    [v.max_size()], [std::bad_alloc] when the allocation fails.  The
    capacity of a vector cannot be observed otherwise, so the check is
    all that is kept of a [reserve]. *)
Definition reserve (limit n : Z) : outcome unit :=
  if (limit <? n)%Z then CapacityError else Done tt.

(** The sizes that the constructor reserves for an [m x n] matrix with
    a dense outer and a compressed inner dimension, [m * n + 1]
    pointers and [m * n] indices, are within the limits
    (specification). *)
Definition matrix_fits (lim : VectorLimits) (m n : nat) : Prop :=
  (Z.of_nat m * Z.of_nat n < limit_P lim)%Z
  ∧ (Z.of_nat m * Z.of_nat n ≤ limit_I lim)%Z.

(** The sizes that [from_coordinates] asks for, for an [m x n] matrix
    from [nnz] coordinates, are within the limits: those of the
    constructor, [m + 1] pointers, [nnz] indices and [nnz] values
    (specification). *)
Definition from_coordinates_fits (lim : VectorLimits) (m n nnz : nat)
    : Prop :=
  matrix_fits lim m n
  ∧ (Z.of_nat m < limit_P lim)%Z
  ∧ (Z.of_nat nnz ≤ limit_I lim)%Z
  ∧ (Z.of_nat nnz ≤ limit_V lim)%Z.

(** ** The coordinate scheme *)

(** [Element<V>] *)
Record Element (V : Type) : Type := mkElement {
  e_indices : list nat;
  e_value : V
}.

Arguments mkElement {V}.
Arguments e_indices {V}.
Arguments e_value {V}.

(** [SparseTensorCOO<V>]; the iterator members play no role before
    [startIterator()] and are left out. *)
Record SparseTensorCOO (V : Type) : Type := mkCOO {
  coo_sizes : list nat;
  elements : list (Element V)
}.

Arguments mkCOO {V}.
Arguments coo_sizes {V}.
Arguments elements {V}.

(** Reading a buffer out of range yields the zero value, resp. an
    element without coordinates; no theorem depends on such a read. *)
Definition value_inhabited {V} (zero : V) : Inhabited V := populate zero.
Definition element_inhabited {V} (zero : V) : Inhabited (Element V) :=
  populate (mkElement [] zero).

(** [DimLevelType] *)
Inductive DimLevelType : Type := kDense | kCompressed | kSingleton.

#[export] Instance DimLevelType_inhabited : Inhabited DimLevelType :=
  populate kDense.

(** [lexOrder(e1, e2)]: the loop from dimension [r], [n] dimensions
    left. *)
Fixpoint lexOrder_loop (i1 i2 : list nat) (n r : nat) : bool :=
  match n with
  | O => false
  | S n' =>
      if i1 !!! r =? i2 !!! r then lexOrder_loop i1 i2 n' (S r)
      else i1 !!! r <? i2 !!! r
  end.

Definition lexOrder {V} (e1 e2 : Element V) : bool :=
  lexOrder_loop (e_indices e1) (e_indices e2) (length (e_indices e1)) 0.

(** [permsz[perm[r]] = sizes[r]] for [r] below [rank]. *)
Definition permute_sizes (rank : nat) (szs perm : list nat) : list nat :=
  fold_left (λ permsz r, <[perm !!! r := szs !!! r]> permsz)
            (seq 0 rank) (replicate rank 0).

(** [SparseTensorCOO::newSparseTensorCOO(rank, sizes, perm, capacity)],
    with the constructor's [if (capacity) elements.reserve(capacity)]. *)
Definition newSparseTensorCOO {V} (lim : VectorLimits) (rank : nat)
    (szs perm : list nat) (capacity : nat) : outcome (SparseTensorCOO V) :=
  let permsz := permute_sizes rank szs perm in
  _ ← (if capacity =? 0 then Done tt
       else reserve (limit_E lim) (Z.of_nat capacity));
  Done (mkCOO permsz []).

(** [SparseTensorCOO::add(ind, val)] *)
Definition coo_add {V} (ind : list nat) (val : V) (c : SparseTensorCOO V)
    : outcome (SparseTensorCOO V) :=
  let rank := length (coo_sizes c) in
  if negb (rank =? length ind) then AssertionFailure "rank == ind.size()"
  else if negb (forallb (λ r, ind !!! r <? coo_sizes c !!! r) (seq 0 rank))
  then AssertionFailure "ind[r] < sizes[r]"
  else Done (mkCOO (coo_sizes c) (elements c ++ [mkElement ind val])).

(** ** Building and filling storage *)

Definition set_sizes {V} (x : list nat) (t : SparseTensorStorage V) :=
  mkStorage x (rev t) (idx t) (pointers t) (indices t) (values t).
Definition set_rev {V} (x : list nat) (t : SparseTensorStorage V) :=
  mkStorage (sizes t) x (idx t) (pointers t) (indices t) (values t).
Definition set_idx {V} (x : list nat) (t : SparseTensorStorage V) :=
  mkStorage (sizes t) (rev t) x (pointers t) (indices t) (values t).
Definition set_pointers {V} (x : list (list nat)) (t : SparseTensorStorage V) :=
  mkStorage (sizes t) (rev t) (idx t) x (indices t) (values t).
Definition set_indices {V} (x : list (list nat)) (t : SparseTensorStorage V) :=
  mkStorage (sizes t) (rev t) (idx t) (pointers t) x (values t).
Definition set_values {V} (x : list V) (t : SparseTensorStorage V) :=
  mkStorage (sizes t) (rev t) (idx t) (pointers t) (indices t) x.

(** [pointers[d].push_back(p)], [indices[d].push_back(i)] and
    [values.push_back(v)] *)
Definition push_pointer {V} (d p : nat) (t : SparseTensorStorage V) :=
  set_pointers (alter (λ l, l ++ [p]) d (pointers t)) t.
Definition push_index {V} (d i : nat) (t : SparseTensorStorage V) :=
  set_indices (alter (λ l, l ++ [i]) d (indices t)) t.
Definition push_value {V} (v : V) (t : SparseTensorStorage V) :=
  set_values (values t ++ [v]) t.

Section Runtime.
Context {V : Type} (zero : V).

#[local] Hint Extern 0 (Inhabited V) =>
  exact (value_inhabited zero) : typeclass_instances.
#[local] Hint Extern 0 (Inhabited (Element V)) =>
  exact (element_inhabited zero) : typeclass_instances.

(** [endDim(d)], by recursion on [k = rank - d]. *)
Fixpoint endDim_rec (k d : nat) (t : SparseTensorStorage V)
    : SparseTensorStorage V :=
  match k with
  | O => push_value zero t
  | S k' =>
      if isCompressedDim t d
      then push_pointer d (length (indices t !!! d)) t
      else Nat.iter (sizes t !!! d) (endDim_rec k' (S d)) t
  end.

Definition endDim (d : nat) (t : SparseTensorStorage V) :=
  endDim_rec (getRank t - d) d t.

(** [endPath(diff)]: the loop body for [i], then the rest. *)
Fixpoint endPath_loop (n i : nat) (t : SparseTensorStorage V)
    : SparseTensorStorage V :=
  match n with
  | O => t
  | S n' =>
      let d := getRank t - i - 1 in
      let t' :=
        if isCompressedDim t d
        then push_pointer d (length (indices t !!! d)) t
        else Nat.iter (sizes t !!! d - (idx t !!! d + 1)) (endDim (S d)) t in
      endPath_loop n' (S i) t'
  end.

Definition endPath (diff : nat) (t : SparseTensorStorage V)
    : outcome (SparseTensorStorage V) :=
  if getRank t <? diff then AssertionFailure "diff <= rank"
  else Done (endPath_loop (getRank t - diff) 0 t).

(** [insPath(cursor, diff, top, val)] *)
Fixpoint insPath_loop (cursor : list nat) (n d top : nat)
    (t : SparseTensorStorage V) : SparseTensorStorage V :=
  match n with
  | O => t
  | S n' =>
      let i := cursor !!! d in
      let t1 :=
        if isCompressedDim t d then push_index d i t
        else Nat.iter (i - top) (endDim (S d)) t in
      insPath_loop cursor n' (S d) 0 (set_idx (<[d := i]> (idx t1)) t1)
  end.

Definition insPath (cursor : list nat) (diff top : nat) (val : V)
    (t : SparseTensorStorage V) : outcome (SparseTensorStorage V) :=
  if negb (diff <? getRank t) then AssertionFailure "diff < rank"
  else Done (push_value val
               (insPath_loop cursor (getRank t - diff) diff top t)).

(** [lexDiff(cursor)] *)
Fixpoint lexDiff_loop (cursor idx : list nat) (n r : nat) : outcome nat :=
  match n with
  | O => AssertionFailure "duplication insertion"
  | S n' =>
      if idx !!! r <? cursor !!! r then Done r
      else if cursor !!! r =? idx !!! r
      then lexDiff_loop cursor idx n' (S r)
      else AssertionFailure "non-lexicographic insertion"
  end.

Definition lexDiff (cursor : list nat) (t : SparseTensorStorage V)
    : outcome nat :=
  lexDiff_loop cursor (idx t) (getRank t) 0.

(** [lexInsert(cursor, val)] *)
Definition lexInsert (cursor : list nat) (val : V)
    (t : SparseTensorStorage V) : outcome (SparseTensorStorage V) :=
  match values t with
  | [] => insPath cursor 0 0 val t
  | _ :: _ =>
      diff ← lexDiff cursor t;
      t' ← endPath (diff + 1) t;
      insPath cursor diff (idx t' !!! diff + 1) val t'
  end.

(** The scan [while (seg < hi && elements[seg].indices[d] == i) seg++]. *)
Fixpoint segment_end (els : list (Element V)) (d i n seg hi : nat) : nat :=
  match n with
  | O => seg
  | S n' =>
      if (seg <? hi) && (e_indices (els !!! seg) !!! d =? i)
      then segment_end els d i n' (S seg) hi
      else seg
  end.

(** The [while (lo < hi)] loop of [fromCOO] at dimension [d]; [rec] is
    the recursive call at dimension [d + 1].  The result carries the
    local [full]. *)
Fixpoint fromCOO_while
    (rec : nat → nat → SparseTensorStorage V → outcome (SparseTensorStorage V))
    (els : list (Element V)) (d n lo hi full : nat)
    (t : SparseTensorStorage V) : outcome (SparseTensorStorage V * nat) :=
  match n with
  | O => Done (t, full)
  | S n' =>
      if lo <? hi then
        if negb ((lo <? length els) && (hi <=? length els))
        then AssertionFailure "lo < elements.size() && hi <= elements.size()"
        else
          let i := e_indices (els !!! lo) !!! d in
          let seg := segment_end els d i (hi - (lo + 1)) (lo + 1) hi in
          let '(t1, full1) :=
            if isCompressedDim t d then (push_index d i t, full)
            else (Nat.iter (i - full) (endDim (S d)) t,
                  (if full <? i then i else full) + 1) in
          t2 ← rec lo seg t1;
          fromCOO_while rec els d n' seg hi full1 t2
      else Done (t, full)
  end.

(** [fromCOO(elements, lo, hi, d)], by recursion on [k = rank - d]. *)
Fixpoint fromCOO_rec (k : nat) (els : list (Element V)) (lo hi d : nat)
    (t : SparseTensorStorage V) : outcome (SparseTensorStorage V) :=
  match k with
  | O =>
      if negb ((lo <? hi) && (hi <=? length els))
      then AssertionFailure "lo < hi && hi <= elements.size()"
      else Done (push_value (e_value (els !!! lo)) t)
  | S k' =>
      '(t1, full) ← fromCOO_while
                       (λ lo' hi', fromCOO_rec k' els lo' hi' (S d))
                       els d (hi - lo) lo hi 0 t;
      Done (if isCompressedDim t1 d
            then push_pointer d (length (indices t1 !!! d)) t1
            else Nat.iter (sizes t1 !!! d - full) (endDim (S d)) t1)
  end.

Definition fromCOO (els : list (Element V)) (lo hi d : nat)
    (t : SparseTensorStorage V) : outcome (SparseTensorStorage V) :=
  if getRank t <? d then AssertionFailure "d <= getRank()"
  else fromCOO_rec (getRank t - d) els lo hi d t.

(** The limits of the vectors of the storage. *)
Variable lim : VectorLimits.

(** The capacity-hint loop of the constructor: for a compressed
    dimension it reserves [sz + 1] pointers and [sz] indices; it
    computes [allDense] and [sz], and rejects singleton dimensions. *)
Fixpoint capacity_hints (szs : list nat) (sparsity : list DimLevelType)
    (n r : nat) (allDense : bool) (sz : Z) : outcome (bool * Z) :=
  match n with
  | O => Done (allDense, sz)
  | S n' =>
      let sz' := u64 (sz * Z.of_nat (szs !!! r)) in
      match sparsity !!! r with
      | kCompressed =>
          _ ← reserve (limit_P lim) (u64 (sz' + 1));
          _ ← reserve (limit_I lim) sz';
          capacity_hints szs sparsity n' (S r) false 1%Z
      | kDense => capacity_hints szs sparsity n' (S r) allDense sz'
      | kSingleton => AssertionFailure "singleton not yet supported"
      end
  end.

(** [std::sort(elements.begin(), elements.end(), lexOrder)].  The
    standard only promises a rearrangement in which no element is
    [lexOrder]-before an earlier one. *)
Variable std_sort : list (Element V) → list (Element V).

(** The constructor
    [SparseTensorStorage(szs, perm, sparsity, tensor)]. *)
Definition new_SparseTensorStorage (szs perm : list nat)
    (sparsity : list DimLevelType) (tensor : option (SparseTensorCOO V))
    : outcome (SparseTensorStorage V) :=
  let rank := length szs in
  let rev := fold_left (λ rev r, <[perm !!! r := r]> rev)
                       (seq 0 rank) (replicate rank 0) in
  '(allDense, sz) ← capacity_hints szs sparsity rank 0 true 1%Z;
  let ptrs := (λ r, match sparsity !!! r with
                    | kCompressed => [0]
                    | _ => []
                    end) <$> seq 0 rank in
  let t := mkStorage szs rev (replicate rank 0) ptrs (replicate rank []) [] in
  match tensor with
  | Some c =>
      let els := std_sort (elements c) in
      let nnz := length els in
      _ ← reserve (limit_V lim) (Z.of_nat nnz);
      fromCOO els 0 nnz 0 t
  | None =>
      if (allDense : bool)
      then _ ← reserve (limit_V lim) sz;
           Done (set_values (resize (Z.to_nat sz) zero []) t)
      else Done t
  end.

(** [SparseTensorStorage::newSparseTensor(rank, sizes, perm, sparsity,
    tensor)] *)
Definition newSparseTensor (rank : nat) (szs perm : list nat)
    (sparsity : list DimLevelType) (tensor : option (SparseTensorCOO V))
    : outcome (SparseTensorStorage V) :=
  match tensor with
  | Some c =>
      if negb (length (coo_sizes c) =? rank)
      then AssertionFailure "tensor->getRank() == rank"
      else if negb (forallb (λ r, (szs !!! r =? 0)
                                  || (coo_sizes c !!! (perm !!! r) =? szs !!! r))
                            (seq 0 rank))
      then AssertionFailure
             "sizes[r] == 0 || tensor->getSizes()[perm[r]] == sizes[r]"
      else new_SparseTensorStorage (coo_sizes c) perm sparsity (Some c)
  | None =>
      new_SparseTensorStorage (permute_sizes rank szs perm) perm sparsity None
  end.

(** The loop of [convertToMLIRSparseTensor] that feeds the flat
    [nse x rank] index array to [add]. *)
Fixpoint add_elements (rank : nat) (vals : list V) (inds : list nat)
    (n i base : nat) (c : SparseTensorCOO V) : outcome (SparseTensorCOO V) :=
  match n with
  | O => Done c
  | S n' =>
      let ind := (λ r, inds !!! (base + r)) <$> seq 0 rank in
      c' ← coo_add ind (vals !!! i) c;
      add_elements rank vals inds n' (S i) (base + rank) c'
  end.

(** [convertToMLIRSparseTensor(rank, nse, shape, values, indices)]: the
    [from_coordinates] entry point. *)
Definition convertToMLIRSparseTensor (rank nse : nat) (shape : list nat)
    (vals : list V) (inds : list nat) : outcome (SparseTensorStorage V) :=
  let sparse := replicate rank kCompressed in
  let perm := seq 0 rank in
  coo ← newSparseTensorCOO lim rank shape perm nse;
  tensor ← add_elements rank vals inds nse 0 0 coo;
  newSparseTensor rank shape perm sparse (Some tensor).

End Runtime.

(** A stable instance of [std::sort]: insertion into a sorted prefix. *)
Fixpoint insert_sorted {V} (e : Element V) (l : list (Element V))
    : list (Element V) :=
  match l with
  | [] => [e]
  | x :: l' => if lexOrder x e then x :: insert_sorted e l' else e :: l
  end.

Definition insertion_sort {V} (l : list (Element V)) : list (Element V) :=
  foldr insert_sorted [] l.

(** ** Lexicographic order on cursors (specification) *)

(** [lex_lt a b]: [a] comes strictly before [b]. *)
Inductive lex_lt : list nat → list nat → Prop :=
  | lex_lt_here x y a b : x < y → lex_lt (x :: a) (y :: b)
  | lex_lt_next x a b : lex_lt a b → lex_lt (x :: a) (x :: b).

Definition lex_le (a b : list nat) : Prop := a = b ∨ lex_lt a b.

(** ** Tensor handles and the storage mutation interface *)

(** [void *dup()] through the copy constructor
    [SparseTensorStorage(void *other)]: its member initializers copy
    [sizes], [rev], [pointers], [indices] and [values]; [idx] is left
    default-constructed. *)
Definition dup {V} (t : SparseTensorStorage V) : SparseTensorStorage V :=
  mkStorage (sizes t) (rev t) [] (pointers t) (indices t) (values t).

(** [assign_rev(d, index)], [resize_pointers(d, size)],
    [resize_index(d, size)], [resize_values(size)] and
    [resize_dim(d, size)]. *)
Definition assign_rev {V} (d index : nat) (t : SparseTensorStorage V) :=
  set_rev (<[d := index]> (rev t)) t.
Definition resize_pointers {V} (d size : nat) (t : SparseTensorStorage V) :=
  set_pointers (alter (resize size 0) d (pointers t)) t.
Definition resize_index {V} (d size : nat) (t : SparseTensorStorage V) :=
  set_indices (alter (resize size 0) d (indices t)) t.
Definition resize_values {V} (zero : V) (size : nat)
    (t : SparseTensorStorage V) :=
  set_values (resize size zero (values t)) t.
Definition resize_dim {V} (d size : nat) (t : SparseTensorStorage V) :=
  set_sizes (<[d := size]> (sizes t)) t.

(** The live storage objects, by handle. *)
Abbreviation store V := (gmap nat (SparseTensorStorage V)).

(** [dup_tensor(tensor)]: [new] returns an address that no live object
    has. *)
Definition dup_tensor {V} (σ : store V) (h : nat) : option (store V * nat) :=
  t ← σ !! h;
  let h' := fresh (dom σ) in
  Some (<[h' := dup t]> σ, h').

(** The ways in which a client changes the buffers of the object behind
    a handle: the resize and assign calls, a store through the memref
    that [sparse_tensor.pointers], [.indices] or [.values] returns, and
    the [swap_*] calls, whose second argument is the vector of another
    live object ([get_*_ptr(other)]). *)
Inductive mutation (V : Type) : Type :=
  | AssignRev (d index : nat)
  | ResizePointers (d size : nat)
  | ResizeIndex (d size : nat)
  | ResizeValues (size : nat)
  | ResizeDim (d size : nat)
  | StorePointer (d i x : nat)
  | StoreIndex (d i x : nat)
  | StoreValue (i : nat) (v : V)
  | SwapRev (other : nat)
  | SwapSizes (other : nat)
  | SwapPointers (other : nat)
  | SwapIndices (other : nat)
  | SwapValues (other : nat).

Arguments AssignRev {V}.
Arguments ResizePointers {V}.
Arguments ResizeIndex {V}.
Arguments ResizeValues {V}.
Arguments ResizeDim {V}.
Arguments StorePointer {V}.
Arguments StoreIndex {V}.
Arguments StoreValue {V}.
Arguments SwapRev {V}.
Arguments SwapSizes {V}.
Arguments SwapPointers {V}.
Arguments SwapIndices {V}.
Arguments SwapValues {V}.

(** The other object that a mutation reaches, if any. *)
Definition swap_partner {V} (m : mutation V) : option nat :=
  match m with
  | SwapRev o | SwapSizes o | SwapPointers o | SwapIndices o | SwapValues o =>
      Some o
  | _ => None
  end.

(** Exchange of one member between two objects. *)
Definition swap_member {V A} (get : SparseTensorStorage V → A)
    (set : A → SparseTensorStorage V → SparseTensorStorage V)
    (h other : nat) (σ : store V) : store V :=
  match σ !! h, σ !! other with
  | Some t, Some o => <[other := set (get t) o]> (<[h := set (get o) t]> σ)
  | _, _ => σ
  end.

(** A mutation applied to the object behind [h]. *)
Definition mutate {V} (zero : V) (h : nat) (m : mutation V) (σ : store V)
    : store V :=
  match m with
  | AssignRev d index => alter (assign_rev d index) h σ
  | ResizePointers d size => alter (resize_pointers d size) h σ
  | ResizeIndex d size => alter (resize_index d size) h σ
  | ResizeValues size => alter (resize_values zero size) h σ
  | ResizeDim d size => alter (resize_dim d size) h σ
  | StorePointer d i x =>
      alter (λ t, set_pointers (alter (<[i := x]>) d (pointers t)) t) h σ
  | StoreIndex d i x =>
      alter (λ t, set_indices (alter (<[i := x]>) d (indices t)) t) h σ
  | StoreValue i v => alter (λ t, set_values (<[i := v]> (values t)) t) h σ
  | SwapRev o => swap_member rev set_rev h o σ
  | SwapSizes o => swap_member sizes set_sizes h o σ
  | SwapPointers o => swap_member pointers set_pointers h o σ
  | SwapIndices o => swap_member indices set_indices h o σ
  | SwapValues o => swap_member values set_values h o σ
  end.

(** ** Tensor types of the lowering pass *)

(** The dimension ordering of a sparse tensor encoding. *)
Inductive Ordering : Type := RowMajor | ColumnMajor.

#[export] Instance Ordering_eq_dec : EqDecision Ordering.
Proof. solve_decision. Defined.

(** A ranked sparse tensor type: a vector, or a matrix that is dense in
    its first storage dimension and compressed in its second (CSR when
    row-major, CSC when column-major). *)
Record TensorType : Type := mkType {
  ty_rank : nat;
  ty_ordering : Ordering
}.

#[export] Instance TensorType_eq_dec : EqDecision TensorType.
Proof. solve_decision. Defined.

Definition CSR : TensorType := mkType 2 RowMajor.
Definition CSC : TensorType := mkType 2 ColumnMajor.
Definition SparseVector : TensorType := mkType 1 RowMajor.

(** Modelled from the spec: [hasRowOrdering] and [hasColumnOrdering]
    (GraphBLASUtils, not under src/) tell row-major (CSR) from
    column-major (CSC) layout by the dimension ordering of the type. *)
Definition hasRowOrdering (ty : TensorType) : bool :=
  match ty_ordering ty with RowMajor => true | ColumnMajor => false end.
Definition hasColumnOrdering (ty : TensorType) : bool :=
  match ty_ordering ty with RowMajor => false | ColumnMajor => true end.

(** Modelled from the spec: [getFlippedLayoutType] (GraphBLASUtils, not
    under src/) is the type with the other of the two layouts. *)
Definition getFlippedLayoutType (ty : TensorType) : TensorType :=
  mkType (ty_rank ty)
         (match ty_ordering ty with
          | RowMajor => ColumnMajor
          | ColumnMajor => RowMajor
          end).

(** [tensor.dim %t, i] on a sparse tensor reads the runtime's
    [sparseDimSize] at the storage dimension that holds the logical
    dimension [i]: [sizes] is kept in storage order. *)
Definition tensor_dim {V} (ty : TensorType) (t : SparseTensorStorage V)
    (i : nat) : nat :=
  match ty_ordering ty with
  | RowMajor => sizes t !!! i
  | ColumnMajor => sizes t !!! (1 - i)
  end.

(** [LowerSizeRewrite], [LowerNumRowsRewrite], [LowerNumColsRewrite] *)
Definition size_op {V} ty (t : SparseTensorStorage V) := tensor_dim ty t 0.
Definition num_rows {V} ty (t : SparseTensorStorage V) := tensor_dim ty t 0.
Definition num_cols {V} ty (t : SparseTensorStorage V) := tensor_dim ty t 1.

(** [LowerNumValsRewrite]: load the pointers of dimension [rank - 1] at
    position [npointers]; the index cast keeps the number. *)
Definition num_vals {V} (ty : TensorType) (t : SparseTensorStorage V) : nat :=
  let rank := ty_rank ty in
  let ptrs := pointers t !!! (rank - 1) in
  let npointers :=
    if rank =? 1 then 1
    else tensor_dim ty t (if hasRowOrdering ty then 0 else 1) in
  ptrs !!! npointers.

(** A storage object fits its type when the pointer buffer of its
    compressed dimension has one entry per segment plus one: two
    entries for a vector, the outer extent plus one for a matrix. *)
Definition fits_type {V} (ty : TensorType) (t : SparseTensorStorage V)
    : Prop :=
  (ty_rank ty = 1 ∨ ty_rank ty = 2)
  ∧ length (sizes t) = ty_rank ty
  ∧ length (pointers t !!! (ty_rank ty - 1))
    = (if ty_rank ty =? 1 then 1 else sizes t !!! 0) + 1.

(** ** Layout conversion *)

(** Modelled from the spec: [callEmptyLike] (GraphBLASUtils, not under
    src/) creates a tensor of the same shape and dimension order that is
    empty, with its pointers sized but unpopulated and no indices or
    values. *)
Definition empty_like {V} (t : SparseTensorStorage V)
    : SparseTensorStorage V :=
  mkStorage (sizes t) (rev t) []
            ((λ p, replicate (length p) 0) <$> pointers t)
            ((λ _, []) <$> indices t) [].

(** [init B.pointers to zero] *)
Definition init_pointers (ncol : nat) (outputPtrs : list nat) : list nat :=
  fold_left (λ p i, <[i := 0]> p) (seq 0 ncol) outputPtrs.

(** [store pointers]: the number of entries per column. *)
Definition count_columns (nnz : nat) (inputIndices outputPtrs : list nat)
    : list nat :=
  fold_left (λ p i, let colA := inputIndices !!! i in
                    <[colA := p !!! colA + 1]> p)
            (seq 0 nnz) outputPtrs.

(** [cumsum the nnz per column to get Bp], with the running sum kept at
    position [ncol]. *)
Definition cumsum_pointers (ncol : nat) (outputPtrs : list nat) : list nat :=
  fold_left (λ p i, let temp := p !!! i in
                    let cumsum := p !!! ncol in
                    <[ncol := cumsum + temp]> (<[i := cumsum]> p))
            (seq 0 ncol) (<[ncol := 0]> outputPtrs).

(** The body of the inner copy loop: the entry at position [jj] of row
    [row] goes to the next free slot of its column. *)
Definition copy_entry {V} (zero : V) (inputIndices : list nat)
    (inputValues : list V) (row jj : nat)
    (st : list nat * list nat * list V) : list nat * list nat * list V :=
  let col := inputIndices !!! jj in
  let dest := st.1.1 !!! col in
  (<[col := st.1.1 !!! col + 1]> st.1.1,
   <[dest := row]> st.1.2,
   <[dest := @lookup_total _ _ _ (@list_lookup_total _ (value_inhabited zero))
               jj inputValues]> st.2).

(** [copy values] *)
Definition copy_rows {V} (zero : V) (nrow : nat)
    (inputPtrs inputIndices : list nat) (inputValues : list V)
    (st : list nat * list nat * list V) : list nat * list nat * list V :=
  fold_left
    (λ st row,
       fold_left (λ st jj, copy_entry zero inputIndices inputValues row jj st)
                 (seq (inputPtrs !!! row)
                      (inputPtrs !!! (row + 1) - inputPtrs !!! row))
                 st)
    (seq 0 nrow) st.

(** The last loop: every pointer moves one position up, the first
    becomes zero and the last is restored. *)
Definition shift_pointers (ncol : nat) (outputPtrs : list nat) : list nat :=
  let last_last := outputPtrs !!! ncol in
  let p :=
    fold_left (λ p iCol, let swapTemp := p !!! iCol in
                         let last := p !!! ncol in
                         <[ncol := swapTemp]> (<[iCol := last]> p))
              (seq 0 ncol) (<[ncol := 0]> outputPtrs) in
  <[ncol := last_last]> p.

(** [LowerConvertLayoutRewrite], past the shortcut: the program that
    fills a fresh tensor with the other layout. *)
Definition convert_layout_rebuild {V} (zero : V)
    (inputType outputType : TensorType) (inputTensor : SparseTensorStorage V)
    : SparseTensorStorage V :=
  let inputPtrs := pointers inputTensor !!! 1 in
  let inputIndices := indices inputTensor !!! 1 in
  let inputValues := values inputTensor in
  let nrow := num_rows inputType inputTensor in
  let ncol := num_cols inputType inputTensor in
  let nnz := num_vals inputType inputTensor in
  let duplicate := empty_like inputTensor in
  let outputIsCSC := hasColumnOrdering outputType in
  let duplicate :=
    if outputIsCSC
    then resize_dim 1 nrow (resize_dim 0 ncol
           (assign_rev 1 0 (assign_rev 0 1 duplicate)))
    else resize_dim 1 ncol (resize_dim 0 nrow
           (assign_rev 1 1 (assign_rev 0 0 duplicate))) in
  let nrow' := if outputIsCSC then nrow else ncol in
  let ncol' := if outputIsCSC then ncol else nrow in
  let duplicate :=
    resize_values zero nnz
      (resize_index 1 nnz (resize_pointers 1 (ncol' + 1) duplicate)) in
  let outputPtrs := pointers duplicate !!! 1 in
  let outputIndices := indices duplicate !!! 1 in
  let outputValues := values duplicate in
  let p := init_pointers ncol' outputPtrs in
  let p := count_columns nnz inputIndices p in
  let p := cumsum_pointers ncol' p in
  let st := copy_rows zero nrow' inputPtrs inputIndices inputValues
                      (p, outputIndices, outputValues) in
  let p := shift_pointers ncol' st.1.1 in
  set_values st.2
    (set_indices (<[1 := st.1.2]> (indices duplicate))
       (set_pointers (<[1 := p]> (pointers duplicate)) duplicate)).

(** [LowerConvertLayoutRewrite] on the storage object: equal types
    return the input itself. *)
Definition convert_layout {V} (zero : V) (inputType outputType : TensorType)
    (inputTensor : SparseTensorStorage V) : SparseTensorStorage V :=
  if decide (inputType = outputType) then inputTensor
  else convert_layout_rebuild zero inputType outputType inputTensor.

(** [LowerConvertLayoutRewrite] on handles: with equal types the op is
    replaced by its operand; otherwise its result is a new object. *)
Definition ConvertLayoutOp {V} (zero : V) (σ : store V)
    (inputType outputType : TensorType) (h : nat) : option (store V * nat) :=
  if decide (inputType = outputType) then Some (σ, h)
  else
    t ← σ !! h;
    let h' := fresh (dom σ) in
    Some (<[h' := convert_layout_rebuild zero inputType outputType t]> σ, h').

(** ** Matrices as sets of entries (specification) *)

(** The entries of a matrix in storage order, as (outer, inner, value):
    the outer coordinate is the segment, the inner one the stored
    index. *)
Definition storage_entries {V} (zero : V) (nouter : nat)
    (ptrs inds : list nat) (vals : list V) : list (nat * nat * V) :=
  flat_map
    (λ o, (λ jj, (o, inds !!! jj,
                  @lookup_total _ _ _ (@list_lookup_total _
                     (value_inhabited zero)) jj vals))
          <$> seq (ptrs !!! o) (ptrs !!! (o + 1) - ptrs !!! o))
    (seq 0 nouter).

(** The entries as (row, column, value). *)
Definition logical_entry {V} (ty : TensorType) (e : nat * nat * V)
    : nat * nat * V :=
  match ty_ordering ty with
  | RowMajor => e
  | ColumnMajor => (e.1.2, e.1.1, e.2)
  end.

Definition entries {V} (zero : V) (ty : TensorType)
    (t : SparseTensorStorage V) : list (nat * nat * V) :=
  logical_entry ty
  <$> storage_entries zero (sizes t !!! 0) (pointers t !!! 1)
        (indices t !!! 1) (values t).

(** The structure of a rank-2 storage object with a dense outer and a
    compressed inner dimension.  The order of the indices within a
    segment is not constrained. *)
Record matrix_wf {V} (t : SparseTensorStorage V) : Prop := mkMatrixWf {
  mw_sizes : length (sizes t) = 2;
  mw_rev : length (rev t) = 2;
  mw_pointers : length (pointers t) = 2;
  mw_indices : length (indices t) = 2;
  mw_ptr_len : length (pointers t !!! 1) = sizes t !!! 0 + 1;
  mw_ptr_first : (pointers t !!! 1) !!! 0 = 0;
  mw_ptr_sorted : ∀ i j, i ≤ j → j ≤ sizes t !!! 0 →
                  (pointers t !!! 1) !!! i ≤ (pointers t !!! 1) !!! j;
  mw_ptr_last : (pointers t !!! 1) !!! (sizes t !!! 0)
                = length (indices t !!! 1);
  mw_values : length (values t) = length (indices t !!! 1);
  mw_bound : ∀ j, j < length (indices t !!! 1) →
             (indices t !!! 1) !!! j < sizes t !!! 1
}.

(** Counting sort by the inner coordinate: the entries with inner
    coordinate [c], the number of entries before column [c], and the
    slot of an entry. *)
Definition bucket {V} (c : nat) (E : list (nat * nat * V))
    : list (nat * nat * V) :=
  filter (λ e, e.1.2 = c) E.

Definition bucket_start {V} (c : nat) (E : list (nat * nat * V)) : nat :=
  length (filter (λ e, e.1.2 < c) E).

(** What the copy loop does with one entry. *)
Definition place {V} (e : nat * nat * V) (st : list nat * list nat * list V)
    : list nat * list nat * list V :=
  let dest := st.1.1 !!! e.1.2 in
  (<[e.1.2 := st.1.1 !!! e.1.2 + 1]> st.1.1,
   <[dest := e.1.1]> st.1.2,
   <[dest := e.2]> st.2).

(** The positions [s, s + k) of the output index and value buffers. *)
Definition slice_at {V} (zero : V) (oi : list nat) (ov : list V)
    (s k : nat) : list (nat * V) :=
  (λ pos, (oi !!! pos,
           @lookup_total _ _ _ (@list_lookup_total _ (value_inhabited zero))
             pos ov))
  <$> seq s k.

(** The invariant of the copy loop after the entries [vs] of [E]: every
    column pointer stands at the next free slot of its column, and the
    slots filled so far hold the entries of the column in the order in
    which they were met. *)
Definition copy_inv {V} (zero : V) (n nouter pn : nat)
    (E vs : list (nat * nat * V)) (st : list nat * list nat * list V) : Prop :=
  length st.1.1 = n + 1
  ∧ length st.1.2 = length E ∧ length st.2 = length E
  ∧ (∀ c, c < n →
          st.1.1 !!! c = bucket_start c E + length (bucket c vs))
  ∧ (∀ c, c < n →
          slice_at zero st.1.2 st.2 (bucket_start c E) (length (bucket c vs))
          = (λ e, (e.1.1, e.2)) <$> bucket c vs)
  ∧ st.1.1 !!! n = pn
  ∧ Forall (λ o, o < nouter) st.1.2.

(** ** Frames and well-formed compressed levels (specification) *)

(** None of the helpers that close or pad dimensions touches the sizes
    or the cursor. *)
Definition same_frame {V} (t t' : SparseTensorStorage V) : Prop :=
  sizes t' = sizes t ∧ idx t' = idx t.

(** [ix] is strictly increasing on the positions [s, e). *)
Definition increasing_on (ix : list nat) (s e : nat) : Prop :=
  ∀ a b, s ≤ a → a < b → b < e → ix !!! a < ix !!! b.

(** The pointer and index buffers of one compressed dimension while its
    last segment may still grow: the segments closed so far are
    delimited by [p], and the positions after the last pointer form the
    open segment. *)
Record level_open (size : nat) (p ix : list nat) : Prop := mkLevelOpen {
  lo_nonempty : 0 < length p;
  lo_first : p !!! 0 = 0;
  lo_sorted : ∀ i j, i ≤ j → j < length p → p !!! i ≤ p !!! j;
  lo_last : p !!! (length p - 1) ≤ length ix;
  lo_segments : ∀ i, S i < length p → increasing_on ix (p !!! i) (p !!! S i);
  lo_tail : increasing_on ix (p !!! (length p - 1)) (length ix);
  lo_bound : ∀ j, j < length ix → ix !!! j < size
}.

(** The same buffers at rest: the last pointer is the index count. *)
Definition level_closed (size : nat) (p ix : list nat) : Prop :=
  level_open size p ix ∧ p !!! (length p - 1) = length ix.

(** The number of completed nodes at depth [d] of the storage tree: the
    closed segments of a dimension, or the stored values below the last
    dimension. *)
Definition units {V} (t : SparseTensorStorage V) (d : nat) : nat :=
  if d <? getRank t then length (pointers t !!! d) - 1 else length (values t).

(** Every dimension from [d] on is compressed, at rest, has one node
    per index of its parent, and at least as many indices as its
    parent. *)
Definition levels_from {V} (t : SparseTensorStorage V) (d : nat) : Prop :=
  ∀ d', d ≤ d' → d' < getRank t →
    level_closed (sizes t !!! d') (pointers t !!! d') (indices t !!! d')
    ∧ units t (S d') = length (indices t !!! d')
    ∧ (S d' < getRank t →
       length (indices t !!! d') ≤ length (indices t !!! S d')).

(** [t'] differs from [t] only in the buffers of the dimensions from
    [d] on and in the values. *)
Definition same_below {V} (d : nat) (t t' : SparseTensorStorage V) : Prop :=
  sizes t' = sizes t ∧ rev t' = rev t ∧ idx t' = idx t
  ∧ length (pointers t') = length (pointers t)
  ∧ length (indices t') = length (indices t)
  ∧ ∀ d', d' < d → pointers t' !!! d' = pointers t !!! d'
                   ∧ indices t' !!! d' = indices t !!! d'.

Section ElementSpec.
Context {V : Type} (zero : V).

#[local] Hint Extern 0 (Inhabited V) =>
  exact (value_inhabited zero) : typeclass_instances.
#[local] Hint Extern 0 (Inhabited (Element V)) =>
  exact (element_inhabited zero) : typeclass_instances.

(** The precondition of [fromCOO] on the elements of [lo, hi) at
    dimension [d]: they have [rank] coordinates within [szs], agree on
    their first [d] coordinates, and no element is [lexOrder]-before an
    earlier one. *)
Record coo_segment (rank : nat) (szs : list nat) (els : list (Element V))
    (lo hi d : nat) : Prop := mkCooSegment {
  cs_range : lo ≤ hi ∧ hi ≤ length els;
  cs_rank : ∀ a, lo ≤ a → a < hi → length (e_indices (els !!! a)) = rank;
  cs_bound : ∀ a r, lo ≤ a → a < hi → r < rank →
             e_indices (els !!! a) !!! r < szs !!! r;
  cs_prefix : ∀ a r, lo ≤ a → a < hi → r < d →
              e_indices (els !!! a) !!! r = e_indices (els !!! lo) !!! r;
  cs_sorted : ∀ a b, lo ≤ a → a ≤ b → b < hi →
              lexOrder (els !!! b) (els !!! a) = false
}.

End ElementSpec.

(** The state of [fromCOO] at dimension [d] between two iterations of
    its [while] loop. *)
Definition loop_state {V} (d : nat) (t : SparseTensorStorage V) : Prop :=
  length (pointers t) = getRank t ∧ length (indices t) = getRank t
  ∧ level_open (sizes t !!! d) (pointers t !!! d) (indices t !!! d)
  ∧ levels_from t (S d)
  ∧ units t (S d) = length (indices t !!! d)
  ∧ (S d < getRank t →
     length (indices t !!! d) ≤ length (indices t !!! S d)).

(** The elements at the positions [lo, hi). *)
Definition segment {A} (lo hi : nat) (l : list A) : list A :=
  take (hi - lo) (drop lo l).

(** The first element of every run of consecutive elements with equal
    coordinates; [heads_after prev] skips a leading run at [prev]. *)
Fixpoint heads_after {V} (prev : list nat) (l : list (Element V))
    : list (Element V) :=
  match l with
  | [] => []
  | e :: l' =>
      if decide (e_indices e = prev) then heads_after prev l'
      else e :: heads_after (e_indices e) l'
  end.

Definition run_heads {V} (l : list (Element V)) : list (Element V) :=
  match l with
  | [] => []
  | e :: l' => e :: heads_after (e_indices e) l'
  end.

(** What one call [fromCOO(elements, lo, hi, d)] with [k = rank - d]
    achieves. *)
Definition fromCOO_post {V} (els : list (Element V)) (k d lo hi : nat)
    (t t' : SparseTensorStorage V) : Prop :=
  levels_from t' d
  ∧ units t' d = units t d + 1
  ∧ (0 < k → lo < hi →
     length (indices t !!! d) < length (indices t' !!! d))
  ∧ same_below d t t'
  ∧ values t' = values t ++ (e_value <$> run_heads (segment lo hi els)).

(** The product of the extents, without wrap-around. *)
Definition extent_product (szs : list nat) : Z :=
  foldr (λ s acc, (Z.of_nat s * acc)%Z) 1%Z szs.

(** A storage whose dimensions are all compressed and at rest, as
    [fromCOO] leaves it. *)
Definition compressed_tree {V} (t : SparseTensorStorage V) : Prop :=
  0 < getRank t
  ∧ length (pointers t) = getRank t ∧ length (indices t) = getRank t
  ∧ levels_from t 0
  ∧ length (pointers t !!! 0) = 2.

(** The invariant of the dimension loop of [verify] on such a storage,
    before dimension [dim]. *)
Definition verify_inv {V} (t : SparseTensorStorage V) (dim : nat)
    (a : verify_state) : Prop :=
  rv a = true
  ∧ cum_size a = extent_product (take dim (sizes t))
  ∧ (dim = 0 → is_dense a = true ∧ prev_ptr_len a = 0 ∧ prev_idx_len a = 0)
  ∧ (0 < dim →
     is_dense a = false
     ∧ prev_ptr_len a = length (pointers t !!! (dim - 1))
     ∧ prev_idx_len a = length (indices t !!! (dim - 1))
     ∧ (Z.of_nat (length (indices t !!! (dim - 1)%nat)) ≤ cum_size a)%Z).

(** The elements that [convertToMLIRSparseTensor] reads from the flat
    [nse x rank] index array and the value array, from row [i] on. *)
Definition coo_rows {V} (zero : V) (rank : nat) (vals : list V)
    (inds : list nat) (i n : nat) : list (Element V) :=
  (λ j, mkElement ((λ r, inds !!! (j * rank + r)) <$> seq 0 rank)
                  (@lookup_total _ _ _ (@list_lookup_total _
                     (value_inhabited zero)) j vals))
  <$> seq i n.

(** What the standard promises of [std::sort] with [lexOrder]. *)
Definition sorts_by_lexOrder {V}
    (sort : list (Element V) → list (Element V)) : Prop :=
  ∀ rank l,
    Forall (λ e, length (e_indices e) = rank) l →
    sort l ≡ₚ l
    ∧ StronglySorted (λ e1 e2, lexOrder e2 e1 = false) (sort l).

(** ** Matrix multiplication *)

(** The semiring blocks of [MatrixMultiplyGenericOp]: the additive
    identity, the additive combine and the multiplicative combine.  The
    multiply block is handed the two values, the row, the column and
    the contracted position, and uses as many of them as it has
    arguments. *)
Record ExtensionBlocks (V : Type) := mkExtensionBlocks {
  addIdentity : V;
  add : V → V → V;
  mult : V → V → nat → nat → nat → V
}.
Arguments addIdentity {V} _.
Arguments add {V} _ _ _.
Arguments mult {V} _ _ _ _ _ _.

Section MatrixMultiply.
Context {V W : Type} (zero : V) (extBlocks : ExtensionBlocks V).
Implicit Types (Aj Bp Bi Cj : list nat) (Ax Bx Cx : list V).

#[local] Hint Extern 0 (Inhabited V) =>
  exact (value_inhabited zero) : typeclass_instances.

(** The column visited at position [mm] of the iteration range: the
    entry of the mask's index buffer there, or [mm] itself when there
    is no mask. *)
Definition iteration_column (maskIndices : option (list nat)) (mm : nat)
    : nat :=
  match maskIndices with
  | Some Mj => Mj !!! mm
  | None => mm
  end.

(** Modelled from the spec: [buildMaskComplement] (GraphBLASUtils, not
    under src/) walks 0..ncols and emits every column index not present
    in the mask row, producing a temporary coordinate buffer and its
    length. *)
Definition buildMaskComplement (ncol : nat) (Mj : list nat)
    (mcolStart mcolEnd : nat) : list nat * nat :=
  let maskRow := (λ mm, Mj !!! mm) <$> seq mcolStart (mcolEnd - mcolStart) in
  let maskComplement := filter (λ col, col ∉ maskRow) (seq 0 ncol) in
  (maskComplement, length maskComplement).

(** [kvec_i1[kk]]: whether the scratch marks position [kk]; nothing is
    marked outside the scratch. *)
Definition marked (kvec_i1 : list bool) (kk : nat) : bool :=
  default false (kvec_i1 !! kk).

(** Modelled from the spec: the dense scratch of a row of [A], as the
    fused multiply-reduce lowering builds it: [kvec_i1] marks the
    positions the row stores and [kvec] holds their values. *)
Definition scatter_row (nk : nat) Aj Ax (colStart colEnd : nat)
    : list bool * list V :=
  fold_left (λ (kv : list bool * list V) jj,
               let col := Aj !!! jj in
               (<[col := true]> kv.1, <[col := Ax !!! jj]> kv.2))
            (seq colStart (colEnd - colStart))
            (replicate nk false, replicate nk zero).

(** The marks alone, for the count pass. *)
Definition mark_row (nk : nat) Aj (colStart colEnd : nat) : list bool :=
  fold_left (λ kvec_i1 jj, <[Aj !!! jj := true]> kvec_i1)
            (seq colStart (colEnd - colStart)) (replicate nk false).

(** Modelled from the spec: [computeNumOverlaps] (GraphBLASUtils, not
    under src/) counts, among the columns of the iteration range (the
    mask row, its complement, or all columns), those whose column of
    [B] shares a stored position with the row of [A] marked in the
    scratch. *)
Definition computeNumOverlaps (nk : nat) Aj (colStart colEnd : nat) Bp Bi
    (maskIndices : option (list nat)) (maskStart maskEnd : nat) : nat :=
  let kvec_i1 := mark_row nk Aj colStart colEnd in
  fold_left
    (λ total mm,
       let col := iteration_column maskIndices mm in
       let overlap :=
         fold_left (λ found ii, found || marked kvec_i1 (Bi !!! ii))
                   (seq (Bp !!! col) (Bp !!! (col + 1) - Bp !!! col))
                   false in
       if overlap then total + 1 else total)
    (seq maskStart (maskEnd - maskStart)) 0.

(** The loop over one column of [B]: starting from the additive
    identity, every position the row of [A] stores as well contributes
    its product; the flag says whether there was one. *)
Definition column_product (row col : nat) (kvec_i1 : list bool)
    (kvec : list V) Bp Bi Bx (swapMultOps : bool) : V * bool :=
  fold_left
    (λ (acc : V * bool) ii,
       let kk := Bi !!! ii in
       if marked kvec_i1 kk
       then let aVal := kvec !!! kk in
            let bVal := Bx !!! ii in
            let multResult :=
              if swapMultOps then mult extBlocks bVal aVal row col kk
              else mult extBlocks aVal bVal row col kk in
            (add extBlocks acc.1 multResult, true)
       else acc)
    (seq (Bp !!! col) (Bp !!! (col + 1) - Bp !!! col))
    (addIdentity extBlocks, false).

(** Modelled from the spec: [computeInnerProduct] (GraphBLASUtils, not
    under src/) recomputes the inner products of a row with the columns
    of the iteration range, merging repeated contributions with the
    additive combine, and writes the columns that have one, with their
    values, into the row's slice of [Cj] and [Cx] from [baseIndex]
    on. *)
Definition computeInnerProduct (nk row : nat) Aj Ax (colStart colEnd : nat)
    Bp Bi Bx (maskIndices : option (list nat)) (maskStart maskEnd : nat)
    Cj Cx (baseIndex : nat) (swapMultOps : bool) : list nat * list V :=
  let kv := scatter_row nk Aj Ax colStart colEnd in
  let st :=
    fold_left
      (λ (st : nat * list nat * list V) mm,
         let col := iteration_column maskIndices mm in
         let total := column_product row col kv.1 kv.2 Bp Bi Bx swapMultOps in
         if total.2
         then (st.1.1 + 1,
               <[baseIndex + st.1.1 := col]> st.1.2,
               <[baseIndex + st.1.1 := total.1]> st.2)
         else st)
      (seq maskStart (maskEnd - maskStart)) (0, Cj, Cx) in
  (st.1.2, st.2).

(** The iteration range of a row: the mask's row, the complement built
    from it, or all the columns. *)
Definition iteration_range (mask : option (SparseTensorStorage W))
    (isMaskComplement : bool) (ncol row : nat)
    : option (list nat) * nat * nat :=
  match mask with
  | Some M =>
      let Mp := pointers M !!! 1 in
      let Mj := indices M !!! 1 in
      let mcolStart := Mp !!! row in
      let mcolEnd := Mp !!! (row + 1) in
      if isMaskComplement
      then let mcResult := buildMaskComplement ncol Mj mcolStart mcolEnd in
           (Some mcResult.1, 0, mcResult.2)
      else (Some Mj, mcolStart, mcolEnd)
  | None => (None, 0, ncol)
  end.

(** [rewriteMatrixMatrixMultiplication]: [A] is CSR, [B] is CSC and the
    mask, if there is one, is CSR. *)
Definition rewriteMatrixMatrixMultiplication (A B : SparseTensorStorage V)
    (mask : option (SparseTensorStorage W)) (isMaskComplement : bool)
    : SparseTensorStorage V :=
  let nrow := num_rows CSR A in
  let ncol := num_cols CSC B in
  let nk := num_cols CSR A in
  let C := empty_like A in
  let C := resize_dim 0 nrow C in
  let C := resize_dim 1 ncol C in
  let C := resize_pointers 1 (nrow + 1) C in
  let Ap := pointers A !!! 1 in
  let Aj := indices A !!! 1 in
  let Ax := values A in
  let Bp := pointers B !!! 1 in
  let Bi := indices B !!! 1 in
  let Bx := values B in
  let Cp := pointers C !!! 1 in
  (* 1st pass *)
  let Cp :=
    fold_left
      (λ Cp row,
         let colStart := Ap !!! row in
         let colEnd := Ap !!! (row + 1) in
         let rowTotal :=
           if colStart =? colEnd then 0
           else let range := iteration_range mask isMaskComplement ncol row in
                computeNumOverlaps nk Aj colStart colEnd Bp Bi
                                   range.1.1 range.1.2 range.2 in
         <[row := rowTotal]> Cp)
      (seq 0 nrow) Cp in
  (* 2nd pass *)
  let Cp :=
    fold_left
      (λ Cp cs_i,
         let csTemp := Cp !!! cs_i in
         let cumsum := Cp !!! nrow in
         <[nrow := cumsum + csTemp]> (<[cs_i := cumsum]> Cp))
      (seq 0 nrow) Cp in
  let C := set_pointers (<[1 := Cp]> (pointers C)) C in
  let nnz := num_vals CSR C in
  let C := resize_index 1 nnz C in
  let C := resize_values zero nnz C in
  let Cj := indices C !!! 1 in
  let Cx := values C in
  (* 3rd pass *)
  let out :=
    fold_left
      (λ (out : list nat * list V) row,
         if Cp !!! row =? Cp !!! (row + 1) then out
         else let baseIndex := Cp !!! row in
              let colStart := Ap !!! row in
              let colEnd := Ap !!! (row + 1) in
              let range := iteration_range mask isMaskComplement ncol row in
              computeInnerProduct nk row Aj Ax colStart colEnd Bp Bi Bx
                                  range.1.1 range.1.2 range.2
                                  out.1 out.2 baseIndex false)
      (seq 0 nrow) (Cj, Cx) in
  set_values out.2 (set_indices (<[1 := out.1]> (indices C)) C).

End MatrixMultiply.

(** ** The multiplication op *)

Section MatrixMultiplyGeneric.
Context {V W : Type} (zero : V) (zeroW : W) (extBlocks : ExtensionBlocks V).

(** [MatrixMultiplyGenericDWIMFirstArgRewrite]: a column-ordered first
    operand is replaced by its conversion to the other layout. *)
Definition MatrixMultiplyGenericDWIMFirstArgRewrite (aType : TensorType)
    (A : SparseTensorStorage V) : SparseTensorStorage V :=
  if hasColumnOrdering aType
  then convert_layout zero aType (getFlippedLayoutType aType) A
  else A.

(** [MatrixMultiplyGenericDWIMSecondArgRewrite]: a row-ordered second
    operand is replaced by its conversion to the other layout. *)
Definition MatrixMultiplyGenericDWIMSecondArgRewrite (bType : TensorType)
    (B : SparseTensorStorage V) : SparseTensorStorage V :=
  if hasRowOrdering bType
  then convert_layout zero bType (getFlippedLayoutType bType) B
  else B.

(** [MatrixMultiplyGenericDWIMMaskRewrite]: a column-ordered mask is
    replaced by its conversion to the other layout. *)
Definition MatrixMultiplyGenericDWIMMaskRewrite (maskType : TensorType)
    (mask : option (SparseTensorStorage W))
    : option (SparseTensorStorage W) :=
  match mask with
  | Some M =>
      Some (if hasColumnOrdering maskType
            then convert_layout zeroW maskType
                   (getFlippedLayoutType maskType) M
            else M)
  | None => None
  end.

(** [LowerMatrixMultiplyGenericRewrite] on two matrices: the lowering
    runs once no operand needs a conversion; its result is CSR. *)
Definition LowerMatrixMultiplyGenericRewrite
    (aType bType maskType : TensorType) (A B : SparseTensorStorage V)
    (mask : option (SparseTensorStorage W)) (isMaskComplement : bool)
    : SparseTensorStorage V :=
  rewriteMatrixMatrixMultiplication zero extBlocks
    (MatrixMultiplyGenericDWIMFirstArgRewrite aType A)
    (MatrixMultiplyGenericDWIMSecondArgRewrite bType B)
    (MatrixMultiplyGenericDWIMMaskRewrite maskType mask)
    isMaskComplement.

End MatrixMultiplyGeneric.

(** Modelled from the spec: the blocks of the built-in semiring
    "plus_times" ([populateSemiring], GraphBLASUtils, not under src/):
    the additive identity is 0, the additive combine is + and the
    multiplicative combine is *. *)
Definition plus_times : ExtensionBlocks Z :=
  mkExtensionBlocks Z 0%Z Z.add (λ a b _ _ _, (a * b)%Z).

(** The operands of the test [matrix_multiply.mlir]: [a_csr], [b_csr]
    and [mask_csr]. *)
Definition a_csr : SparseTensorStorage Z :=
  mkStorage [2; 4] [0; 1] [] [[]; [0; 2; 3]] [[]; [1; 2; 3]] [1; 2; 3]%Z.
Definition b_csr : SparseTensorStorage Z :=
  mkStorage [4; 2] [0; 1] [] [[]; [0; 1; 2; 3; 5]] [[]; [1; 0; 0; 0; 1]]
            [7; 4; 5; 6; 8]%Z.
Definition mask_csr : SparseTensorStorage Z :=
  mkStorage [2; 2] [0; 1] [] [[]; [0; 1; 2]] [[]; [0; 1]] [9; 8]%Z.

(** ** Products (specification) *)

(** The positions a matrix stores, as (row, column). *)
Definition storage_coordinates (nouter : nat) (ptrs inds : list nat)
    : list (nat * nat) :=
  flat_map (λ o, (λ jj, (o, inds !!! jj))
                 <$> seq (ptrs !!! o) (ptrs !!! (o + 1) - ptrs !!! o))
           (seq 0 nouter).

Definition coordinates {W} (ty : TensorType) (t : SparseTensorStorage W)
    : list (nat * nat) :=
  (λ c, match ty_ordering ty with
        | RowMajor => c
        | ColumnMajor => (c.2, c.1)
        end)
  <$> storage_coordinates (sizes t !!! 0) (pointers t !!! 1) (indices t !!! 1).

(** Within every segment the indices increase strictly, as [verify]
    demands. *)
Definition segments_increasing {W} (t : SparseTensorStorage W) : Prop :=
  ∀ o p q, o < sizes t !!! 0 →
    (pointers t !!! 1) !!! o ≤ p → p < q → q < (pointers t !!! 1) !!! (o + 1) →
    (indices t !!! 1) !!! p < (indices t !!! 1) !!! q.

(** Writing a list of (index, value) pairs into consecutive positions
    of the two output buffers. *)
Fixpoint write_slice {V} (s : nat) (l : list (nat * V))
    (out : list nat * list V) : list nat * list V :=
  match l with
  | [] => out
  | x :: l' => write_slice (S s) l' (<[s := x.1]> out.1, <[s := x.2]> out.2)
  end.

Section ProductSpec.
Context {V W : Type} (zero : V) (extBlocks : ExtensionBlocks V).

#[local] Hint Extern 0 (Inhabited V) =>
  exact (value_inhabited zero) : typeclass_instances.

(** The value a matrix stores at row [i] and column [j], if any. *)
Definition stored_at (ty : TensorType) (t : SparseTensorStorage V)
    (i j : nat) : option V :=
  let o := if hasRowOrdering ty then i else j in
  let c := if hasRowOrdering ty then j else i in
  let ptrs := pointers t !!! 1 in
  if decide (o < sizes t !!! 0)
  then (λ jj, values t !!! jj)
       <$> find (λ jj, (indices t !!! 1) !!! jj =? c)
                (seq (ptrs !!! o) (ptrs !!! (o + 1) - ptrs !!! o))
  else None.

(** The additive combine, from the additive identity, of the products
    of the positions [k] that the row [i] of [A] and the column [j] of
    [B] both store, in increasing order of [k]. *)
Definition semiring_sum (aType bType : TensorType)
    (A B : SparseTensorStorage V) (i j : nat) : V :=
  fold_left
    (λ acc k,
       match stored_at aType A i k, stored_at bType B k j with
       | Some a, Some b => add extBlocks acc (mult extBlocks a b i j k)
       | _, _ => acc
       end)
    (seq 0 (num_cols aType A)) (addIdentity extBlocks).

(** The columns of an iteration range, in the order of the visit. *)
Definition range_columns (range : option (list nat) * nat * nat)
    : list nat :=
  iteration_column range.1.1 <$> seq range.1.2 (range.2 - range.1.2).

(** What the fill pass computes for a row: the columns of the visit
    that share a position with the row, each with its inner product. *)
Definition product_row (A B : SparseTensorStorage V) (row : nat)
    (cols : list nat) : list (nat * V) :=
  let Ap := pointers A !!! 1 in
  let kv := scatter_row zero (num_cols CSR A) (indices A !!! 1) (values A)
                        (Ap !!! row) (Ap !!! (row + 1)) in
  flat_map
    (λ col,
       let total := column_product zero extBlocks row col kv.1 kv.2
                      (pointers B !!! 1) (indices B !!! 1) (values B) false in
       if total.2 then [(col, total.1)] else [])
    cols.

(** The entries of the product, row after row. *)
Definition product_entries (A B : SparseTensorStorage V)
    (mask : option (SparseTensorStorage W)) (isMaskComplement : bool)
    : list (nat * nat * V) :=
  flat_map
    (λ row, (λ x, (row, x.1, x.2))
            <$> product_row A B row
                  (range_columns
                     (iteration_range mask isMaskComplement
                        (num_cols CSC B) row)))
    (seq 0 (num_rows CSR A)).

End ProductSpec.

(** ** Selection *)

Section Select.
Context {V : Type} (zero : V).

#[local] Hint Extern 0 (Inhabited V) =>
  exact (value_inhabited zero) : typeclass_instances.

(** The callback of [buildAlgorithm]: the code it injects computes
    [keep] from the value, the row and the column. *)
Variable func : V → nat → nat → bool.

(** The call of the callback: [(val, col, col)] for a vector,
    [(val, col, row)] for a column-wise and [(val, row, col)] for a
    row-wise matrix. *)
Definition select_keep (rank : nat) (colWise : bool) (row col : nat)
    (val : V) : bool :=
  if rank =? 1 then func val col col
  else if colWise then func val col row
  else func val row col.

(** The body of the inner loop of [buildAlgorithm]: the entry at
    position [jj] of the input is appended to the row of the output if
    the callback keeps it. *)
Definition select_entry (rank : nat) (colWise : bool) (Aj : list nat)
    (Ax : list V) (row jj : nat) (st : list nat * list nat * list V)
    : list nat * list nat * list V :=
  let col := Aj !!! jj in
  let val := Ax !!! jj in
  let keep := select_keep rank colWise row col val in
  if keep then
    let bj_pos := st.1.1 !!! (row + 1) in
    (<[row + 1 := bj_pos + 1]> st.1.1,
     <[bj_pos := col]> st.1.2,
     <[bj_pos := val]> st.2)
  else st.

(** The outer loop: the pointer of the next row starts at the count
    reached so far. *)
Definition select_rows (rank : nat) (colWise : bool) (nrow : nat)
    (Ap Aj : list nat) (Ax : list V) (st : list nat * list nat * list V)
    : list nat * list nat * list V :=
  fold_left
    (λ st row,
       let bp_curr_count := st.1.1 !!! row in
       fold_left (λ st jj, select_entry rank colWise Aj Ax row jj st)
                 (seq (Ap !!! row) (Ap !!! (row + 1) - Ap !!! row))
                 (<[row + 1 := bp_curr_count]> st.1.1, st.1.2, st.2))
    (seq 0 nrow) st.

(** [LowerSelectRewrite::buildAlgorithm]: the output starts as a copy of
    the input, is compacted in place and trimmed to the entries kept. *)
Definition buildAlgorithm (inputType : TensorType)
    (input : SparseTensorStorage V) : SparseTensorStorage V :=
  let rank := ty_rank inputType in
  let nrow := if rank =? 2 then num_rows inputType input else 1 in
  let indexPos := if rank =? 2 then 1 else 0 in
  let Ap := pointers input !!! indexPos in
  let Aj := indices input !!! indexPos in
  let Ax := values input in
  let output := dup input in
  let colWise := if rank =? 2 then hasColumnOrdering inputType else false in
  let Bp := pointers output !!! indexPos in
  let Bj := indices output !!! indexPos in
  let Bx := values output in
  let st := select_rows rank colWise nrow Ap Aj Ax (Bp, Bj, Bx) in
  let output :=
    set_values st.2
      (set_indices (<[indexPos := st.1.2]> (indices output))
         (set_pointers (<[indexPos := st.1.1]> (pointers output)) output)) in
  let nnz := num_vals inputType output in
  resize_values zero nnz (resize_index indexPos nnz output).

(** The entries of a segment that the callback keeps, as (index,
    value) pairs in storage order (specification). *)
Definition kept_row (rank : nat) (colWise : bool) (Ap Aj : list nat)
    (Ax : list V) (row : nat) : list (nat * V) :=
  filter (λ x, select_keep rank colWise row x.1 x.2 = true)
         ((λ jj, (Aj !!! jj, Ax !!! jj))
          <$> seq (Ap !!! row) (Ap !!! (row + 1) - Ap !!! row)).

End Select.

(** [LowerSelectGenericRewrite]: [buildAlgorithm] with the [select_out]
    block of the op as callback; a block with fewer than three
    arguments ignores the trailing ones. *)
Definition LowerSelectGenericRewrite {V} (zero : V)
    (selectOut : V → nat → nat → bool) (inputType : TensorType)
    (input : SparseTensorStorage V) : SparseTensorStorage V :=
  buildAlgorithm zero selectOut inputType input.

(** ** Transposition *)

(** [TransposeDWIMRewrite::needsDWIM]: input and output have the same
    layout. *)
Definition needsDWIM (inputType outputType : TensorType) : bool :=
  bool_decide (hasRowOrdering inputType = hasRowOrdering outputType).

(** [LowerTransposeRewrite]: a copy of the input with [rev] reassigned,
    reinterpreted at the type with the other layout. *)
Definition LowerTransposeRewrite {V} (inputType : TensorType)
    (inputTensor : SparseTensorStorage V) : SparseTensorStorage V :=
  let inputTypeIsCSR := hasRowOrdering inputType in
  let output := dup inputTensor in
  if inputTypeIsCSR then assign_rev 1 0 (assign_rev 0 1 output)
  else assign_rev 1 1 (assign_rev 0 0 output).

(** [graphblas.transpose]: [TransposeDWIMRewrite] first converts the
    layout of the input when the op asks for the layout the input
    already has; the op it leaves is lowered by
    [LowerTransposeRewrite]. *)
Definition TransposeOp {V} (zero : V) (inputType outputType : TensorType)
    (inputTensor : SparseTensorStorage V) : SparseTensorStorage V :=
  if needsDWIM inputType outputType then
    let flippedInputType := getFlippedLayoutType inputType in
    let flippedInput :=
      convert_layout zero inputType flippedInputType inputTensor in
    LowerTransposeRewrite flippedInputType flippedInput
  else LowerTransposeRewrite inputType inputTensor.

(** ** Comparison *)

(** [arith.extsi] from [i1] to [i32] and [arith.trunci] from [i32] to
    [i1], with the 32-bit word as a signed number. *)
Definition extsi_i1 (b : bool) : Z := if b then (-1)%Z else 0%Z.
Definition trunci_i1 (z : Z) : bool := Z.odd z.

(** [LowerEqualRewrite]: compare the shapes, then the numbers of stored
    values, then the index and value buffers position by position, with
    an AND-reduction over 32-bit words that starts from 1.  [cmp] is
    the comparison of the element type ([arith.cmpi eq] or
    [arith.cmpf oeq]).  The reduction of the parallel loop is taken in
    index order. *)
Definition LowerEqualRewrite {V} (zero : V) (cmp : V → V → bool)
    (aType bType : TensorType) (A B : SparseTensorStorage V) : bool :=
  let rank := ty_rank aType in
  let dimIndex := if rank =? 2 then 1 else 0 in
  let cmpShape :=
    if rank =? 2
    then (num_rows aType A =? num_rows bType B)
         && (num_cols aType A =? num_cols bType B)
    else size_op aType A =? size_op bType B in
  if cmpShape then
    let aNnz := num_vals aType A in
    let bNnz := num_vals bType B in
    if aNnz =? bNnz then
      let Ai := indices A !!! dimIndex in
      let Bi := indices B !!! dimIndex in
      let Ax := values A in
      let Bx := values B in
      let result :=
        fold_left
          (λ lhs loopIdx,
             let cmpIndex := Ai !!! loopIdx =? Bi !!! loopIdx in
             let cmpValue :=
               cmp (@lookup_total _ _ _ (@list_lookup_total _
                      (value_inhabited zero)) loopIdx Ax)
                   (@lookup_total _ _ _ (@list_lookup_total _
                      (value_inhabited zero)) loopIdx Bx) in
             let cmpCombined := cmpIndex && cmpValue in
             Z.land lhs (extsi_i1 cmpCombined))
          (seq 0 aNnz) 1%Z in
      trunci_i1 result
    else false
  else false.

(** ** Reduction to a scalar *)

Section ReduceToScalar.
Context {V : Type} (zero : V).

#[local] Hint Extern 0 (Inhabited V) =>
  exact (value_inhabited zero) : typeclass_instances.

(** [LowerReduceToScalarRewrite::rewriteArgMinMax] on a sparse vector.
    [replace useMinimum currentValue currentExtremum] is the comparison
    that the element type selects: [slt] or [sgt] on integers, [OLT] or
    [OGT] on floats. *)
Definition rewriteArgMinMax (replace : bool → V → V → bool)
    (useMinimum : bool) (input : SparseTensorStorage V) : nat :=
  let pointers := pointers input !!! 0 in
  let endPosition := pointers !!! 1 in
  let values := values input in
  let initialExtremum := values !!! 0 in
  let loop :=
    fold_left
      (λ (iter : V * nat) currentValuePosition,
         let currentExtremum := iter.1 in
         let currentExtremumPosition := iter.2 in
         let currentValue := values !!! currentValuePosition in
         if replace useMinimum currentValue currentExtremum
         then (currentValue, currentValuePosition)
         else (currentExtremum, currentExtremumPosition))
      (seq 1 (endPosition - 1)) (initialExtremum, 0) in
  let finalExtremumPosition := loop.2 in
  let indices := indices input !!! 0 in
  indices !!! finalExtremumPosition.

(** [LowerReduceToScalarGenericRewrite]: the values are combined by the
    [agg] block, starting from the value of the [agg_identity] block.
    The reduction of the parallel loop is taken in index order. *)
Definition LowerReduceToScalarGenericRewrite (aggIdentity : V)
    (agg : V → V → V) (operandType : TensorType)
    (input : SparseTensorStorage V) : V :=
  let c0Accumulator := aggIdentity in
  let inputValues := values input in
  let nnz := num_vals operandType input in
  fold_left (λ lhs valueLoopIdx, agg lhs (inputValues !!! valueLoopIdx))
            (seq 0 nnz) c0Accumulator.

End ReduceToScalar.

(** The comparisons of [rewriteArgMinMax] on signed integers. *)
Definition cmpi_replace (useMinimum : bool) (currentValue currentExtremum : Z)
    : bool :=
  if useMinimum then (currentValue <? currentExtremum)%Z
  else (currentValue >? currentExtremum)%Z.

(** ** Coordinate lists *)

Section CoordinateLists.
Context {V : Type} (zero : V).

#[local] Hint Extern 0 (Inhabited V) =>
  exact (value_inhabited zero) : typeclass_instances.

(** [memref.store %x, %m[%i, %j]] on a two-dimensional buffer. *)
Definition store2 (i j x : nat) (m : list (list nat)) : list (list nat) :=
  <[i := <[j := x]> (m !!! i)]> m.

(** [LowerToCoordinatesRewrite].  The two buffers that [memref.alloc]
    returns have unspecified contents; they are the arguments
    [indices0] ([nvals] rows of [rank] entries) and [values0] ([nvals]
    entries). *)
Definition LowerToCoordinatesRewrite (inputType : TensorType)
    (input : SparseTensorStorage V) (indices0 : list (list nat))
    (values0 : list V) : list (list nat) * list V :=
  let rank := ty_rank inputType in
  let npointers := if rank =? 1 then 1 else num_rows inputType input in
  let dimIndex := if rank =? 1 then 0 else 1 in
  let Ip := pointers input !!! dimIndex in
  let Ii := indices input !!! dimIndex in
  let Ix := values input in
  fold_left
    (λ st row,
       fold_left
         (λ (st : list (list nat) * list V) jj,
            let col := Ii !!! jj in
            let val := Ix !!! jj in
            let st1 := if rank =? 2 then store2 jj 0 row st.1 else st.1 in
            (store2 jj dimIndex col st1, <[jj := val]> st.2))
         (seq (Ip !!! row) (Ip !!! (row + 1) - Ip !!! row)) st)
    (seq 0 npointers) (indices0, values0).

(** The limits of the vectors of the storage. *)
Variable lim : VectorLimits.

(** Modelled from the spec: [sparse_tensor.init] (its conversion to a
    runtime call is not under src/) is the storage construction contract
    [new_tensor(sizes, dim_order, compressed_flags)]: the runtime's
    [newSparseTensor] without a coordinate scheme, with the dimension
    order and the level types of the encoding. *)
Definition InitOp (resultType : TensorType) (sizes0 : list nat)
    : outcome (SparseTensorStorage V) :=
  let rank := ty_rank resultType in
  let perm := match ty_ordering resultType with
              | RowMajor => seq 0 rank
              | ColumnMajor => [1; 0]
              end in
  let sparsity := if rank =? 1 then [kCompressed] else [kDense; kCompressed] in
  newSparseTensor zero lim (λ els, els) rank sizes0 perm sparsity None.

(** The loop of [LowerFromCoordinatesRewrite] that counts the entries
    of every row and copies the indices and the values. *)
Definition populate_loop (rank dimIndex : nat) (indices0 : list (list nat))
    (values0 : list V) (nnz : nat) (st : list nat * list nat * list V)
    : list nat * list nat * list V :=
  fold_left
    (λ st pos,
       let Op :=
         if rank =? 2 then
           let row := (indices0 !!! pos) !!! 0 in
           let currRowCount := st.1.1 !!! row in
           <[row := currRowCount + 1]> st.1.1
         else st.1.1 in
       let idx := (indices0 !!! pos) !!! dimIndex in
       let val := values0 !!! pos in
       (Op, <[pos := idx]> st.1.2, <[pos := val]> st.2))
    (seq 0 nnz) st.

(** The cumulative sum over the row counts, with the running sum as
    loop-carried value. *)
Definition cumSumLoop (npointers : nat) (Op : list nat) : list nat :=
  (fold_left
     (λ (st : list nat * nat) pos,
        let base := st.2 in
        let numEntries := st.1 !!! pos in
        (<[pos := base]> st.1, base + numEntries))
     (seq 0 npointers) (Op, 0)).1.

(** [LowerFromCoordinatesRewrite]: [indices0] is the [nnz x rank] tensor
    of coordinates, [values0] the tensor of values and [sizes0] the
    shape.  The three resize calls take their sizes from the operands
    of the op, not from a storage that exists; each of them throws for
    a size above the limit of its vector. *)
Definition LowerFromCoordinatesRewrite (resultType : TensorType)
    (indices0 : list (list nat)) (values0 : list V) (sizes0 : list nat)
    : outcome (SparseTensorStorage V) :=
  let rank := ty_rank resultType in
  output ← InitOp resultType sizes0;
  let npointers := if rank =? 1 then 1 else sizes0 !!! 0 in
  let dimIndex := if rank =? 1 then 0 else 1 in
  let nnz := length indices0 in
  _ ← reserve (limit_P lim) (Z.of_nat (npointers + 1));
  _ ← reserve (limit_I lim) (Z.of_nat nnz);
  _ ← reserve (limit_V lim) (Z.of_nat nnz);
  let output :=
    resize_values zero nnz
      (resize_index dimIndex nnz
         (resize_pointers dimIndex (npointers + 1) output)) in
  let Op := pointers output !!! dimIndex in
  let Oi := indices output !!! dimIndex in
  let Ox := values output in
  let st := populate_loop rank dimIndex indices0 values0 nnz (Op, Oi, Ox) in
  let Op := if rank =? 2 then cumSumLoop npointers st.1.1 else st.1.1 in
  let Op := <[npointers := nnz]> Op in
  Done (set_values st.2
          (set_indices (<[dimIndex := st.1.2]> (indices output))
             (set_pointers (<[dimIndex := Op]> (pointers output)) output))).

End CoordinateLists.

(** ** Elementwise application *)

(** [LowerApplyGenericRewrite] for a [transform_out] block with one
    argument and a result of the type of the input (no cast is
    inserted): the fast path that loops over the values only.  The
    output starts as a copy of the input. *)
Definition LowerApplyGenericRewrite {V} (zero : V) (transformOut : V → V)
    (inputTensorType : TensorType) (inputTensor : SparseTensorStorage V)
    : SparseTensorStorage V :=
  let output := dup inputTensor in
  let inputValues := values inputTensor in
  let outputValues := values output in
  let nnz := num_vals inputTensorType inputTensor in
  let outputValues :=
    fold_left
      (λ outputValues valueLoopIdx,
         let val := @lookup_total _ _ _ (@list_lookup_total _
                      (value_inhabited zero)) valueLoopIdx inputValues in
         let result := transformOut val in
         <[valueLoopIdx := result]> outputValues)
      (seq 0 nnz) outputValues in
  set_values outputValues output.

(** ** Update *)

(** [LowerUpdateRewrite] without mask and without accumulator: a copy of
    the input exchanges its pointers, indices and values with the
    output and is released. *)
Definition LowerUpdateRewrite {V} (zero : V) (σ : store V)
    (input output : nat) : option (store V) :=
  '(σ, inputCopy) ← dup_tensor σ input;
  let σ := mutate zero inputCopy (SwapPointers output) σ in
  let σ := mutate zero inputCopy (SwapIndices output) σ in
  let σ := mutate zero inputCopy (SwapValues output) σ in
  Some (delete inputCopy σ).

(** ** Finishing an insertion sequence *)

(** [endInsert()] *)
Definition endInsert {V} (zero : V) (t : SparseTensorStorage V)
    : outcome (SparseTensorStorage V) :=
  match values t with
  | [] => Done (endDim zero 0 t)
  | _ :: _ => endPath zero 0 t
  end.

(** The strict lexicographic order of (row, column, value) triples by
    their coordinates (specification). *)
Definition entry_lt {V} (e1 e2 : nat * nat * V) : Prop :=
  e1.1.1 < e2.1.1 ∨ e1.1.1 = e2.1.1 ∧ e1.1.2 < e2.1.2.

(** A client that inserts the elements of a list of (row, column,
    value) triples one after the other with [lexInsert]
    (specification). *)
Definition lexInsert_all {V} (zero : V) (l : list (nat * nat * V))
    (t : SparseTensorStorage V) : outcome (SparseTensorStorage V) :=
  foldl (λ acc e, t ← acc; lexInsert zero [e.1.1; e.1.2] e.2 t) (Done t) l.

(* ================================================================== *)
(** * Theorems *)
(* ================================================================== *)

(** ** Properties of the integrity check *)


Section VerifyShape.
Context {V : Type}.
Implicit Types (t : SparseTensorStorage V) (a : verify_state).

Lemma verify_dim_zero_extent t dim a :
  sizes t !!! dim = 0 → verify_dim t dim a = None.
Proof. intros Hz. unfold verify_dim. by rewrite Hz. Qed.

(** Once the loop is about to visit a dimension of extent zero, it
    leaves through the early return. *)
Lemma verify_dims_zero_extent t n dim d a :
  dim ≤ d → d < dim + n → sizes t !!! d = 0 →
  verify_dims t n dim a = None.
Proof.
  revert dim a. induction n as [|n IH]; intros dim a Hle Hlt Hz; [lia|].
  simpl. destruct (decide (d = dim)) as [->|Hne].
  - by rewrite verify_dim_zero_extent.
  - destruct (verify_dim t dim a) as [a'|]; [|done].
    apply IH; [lia|lia|done].
Qed.

(** C9: [verify] rejects every tensor of rank 0 and every tensor with a
    dimension of extent 0, whatever its pointer, index and value
    buffers hold. *)
Theorem verify_rejects_empty_shape t :
  getRank t = 0 ∨ (∃ d, d < getRank t ∧ sizes t !!! d = 0) →
  verify t = false.
Proof.
  intros [Hr|(d & Hd & Hz)]; unfold verify.
  - by rewrite Hr.
  - destruct (getRank t =? 0); [done|].
    repeat (case_match; [done|]).
    by rewrite (verify_dims_zero_extent t (getRank t) 0 d) by (done || lia).
Qed.
End VerifyShape.

(** A rank-2 tensor with a column extent of zero and otherwise
  consistent buffers. *)
Lemma verify_rejects_empty_shape_witness :
verify (mkStorage [3; 0] [0; 1] [0; 0] [[]; [0; 0; 0; 0]] [[]; []]
                  ([] : list Z)) = false.
Proof.
apply verify_rejects_empty_shape. right. exists 1. split; [unfold getRank; simpl; lia|reflexivity].
Defined.

(** ** Lexicographic insertion *)

Section LexInsert.
Context {V : Type} (zero : V).
Implicit Types (t : SparseTensorStorage V) (cursor : list nat).

#[local] Abbreviation endDim := (endDim zero).
#[local] Abbreviation endPath := (endPath zero).
#[local] Abbreviation insPath := (insPath zero).
#[local] Abbreviation lexInsert := (lexInsert zero).

Lemma drop_lookup_total_cons (l : list nat) r :
  r < length l → drop r l = l !!! r :: drop (S r) l.
Proof.
  intros Hr. apply drop_S. by apply list_lookup_lookup_total_lt.
Qed.

(** [lexDiff] returns the first dimension where the cursor is ahead. *)
Lemma lexDiff_loop_ahead cursor ix n r :
  length cursor = r + n → length ix = r + n →
  lex_lt (drop r ix) (drop r cursor) →
  ∃ r', lexDiff_loop cursor ix n r = Done r' ∧ r ≤ r' < r + n
        ∧ (∀ j, r ≤ j < r' → cursor !!! j = ix !!! j)
        ∧ ix !!! r' < cursor !!! r'.
Proof.
  revert r. induction n as [|n IH]; intros r Hc Hi Hlt.
  - rewrite !drop_ge in Hlt by lia. inversion Hlt.
  - rewrite (drop_lookup_total_cons ix), (drop_lookup_total_cons cursor)
      in Hlt by lia.
    simpl. destruct (Nat.ltb_spec (ix !!! r) (cursor !!! r)) as [Hlt1|Hge].
    + exists r. split_and!; [done|lia|lia| |done]. intros j ?; lia.
    + assert (cursor !!! r = ix !!! r
              ∧ lex_lt (drop (S r) ix) (drop (S r) cursor)) as [Heq1 Hab].
      { inversion Hlt; [lia|]. split; congruence. }
      rewrite Heq1, Nat.eqb_refl.
      destruct (IH (S r)) as (r' & Hr' & Hrange & Heq & Hlt');
        [lia|lia|done|].
      exists r'. split_and!; [done|lia|lia| |done].
      intros j Hj. destruct (decide (j = r)) as [->|]; [congruence|].
      apply Heq; lia.
Qed.

(** A cursor that is not ahead runs into one of the two assertions. *)
Lemma lexDiff_loop_not_ahead cursor ix n r :
  length cursor = r + n → length ix = r + n →
  lex_le (drop r cursor) (drop r ix) →
  lexDiff_loop cursor ix n r = AssertionFailure "duplication insertion"
  ∨ lexDiff_loop cursor ix n r
    = AssertionFailure "non-lexicographic insertion".
Proof.
  revert r. induction n as [|n IH]; intros r Hc Hi Hle; [by left|].
  simpl.
  assert (lex_le (cursor !!! r :: drop (S r) cursor)
                 (ix !!! r :: drop (S r) ix)) as Hle'.
  { by rewrite <- !drop_lookup_total_cons by lia. }
  assert (cursor !!! r < ix !!! r
          ∨ cursor !!! r = ix !!! r
            ∧ lex_le (drop (S r) cursor) (drop (S r) ix)) as [Hlt|[Heq Htl]].
  { destruct Hle' as [Heq|Hlt].
    - injection Heq as Hhd Htl. right. split; [done|by left].
    - inversion Hlt; [by left|]. right. split; [congruence|by right]. }
  - right. destruct (Nat.ltb_spec (ix !!! r) (cursor !!! r)); [lia|].
    destruct (Nat.eqb_spec (cursor !!! r) (ix !!! r)); [lia|done].
  - rewrite Heq, Nat.ltb_irrefl, Nat.eqb_refl. apply IH; [lia|lia|done].
Qed.

(** Whenever [lexDiff] returns, the cursor agrees with [idx] before the
    returned dimension. *)
Lemma lexDiff_loop_done cursor ix n r diff :
  lexDiff_loop cursor ix n r = Done diff →
  r ≤ diff < r + n ∧ ∀ j, r ≤ j < diff → cursor !!! j = ix !!! j.
Proof.
  revert r. induction n as [|n IH]; intros r; simpl; [done|].
  destruct (Nat.ltb_spec (ix !!! r) (cursor !!! r)).
  - intros [= ->]. split; [lia|]. intros j ?; lia.
  - destruct (Nat.eqb_spec (cursor !!! r) (ix !!! r)); [|done].
    intros Hrec. destruct (IH (S r) Hrec) as [? Hj].
    split; [lia|]. intros j ?.
    destruct (decide (j = r)) as [->|]; [done|]. apply Hj. lia.
Qed.

Lemma same_frame_refl t : same_frame t t.
Proof. done. Qed.

Lemma same_frame_trans t1 t2 t3 :
  same_frame t1 t2 → same_frame t2 t3 → same_frame t1 t3.
Proof. intros [? ?] [? ?]. split; congruence. Qed.

Lemma same_frame_iter (f : SparseTensorStorage V → SparseTensorStorage V) n t :
  (∀ t0, same_frame t0 (f t0)) → same_frame t (Nat.iter n f t).
Proof.
  intros Hf. induction n as [|n IH]; simpl; [done|].
  eapply same_frame_trans; [apply IH|apply Hf].
Qed.

Lemma endDim_rec_frame k d t : same_frame t (endDim_rec zero k d t).
Proof.
  revert d t. induction k as [|k IH]; intros d t; simpl; [done|].
  destruct (isCompressedDim t d); [done|].
  apply same_frame_iter. intros t0. apply IH.
Qed.

Lemma endDim_frame d t : same_frame t (endDim d t).
Proof. apply endDim_rec_frame. Qed.

Lemma endPath_loop_frame n i t : same_frame t (endPath_loop zero n i t).
Proof.
  revert i t. induction n as [|n IH]; intros i t; simpl; [done|].
  eapply same_frame_trans; [|apply IH].
  destruct (isCompressedDim t _); [done|].
  apply same_frame_iter. intros t0. apply endDim_frame.
Qed.

(** [insPath] copies the cursor into [idx] from [diff] on. *)
Lemma insPath_loop_idx cursor n d top t :
  d + n ≤ length (idx t) →
  let t' := insPath_loop zero cursor n d top t in
  sizes t' = sizes t ∧ length (idx t') = length (idx t)
  ∧ (∀ j, j < d → idx t' !!! j = idx t !!! j)
  ∧ (∀ j, d ≤ j < d + n → idx t' !!! j = cursor !!! j).
Proof.
  revert d top t. induction n as [|n IH]; intros d top t Hlen; simpl.
  - split_and!; [done..|]. intros j ?; lia.
  - set (t1 := if isCompressedDim t d then push_index d (cursor !!! d) t
               else Nat.iter (cursor !!! d - top) (endDim (S d)) t).
    assert (same_frame t t1) as [Hsz Hidx].
    { unfold t1. destruct (isCompressedDim t d); [done|].
      apply same_frame_iter. intros t0. apply endDim_frame. }
    set (t2 := set_idx (<[d:=cursor !!! d]> (idx t1)) t1).
    destruct (IH (S d) 0 t2) as (Hs & Hl & Hlow & Hhigh).
    { unfold t2. simpl. rewrite length_insert, Hidx. lia. }
    change (sizes t2) with (sizes t1) in Hs.
    change (idx t2) with (<[d:=cursor !!! d]> (idx t1)) in Hl, Hlow.
    rewrite length_insert in Hl.
    split_and!.
    + congruence.
    + congruence.
    + intros j Hj. rewrite Hlow by lia.
      rewrite list_lookup_total_insert_ne by lia. by rewrite Hidx.
    + intros j Hj. destruct (decide (j = d)) as [->|].
      * rewrite Hlow by lia.
        rewrite list_lookup_total_insert_eq; [done|]. rewrite Hidx. lia.
      * apply Hhigh. lia.
Qed.

Lemma list_eq_lookup_total (l1 l2 : list nat) :
  length l1 = length l2 →
  (∀ j, j < length l1 → l1 !!! j = l2 !!! j) → l1 = l2.
Proof.
  intros Hlen Hj. apply (list_eq_same_length _ _ (length l1)); [done..|].
  intros i x y Hi Hx Hy.
  apply list_lookup_total_correct in Hx, Hy. rewrite <- Hx, <- Hy. auto.
Qed.

(** After a successful [lexInsert], [idx] holds the cursor just
    inserted: [idx] is the previous insertion cursor. *)
Lemma lexInsert_records_cursor cursor val t t' :
  length (idx t) = getRank t → length cursor = getRank t →
  lexInsert cursor val t = Done t' →
  idx t' = cursor ∧ getRank t' = getRank t ∧ values t' ≠ [].
Proof.
  intros Hidx Hcur. unfold lexInsert.
  destruct (values t) as [|v0 vs] eqn:Hvals.
  - unfold insPath.
    destruct (0 <? getRank t) eqn:Hrank; simpl; [|done].
    intros [= <-].
    destruct (insPath_loop_idx cursor (getRank t - 0) 0 0 t)
      as (Hs & Hl & _ & Hhigh); [lia|].
    simpl. split_and!.
    + apply list_eq_lookup_total; [congruence|].
      intros j Hj. apply Hhigh. lia.
    + unfold getRank in *. simpl. congruence.
    + intros Hnil. by apply app_nil in Hnil as [_ [=]].
  - unfold lexDiff.
    destruct (lexDiff_loop cursor (idx t) (getRank t) 0) as [diff|msg|] eqn:Hd;
      simpl; [|done..].
    assert (diff < getRank t ∧ ∀ j, j < diff → cursor !!! j = idx t !!! j)
      as [Hdiff Hpre].
    { destruct (lexDiff_loop_done _ _ _ _ _ Hd) as [? Hj].
      split; [lia|]. intros j ?. apply Hj. lia. }
    unfold endPath. destruct (Nat.ltb_spec (getRank t) (diff + 1)); [lia|].
    simpl.
    set (t1 := endPath_loop zero (getRank t - (diff + 1)) 0 t).
    destruct (endPath_loop_frame (getRank t - (diff + 1)) 0 t) as [Hs1 Hi1].
    fold t1 in Hs1, Hi1.
    unfold insPath. assert (getRank t1 = getRank t) as Hr1
      by (unfold getRank; congruence).
    rewrite Hr1. destruct (Nat.ltb_spec diff (getRank t)); [|lia]. simpl.
    intros [= <-].
    destruct (insPath_loop_idx cursor (getRank t - diff) diff
                (idx t1 !!! diff + 1) t1) as (Hs & Hl & Hlow & Hhigh).
    { rewrite Hi1. lia. }
    simpl. split_and!.
    + apply list_eq_lookup_total; [congruence|].
      intros j Hj. destruct (decide (j < diff)).
      * rewrite Hlow, Hi1 by done. symmetry. by apply Hpre.
      * apply Hhigh. rewrite Hl, Hi1 in Hj. lia.
    + unfold getRank in *. simpl. congruence.
    + intros Hnil. by apply app_nil in Hnil as [_ [=]].
Qed.

(** C8: on a tensor that already holds a value, [lexInsert] with a
    cursor that is lexicographically less than or equal to the previous
    insertion cursor ([idx]) stops at one of the two assertions of
    [lexDiff]; with a strictly greater cursor no assertion is reached
    and the insertion completes. *)
Theorem lexInsert_needs_strict_increase cursor val t :
  values t ≠ [] →
  length (idx t) = getRank t → length cursor = getRank t →
  (lex_le cursor (idx t) →
   lexInsert cursor val t = AssertionFailure "duplication insertion"
   ∨ lexInsert cursor val t = AssertionFailure "non-lexicographic insertion")
  ∧ (lex_lt (idx t) cursor →
     ∃ t', lexInsert cursor val t = Done t' ∧ idx t' = cursor).
Proof.
  intros Hvals Hidx Hcur. unfold lexInsert.
  destruct (values t) as [|v0 vs] eqn:Hv; [done|]. split.
  - intros Hle. unfold lexDiff.
    destruct (lexDiff_loop_not_ahead cursor (idx t) (getRank t) 0)
      as [->| ->]; [lia|lia|done|by left|by right].
  - intros Hlt.
    destruct (lexDiff_loop_ahead cursor (idx t) (getRank t) 0)
      as (diff & Hd & Hrange & _ & _); [lia|lia|done|].
    assert (∃ t', lexInsert cursor val t = Done t') as [t' Ht'].
    { unfold lexInsert, lexDiff. rewrite Hv, Hd. simpl.
      unfold endPath. destruct (Nat.ltb_spec (getRank t) (diff + 1)); [lia|].
      simpl. unfold insPath.
      set (t1 := endPath_loop zero _ 0 t).
      assert (getRank t1 = getRank t) as ->.
      { destruct (endPath_loop_frame (getRank t - (diff + 1)) 0 t)
          as [Hs1 _].
        unfold getRank, t1. by rewrite Hs1. }
      destruct (Nat.ltb_spec diff (getRank t)); [|lia]. simpl. eauto. }
    exists t'. split.
    + unfold lexInsert in Ht'. by rewrite Hv in Ht'.
    + by eapply lexInsert_records_cursor.
Qed.

End LexInsert.

(** A 2x3 matrix with dense rows and compressed columns, after the
    insertion of the entry at (0, 1): the cursor (0, 1) is rejected as
    a duplicate, and (1, 0) is accepted. *)
Lemma lexInsert_needs_strict_increase_witness :
  let t := mkStorage [2; 3] [0; 1] [0; 1] [[]; [0]] [[]; [1]] [5%Z] in
  (lexInsert 0%Z [0; 1] 7%Z t = AssertionFailure "duplication insertion"
   ∨ lexInsert 0%Z [0; 1] 7%Z t
     = AssertionFailure "non-lexicographic insertion")
  ∧ (∃ t', lexInsert 0%Z [1; 0] 7%Z t = Done t' ∧ idx t' = [1; 0]).
Proof.
  intros t.
  destruct (lexInsert_needs_strict_increase 0%Z [0; 1] 7%Z t)
    as [Hle _]; [done|reflexivity|reflexivity|].
  destruct (lexInsert_needs_strict_increase 0%Z [1; 0] 7%Z t)
    as [_ Hlt]; [done|reflexivity|reflexivity|].
  split.
  - apply Hle. by left.
  - apply Hlt. by apply lex_lt_here; lia.
Defined.

(** ** Compressed levels under [push_back] *)

Lemma lookup_total_snoc_old (l : list nat) x j :
  j < length l → (l ++ [x]) !!! j = l !!! j.
Proof. apply lookup_total_app_l. Qed.

Lemma lookup_total_snoc_new (l : list nat) x :
  (l ++ [x]) !!! length l = x.
Proof. by apply list_lookup_total_middle. Qed.

Lemma increasing_on_snoc_old ix x s e :
  e ≤ length ix → increasing_on ix s e → increasing_on (ix ++ [x]) s e.
Proof.
  intros He Hinc a b Ha Hab Hb.
  rewrite !lookup_total_snoc_old by lia. by apply Hinc.
Qed.

Lemma level_closed_open size p ix :
  level_closed size p ix → level_open size p ix.
Proof. by intros [? _]. Qed.

(** A new index may enter the open segment when that segment is empty
    or ends in a smaller index. *)
Lemma level_open_push_index size p ix i :
  level_open size p ix → i < size →
  p !!! (length p - 1) = length ix ∨ ix !!! (length ix - 1) < i →
  level_open size p (ix ++ [i]).
Proof.
  intros [Hne Hfirst Hsorted Hlast Hsegs Htail Hbound] Hi Hgap.
  split; try done.
  - rewrite length_app. simpl. lia.
  - intros i0 Hi0. apply increasing_on_snoc_old; [|by apply Hsegs].
    specialize (Hsorted (S i0) (length p - 1)). lia.
  - intros a b Ha Hab Hb. rewrite length_app in Hb. simpl in Hb.
    rewrite (lookup_total_snoc_old _ _ a) by lia.
    destruct (decide (b = length ix)) as [->|Hne'].
    + rewrite lookup_total_snoc_new.
      destruct Hgap as [Heq|Hlt]; [lia|].
      destruct (decide (a = length ix - 1)) as [->|]; [done|].
      specialize (Htail a (length ix - 1)). lia.
    + rewrite lookup_total_snoc_old by lia. apply Htail; lia.
  - intros j Hj. rewrite length_app in Hj. simpl in Hj.
    destruct (decide (j = length ix)) as [->|].
    + by rewrite lookup_total_snoc_new.
    + rewrite lookup_total_snoc_old by lia. apply Hbound. lia.
Qed.

(** Pushing the index count as the next pointer closes the segment. *)
Lemma level_open_close size p ix :
  level_open size p ix → level_closed size (p ++ [length ix]) ix.
Proof.
  intros [Hne Hfirst Hsorted Hlast Hsegs Htail Hbound].
  assert (length (p ++ [length ix]) = S (length p)) as Hlen
    by (rewrite length_app; simpl; lia).
  split; [split|].
  - lia.
  - by rewrite lookup_total_snoc_old.
  - intros i j Hij Hj. rewrite Hlen in Hj.
    destruct (decide (j = length p)) as [->|].
    + rewrite lookup_total_snoc_new.
      destruct (decide (i = length p)) as [->|].
      * by rewrite lookup_total_snoc_new.
      * rewrite lookup_total_snoc_old by lia.
        specialize (Hsorted i (length p - 1)). lia.
    + rewrite !lookup_total_snoc_old by lia. apply Hsorted; lia.
  - rewrite Hlen. replace (S (length p) - 1) with (length p) by lia.
    by rewrite lookup_total_snoc_new.
  - intros i Hi. rewrite Hlen in Hi.
    rewrite (lookup_total_snoc_old _ _ i) by lia.
    destruct (decide (S i = length p)) as [Heq|].
    + rewrite Heq, lookup_total_snoc_new.
      replace i with (length p - 1) by lia. done.
    + rewrite lookup_total_snoc_old by lia. apply Hsegs. lia.
  - rewrite Hlen. replace (S (length p) - 1) with (length p) by lia.
    rewrite lookup_total_snoc_new. intros a b ? ? ?. lia.
  - done.
  - rewrite Hlen. replace (S (length p) - 1) with (length p) by lia.
    by rewrite lookup_total_snoc_new.
Qed.

(** ** Reading the state after a [push_back] *)

Section PushBack.
Context {V : Type}.
Implicit Types (t : SparseTensorStorage V).

Lemma push_index_indices d i t d' :
  d < length (indices t) →
  indices (push_index d i t) !!! d'
  = if decide (d' = d) then indices t !!! d ++ [i] else indices t !!! d'.
Proof.
  intros Hd. unfold push_index. simpl. rewrite list_lookup_total_alter.
  case_decide as H1; case_decide as H2; try done.
  - destruct H1 as [-> _]. done.
  - subst. exfalso. apply H1. done.
Qed.

Lemma push_pointer_pointers d x t d' :
  d < length (pointers t) →
  pointers (push_pointer d x t) !!! d'
  = if decide (d' = d) then pointers t !!! d ++ [x] else pointers t !!! d'.
Proof.
  intros Hd. unfold push_pointer. simpl. rewrite list_lookup_total_alter.
  case_decide as H1; case_decide as H2; try done.
  - destruct H1 as [-> _]. done.
  - subst. exfalso. apply H1. done.
Qed.

Lemma isCompressedDim_nonempty t d :
  0 < length (pointers t !!! d) → isCompressedDim t d = true.
Proof.
  intros Hlen. unfold isCompressedDim.
  destruct (Nat.eqb_spec (length (pointers t !!! d)) 0); [lia|done].
Qed.

Lemma same_below_refl d t : same_below d t t.
Proof. by repeat split. Qed.

Lemma same_below_trans d t1 t2 t3 :
  same_below d t1 t2 → same_below d t2 t3 → same_below d t1 t3.
Proof.
  intros (?&?&?&?&?&H12) (?&?&?&?&?&H23).
  split_and!; try congruence.
  intros d' Hd'. destruct (H12 d' Hd'), (H23 d' Hd'). split; congruence.
Qed.

Lemma same_below_weaken d d' t t' :
  d' ≤ d → same_below d t t' → same_below d' t t'.
Proof.
  intros Hle (?&?&?&?&?&H). split_and!; try done.
  intros d0 ?. apply H. lia.
Qed.

Lemma same_below_rank d t t' : same_below d t t' → getRank t' = getRank t.
Proof. intros (Hs&_). unfold getRank. by rewrite Hs. Qed.

Lemma same_below_push_index d i t :
  d < length (indices t) → same_below d t (push_index d i t).
Proof.
  intros Hd. split_and!; try done.
  - unfold push_index. simpl. by rewrite length_alter.
  - intros d' Hd'. split; [done|].
    rewrite push_index_indices by done. case_decide; [lia|done].
Qed.

Lemma same_below_push_pointer d x t :
  d < length (pointers t) → same_below d t (push_pointer d x t).
Proof.
  intros Hd. split_and!; try done.
  - unfold push_pointer. simpl. by rewrite length_alter.
  - intros d' Hd'. split; [|done].
    rewrite push_pointer_pointers by done. case_decide; [lia|done].
Qed.

(** [levels_from] reads only the sizes, the buffers of the dimensions
    from [d] on, and the values. *)
Lemma levels_from_ext d t t' :
  sizes t' = sizes t →
  (∀ d', d ≤ d' → d' < getRank t →
         pointers t' !!! d' = pointers t !!! d'
         ∧ indices t' !!! d' = indices t !!! d') →
  values t' = values t →
  levels_from t d → levels_from t' d.
Proof.
  intros Hs Hbuf Hv Hlev d' Hd' Hrank.
  assert (getRank t' = getRank t) as Hr by (unfold getRank; by rewrite Hs).
  rewrite Hr in Hrank |- *.
  destruct (Hlev d' Hd' Hrank) as (Hclosed & Hunits & Hmono).
  destruct (Hbuf d' Hd' Hrank) as [Hp Hi].
  rewrite Hs, Hp, Hi. split_and!; [done| |].
  - rewrite <- Hunits. unfold units. rewrite Hr, Hv.
    destruct (Nat.ltb_spec (S d') (getRank t)); [|done].
    by destruct (Hbuf (S d')) as [-> _]; [lia|done|].
  - intros Hlt. destruct (Hbuf (S d')) as [_ ->]; [lia|done|]. auto.
Qed.

End PushBack.

(** ** Runs of equal coordinates *)

Lemma segment_split {A} lo seg hi (l : list A) :
  lo ≤ seg → seg ≤ hi →
  segment lo hi l = segment lo seg l ++ segment seg hi l.
Proof.
  intros Hlo Hhi. unfold segment.
  replace (hi - lo) with ((seg - lo) + (hi - seg)) by lia.
  rewrite <- take_take_drop, drop_drop.
  by replace (lo + (seg - lo)) with seg by lia.
Qed.

Lemma segment_empty {A} lo (l : list A) : segment lo lo l = [].
Proof. unfold segment. by rewrite Nat.sub_diag. Qed.

Lemma length_segment {A} lo hi (l : list A) :
  lo ≤ hi → hi ≤ length l → length (segment lo hi l) = hi - lo.
Proof.
  intros Hlo Hhi. unfold segment. rewrite length_take, length_drop. lia.
Qed.

Lemma lookup_total_segment `{Inhabited A} lo hi (l : list A) j :
  j < hi - lo → segment lo hi l !!! j = l !!! (lo + j).
Proof.
  intros Hj. unfold segment.
  by rewrite lookup_total_take_lt, lookup_total_drop.
Qed.

Lemma segment_cons `{Inhabited A} lo hi (l : list A) :
  lo < hi → hi ≤ length l →
  segment lo hi l = l !!! lo :: segment (S lo) hi l.
Proof.
  intros Hlo Hhi. unfold segment.
  rewrite (drop_S l (l !!! lo))
    by (apply list_lookup_lookup_total_lt; lia).
  replace (hi - lo) with (S (hi - S lo)) by lia. done.
Qed.

Section RunHeads.
Context {V : Type}.
Implicit Types (l : list (Element V)) (p q : list nat).

Lemma heads_after_all_equal p l :
  Forall (λ e, e_indices e = p) l → heads_after p l = [].
Proof.
  induction 1 as [|e l He _ IH]; simpl; [done|].
  by rewrite decide_True.
Qed.

Lemma heads_after_app p q l1 l2 :
  (l1 = [] → q = p) →
  (∀ e, last l1 = Some e → q = e_indices e) →
  heads_after p (l1 ++ l2) = heads_after p l1 ++ heads_after q l2.
Proof.
  revert p. induction l1 as [|e l1 IH]; intros p Hnil Hlast; simpl.
  - by rewrite Hnil.
  - assert (∀ p', (l1 = [] → q = e_indices e) →
                  (l1 = [] → e_indices e = p') →
                  heads_after p' (l1 ++ l2)
                  = heads_after p' l1 ++ heads_after q l2) as Hrec.
    { intros p' Hq Hp'. apply IH.
      - intros Hl1. rewrite (Hq Hl1). by apply Hp'.
      - intros e' He'. apply Hlast. destruct l1; [done|]. done. }
    assert (l1 = [] → q = e_indices e) as Hq.
    { intros ->. by apply Hlast. }
    case_decide as Hp.
    + apply Hrec; [done|]. by intros _.
    + simpl. f_equal. apply Hrec; done.
Qed.

Lemma heads_after_run p l :
  (∀ e, head l = Some e → e_indices e ≠ p) → heads_after p l = run_heads l.
Proof.
  destruct l as [|e l]; [done|]. intros Hne. simpl.
  rewrite decide_False; [done|]. by apply Hne.
Qed.

(** The heads of two adjacent pieces are the heads of the whole when
    the coordinates change at the border. *)
Lemma run_heads_app l1 l2 :
  l1 ≠ [] →
  (∀ e1 e2, last l1 = Some e1 → head l2 = Some e2 →
            e_indices e1 ≠ e_indices e2) →
  run_heads (l1 ++ l2) = run_heads l1 ++ run_heads l2.
Proof.
  destruct l1 as [|e l1]; [done|]. intros _ Hborder. simpl. f_equal.
  destruct (last (e :: l1)) as [e1|] eqn:Hlast; cycle 1.
  { by apply last_None in Hlast. }
  rewrite (heads_after_app _ (e_indices e1)).
  - f_equal. apply heads_after_run. intros e2 He2 Heq.
    by apply (Hborder e1 e2).
  - intros ->. simpl in Hlast. congruence.
  - intros e' He'. destruct l1; [done|]. simpl in Hlast. congruence.
Qed.

(** Without duplicates every element heads its own run. *)
Lemma heads_after_NoDup p l :
  NoDup (p :: (e_indices <$> l)) → heads_after p l = l.
Proof.
  revert p. induction l as [|e l IH]; intros p Hnd; simpl; [done|].
  apply NoDup_cons in Hnd as [Hp Hnd]. simpl in Hp.
  rewrite decide_False; cycle 1.
  { intros Heq. apply Hp. rewrite Heq. by left. }
  f_equal. by apply IH.
Qed.

Lemma run_heads_NoDup l : NoDup (e_indices <$> l) → run_heads l = l.
Proof.
  destruct l as [|e l]; [done|]. simpl. intros Hnd. f_equal.
  by apply heads_after_NoDup.
Qed.

End RunHeads.

(** ** [fromCOO] builds well-formed compressed levels *)

Section FromCOO.
Context {V : Type} (zero : V).
Implicit Types (t : SparseTensorStorage V) (els : list (Element V)).

#[local] Hint Extern 0 (Inhabited V) =>
  exact (value_inhabited zero) : typeclass_instances.
#[local] Hint Extern 0 (Inhabited (Element V)) =>
  exact (element_inhabited zero) : typeclass_instances.

(** Two index vectors that agree before dimension [d] are ordered by
    their coordinate at [d]. *)
Lemma lexOrder_loop_decided (i1 i2 : list nat) n r d :
  r ≤ d → d < r + n → (∀ j, r ≤ j → j < d → i1 !!! j = i2 !!! j) →
  i1 !!! d < i2 !!! d → lexOrder_loop i1 i2 n r = true.
Proof.
  revert r. induction n as [|n IH]; intros r Hr Hd Hpre Hlt; [lia|].
  simpl. destruct (decide (r = d)) as [->|Hne].
  - destruct (Nat.eqb_spec (i1 !!! d) (i2 !!! d)); [lia|].
    by apply Nat.ltb_lt.
  - rewrite (Hpre r) by lia. rewrite Nat.eqb_refl.
    apply IH; [lia|lia| |done]. intros j ? ?. apply Hpre; lia.
Qed.

(** Within a segment the coordinate at [d] never decreases. *)
Lemma coo_segment_monotone rank szs els lo hi d a b :
  coo_segment zero rank szs els lo hi d → d < rank →
  lo ≤ a → a ≤ b → b < hi →
  e_indices (els !!! a) !!! d ≤ e_indices (els !!! b) !!! d.
Proof.
  intros [Hrange Hrank Hbound Hprefix Hsorted] Hd Ha Hab Hb.
  destruct (decide (e_indices (els !!! b) !!! d < e_indices (els !!! a) !!! d))
    as [Hlt|]; [|lia].
  specialize (Hsorted a b Ha Hab Hb). unfold lexOrder in Hsorted.
  rewrite (lexOrder_loop_decided _ _ _ 0 d) in Hsorted; try done; try lia.
  - rewrite Hrank by lia. lia.
  - intros j _ Hj. rewrite (Hprefix a j), (Hprefix b j) by lia. done.
Qed.

Lemma segment_end_spec els d i n seg hi :
  seg ≤ hi → hi - seg ≤ n →
  let s := segment_end zero els d i n seg hi in
  seg ≤ s ∧ s ≤ hi
  ∧ (∀ a, seg ≤ a → a < s → e_indices (els !!! a) !!! d = i)
  ∧ (s < hi → e_indices (els !!! s) !!! d ≠ i).
Proof.
  revert seg. induction n as [|n IH]; intros seg Hle Hn; simpl.
  - split_and!; [lia|lia| |lia]. intros a ? ?. lia.
  - destruct (Nat.ltb_spec seg hi) as [Hlt|Hge]; simpl.
    + destruct (_ =? i) eqn:Heqb.
      * apply Nat.eqb_eq in Heqb.
        destruct (IH (S seg)) as (H1 & H2 & H3 & H4); [lia|lia|].
        split_and!; [lia|lia| |done].
        intros a Ha1 Ha2. destruct (decide (a = seg)) as [->|]; [done|].
        apply H3; lia.
      * apply Nat.eqb_neq in Heqb.
        split_and!; [lia|lia| |done]. intros a ? ?. lia.
    + split_and!; [lia|lia| |lia]. intros a ? ?. lia.
Qed.

(** A sub-range of a segment at the same dimension. *)
Lemma coo_segment_suffix rank szs els lo hi d seg :
  coo_segment zero rank szs els lo hi d → lo ≤ seg → seg ≤ hi →
  coo_segment zero rank szs els seg hi d.
Proof.
  intros [Hrange Hrank Hbound Hprefix Hsorted] Hlo Hhi.
  split.
  - lia.
  - intros a ? ?. apply Hrank; lia.
  - intros a r ? ? ?. apply Hbound; lia.
  - intros a r ? ? ?. destruct (decide (seg < hi)); [|lia].
    rewrite (Hprefix a r), (Hprefix seg r) by lia. done.
  - intros a b ? ? ?. apply Hsorted; lia.
Qed.

(** The run of equal coordinates at [d] is a segment at [d + 1]. *)
Lemma coo_segment_deeper rank szs els lo hi d seg :
  coo_segment zero rank szs els lo hi d → lo ≤ seg → seg ≤ hi →
  (∀ a, lo ≤ a → a < seg →
        e_indices (els !!! a) !!! d = e_indices (els !!! lo) !!! d) →
  coo_segment zero rank szs els lo seg (S d).
Proof.
  intros [Hrange Hrank Hbound Hprefix Hsorted] Hlo Hhi Hrun.
  split.
  - lia.
  - intros a ? ?. apply Hrank; lia.
  - intros a r ? ? ?. apply Hbound; lia.
  - intros a r ? ? ?. destruct (decide (r = d)) as [->|].
    + apply Hrun; lia.
    + apply Hprefix; lia.
  - intros a b ? ? ?. apply Hsorted; lia.
Qed.

(** Below the last dimension all elements of a segment are duplicates of
    its first element. *)
Lemma run_heads_leaf rank szs els lo hi :
  coo_segment zero rank szs els lo hi rank → lo < hi →
  run_heads (segment lo hi els) = [els !!! lo].
Proof.
  intros [[_ Hhi] Hrank Hbound Hprefix Hsorted] Hlt.
  rewrite segment_cons by lia. simpl. f_equal.
  apply heads_after_all_equal.
  apply (@Forall_lookup_total_2 _ _ (element_inhabited zero)).
  intros j Hj. rewrite length_segment in Hj by lia.
  rewrite lookup_total_segment by lia.
  apply list_eq_lookup_total.
  - rewrite !Hrank by lia. done.
  - intros r Hr. rewrite Hrank in Hr by lia. apply Hprefix; lia.
Qed.

(** A run of equal coordinates at [d] ends where the heads of the rest
    begin. *)
Lemma run_heads_segment_split rank szs els lo seg hi d :
  coo_segment zero rank szs els lo hi d →
  lo < seg → seg ≤ hi →
  (∀ a, lo ≤ a → a < seg →
        e_indices (els !!! a) !!! d = e_indices (els !!! lo) !!! d) →
  (seg < hi → e_indices (els !!! seg) !!! d ≠ e_indices (els !!! lo) !!! d) →
  run_heads (segment lo hi els)
  = run_heads (segment lo seg els) ++ run_heads (segment seg hi els).
Proof.
  intros [[_ Hhi] _ _ _ _] Hlo Hseg Hrun Hstop.
  rewrite (segment_split lo seg hi) by lia.
  apply run_heads_app.
  - intros Hnil. apply (f_equal length) in Hnil.
    rewrite length_segment in Hnil by lia. simpl in Hnil. lia.
  - intros e1 e2 He1 He2 Heq.
    rewrite last_lookup, length_segment in He1 by lia.
    apply list_lookup_total_correct in He1.
    rewrite lookup_total_segment in He1 by lia.
    rewrite head_lookup in He2.
    assert (seg < hi) as Hlt.
    { apply lookup_lt_Some in He2. rewrite length_segment in He2; lia. }
    apply list_lookup_total_correct in He2.
    rewrite lookup_total_segment in He2 by lia.
    apply (Hstop Hlt). rewrite Nat.add_0_r in He2. subst e1 e2.
    rewrite <- Heq. apply Hrun; lia.
Qed.

Lemma units_push_index d i t d' : units (push_index d i t) d' = units t d'.
Proof. done. Qed.

Lemma loop_state_of_levels d t :
  length (pointers t) = getRank t → length (indices t) = getRank t →
  d < getRank t → levels_from t d → loop_state d t.
Proof.
  intros Hp Hi Hd Hlev.
  destruct (Hlev d) as ([Hopen _] & Hunits & Hmono); [done..|].
  split_and!; try done.
  intros d' ? ?. apply Hlev; lia.
Qed.

(** The [while] loop of [fromCOO] at dimension [d], given the contract
    of the recursive call at dimension [d + 1]. *)
Lemma fromCOO_while_levels
    (rec : nat → nat → SparseTensorStorage V → outcome (SparseTensorStorage V))
    k' els d hi :
  (∀ lo' hi' t,
     getRank t = S d + k' →
     length (pointers t) = getRank t → length (indices t) = getRank t →
     coo_segment zero (getRank t) (sizes t) els lo' hi' (S d) → lo' < hi' →
     levels_from t (S d) →
     ∃ t', rec lo' hi' t = Done t' ∧ fromCOO_post els k' (S d) lo' hi' t t') →
  ∀ n lo full t,
    hi - lo ≤ n → getRank t = S d + k' →
    coo_segment zero (getRank t) (sizes t) els lo hi d →
    loop_state d t →
    (lo < hi →
     (pointers t !!! d) !!! (length (pointers t !!! d) - 1)
     = length (indices t !!! d)
     ∨ (indices t !!! d) !!! (length (indices t !!! d) - 1)
       < e_indices (els !!! lo) !!! d) →
    ∃ t' full',
      fromCOO_while zero rec els d n lo hi full t = Done (t', full')
      ∧ loop_state d t'
      ∧ pointers t' !!! d = pointers t !!! d
      ∧ length (indices t !!! d) ≤ length (indices t' !!! d)
      ∧ (lo < hi → length (indices t !!! d) < length (indices t' !!! d))
      ∧ same_below d t t'
      ∧ values t' = values t ++ (e_value <$> run_heads (segment lo hi els)).
Proof.
  intros Hrec n. induction n as [|n IH]; intros lo full t Hn Hrank Hseg Hst Hgap.
  { exists t, full. simpl.
    split_and!; [done|done|done|lia|lia|apply same_below_refl|].
    unfold segment. replace (hi - lo) with 0 by lia.
    by rewrite app_nil_r. }
  simpl. destruct (Nat.ltb_spec lo hi) as [Hlt|Hge]; cycle 1.
  { exists t, full.
    split_and!; [done|done|done|lia|lia|apply same_below_refl|].
    unfold segment. replace (hi - lo) with 0 by lia.
    by rewrite app_nil_r. }
  destruct Hst as (Hlp & Hli & Hopen & Hlev & Hunits & Hmono).
  pose proof (cs_range _ _ _ _ _ _ _ Hseg) as [_ Hhi].
  destruct (Nat.ltb_spec lo (length els)); [|lia].
  destruct (Nat.leb_spec hi (length els)); [|lia]. simpl.
  set (i := e_indices (els !!! lo) !!! d).
  set (seg := segment_end zero els d i (hi - (lo + 1)) (lo + 1) hi).
  destruct (segment_end_spec els d i (hi - (lo + 1)) (lo + 1) hi)
    as (Hseg1 & Hseg2 & Hrun & Hstop); [lia|lia|].
  fold seg in Hseg1, Hseg2, Hrun, Hstop.
  rewrite isCompressedDim_nonempty by (by destruct Hopen).
  set (t1 := push_index d i t).
  assert (d < getRank t) as Hd by lia.
  assert (same_below d t t1) as Hsb1
    by (apply same_below_push_index; lia).
  (* the recursive call on [lo, seg) *)
  destruct (Hrec lo seg t1)
    as (t2 & Hcall & Hlev2 & Hunits2 & Hgrow2 & Hsb2 & Hvals2).
  { done. }
  { unfold t1, push_pointer. simpl. done. }
  { unfold t1, push_index. simpl. by rewrite length_alter. }
  { apply (coo_segment_deeper _ _ _ _ hi); [done|lia|lia|].
    intros a Ha1 Ha2. destruct (decide (a = lo)) as [->|]; [done|].
    apply Hrun; lia. }
  { lia. }
  { apply (levels_from_ext _ t); [done| |done|done].
    intros d' ? ?. split; [done|].
    unfold t1. rewrite push_index_indices by lia. case_decide; [lia|done]. }
  rewrite Hcall. simpl.
  destruct Hsb2 as (Hs2 & Hr2 & Hi2 & Hlp2 & Hli2 & Hbuf2).
  destruct (Hbuf2 d) as [Hp2d Hix2d]; [lia|].
  assert (indices t2 !!! d = indices t !!! d ++ [i]) as Hix2.
  { rewrite Hix2d. unfold t1. rewrite push_index_indices by lia.
    by rewrite decide_True. }
  assert (getRank t2 = getRank t) as Hrank2
    by (unfold getRank; by rewrite Hs2).
  (* the rest of the loop on [seg, hi) *)
  destruct (IH seg full t2)
    as (t' & full' & Hloop & Hst' & Hp' & Hle' & _ & Hsb' & Hvals').
  { lia. }
  { lia. }
  { rewrite Hrank2, Hs2. apply (coo_segment_suffix _ _ _ lo); [done|lia|done]. }
  { split_and!.
    - rewrite Hlp2, Hrank2. done.
    - rewrite Hli2, Hrank2. unfold t1, push_index. simpl.
      by rewrite length_alter.
    - rewrite Hs2, Hp2d, Hix2. apply level_open_push_index; [done| |].
      + apply (cs_bound _ _ _ _ _ _ _ Hseg); lia.
      + destruct Hgap as [Hg|Hg]; [done|by left|by right].
    - done.
    - rewrite Hunits2. unfold t1.
      rewrite units_push_index, Hunits, Hix2, length_app. simpl. lia.
    - rewrite Hrank2. intros HSd. rewrite Hix2, length_app. simpl.
      specialize (Hmono HSd).
      assert (indices t1 !!! S d = indices t !!! S d) as Heq1.
      { unfold t1. rewrite push_index_indices by lia.
        case_decide; [lia|done]. }
      rewrite Heq1 in Hgrow2. specialize (Hgrow2 ltac:(lia) ltac:(lia)). lia. }
  { intros Hseg_lt. right. rewrite Hix2, length_app. simpl.
    replace (length (indices t !!! d) + 1 - 1) with (length (indices t !!! d))
      by lia.
    rewrite lookup_total_snoc_new.
    pose proof (coo_segment_monotone _ _ _ _ _ d lo seg Hseg Hd) as Hmon.
    specialize (Hmon ltac:(lia) ltac:(lia) Hseg_lt).
    specialize (Hstop Hseg_lt). unfold i in Hstop |- *. lia. }
  exists t', full'. rewrite Hix2, length_app in Hle'. simpl in Hle'.
  split_and!; try done.
  - by rewrite Hp', Hp2d.
  - lia.
  - lia.
  - eapply same_below_trans; [apply Hsb1|].
    eapply same_below_trans; [|apply Hsb'].
    apply (same_below_weaken (S d)); [lia|]. by split_and!.
  - rewrite Hvals', Hvals2, <- app_assoc, <- fmap_app. do 2 f_equal.
    symmetry.
    apply (run_heads_segment_split _ _ _ _ _ _ d Hseg); [lia|lia| |done].
    intros a Ha1 Ha2. destruct (decide (a = lo)) as [->|]; [done|].
    apply Hrun; lia.
Qed.

(** The contract of [fromCOO(elements, lo, hi, d)] on a storage whose
    dimensions from [d] on are compressed and at rest. *)
Lemma fromCOO_rec_levels k els lo hi d t :
  getRank t = d + k →
  length (pointers t) = getRank t → length (indices t) = getRank t →
  coo_segment zero (getRank t) (sizes t) els lo hi d →
  (k = 0 → lo < hi) →
  levels_from t d →
  ∃ t', fromCOO_rec zero k els lo hi d t = Done t'
        ∧ fromCOO_post els k d lo hi t t'.
Proof.
  revert lo hi d t.
  induction k as [|k IH]; intros lo hi d t Hrank Hlp Hli Hseg Hne Hlev.
  - (* below the last dimension: one value *)
    simpl. pose proof (cs_range _ _ _ _ _ _ _ Hseg) as [_ Hhi].
    destruct (Nat.ltb_spec lo hi); [|lia].
    destruct (Nat.leb_spec hi (length els)); [|lia]. simpl.
    eexists. split; [done|]. split_and!.
    + intros d' ? Hd'. unfold getRank in Hd'. simpl in Hd'.
      unfold getRank in Hrank. lia.
    + unfold units, getRank. simpl. unfold getRank in Hrank.
      destruct (Nat.ltb_spec d (length (sizes t))); [lia|].
      rewrite length_app. simpl. lia.
    + lia.
    + by split_and!.
    + simpl. replace d with (getRank t) in Hseg by lia.
      by rewrite (run_heads_leaf _ _ _ _ _ Hseg).
  - (* dimension [d]: the loop, then the closing pointer *)
    assert (d < getRank t) as Hd by lia.
    simpl.
    destruct (fromCOO_while_levels
                (λ lo' hi', fromCOO_rec zero k els lo' hi' (S d))
                k els d hi) with (n := hi - lo) (lo := lo) (full := 0) (t := t)
      as (t1 & full & Hloop & Hst & Hp1 & Hle1 & Hlt1 & Hsb1 & Hvals1).
    { intros lo' hi' t0 ? ? ? ? ? ?. apply IH; try done; lia. }
    { lia. }
    { lia. }
    { done. }
    { by apply loop_state_of_levels. }
    { intros _. left. by destruct (Hlev d) as ([_ ?] & _); [lia..|]. }
    rewrite Hloop. simpl.
    destruct Hst as (Hlp1 & Hli1 & Hopen1 & Hlev1 & Hunits1 & Hmono1).
    rewrite isCompressedDim_nonempty by (by destruct Hopen1).
    pose proof (same_below_rank _ _ _ Hsb1) as Hrank1.
    set (t' := push_pointer d (length (indices t1 !!! d)) t1).
    assert (pointers t' !!! d
            = pointers t1 !!! d ++ [length (indices t1 !!! d)]) as Hp'.
    { unfold t'. rewrite push_pointer_pointers by lia. by rewrite decide_True. }
    eexists. split; [done|]. fold t'. split_and!.
    + intros d' Hd1 Hd2. change (getRank t') with (getRank t1) in Hd2 |- *.
      change (indices t') with (indices t1).
      change (sizes t') with (sizes t1).
      destruct (decide (d' = d)) as [->|Hne'].
      * rewrite Hp'. split_and!.
        -- by apply level_open_close.
        -- rewrite <- Hunits1. unfold units.
           change (getRank t') with (getRank t1).
           destruct (Nat.ltb_spec (S d) (getRank t1)); [|done].
           unfold t'. rewrite push_pointer_pointers by lia.
           by rewrite decide_False by lia.
        -- done.
      * change (indices t1) with (indices t'). change (sizes t1) with (sizes t').
        apply (levels_from_ext (S d) t1 t'); [done| |done|done|lia|done].
        intros d0 ? ?. split; [|done].
        unfold t'. rewrite push_pointer_pointers by lia.
        by rewrite decide_False by lia.
    + unfold units. change (getRank t') with (getRank t1).
      rewrite Hrank1. destruct (Nat.ltb_spec d (getRank t)); [|lia].
      rewrite Hp', length_app, Hp1. simpl.
      destruct (Hlev d) as ([[Hnonempty _] _] & _); [lia..|]. lia.
    + intros _ Hlt. change (indices t') with (indices t1). by apply Hlt1.
    + eapply same_below_trans; [apply Hsb1|].
      apply same_below_push_pointer. lia.
    + done.
Qed.

End FromCOO.

(** ** The checks of [verify] on well-formed levels *)

Lemma issorted_loop_true arr n i j :
  (∀ a b, a ≤ b → b < length arr → arr !!! a ≤ arr !!! b) →
  i + n ≤ length arr → j < i →
  issorted_loop arr n i (arr !!! j) = true.
Proof.
  intros Hsorted. revert i j. induction n as [|n IH]; intros i j Hn Hj; [done|].
  simpl. destruct (Nat.eqb_spec (arr !!! i) (arr !!! j)).
  - apply IH; lia.
  - destruct (Nat.ltb_spec (arr !!! i) (arr !!! j)) as [Hlt|_].
    + specialize (Hsorted j i). lia.
    + apply IH; lia.
Qed.

Lemma issorted_true arr :
  (∀ a b, a ≤ b → b < length arr → arr !!! a ≤ arr !!! b) →
  issorted arr 0 (length arr) = true.
Proof.
  intros Hsorted. unfold issorted.
  destruct (Nat.leb_spec (length arr) (0 + 1)); [done|].
  apply issorted_loop_true; [done|lia|lia].
Qed.

Lemma isincreasing_loop_true arr n i s :
  increasing_on arr s (i + n) → s < i →
  isincreasing_loop arr n i (arr !!! (i - 1)) = true.
Proof.
  revert i. induction n as [|n IH]; intros i Hinc Hs; [done|].
  simpl. destruct (Nat.leb_spec (arr !!! i) (arr !!! (i - 1))) as [Hle|_].
  - specialize (Hinc (i - 1) i). lia.
  - assert (arr !!! i = arr !!! (S i - 1)) as -> by (f_equal; lia).
    apply IH; [|lia]. by replace (S i + n) with (i + S n) by lia.
Qed.

Lemma isincreasing_true arr s e :
  increasing_on arr s e → isincreasing arr s e = true.
Proof.
  intros Hinc. unfold isincreasing.
  destruct (Nat.leb_spec e (s + 1)); [done|].
  assert (arr !!! s = arr !!! (s + 1 - 1)) as -> by (f_equal; lia).
  apply (isincreasing_loop_true _ _ _ s); [|lia].
  by replace (s + 1 + (e - (s + 1))) with e by lia.
Qed.

Lemma verify_segments_true size p ix n i :
  level_closed size p ix → 0 < i → i + n = length p →
  verify_segments p ix n i (p !!! (i - 1)) = true.
Proof.
  intros [[Hne Hfirst Hsorted Hlast Hsegs Htail Hbound] Hend].
  revert i. induction n as [|n IH]; intros i Hi Hn; [done|].
  simpl. destruct (Nat.ltb_spec (length ix) (p !!! i)) as [Hlt|_].
  - specialize (Hsorted i (length p - 1)). lia.
  - rewrite isincreasing_true; cycle 1.
    { assert (p !!! i = p !!! S (i - 1)) as -> by (f_equal; lia).
      apply Hsegs. lia. }
    simpl. assert (p !!! i = p !!! (S i - 1)) as -> by (f_equal; lia).
    apply IH; lia.
Qed.

(** A strictly increasing run of indices below [size] has at most
    [size] entries. *)
Lemma increasing_on_bounded ix s e size :
  increasing_on ix s e → (∀ j, j < e → ix !!! j < size) → e - s ≤ size.
Proof.
  intros Hinc Hbound.
  assert (∀ j, s + j < e → j ≤ ix !!! (s + j)) as Hgrow.
  { induction j as [|j IHj]; intros Hj; [lia|].
    specialize (Hinc (s + j) (s + S j)). lia. }
  destruct (decide (s < e)); [|lia].
  specialize (Hgrow (e - s - 1)). specialize (Hbound (e - 1)).
  replace (s + (e - s - 1)) with (e - 1) in Hgrow by lia. lia.
Qed.

(** Hence a level holds at most [size] indices per closed segment. *)
Lemma level_closed_count size p ix :
  level_closed size p ix → length ix ≤ (length p - 1) * size.
Proof.
  intros [[Hne Hfirst Hsorted Hlast Hsegs Htail Hbound] Hend].
  assert (∀ i, i < length p → p !!! i ≤ i * size) as Hoff.
  { induction i as [|i IHi]; intros Hi; [lia|].
    assert (p !!! S i - p !!! i ≤ size).
    { apply (increasing_on_bounded ix); [by apply Hsegs|].
      intros j Hj. apply Hbound.
      specialize (Hsorted (S i) (length p - 1)). lia. }
    specialize (Hsorted i (S i)). lia. }
  rewrite <- Hend. apply Hoff. lia.
Qed.

Lemma extent_product_app l1 l2 :
  extent_product (l1 ++ l2) = (extent_product l1 * extent_product l2)%Z.
Proof.
  induction l1 as [|x l1 IH]; simpl.
  - lia.
  - rewrite IH. lia.
Qed.

Lemma extent_product_pos l :
  (∀ j, j < length l → 0 < l !!! j) → (1 ≤ extent_product l)%Z.
Proof.
  induction l as [|x l IH]; intros Hpos; [done|].
  unfold extent_product in *. simpl.
  assert (0 < x) by (apply (Hpos 0); simpl; lia).
  assert (1 ≤ foldr (λ s acc, (Z.of_nat s * acc)%Z) 1%Z l)%Z.
  { apply IH. intros j Hj. apply (Hpos (S j)). simpl. lia. }
  nia.
Qed.

Lemma extent_product_take_S szs d :
  d < length szs →
  extent_product (take (S d) szs)
  = (extent_product (take d szs) * Z.of_nat (szs !!! d))%Z.
Proof.
  intros Hd. rewrite (take_S_r _ _ (szs !!! d))
    by (by apply list_lookup_lookup_total_lt).
  rewrite extent_product_app. unfold extent_product at 2. simpl. lia.
Qed.

Lemma extent_product_take_le szs d :
  (∀ j, j < length szs → 0 < szs !!! j) →
  (1 ≤ extent_product (take d szs) ≤ extent_product szs)%Z.
Proof.
  intros Hpos. rewrite <- (take_drop d szs) at 3.
  rewrite extent_product_app.
  assert (1 ≤ extent_product (take d szs))%Z.
  { apply extent_product_pos. intros j Hj.
    rewrite length_take in Hj. rewrite lookup_total_take_lt by lia.
    apply Hpos. lia. }
  assert (1 ≤ extent_product (drop d szs))%Z.
  { apply extent_product_pos. intros j Hj.
    rewrite length_drop in Hj. rewrite lookup_total_drop. apply Hpos. lia. }
  nia.
Qed.

Lemma u64_small z : (0 ≤ z < 2 ^ 64)%Z → u64 z = z.
Proof. intros Hz. unfold u64. by apply Z.mod_small. Qed.

Section VerifyLevels.
Context {V : Type}.
Implicit Types (t : SparseTensorStorage V) (a : verify_state).

(** The number of pointers of a dimension below the first is one more
    than the number of indices of its parent. *)
Lemma levels_from_link t d :
  levels_from t 0 → S d < getRank t →
  length (pointers t !!! S d) = length (indices t !!! d) + 1.
Proof.
  intros Hlev Hd.
  destruct (Hlev d) as (_ & Hunits & _); [lia..|].
  destruct (Hlev (S d)) as ([[Hne _] _] & _); [lia..|].
  unfold units in Hunits.
  destruct (Nat.ltb_spec (S d) (getRank t)); lia.
Qed.

Lemma verify_dim_levels t dim a :
  compressed_tree t →
  (∀ j, j < getRank t → 0 < sizes t !!! j) →
  (extent_product (sizes t) < 2 ^ 64 - 1)%Z →
  dim < getRank t → verify_inv t dim a →
  ∃ a', verify_dim t dim a = Some a' ∧ verify_inv t (S dim) a'.
Proof.
  intros (Hrank & Hlp & Hli & Hlev & Hp0) Hpos Hprod Hdim
         (Hrv & Hcum & Hinit & Hprev).
  destruct (Hlev dim) as (Hclosed & Hunits & Hmono); [lia..|].
  pose proof (level_closed_count _ _ _ Hclosed) as Hcount.
  pose proof (verify_segments_true _ _ _ (length (pointers t !!! dim) - 1) 1
                Hclosed) as Hsegs.
  destruct Hclosed as [[Hne Hfirst Hsorted Hlast Hsegments Htail Hbound] Hend].
  specialize (Hsegs ltac:(lia) ltac:(lia)).
  pose proof (Hpos dim Hdim) as Hsize.
  pose proof (extent_product_take_le (sizes t) dim Hpos) as Hcum_prev.
  pose proof (extent_product_take_le (sizes t) (S dim) Hpos) as Hcum_next.
  rewrite extent_product_take_S in Hcum_next by done.
  assert (u64 (cum_size a * Z.of_nat (sizes t !!! dim))
          = (extent_product (take dim (sizes t))
             * Z.of_nat (sizes t !!! dim))%Z) as Hu.
  { rewrite Hcum. apply u64_small. lia. }
  unfold verify_dim. cbv zeta. rewrite Hu.
  set (cum := (extent_product (take dim (sizes t))
               * Z.of_nat (sizes t !!! dim))%Z) in *.
  set (ptr := pointers t !!! dim) in *.
  set (ix := indices t !!! dim) in *.
  set (size := sizes t !!! dim) in *.
  destruct (Nat.leb_spec size 0); [lia|].
  destruct (Nat.eqb_spec (length ptr) 0); [lia|].
  eexists. split; [done|].
  (* the facts about the parent dimension *)
  assert (dim = 0 ∧ length ptr = 2 ∧ is_dense a = true
          ∧ prev_ptr_len a = 0 ∧ prev_idx_len a = 0
          ∨ 0 < dim ∧ is_dense a = false
            ∧ length ptr = prev_idx_len a + 1
            ∧ prev_idx_len a ≤ length ix
            ∧ prev_ptr_len a ≤ prev_idx_len a + 2
            ∧ (Z.of_nat (prev_idx_len a)
               ≤ extent_product (take dim (sizes t)))%Z) as Hparent.
  { destruct (decide (dim = 0)) as [->|Hnz].
    - left. by destruct Hinit as (? & ? & ?).
    - right. destruct Hprev as (Hd & Hpl & Hil & Hic); [lia|].
      destruct (Hlev (dim - 1)) as (_ & _ & Hmono'); [lia..|].
      replace (S (dim - 1)) with dim in Hmono' by lia.
      pose proof (levels_from_link t (dim - 1) Hlev) as Hlink.
      replace (S (dim - 1)) with dim in Hlink by lia.
      specialize (Hlink Hdim). specialize (Hmono' Hdim).
      split_and!; [lia|done|unfold ptr; lia|unfold ix; lia| |lia].
      rewrite Hpl, Hil. destruct (decide (dim - 1 = 0)) as [Hz|Hnz'].
      + rewrite Hz, Hp0. lia.
      + pose proof (levels_from_link t (dim - 2) Hlev) as Hlink'.
        replace (S (dim - 2)) with (dim - 1) in Hlink' by lia.
        destruct (Hlev (dim - 2)) as (_ & _ & Hmono''); [lia..|].
        replace (S (dim - 2)) with (dim - 1) in Hmono'' by lia.
        specialize (Hlink' ltac:(lia)). specialize (Hmono'' ltac:(lia)). lia. }
  assert (length ix ≤ (length ptr - 1) * size) as Hcount' by done.
  assert (Z.of_nat (length ix) ≤ cum)%Z as Hix_cum.
  { unfold cum. destruct Hparent as [(-> & Hl & _)|(_ & _ & Hl & _ & _ & Hc)].
    - rewrite Hl in Hcount'. simpl in Hcount' |- *. unfold extent_product.
      simpl. lia.
    - rewrite Hl in Hcount'.
      replace (prev_idx_len a + 1 - 1) with (prev_idx_len a) in Hcount' by lia.
      nia. }
  assert (Z.of_nat (length ptr) ≤ cum + 1)%Z as Hptr_cum.
  { unfold cum. destruct Hparent as [(-> & Hl & _)|(_ & _ & Hl & _ & _ & Hc)].
    - rewrite Hl. unfold extent_product. simpl. lia.
    - rewrite Hl. nia. }
  split_and!; simpl.
  - (* every check passes *)
    rewrite Hrv. simpl.
    assert (u64 (cum + 1) = (cum + 1)%Z) as -> by (apply u64_small; lia).
    rewrite issorted_true by done.
    fold ptr in Hfirst, Hend. rewrite Hfirst, Hend, !Nat.eqb_refl. simpl.
    assert (forallb (λ i, negb (size <=? i)) ix = true) as ->.
    { apply forallb_forall. intros x Hx.
      apply list_elem_of_In, list_elem_of_lookup_total in Hx as (j & Hj & <-).
      specialize (Hbound j Hj). fold size ix in Hbound.
      destruct (Nat.leb_spec size (ix !!! j)); [lia|done]. }
    change (1 - 1) with 0 in Hsegs. rewrite Hfirst in Hsegs.
    rewrite Hsegs. simpl.
    destruct Hparent as [(-> & Hl & Hd & Hpp & Hpi)
                        |(Hnz & Hd & Hl & Hil & Hpl & Hc)].
    + rewrite Hl in Hptr_cum |- *. rewrite Hpp, Hpi. simpl.
      destruct (Z.ltb_spec (cum + 1) (Z.of_nat 2)); [lia|].
      destruct (Z.ltb_spec cum (Z.of_nat (length ix))); [lia|].
      destruct (Nat.ltb_spec 2 (length ix + 1)).
      * destruct (Nat.ltb_spec (length ix + 1) 2); [lia|done].
      * done.
    + destruct (Nat.eqb_spec dim 0); [lia|]. rewrite Hd.
      destruct (Nat.ltb_spec (length ix + 1) (length ptr)); [lia|].
      destruct (Nat.ltb_spec (length ptr) 1); [lia|].
      destruct (Z.ltb_spec (cum + 1) (Z.of_nat (length ptr))); [lia|].
      destruct (Z.ltb_spec cum (Z.of_nat (length ix))); [lia|].
      destruct (Nat.leb_spec (length ptr) (prev_idx_len a)); [lia|].
      destruct (Nat.ltb_spec (length ix) (prev_idx_len a)); [lia|].
      destruct (Nat.ltb_spec (length ptr + 1) (prev_ptr_len a)); [lia|].
      destruct (Nat.ltb_spec (length ix + 2) (prev_ptr_len a)); [lia|].
      done.
  - by rewrite extent_product_take_S.
  - lia.
  - intros _. replace (dim - 0) with dim by lia. by split_and!.
Qed.

Lemma verify_dims_levels t n dim a :
  compressed_tree t →
  (∀ j, j < getRank t → 0 < sizes t !!! j) →
  (extent_product (sizes t) < 2 ^ 64 - 1)%Z →
  dim + n = getRank t → verify_inv t dim a →
  ∃ a', verify_dims t n dim a = Some a' ∧ verify_inv t (getRank t) a'.
Proof.
  intros Htree Hpos Hprod. revert dim a.
  induction n as [|n IH]; intros dim a Hn Hinv; simpl.
  - exists a. replace (getRank t) with dim by lia. done.
  - destruct (verify_dim_levels t dim a) as (a1 & -> & Hinv1);
      [done|done|done|lia|done|].
    apply IH; [lia|done].
Qed.

(** [verify] accepts every storage whose dimensions are all compressed
    and at rest, provided the extents are positive and their product
    does not wrap. *)
Lemma verify_compressed_tree t :
  compressed_tree t →
  verify_rev (rev t) (getRank t) = true →
  (∀ j, j < getRank t → 0 < sizes t !!! j) →
  (extent_product (sizes t) < 2 ^ 64 - 1)%Z →
  verify t = true.
Proof.
  intros Htree Hrev Hpos Hprod.
  pose proof Htree as (Hrank & Hlp & Hli & Hlev & Hp0).
  unfold verify. destruct (Nat.eqb_spec (getRank t) 0); [lia|].
  rewrite Hlp, Hli, Nat.eqb_refl. simpl.
  unfold getRank at 1. rewrite Nat.eqb_refl. simpl.
  destruct (verify_dims_levels t (getRank t) 0 (mkVerify
              (verify_rev (rev t) (getRank t)) true 1 0 0))
    as (a' & -> & Hrv & _ & _ & Hlast); [done|done|done|lia| |].
  { split_and!; simpl; [done|done|done|lia]. }
  destruct Hlast as (-> & _ & -> & _); [lia|].
  rewrite Hrv. simpl. apply Nat.eqb_eq.
  destruct (Hlev (getRank t - 1)) as (_ & Hunits & _); [lia..|].
  rewrite <- Hunits. unfold units.
  destruct (Nat.ltb_spec (S (getRank t - 1)) (getRank t)); [lia|done].
Qed.

End VerifyLevels.

(** ** The identity permutation *)

(** Filling a zeroed vector at the positions [key i], for [i] below [n],
    when [key] is the identity. *)
Lemma fold_insert_identity (g key : nat → nat) n m a r :
  (∀ i, i < n → key i = i) → a + m + r = n →
  fold_left (λ acc i, <[key i := g i]> acc) (seq a m)
            ((g <$> seq 0 a) ++ replicate (m + r) 0)
  = (g <$> seq 0 (a + m)) ++ replicate r 0.
Proof.
  intros Hkey. revert a. induction m as [|m IH]; intros a Hn; simpl.
  - by rewrite Nat.add_0_r.
  - rewrite Hkey by lia.
    assert (<[a:=g a]> ((g <$> seq 0 a) ++ 0 :: replicate (m + r) 0)
            = (g <$> seq 0 (S a)) ++ replicate (m + r) 0) as ->.
    { replace (g <$> seq 0 (S a)) with ((g <$> seq 0 a) ++ [g a])
        by (by rewrite seq_S, fmap_app).
      rewrite <- app_assoc.
      rewrite insert_app_r_alt by (rewrite length_fmap, length_seq; lia).
      by rewrite length_fmap, length_seq, Nat.sub_diag. }
    rewrite IH by lia. by replace (S a + m) with (a + S m) by lia.
Qed.

Lemma fold_insert_identity_all (g key : nat → nat) n :
  (∀ i, i < n → key i = i) →
  fold_left (λ acc i, <[key i := g i]> acc) (seq 0 n) (replicate n 0)
  = g <$> seq 0 n.
Proof.
  intros Hkey.
  pose proof (fold_insert_identity g key n n 0 0 Hkey) as H.
  simpl in H. rewrite Nat.add_0_r, app_nil_r in H. apply H. lia.
Qed.

Lemma fmap_lookup_total_seq (l : list nat) :
  (λ r, l !!! r) <$> seq 0 (length l) = l.
Proof.
  apply list_eq_lookup_total.
  - by rewrite length_fmap, length_seq.
  - intros j Hj. rewrite length_fmap, length_seq in Hj.
    rewrite (list_lookup_total_fmap (λ r, l !!! r))
      by (by rewrite length_seq).
    by rewrite lookup_total_seq_lt.
Qed.

(** With the identity permutation the sizes stay in place ... *)
Lemma permute_sizes_identity szs :
  permute_sizes (length szs) szs (seq 0 (length szs)) = szs.
Proof.
  unfold permute_sizes.
  rewrite (fold_insert_identity_all (λ r, szs !!! r)
             (λ r, seq 0 (length szs) !!! r)).
  - apply fmap_lookup_total_seq.
  - intros i Hi. by rewrite lookup_total_seq_lt.
Qed.

(** ... the reverse permutation is the identity ... *)
Lemma rev_identity rank :
  fold_left (λ rev r, <[seq 0 rank !!! r := r]> rev) (seq 0 rank)
            (replicate rank 0)
  = seq 0 rank.
Proof.
  rewrite (fold_insert_identity_all (λ r, r) (λ r, seq 0 rank !!! r)).
  - apply list_fmap_id.
  - intros i Hi. by rewrite lookup_total_seq_lt.
Qed.

(** ... and [verify] accepts it. *)
Lemma verify_rev_identity rank : verify_rev (seq 0 rank) rank = true.
Proof.
  unfold verify_rev. rewrite length_seq, Nat.eqb_refl. simpl.
  apply andb_true_intro. split.
  - apply forallb_forall. intros i Hi. apply in_seq in Hi.
    destruct (Nat.leb_spec rank i); [lia|done].
  - assert (fold_left (λ z i, if rank <=? i then z else <[i:=1]> z)
                      (seq 0 rank) (replicate rank 0)
            = (λ _, 1) <$> seq 0 rank) as ->.
    { rewrite <- (fold_insert_identity_all (λ _, 1) (λ i, i) rank) by done.
      generalize (replicate rank 0).
      assert (∀ i, i ∈ seq 0 rank → i < rank) as Hin.
      { intros i Hi. apply list_elem_of_In, in_seq in Hi. lia. }
      revert Hin. generalize (seq 0 rank).
      induction l as [|x l IH]; intros Hin z; [done|]. simpl.
      destruct (Nat.leb_spec rank x) as [Hle|_].
      - specialize (Hin x ltac:(left)). lia.
      - apply IH. intros i Hi. apply Hin. by right. }
    apply forallb_forall. intros i Hi.
    apply list_elem_of_In, list_elem_of_fmap in Hi as (j & -> & _). done.
Qed.

(** ** Ingestion of a coordinate list *)

(** ** Sizes within the limits *)

Lemma reserve_fits limit n :
  (n ≤ limit)%Z → reserve limit n = Done tt.
Proof.
  intros Hn. unfold reserve. by destruct (Z.ltb_spec limit n); [lia|].
Qed.

Lemma u64_le z : (0 ≤ z)%Z → (u64 z ≤ z)%Z.
Proof. intros Hz. unfold u64. apply Z.mod_le; lia. Qed.

Lemma u64_nonneg z : (0 ≤ u64 z)%Z.
Proof. unfold u64. apply Z.mod_pos_bound. lia. Qed.

(** The constructor without a coordinate scheme, for a matrix with a
    dense outer and a compressed inner dimension in identity order. *)
Lemma newSparseTensor_fresh_matrix {V} (zero : V) lim
    (std_sort : list (Element V) → list (Element V)) m n :
  matrix_fits lim m n →
  newSparseTensor zero lim std_sort 2 [m; n] [0; 1] [kDense; kCompressed] None
  = Done (mkStorage [m; n] [0; 1] [0; 0] [[]; [0]] [[]; []] []).
Proof.
  intros [HP HI]. unfold newSparseTensor, new_SparseTensorStorage.
  change (permute_sizes 2 [m; n] [0; 1]) with [m; n].
  change (length [m; n]) with 2.
  unfold capacity_hints.
  change (([kDense; kCompressed] : list DimLevelType) !!! 0) with kDense.
  change (([kDense; kCompressed] : list DimLevelType) !!! 1) with kCompressed.
  change (([m; n] : list nat) !!! 0) with m.
  change (([m; n] : list nat) !!! 1) with n.
  cbv iota.
  set (sz0 := u64 (1 * Z.of_nat m)).
  set (sz := u64 (sz0 * Z.of_nat n)).
  assert (0 ≤ sz0 ≤ Z.of_nat m)%Z as H0.
  { split; [apply u64_nonneg|]. unfold sz0.
    etrans; [apply u64_le; lia|]. lia. }
  assert (0 ≤ sz ≤ Z.of_nat m * Z.of_nat n)%Z as H1.
  { split; [apply u64_nonneg|]. unfold sz.
    etrans; [apply u64_le; nia|]. nia. }
  assert (u64 (sz + 1) ≤ sz + 1)%Z as H2 by (apply u64_le; lia).
  rewrite !reserve_fits by lia. reflexivity.
Qed.

(** The constructor never builds a matrix storage for which it cannot
    reserve: for extents whose product does not wrap around in 64
    bits, [newSparseTensor] without a coordinate scheme returns the
    empty storage when [m * n + 1] pointers and [m * n] indices are
    within the limits of the vectors, and is left by the exception of
    [reserve] otherwise. *)
Theorem newSparseTensor_matrix_capacity {V} (zero : V) lim
    (std_sort : list (Element V) → list (Element V)) m n :
  (Z.of_nat m * Z.of_nat n < 2 ^ 64 - 1)%Z →
  (matrix_fits lim m n
   ∧ newSparseTensor zero lim std_sort 2 [m; n] [0; 1]
       [kDense; kCompressed] None
     = Done (mkStorage [m; n] [0; 1] [0; 0] [[]; [0]] [[]; []] []))
  ∨ (¬ matrix_fits lim m n
     ∧ newSparseTensor zero lim std_sort 2 [m; n] [0; 1]
         [kDense; kCompressed] None
       = CapacityError).
Proof.
  intros Hprod.
  destruct (decide (Z.of_nat m * Z.of_nat n < limit_P lim
                    ∧ Z.of_nat m * Z.of_nat n ≤ limit_I lim)%Z)
    as [Hfits|Hnot].
  { left. split; [done|]. by apply newSparseTensor_fresh_matrix. }
  right. split; [done|].
  unfold newSparseTensor, new_SparseTensorStorage.
  change (permute_sizes 2 [m; n] [0; 1]) with [m; n].
  change (length [m; n]) with 2.
  unfold capacity_hints.
  change (([kDense; kCompressed] : list DimLevelType) !!! 0) with kDense.
  change (([kDense; kCompressed] : list DimLevelType) !!! 1) with kCompressed.
  change (([m; n] : list nat) !!! 0) with m.
  change (([m; n] : list nat) !!! 1) with n.
  cbv iota.
  assert (u64 (u64 (1 * Z.of_nat m) * Z.of_nat n)
          = (Z.of_nat m * Z.of_nat n)%Z) as ->.
  { destruct (decide (n = 0)) as [->|Hn].
    - by rewrite !Z.mul_0_r.
    - unfold u64. rewrite (Z.mod_small (1 * Z.of_nat m)) by nia.
      rewrite Z.mod_small by nia. lia. }
  assert (u64 (Z.of_nat m * Z.of_nat n + 1)
          = (Z.of_nat m * Z.of_nat n + 1)%Z) as ->.
  { unfold u64. apply Z.mod_small. lia. }
  unfold reserve.
  destruct (Z.ltb_spec (limit_P lim) (Z.of_nat m * Z.of_nat n + 1));
    [done|].
  destruct (Z.ltb_spec (limit_I lim) (Z.of_nat m * Z.of_nat n));
    [done|].
  lia.
Qed.

(** A 2 x 3 matrix: seven pointers and six indices are within the
    limits. *)
Lemma newSparseTensor_matrix_capacity_witness :
  (matrix_fits limits_64 2 3
   ∧ newSparseTensor 0%Z limits_64 (λ els, els) 2 [2; 3] [0; 1]
       [kDense; kCompressed] None
     = Done (mkStorage [2; 3] [0; 1] [0; 0] [[]; [0]] [[]; []] []))
  ∨ (¬ matrix_fits limits_64 2 3
     ∧ newSparseTensor 0%Z limits_64 (λ els, els) 2 [2; 3] [0; 1]
         [kDense; kCompressed] None
       = CapacityError).
Proof.
  apply (newSparseTensor_matrix_capacity 0%Z limits_64 (λ els, els) 2 3).
  lia.
Defined.

Section Ingestion.
Context {V : Type} (zero : V) (lim : VectorLimits).
Context (std_sort : list (Element V) → list (Element V)).
Implicit Types (t : SparseTensorStorage V) (els : list (Element V)).
Implicit Types (shape inds : list nat) (vals : list V).

#[local] Hint Extern 0 (Inhabited V) =>
  exact (value_inhabited zero) : typeclass_instances.
#[local] Hint Extern 0 (Inhabited (Element V)) =>
  exact (element_inhabited zero) : typeclass_instances.

Lemma lexOrder_loop_irrefl (i1 : list nat) n r :
  lexOrder_loop i1 i1 n r = false.
Proof.
  revert r. induction n as [|n IH]; intros r; simpl; [done|].
  by rewrite Nat.eqb_refl.
Qed.

Lemma StronglySorted_lookup_total (R : Element V → Element V → Prop) els a b :
  StronglySorted R els → a < b → b < length els →
  R (els !!! a) (els !!! b).
Proof.
  intros Hs. revert a b.
  induction Hs as [|e l Hs IH Hall]; intros a b Hab Hb; simpl in *; [lia|].
  destruct b as [|b]; [lia|]. destruct a as [|a].
  - simpl. apply (Forall_lookup_total_1 _ _ b Hall). lia.
  - apply IH; lia.
Qed.

Lemma coo_rows_S rank vals inds i n :
  coo_rows zero rank vals inds i (S n)
  = mkElement ((λ r, inds !!! (i * rank + r)) <$> seq 0 rank) (vals !!! i)
    :: coo_rows zero rank vals inds (S i) n.
Proof. done. Qed.

Lemma coo_rows_bounded rank shape vals inds i n :
  (∀ j r, j < i + n → r < rank → inds !!! (j * rank + r) < shape !!! r) →
  Forall (λ e, length (e_indices e) = rank
               ∧ ∀ r, r < rank → e_indices e !!! r < shape !!! r)
         (coo_rows zero rank vals inds i n).
Proof.
  intros Hb. apply Forall_fmap, Forall_forall. intros j Hj.
  apply list_elem_of_In, in_seq in Hj. simpl. split.
  - by rewrite length_fmap, length_seq.
  - intros r Hr.
    rewrite (list_lookup_total_fmap (λ r, inds !!! (j * rank + r)))
      by (by rewrite length_seq).
    rewrite lookup_total_seq_lt by done. apply Hb; lia.
Qed.

(** The [add] loop accepts every in-bounds row. *)
Lemma add_elements_in_bounds rank vals inds n i (c : SparseTensorCOO V) :
  length (coo_sizes c) = rank →
  (∀ j r, j < i + n → r < rank →
          inds !!! (j * rank + r) < coo_sizes c !!! r) →
  add_elements zero rank vals inds n i (i * rank) c
  = Done (mkCOO (coo_sizes c)
                (elements c ++ coo_rows zero rank vals inds i n)).
Proof.
  revert i c. induction n as [|n IH]; intros i c Hlen Hb.
  - simpl. unfold coo_rows. simpl. rewrite app_nil_r. by destruct c.
  - simpl. unfold coo_add.
    rewrite Hlen, length_fmap, length_seq, Nat.eqb_refl. simpl.
    assert (forallb
              (λ r, ((λ r0, inds !!! (i * rank + r0)) <$> seq 0 rank) !!! r
                    <? coo_sizes c !!! r) (seq 0 rank) = true) as ->.
    { apply forallb_forall. intros r Hr. apply in_seq in Hr.
      rewrite (list_lookup_total_fmap (λ r0, inds !!! (i * rank + r0)))
        by (rewrite length_seq; lia).
      rewrite lookup_total_seq_lt by lia. apply Nat.ltb_lt. apply Hb; lia. }
    simpl. replace (i * rank + rank) with (S i * rank) by lia.
    rewrite IH; simpl; [|done|intros j r ? ?; apply Hb; lia].
    by rewrite coo_rows_S, <- app_assoc.
Qed.

(** With every dimension compressed the constructor reserves, for each
    dimension, its extent plus one pointers and its extent indices. *)
Lemma capacity_hints_compressed szs rank n r b :
  r + n = rank → 0 < n →
  (∀ d, d < rank →
        (Z.of_nat (szs !!! d) < limit_P lim)%Z
        ∧ (Z.of_nat (szs !!! d) ≤ limit_I lim)%Z) →
  capacity_hints lim szs (replicate rank kCompressed) n r b 1%Z
  = Done (false, 1%Z).
Proof.
  revert r b. induction n as [|n IH]; intros r b Hr Hn Hfits; [lia|].
  simpl. rewrite lookup_total_replicate_2 by lia.
  destruct (Hfits r ltac:(lia)) as [HP HI].
  set (sz := u64 (1 * Z.of_nat (szs !!! r))).
  assert (0 ≤ sz ≤ Z.of_nat (szs !!! r))%Z as Hsz.
  { unfold sz, u64. split; [apply Z.mod_pos_bound; lia|].
    etrans; [apply Z.mod_le; lia|]. lia. }
  assert (u64 (sz + 1) ≤ sz + 1)%Z as Hsz1 by (apply u64_le; lia).
  rewrite !reserve_fits by lia. simpl.
  destruct n as [|n]; [done|]. apply IH; [lia|lia|done].
Qed.

Lemma level_closed_initial size : level_closed size [0] [].
Proof.
  split; [split|]; simpl; try done; try lia.
  - intros i j ? ?. replace i with 0 by lia. replace j with 0 by lia. done.
  - intros a b ? ? ?. lia.
Qed.

(** The storage built from a coordinate list whose rows are within the
    shape: all its dimensions are compressed and at rest, and it stores
    the value of the first element of every run of equal coordinates of
    the sorted list. *)
Lemma from_coordinates_tree rank nse shape vals inds :
  sorts_by_lexOrder std_sort →
  0 < rank → length shape = rank →
  (∀ r, r < rank →
        (Z.of_nat (shape !!! r) < limit_P lim)%Z
        ∧ (Z.of_nat (shape !!! r) ≤ limit_I lim)%Z) →
  (Z.of_nat nse ≤ limit_E lim)%Z → (Z.of_nat nse ≤ limit_V lim)%Z →
  (∀ j r, j < nse → r < rank → inds !!! (j * rank + r) < shape !!! r) →
  ∃ t, convertToMLIRSparseTensor zero lim std_sort rank nse shape vals inds
       = Done t
       ∧ compressed_tree t ∧ rev t = seq 0 rank ∧ sizes t = shape
       ∧ values t
         = e_value <$> run_heads (std_sort (coo_rows zero rank vals inds 0 nse)).
Proof.
  intros Hsort Hrank Hshape Hfits HE HV Hb. unfold convertToMLIRSparseTensor.
  assert (permute_sizes rank shape (seq 0 rank) = shape) as Hperm.
  { rewrite <- Hshape. apply permute_sizes_identity. }
  assert (newSparseTensorCOO lim rank shape (seq 0 rank) nse
          = Done (mkCOO shape ([] : list (Element V)))) as ->.
  { unfold newSparseTensorCOO. rewrite Hperm.
    destruct (nse =? 0); [done|]. by rewrite reserve_fits by lia. }
  simpl mbind.
  pose proof (add_elements_in_bounds rank vals inds nse 0
                (mkCOO shape [])) as Hadd.
  simpl in Hadd. rewrite Hadd by (done || by intros).
  simpl. unfold newSparseTensor. simpl.
  rewrite Hshape, Nat.eqb_refl. simpl.
  assert (forallb (λ r, (shape !!! r =? 0)
                        || (shape !!! (seq 0 rank !!! r) =? shape !!! r))
                  (seq 0 rank) = true) as ->.
  { apply forallb_forall. intros r Hr. apply in_seq in Hr.
    rewrite lookup_total_seq_lt by lia. simpl.
    rewrite Nat.eqb_refl. apply orb_true_r. }
  simpl. unfold new_SparseTensorStorage.
  rewrite Hshape, capacity_hints_compressed by (done || lia). simpl.
  rewrite rev_identity.
  destruct (Hsort rank (coo_rows zero rank vals inds 0 nse)) as [Hlen _].
  { eapply Forall_impl;
      [apply (coo_rows_bounded rank shape vals inds 0 nse);
       intros; apply Hb; lia|].
    by intros e [? _]. }
  rewrite reserve_fits; cycle 1.
  { rewrite Hlen. unfold coo_rows. rewrite length_fmap, length_seq. lia. }
  simpl mbind. clear Hlen.
  set (els := std_sort (coo_rows zero rank vals inds 0 nse)).
  set (ptrs := (λ r, match replicate rank kCompressed !!! r with
                     | kCompressed => [0]
                     | _ => []
                     end) <$> seq 0 rank).
  set (t0 := mkStorage shape (seq 0 rank) (replicate rank 0) ptrs
                       (replicate rank []) ([] : list V)).
  assert (∀ d, d < rank → ptrs !!! d = [0]) as Hptrs.
  { intros d Hd. unfold ptrs.
    rewrite (list_lookup_total_fmap
               (λ r, match replicate rank kCompressed !!! r with
                     | kCompressed => [0]
                     | _ => []
                     end)) by (by rewrite length_seq).
    rewrite lookup_total_seq_lt by done. simpl.
    by rewrite lookup_total_replicate_2. }
  assert (getRank t0 = rank) as Hr0 by done.
  (* the sorted elements form one segment at dimension 0 *)
  pose proof (coo_rows_bounded rank shape vals inds 0 nse
                ltac:(intros; apply Hb; lia)) as Hrows.
  destruct (Hsort rank (coo_rows zero rank vals inds 0 nse)) as [Hp Hs].
  { eapply Forall_impl; [apply Hrows|]. by intros e [? _]. }
  fold els in Hp, Hs. rewrite <- Hp in Hrows.
  assert (coo_segment zero rank shape els 0 (length els) 0) as Hseg.
  { split.
    - lia.
    - intros a _ Ha. by destruct (Forall_lookup_total_1 _ _ a Hrows Ha).
    - intros a r _ Ha Hr.
      destruct (Forall_lookup_total_1 _ _ a Hrows Ha) as [_ Hbound]. auto.
    - intros a r _ _ Hr. lia.
    - intros a b _ Hab Hb'. destruct (decide (a = b)) as [->|].
      + apply lexOrder_loop_irrefl.
      + apply (StronglySorted_lookup_total _ els a b Hs); lia. }
  unfold fromCOO. rewrite Hr0.
  destruct (Nat.ltb_spec rank 0); [lia|]. rewrite Nat.sub_0_r.
  destruct (fromCOO_rec_levels zero rank els 0 (length els) 0 t0)
    as (t & Hdone & Hlev & Hunits & _ & Hsb & Hvals).
  { done. }
  { unfold t0, ptrs. simpl. by rewrite length_fmap, length_seq. }
  { unfold t0. simpl. by rewrite length_replicate. }
  { by rewrite Hr0. }
  { lia. }
  { intros d' _ Hd'. rewrite Hr0 in Hd' |- *. unfold t0 at 1 2 3. simpl.
    rewrite Hptrs, lookup_total_replicate_2 by done.
    split_and!; [apply level_closed_initial| |simpl; lia].
    unfold units. rewrite Hr0. simpl.
    destruct (Nat.ltb_spec (S d') rank); [|done]. by rewrite Hptrs. }
  exists t. split; [done|].
  destruct Hsb as (Hsz & Hrev & _ & Hlp & Hli & _).
  assert (getRank t = rank) as Hrt by (unfold getRank; by rewrite Hsz).
  split_and!; [|by rewrite Hrev|by rewrite Hsz|]; cycle 1.
  { rewrite Hvals. simpl. unfold segment.
    by rewrite drop_0, Nat.sub_0_r, firstn_all. }
  split_and!.
  - lia.
  - rewrite Hlp, Hrt. unfold t0, ptrs. simpl.
    by rewrite length_fmap, length_seq.
  - rewrite Hli, Hrt. unfold t0. simpl. by rewrite length_replicate.
  - done.
  - unfold units in Hunits. rewrite Hrt, Hr0 in Hunits.
    destruct (Nat.ltb_spec 0 rank); [|lia].
    unfold t0 at 1 in Hunits. simpl in Hunits.
    rewrite Hptrs in Hunits by done. simpl in Hunits.
    destruct (Hlev 0) as ([[Hne _] _] & _); lia.
Qed.

End Ingestion.

(** ** Insertion sort meets the promise of [std::sort] *)

Section InsertionSort.
Context {V : Type}.
Implicit Types (e x : Element V) (l : list (Element V)).

Lemma lexOrder_loop_asym (a b : list nat) n r :
  lexOrder_loop a b n r = true → lexOrder_loop b a n r = false.
Proof.
  revert r. induction n as [|n IH]; intros r; simpl; [done|].
  destruct (Nat.eqb_spec (a !!! r) (b !!! r)) as [Heq|Hne].
  - rewrite Heq, Nat.eqb_refl. apply IH.
  - intros Hlt%Nat.ltb_lt.
    destruct (Nat.eqb_spec (b !!! r) (a !!! r)); [lia|].
    apply Nat.ltb_ge. lia.
Qed.

Lemma lexOrder_loop_negtrans (a b c : list nat) n r :
  lexOrder_loop b a n r = false → lexOrder_loop c b n r = false →
  lexOrder_loop c a n r = false.
Proof.
  revert r. induction n as [|n IH]; intros r; simpl; [done|].
  destruct (Nat.eqb_spec (b !!! r) (a !!! r)) as [Hba|Hba];
    destruct (Nat.eqb_spec (c !!! r) (b !!! r)) as [Hcb|Hcb].
  - rewrite Hcb, Hba, Nat.eqb_refl. apply IH.
  - intros _ Hlt%Nat.ltb_ge.
    destruct (Nat.eqb_spec (c !!! r) (a !!! r)); [lia|].
    apply Nat.ltb_ge. lia.
  - intros Hlt%Nat.ltb_ge _.
    destruct (Nat.eqb_spec (c !!! r) (a !!! r)); [lia|].
    apply Nat.ltb_ge. lia.
  - intros Hlt1%Nat.ltb_ge Hlt2%Nat.ltb_ge.
    destruct (Nat.eqb_spec (c !!! r) (a !!! r)); [lia|].
    apply Nat.ltb_ge. lia.
Qed.

Lemma insert_sorted_perm e l : insert_sorted e l ≡ₚ e :: l.
Proof.
  induction l as [|x l IH]; simpl; [done|].
  destruct (lexOrder x e); [|done].
  rewrite IH. apply perm_swap.
Qed.

Lemma insertion_sort_perm l : insertion_sort l ≡ₚ l.
Proof.
  induction l as [|e l IH]; simpl; [done|].
  unfold insertion_sort in *. simpl. by rewrite insert_sorted_perm, IH.
Qed.

Lemma insert_sorted_sorted rank e l :
  length (e_indices e) = rank →
  Forall (λ x, length (e_indices x) = rank) l →
  StronglySorted (λ e1 e2, lexOrder e2 e1 = false) l →
  StronglySorted (λ e1 e2, lexOrder e2 e1 = false) (insert_sorted e l).
Proof.
  intros He Hall Hs. induction Hs as [|x l Hs IH Hx]; simpl.
  - by repeat constructor.
  - apply Forall_cons in Hall as [Hxr Hall].
    destruct (lexOrder x e) eqn:Hxe.
    + constructor; [by apply IH|].
      rewrite insert_sorted_perm. constructor; [|done].
      unfold lexOrder in *. rewrite He. rewrite Hxr in Hxe.
      by apply lexOrder_loop_asym.
    + constructor; [by constructor|].
      constructor; [done|].
      eapply Forall_impl; [apply (List.Forall_and Hx Hall)|].
      intros y Hy. simpl in Hy. destruct Hy as [Hyx Hyr].
      unfold lexOrder in *. rewrite Hyr in *. rewrite Hxr in Hxe.
      by apply (lexOrder_loop_negtrans _ (e_indices x)).
Qed.

Lemma insertion_sort_sorts : sorts_by_lexOrder (@insertion_sort V).
Proof.
  intros rank l Hall. split; [apply insertion_sort_perm|].
  induction Hall as [|e l He Hall IH]; [constructor|].
  unfold insertion_sort in *. simpl.
  apply (insert_sorted_sorted rank); [done| |done].
  by rewrite (insertion_sort_perm l).
Qed.

End InsertionSort.

(** ** [from_coordinates] and [verify] *)

Section FromCoordinates.
Context {V : Type} (zero : V) (lim : VectorLimits).
Context (std_sort : list (Element V) → list (Element V)).
Implicit Types (shape inds : list nat) (vals : list V).

(** C4, as amended: a tensor built by [from_coordinates] from an
    in-bounds, duplicate-free coordinate list passes [verify] when the
    rank is at least one, every extent is positive, the product of
    the extents plus one fits in 64 bits and the sizes that the
    construction reserves are within the limits of the vectors (every
    extent plus one for the pointers, every extent for the indices, the
    number of elements for the elements and the values); it stores one
    value per element. *)
Theorem from_coordinates_verifies rank nse shape vals inds :
  sorts_by_lexOrder std_sort →
  0 < rank → length shape = rank →
  (∀ r, r < rank → 0 < shape !!! r) →
  (extent_product shape < 2 ^ 64 - 1)%Z →
  (∀ r, r < rank →
        (Z.of_nat (shape !!! r) < limit_P lim)%Z
        ∧ (Z.of_nat (shape !!! r) ≤ limit_I lim)%Z) →
  (Z.of_nat nse ≤ limit_E lim)%Z → (Z.of_nat nse ≤ limit_V lim)%Z →
  (∀ j r, j < nse → r < rank → inds !!! (j * rank + r) < shape !!! r) →
  NoDup (e_indices <$> coo_rows zero rank vals inds 0 nse) →
  ∃ t, convertToMLIRSparseTensor zero lim std_sort rank nse shape vals inds
       = Done t
       ∧ verify t = true ∧ length (values t) = nse.
Proof.
  intros Hsort Hrank Hshape Hpos Hprod Hfits HE HV Hb Hnd.
  destruct (from_coordinates_tree zero lim std_sort rank nse shape vals inds)
    as (t & Hdone & Htree & Hrev & Hsz & Hvals); [done..|].
  assert (getRank t = rank) as Hrt by (unfold getRank; by rewrite Hsz).
  exists t. split_and!; [done| |].
  - apply verify_compressed_tree; [done| | |].
    + rewrite Hrev, Hrt. apply verify_rev_identity.
    + rewrite Hrt, Hsz. done.
    + by rewrite Hsz.
  - destruct (Hsort rank (coo_rows zero rank vals inds 0 nse)) as [Hp _].
    { eapply Forall_impl;
        [apply (coo_rows_bounded zero rank shape vals inds 0 nse)|].
      - intros j r ? ?. apply Hb; lia.
      - by intros e [? _]. }
    rewrite Hvals, run_heads_NoDup by (by rewrite Hp).
    rewrite length_fmap, Hp. unfold coo_rows.
    by rewrite length_fmap, length_seq.
Qed.

(** C5, as amended: a coordinate source with duplicates is neither
    rejected nor merged nor accumulated.  Of every run of equal
    coordinates in the sorted source only the first element's value is
    stored, and the tensor passes [verify]; the sizes that the
    construction reserves are within the limits of the vectors. *)
Theorem from_coordinates_drops_duplicates rank nse shape vals inds :
  sorts_by_lexOrder std_sort →
  0 < rank → length shape = rank → 0 < nse →
  (extent_product shape < 2 ^ 64 - 1)%Z →
  (∀ r, r < rank →
        (Z.of_nat (shape !!! r) < limit_P lim)%Z
        ∧ (Z.of_nat (shape !!! r) ≤ limit_I lim)%Z) →
  (Z.of_nat nse ≤ limit_E lim)%Z → (Z.of_nat nse ≤ limit_V lim)%Z →
  (∀ j r, j < nse → r < rank → inds !!! (j * rank + r) < shape !!! r) →
  ∃ t, convertToMLIRSparseTensor zero lim std_sort rank nse shape vals inds
       = Done t
       ∧ values t
         = e_value <$> run_heads (std_sort (coo_rows zero rank vals inds 0 nse))
       ∧ verify t = true.
Proof.
  intros Hsort Hrank Hshape Hnse Hprod Hfits HE HV Hb.
  destruct (from_coordinates_tree zero lim std_sort rank nse shape vals inds)
    as (t & Hdone & Htree & Hrev & Hsz & Hvals); [done..|].
  assert (getRank t = rank) as Hrt by (unfold getRank; by rewrite Hsz).
  exists t. split_and!; [done|done|].
  apply verify_compressed_tree; [done| | |].
  - rewrite Hrev, Hrt. apply verify_rev_identity.
  - rewrite Hrt, Hsz. intros r Hr. specialize (Hb 0 r Hnse Hr). lia.
  - by rewrite Hsz.
Qed.

End FromCoordinates.

(** The matrix of the runtime's documentation,
    [[1 0 0] [0 5 3]], given as three coordinates. *)
Lemma from_coordinates_verifies_witness :
  ∃ t, convertToMLIRSparseTensor 0%Z limits_64 insertion_sort 2 3 [2; 3]
         [1; 5; 3]%Z [0; 0; 1; 1; 1; 2] = Done t
       ∧ verify t = true ∧ length (values t) = 3.
Proof.
  apply from_coordinates_verifies.
  - apply insertion_sort_sorts.
  - lia.
  - reflexivity.
  - intros [|[|r]] Hr; simpl; lia.
  - vm_compute. reflexivity.
  - intros [|[|r]] Hr; simpl; lia.
  - simpl. lia.
  - simpl. lia.
  - intros [|[|[|j]]] [|[|r]] Hj Hr; simpl; lia.
  - apply (bool_decide_unpack _). vm_compute. reflexivity.
Defined.

(** An empty coordinate list for a vector of extent zero is in bounds
    and free of duplicates, and the tensor built from it fails
    [verify]: C4 does not hold without positive extents. *)
Lemma from_coordinates_zero_extent_rejected :
  (∀ j r, j < 0 → r < 1 → ([] : list nat) !!! (j * 1 + r) < [0] !!! r)
  ∧ NoDup (e_indices <$> coo_rows 0%Z 1 [] [] 0 0)
  ∧ ∃ t, convertToMLIRSparseTensor 0%Z limits_64 insertion_sort 1 0 [0] [] []
         = Done t
         ∧ verify t = false.
Proof.
  split_and!.
  - intros j r Hj. lia.
  - constructor.
  - eexists. split; reflexivity.
Qed.

(** The same coordinate twice, with the values 5 and 7. *)
Lemma from_coordinates_drops_duplicates_witness :
  ∃ t, convertToMLIRSparseTensor 0%Z limits_64 insertion_sort 2 2 [1; 1]
         [5; 7]%Z [0; 0; 0; 0] = Done t
       ∧ values t
         = e_value <$> run_heads (insertion_sort
                                    (coo_rows 0%Z 2 [5; 7]%Z [0; 0; 0; 0] 0 2))
       ∧ verify t = true.
Proof.
  apply from_coordinates_drops_duplicates.
  - apply insertion_sort_sorts.
  - lia.
  - reflexivity.
  - lia.
  - vm_compute. reflexivity.
  - intros [|[|r]] Hr; simpl; lia.
  - simpl. lia.
  - simpl. lia.
  - intros [|[|j]] [|[|r]] Hj Hr; simpl; lia.
Defined.

(** The duplicate is not accumulated: the tensor holds the single value
    5, with one index per dimension, and it passes [verify]. *)
Lemma from_coordinates_duplicate_not_accumulated :
  convertToMLIRSparseTensor 0%Z limits_64 insertion_sort 2 2 [1; 1]
    [5; 7]%Z [0; 0; 0; 0]
  = Done (mkStorage [1; 1] [0; 1] [0; 0] [[0; 1]; [0; 1]] [[0]; [0]] [5%Z])
  ∧ verify (mkStorage [1; 1] [0; 1] [0; 0] [[0; 1]; [0; 1]] [[0]; [0]]
                      [5%Z]) = true.
Proof. split; reflexivity. Qed.

(** ** The number of stored values *)

(** C7: on a storage object that fits its type, [num_vals] is the last
    entry of the pointer buffer of the compressed dimension. *)
Theorem num_vals_last_pointer {V} (ty : TensorType) (t : SparseTensorStorage V) :
  fits_type ty t →
  last (pointers t !!! (ty_rank ty - 1)) = Some (num_vals ty t).
Proof.
  intros (Hrank & Hsizes & Hlen).
  rewrite last_lookup, Hlen. unfold num_vals.
  replace (Init.Nat.pred ((if ty_rank ty =? 1 then 1 else sizes t !!! 0) + 1))
    with (if ty_rank ty =? 1 then 1 else sizes t !!! 0) by lia.
  assert ((if ty_rank ty =? 1 then 1
           else tensor_dim ty t (if hasRowOrdering ty then 0 else 1))
          = (if ty_rank ty =? 1 then 1 else sizes t !!! 0)) as ->.
  { destruct (ty_rank ty =? 1); [done|].
    unfold tensor_dim, hasRowOrdering. by destruct (ty_ordering ty). }
  apply list_lookup_lookup_total_lt. lia.
Qed.

(** The 2x4 operand [A] of the multiplication test, in CSR form. *)
Lemma num_vals_last_pointer_witness :
  last (pointers (mkStorage [2; 4] [0; 1] [] [[]; [0; 2; 3]] [[]; [1; 2; 3]]
                            [1; 2; 3]%Z) !!! (ty_rank CSR - 1))
  = Some (num_vals CSR (mkStorage [2; 4] [0; 1] [] [[]; [0; 2; 3]]
                                  [[]; [1; 2; 3]] [1; 2; 3]%Z)).
Proof.
  apply num_vals_last_pointer. split_and!; [by right|reflexivity|reflexivity].
Defined.

(** ** Duplication *)

Section Duplicate.
Context {V : Type} (zero : V).
Implicit Types (σ : store V) (t : SparseTensorStorage V) (m : mutation V).

(** A mutation of the object behind [h] leaves every other object
    alone, unless it is a swap with that object. *)
Lemma mutate_frame h m σ h0 :
  h0 ≠ h → swap_partner m ≠ Some h0 →
  mutate zero h m σ !! h0 = σ !! h0.
Proof.
  intros Hne Hpartner.
  assert (∀ A (get : SparseTensorStorage V → A) set o,
            o ≠ h0 → swap_member get set h o σ !! h0 = σ !! h0) as Hswap.
  { intros A get set o Ho. unfold swap_member.
    destruct (σ !! h) as [th|]; [|done].
    destruct (σ !! o) as [to|]; [|done].
    by rewrite !lookup_insert_ne by done. }
  destruct m; simpl in *;
    try (by rewrite lookup_alter_ne by done);
    apply Hswap; congruence.
Qed.

Lemma mutate_all_frame h ms σ h0 :
  h0 ≠ h → Forall (λ m, swap_partner m ≠ Some h0) ms →
  foldl (λ σ' m, mutate zero h m σ') σ ms !! h0 = σ !! h0.
Proof.
  intros Hne Hall. revert σ.
  induction Hall as [|m ms Hm _ IH]; intros σ; simpl; [done|].
  by rewrite IH, mutate_frame.
Qed.

(** C6: [duplicate(T)] is a new object that owns copies of the sizes,
    the dimension order and the pointer, index and value buffers of
    [T]; whatever is then done to the buffers of the duplicate leaves
    [T] as it was, and conversely. *)
Theorem dup_tensor_independent σ h t σ' h' :
  σ !! h = Some t → dup_tensor σ h = Some (σ', h') →
  h' ≠ h
  ∧ σ' !! h = Some t
  ∧ (∃ t', σ' !! h' = Some t'
           ∧ sizes t' = sizes t ∧ rev t' = rev t
           ∧ pointers t' = pointers t ∧ indices t' = indices t
           ∧ values t' = values t)
  ∧ (∀ ms, Forall (λ m, swap_partner m ≠ Some h) ms →
           foldl (λ σ0 m, mutate zero h' m σ0) σ' ms !! h = Some t)
  ∧ (∀ ms, Forall (λ m, swap_partner m ≠ Some h') ms →
           foldl (λ σ0 m, mutate zero h m σ0) σ' ms !! h' = σ' !! h').
Proof.
  intros Hh. unfold dup_tensor. rewrite Hh. simpl. intros [= <- <-].
  assert (fresh (dom σ) ≠ h) as Hfresh.
  { intros Heq. apply (is_fresh (dom σ)). rewrite Heq.
    apply elem_of_dom. eauto. }
  split_and!.
  - done.
  - by rewrite lookup_insert_ne.
  - exists (dup t). by rewrite lookup_insert_eq.
  - intros ms Hms. rewrite mutate_all_frame by done.
    by rewrite lookup_insert_ne.
  - intros ms Hms. by rewrite mutate_all_frame.
Qed.

End Duplicate.

(** The operand [A] of the multiplication test behind handle 0: stores
    into the values and the pointers of its duplicate and a resize of
    the duplicate's indices leave [A] unchanged. *)
Lemma dup_tensor_independent_witness :
  let t := mkStorage [2; 4] [0; 1] [] [[]; [0; 2; 3]] [[]; [1; 2; 3]]
                     [1; 2; 3]%Z in
  let σ : store Z := {[ 0 := t ]} in
  ∃ σ' h', dup_tensor σ 0 = Some (σ', h')
    ∧ h' ≠ 0
    ∧ foldl (λ σ0 m, mutate 0%Z h' m σ0) σ'
            [StoreValue 0 9%Z; StorePointer 1 1 0; ResizeIndex 1 0] !! 0
      = Some t.
Proof.
  intros t σ.
  destruct (dup_tensor σ 0) as [[σ' h']|] eqn:Hdup; [|done].
  exists σ', h'.
  destruct (dup_tensor_independent 0%Z σ 0 t σ' h') as (Hne & _ & _ & Hframe & _);
    [reflexivity|done|].
  split_and!; [done|done|].
  apply Hframe. by repeat constructor.
Defined.

(** ** Layout conversion: the shortcut *)

(** C10: when the requested layout is the layout the tensor already
    has, the conversion returns its operand: the same handle, with no
    object created and no buffer touched. *)
Theorem convert_layout_same_type_identity {V} (zero : V) (σ : store V)
    (ty : TensorType) (h : nat) :
  ConvertLayoutOp zero σ ty ty h = Some (σ, h)
  ∧ ∀ t, convert_layout zero ty ty t = t.
Proof.
  unfold ConvertLayoutOp, convert_layout.
  split; [|intros t]; by rewrite decide_True.
Qed.

(** ** Loops over index ranges *)

Lemma fold_left_flat_map {A B C} (f : A → B → A) (g : C → list B) l a :
  fold_left f (flat_map g l) a
  = fold_left (λ a x, fold_left f (g x) a) l a.
Proof.
  revert a. induction l as [|x l IH]; intros a; simpl; [done|].
  by rewrite fold_left_app, IH.
Qed.

Lemma fold_left_fmap {A B C} (f : A → B → A) (h : C → B) l a :
  fold_left f (h <$> l) a = fold_left (λ a x, f a (h x)) l a.
Proof. revert a. induction l as [|x l IH]; intros a; simpl; [done|]. apply IH. Qed.

Lemma fold_left_seq_S {A} (f : A → nat → A) n a :
  fold_left f (seq 0 (S n)) a = f (fold_left f (seq 0 n) a) n.
Proof. by rewrite seq_S, fold_left_app. Qed.

Lemma fold_left_ext_in {A B} (f g : A → B → A) l a :
  (∀ a x, x ∈ l → f a x = g a x) → fold_left f l a = fold_left g l a.
Proof.
  revert a. induction l as [|x l IH]; intros a Hext; simpl; [done|].
  rewrite Hext by (by left). apply IH. intros a' y Hy. apply Hext. by right.
Qed.

Lemma flat_map_ext_in {A B} (f g : A → list B) l :
  (∀ x, x ∈ l → f x = g x) → flat_map f l = flat_map g l.
Proof.
  induction l as [|x l IH]; intros Hext; simpl; [done|].
  rewrite Hext by (by left). f_equal. apply IH. intros y Hy. apply Hext. by right.
Qed.

Lemma flat_map_fmap {A B C} (h : B → C) (g : A → list B) l :
  flat_map (λ x, h <$> g x) l = h <$> flat_map g l.
Proof.
  induction l as [|x l IH]; simpl; [done|]. by rewrite fmap_app, IH.
Qed.

(** Segments that start at zero and follow one another enumerate the
    positions in order. *)
Lemma flat_map_segments (ptrs : list nat) n :
  ptrs !!! 0 = 0 →
  (∀ i j, i ≤ j → j ≤ n → ptrs !!! i ≤ ptrs !!! j) →
  flat_map (λ o, seq (ptrs !!! o) (ptrs !!! (o + 1) - ptrs !!! o)) (seq 0 n)
  = seq 0 (ptrs !!! n).
Proof.
  intros Hfirst Hsorted. induction n as [|n IH].
  - simpl. by rewrite Hfirst.
  - rewrite seq_S, flat_map_app, IH; cycle 1.
    { intros i j ? ?. apply Hsorted; lia. }
    simpl. rewrite app_nil_r.
    replace (n + 1) with (S n) by lia.
    pose proof (Hsorted n (S n) ltac:(lia) ltac:(lia)).
    rewrite <- seq_app. f_equal. lia.
Qed.

(** ** The pointer loops of the counting sort *)

Lemma init_pointers_spec n (p : list nat) :
  n ≤ length p →
  length (init_pointers n p) = length p
  ∧ (∀ c, c < n → init_pointers n p !!! c = 0)
  ∧ (∀ c, n ≤ c → init_pointers n p !!! c = p !!! c).
Proof.
  unfold init_pointers. induction n as [|n IH]; intros Hn.
  - simpl. split_and!; [done| |done]. intros c ?. lia.
  - rewrite fold_left_seq_S. destruct IH as (Hlen & Hlow & Hhigh); [lia|].
    rewrite length_insert. split_and!; [done| |].
    + intros c Hc. destruct (decide (c = n)) as [->|].
      * rewrite list_lookup_total_insert_eq; [done|lia].
      * rewrite list_lookup_total_insert_ne by done. apply Hlow. lia.
    + intros c Hc. rewrite list_lookup_total_insert_ne by lia.
      apply Hhigh. lia.
Qed.

(** Counting the keys [ks] into [p]. *)
Lemma count_keys_spec (ks p : list nat) :
  (∀ k, k ∈ ks → k < length p) →
  length (fold_left (λ p c, <[c := p !!! c + 1]> p) ks p) = length p
  ∧ ∀ c, fold_left (λ p c, <[c := p !!! c + 1]> p) ks p !!! c
         = p !!! c + length (filter (λ k, k = c) ks).
Proof.
  revert p. induction ks as [|k ks IH]; intros p Hks; simpl.
  - split; [done|]. intros c. lia.
  - destruct (IH (<[k := p !!! k + 1]> p)) as [Hlen Hcnt].
    { intros k' Hk'. rewrite length_insert. apply Hks. by right. }
    rewrite length_insert in Hlen. split; [done|].
    intros c. rewrite Hcnt. rewrite filter_cons.
    assert (k < length p) by (apply Hks; by left).
    destruct (decide (k = c)) as [->|Hne].
    + rewrite list_lookup_total_insert_eq by done. simpl. lia.
    + rewrite list_lookup_total_insert_ne by done. lia.
Qed.

Lemma count_columns_spec (inds p : list nat) :
  (∀ k, k ∈ inds → k < length p) →
  length (count_columns (length inds) inds p) = length p
  ∧ ∀ c, count_columns (length inds) inds p !!! c
         = p !!! c + length (filter (λ k, k = c) inds).
Proof.
  intros Hks.
  assert (count_columns (length inds) inds p
          = fold_left (λ p c, <[c := p !!! c + 1]> p) inds p) as ->.
  { unfold count_columns.
    rewrite <- (fold_left_fmap (λ p c, <[c := p !!! c + 1]> p)
                  (λ i, inds !!! i)).
    by rewrite fmap_lookup_total_seq. }
  by apply count_keys_spec.
Qed.

(** The running sum: [S] is any function with [S 0 = 0] that grows by
    the count of a column. *)
Lemma cumsum_pointers_spec n (p : list nat) (S : nat → nat) :
  length p = n + 1 → S 0 = 0 →
  (∀ c, c < n → S (c + 1) = S c + p !!! c) →
  length (cumsum_pointers n p) = n + 1
  ∧ ∀ c, c ≤ n → cumsum_pointers n p !!! c = S c.
Proof.
  intros Hlen HS0 HS. unfold cumsum_pointers.
  set (body := λ (p : list nat) i,
         let temp := p !!! i in
         let cumsum := p !!! n in
         <[n := cumsum + temp]> (<[i := cumsum]> p)).
  assert (∀ i, i ≤ n →
            let q := fold_left body (seq 0 i) (<[n := 0]> p) in
            length q = n + 1
            ∧ (∀ c, c < i → q !!! c = S c)
            ∧ q !!! n = S i
            ∧ (∀ c, i ≤ c → c < n → q !!! c = p !!! c)) as Hinv.
  { induction i as [|i IH]; intros Hi.
    - simpl. rewrite length_insert. split_and!; [done| | |].
      + intros c ?. lia.
      + rewrite list_lookup_total_insert_eq by lia. done.
      + intros c _ Hc. by rewrite list_lookup_total_insert_ne by lia.
    - rewrite fold_left_seq_S.
      destruct IH as (Hl & Hlow & Hn & Hhigh); [lia|].
      set (q := fold_left body (seq 0 i) (<[n := 0]> p)) in *.
      unfold body at 1. cbv zeta. rewrite !length_insert.
      split_and!; [done| | |].
      + intros c Hc. rewrite list_lookup_total_insert_ne by lia.
        destruct (decide (c = i)) as [->|].
        * rewrite list_lookup_total_insert_eq by lia. done.
        * rewrite list_lookup_total_insert_ne by lia. apply Hlow. lia.
      + rewrite list_lookup_total_insert_eq by (rewrite length_insert; lia).
        rewrite Hn, (Hhigh i) by lia.
        replace (Datatypes.S i) with (i + 1) by lia. rewrite HS; lia.
      + intros c Hc1 Hc2. rewrite !list_lookup_total_insert_ne by lia.
        apply Hhigh; lia. }
  destruct (Hinv n) as (Hl & Hlow & Hn & _); [lia|].
  split; [done|]. intros c Hc.
  destruct (decide (c = n)) as [->|]; [done|]. apply Hlow. lia.
Qed.

(** The final shift: every pointer takes the value of its left
    neighbour. *)
Lemma shift_pointers_spec n (q : list nat) :
  length q = n + 1 →
  length (shift_pointers n q) = n + 1
  ∧ shift_pointers n q !!! n = q !!! n
  ∧ ∀ c, c < n →
         shift_pointers n q !!! c = if decide (c = 0) then 0 else q !!! (c - 1).
Proof.
  intros Hlen. unfold shift_pointers.
  set (body := λ (p : list nat) iCol,
         let swapTemp := p !!! iCol in
         let last := p !!! n in
         <[n := swapTemp]> (<[iCol := last]> p)).
  assert (∀ i, i ≤ n →
            let r := fold_left body (seq 0 i) (<[n := 0]> q) in
            length r = n + 1
            ∧ (∀ c, c < i →
                    r !!! c = if decide (c = 0) then 0 else q !!! (c - 1))
            ∧ r !!! n = (if decide (i = 0) then 0 else q !!! (i - 1))
            ∧ (∀ c, i ≤ c → c < n → r !!! c = q !!! c)) as Hinv.
  { induction i as [|i IH]; intros Hi.
    - simpl. rewrite length_insert. split_and!; [done| | |].
      + intros c ?. lia.
      + rewrite list_lookup_total_insert_eq by lia. done.
      + intros c _ Hc. by rewrite list_lookup_total_insert_ne by lia.
    - rewrite fold_left_seq_S.
      destruct IH as (Hl & Hlow & Hn & Hhigh); [lia|].
      set (r := fold_left body (seq 0 i) (<[n := 0]> q)) in *.
      unfold body at 1. cbv zeta. rewrite !length_insert.
      split_and!; [done| | |].
      + intros c Hc. rewrite list_lookup_total_insert_ne by lia.
        destruct (decide (c = i)) as [->|].
        * rewrite list_lookup_total_insert_eq by lia. rewrite Hn.
          destruct i; simpl; [done|]. by rewrite Nat.sub_0_r.
        * rewrite list_lookup_total_insert_ne by lia. apply Hlow. lia.
      + rewrite list_lookup_total_insert_eq by (rewrite length_insert; lia).
        rewrite (Hhigh i) by lia. simpl. by rewrite Nat.sub_0_r.
      + intros c Hc1 Hc2. rewrite !list_lookup_total_insert_ne by lia.
        apply Hhigh; lia. }
  destruct (Hinv n) as (Hl & Hlow & Hn & _); [lia|].
  rewrite length_insert. split_and!; [done| |].
  - by rewrite list_lookup_total_insert_eq by lia.
  - intros c Hc. rewrite list_lookup_total_insert_ne by lia. by apply Hlow.
Qed.

(** ** The copy loop of the counting sort *)

Section CopyLoop.
Context {V : Type} (zero : V).
Implicit Types (E vs : list (nat * nat * V)) (e : nat * nat * V).
Implicit Types (oi : list nat) (ov : list V).

#[local] Hint Extern 0 (Inhabited V) =>
  exact (value_inhabited zero) : typeclass_instances.

Lemma bucket_app c E1 E2 : bucket c (E1 ++ E2) = bucket c E1 ++ bucket c E2.
Proof. apply filter_app. Qed.

Lemma bucket_snoc c vs e :
  bucket c (vs ++ [e]) = if decide (e.1.2 = c) then bucket c vs ++ [e]
                         else bucket c vs.
Proof.
  rewrite bucket_app. unfold bucket at 2. rewrite filter_cons, filter_nil.
  case_decide; [done|]. by rewrite app_nil_r.
Qed.

Lemma bucket_start_0 E : bucket_start 0 E = 0.
Proof.
  unfold bucket_start. induction E as [|e E IH]; [done|].
  rewrite filter_cons. case_decide; [lia|done].
Qed.

Lemma bucket_start_S c E :
  bucket_start (c + 1) E = bucket_start c E + length (bucket c E).
Proof.
  unfold bucket_start, bucket. induction E as [|e E IH]; [done|].
  rewrite !filter_cons.
  repeat case_decide; simpl; lia.
Qed.

Lemma bucket_start_mono c c' E :
  c ≤ c' → bucket_start c E ≤ bucket_start c' E.
Proof.
  induction 1 as [|c' _ IH]; [done|].
  replace (S c') with (c' + 1) by lia. rewrite bucket_start_S. lia.
Qed.

Lemma bucket_start_all n E :
  (∀ e, e ∈ E → e.1.2 < n) → bucket_start n E = length E.
Proof.
  unfold bucket_start. induction E as [|e E IH]; intros Hall; [done|].
  rewrite filter_cons_True by (apply Hall; by left).
  simpl. f_equal. apply IH. intros e' He'. apply Hall. by right.
Qed.

Lemma bucket_start_le c E : bucket_start c E ≤ length E.
Proof. apply length_filter. Qed.

Lemma slice_at_snoc oi ov s k :
  slice_at zero oi ov s (S k)
  = slice_at zero oi ov s k ++ [(oi !!! (s + k), ov !!! (s + k))].
Proof. unfold slice_at. by rewrite seq_S, fmap_app. Qed.

Lemma slice_at_insert_out oi ov s k dest o v :
  dest < s ∨ s + k ≤ dest →
  slice_at zero (<[dest := o]> oi) (<[dest := v]> ov) s k
  = slice_at zero oi ov s k.
Proof.
  intros Hout. unfold slice_at. apply Forall_fmap_ext_1, Forall_forall.
  intros pos Hpos. apply list_elem_of_In, in_seq in Hpos.
  by rewrite !list_lookup_total_insert_ne by lia.
Qed.

(** One entry placed. *)
Lemma place_inv n nouter pn E vs e rest st :
  E = vs ++ e :: rest →
  (∀ e', e' ∈ E → e'.1.2 < n ∧ e'.1.1 < nouter) →
  copy_inv zero n nouter pn E vs st →
  copy_inv zero n nouter pn E (vs ++ [e]) (place e st).
Proof.
  intros HE Hall (Hlp & Hloi & Hlov & Hptr & Hslice & Hpn & Hbound).
  destruct (Hall e) as [Hc Ho].
  { rewrite HE. apply elem_of_app. right. by left. }
  set (c := e.1.2) in *.
  assert (∀ c', length (bucket c' vs) + length (bucket c' (e :: rest))
                = length (bucket c' E)) as Hsplit.
  { intros c'. by rewrite HE, bucket_app, length_app. }
  assert (length (bucket c vs) < length (bucket c E)) as Hk.
  { rewrite <- (Hsplit c). unfold bucket.
    rewrite filter_cons_True by done. simpl. lia. }
  pose proof (bucket_start_S c E) as HS.
  pose proof (bucket_start_le (c + 1) E) as Hle.
  assert (st.1.1 !!! c < length E) as Hdest by (rewrite Hptr by done; lia).
  unfold place, copy_inv. simpl. fold c.
  rewrite !length_insert. split_and!; [done|done|done| | | |].
  - intros c' Hc'. rewrite bucket_snoc. fold c.
    destruct (decide (c = c')) as [<-|Hne].
    + rewrite list_lookup_total_insert_eq by lia.
      rewrite length_app, Hptr by done. simpl. lia.
    + rewrite list_lookup_total_insert_ne by done. by apply Hptr.
  - intros c' Hc'. rewrite bucket_snoc. fold c.
    destruct (decide (c = c')) as [<-|Hne].
    + rewrite length_app, fmap_app. simpl.
      replace (length (bucket c vs) + 1) with (S (length (bucket c vs)))
        by lia.
      rewrite slice_at_snoc, <- (Hptr c) by done.
      rewrite !list_lookup_total_insert_eq by lia.
      rewrite slice_at_insert_out by (rewrite (Hptr c) by done; lia).
      by rewrite Hslice.
    + rewrite slice_at_insert_out; [by apply Hslice|].
      rewrite (Hptr c) by done.
      pose proof (Hsplit c').
      pose proof (bucket_start_S c' E).
      destruct (decide (c' < c)).
      * right. pose proof (bucket_start_mono (c' + 1) c E). lia.
      * left. pose proof (bucket_start_mono (c + 1) c' E). lia.
  - by rewrite list_lookup_total_insert_ne by lia.
  - by apply Forall_insert.
Qed.

(** All entries placed. *)
Lemma fold_place_inv n nouter pn E vs rest st :
  E = vs ++ rest →
  (∀ e', e' ∈ E → e'.1.2 < n ∧ e'.1.1 < nouter) →
  copy_inv zero n nouter pn E vs st →
  copy_inv zero n nouter pn E E (fold_left (λ st e, place e st) rest st).
Proof.
  revert vs st. induction rest as [|e rest IH]; intros vs st HE Hall Hinv.
  - simpl. rewrite app_nil_r in HE. by subst E.
  - simpl. apply (IH (vs ++ [e])).
    + by rewrite <- app_assoc.
    + done.
    + by apply (place_inv _ _ _ _ _ _ rest).
Qed.

(** The nested copy loops visit the entries in storage order. *)
Lemma copy_rows_place nouter (ptrs inds : list nat) (vals : list V) st :
  copy_rows zero nouter ptrs inds vals st
  = fold_left (λ st e, place e st)
              (storage_entries zero nouter ptrs inds vals) st.
Proof.
  unfold copy_rows, storage_entries.
  rewrite fold_left_flat_map. apply fold_left_ext_in. intros st' o _.
  by rewrite fold_left_fmap.
Qed.

End CopyLoop.

(** ** Counting sort is a rearrangement *)

Section Buckets.
Context {V : Type}.
Implicit Types (E : list (nat * nat * V)).

Lemma filter_lt_S_perm n E :
  filter (λ e, e.1.2 < n) E ++ bucket n E ≡ₚ filter (λ e, e.1.2 < S n) E.
Proof.
  unfold bucket. induction E as [|e E IH]; [done|].
  rewrite !filter_cons. repeat case_decide; try lia; simpl.
  - by rewrite IH.
  - rewrite <- Permutation_middle. by rewrite IH.
  - done.
Qed.

Lemma buckets_below_perm n E :
  flat_map (λ c, bucket c E) (seq 0 n) ≡ₚ filter (λ e, e.1.2 < n) E.
Proof.
  induction n as [|n IH].
  - simpl. induction E as [|e E IHE]; [done|].
    rewrite filter_cons. case_decide; [lia|done].
  - rewrite seq_S, flat_map_app, IH. simpl. rewrite app_nil_r.
    apply filter_lt_S_perm.
Qed.

(** The columns, one after the other, hold every entry once. *)
Lemma buckets_perm n E :
  (∀ e, e ∈ E → e.1.2 < n) → flat_map (λ c, bucket c E) (seq 0 n) ≡ₚ E.
Proof.
  intros Hall. rewrite buckets_below_perm.
  induction E as [|e E IH]; [done|].
  rewrite filter_cons_True by (apply Hall; by left).
  apply perm_skip, IH. intros e' He'. apply Hall. by right.
Qed.

Lemma length_filter_fmap {A B} (f : A → B) (P : B → Prop)
    `{∀ x, Decision (P x)} `{∀ x, Decision (P (f x))} (l : list A) :
  length (filter P (f <$> l)) = length (filter (λ x, P (f x)) l).
Proof.
  induction l as [|x l IH]; [done|]. rewrite fmap_cons, !filter_cons.
  repeat case_decide; try done; simpl; by rewrite IH.
Qed.

End Buckets.

Section Transpose.
Context {V : Type} (zero : V).
Implicit Types (Ap Aj : list nat) (Ax : list V).

#[local] Hint Extern 0 (Inhabited V) =>
  exact (value_inhabited zero) : typeclass_instances.

(** The inner coordinates of the entries are the index buffer. *)
Lemma storage_entries_keys nouter Ap Aj Ax :
  Ap !!! 0 = 0 →
  (∀ i j, i ≤ j → j ≤ nouter → Ap !!! i ≤ Ap !!! j) →
  Ap !!! nouter = length Aj →
  (λ e, e.1.2) <$> storage_entries zero nouter Ap Aj Ax = Aj.
Proof.
  intros Hfirst Hsorted Hlast. unfold storage_entries.
  rewrite <- flat_map_fmap.
  rewrite (flat_map_ext_in _
             (λ o, (λ jj, Aj !!! jj)
                   <$> seq (Ap !!! o) (Ap !!! (o + 1) - Ap !!! o))); cycle 1.
  { intros o _. by rewrite <- list_fmap_compose. }
  rewrite flat_map_fmap, flat_map_segments, Hlast by done.
  apply fmap_lookup_total_seq.
Qed.

Lemma storage_entries_bounds nouter ninner Ap Aj Ax e :
  (∀ i j, i ≤ j → j ≤ nouter → Ap !!! i ≤ Ap !!! j) →
  Ap !!! nouter = length Aj →
  (∀ j, j < length Aj → Aj !!! j < ninner) →
  e ∈ storage_entries zero nouter Ap Aj Ax →
  e.1.2 < ninner ∧ e.1.1 < nouter.
Proof.
  intros Hsorted Hlast Hbound He. unfold storage_entries in He.
  apply list_elem_of_In, in_flat_map in He as (o & Ho & He).
  apply in_seq in Ho.
  apply list_elem_of_In, list_elem_of_fmap in He as (jj & -> & Hjj).
  apply list_elem_of_In, in_seq in Hjj. simpl. split; [|lia].
  apply Hbound. rewrite <- Hlast.
  pose proof (Hsorted (o + 1) nouter ltac:(lia) ltac:(lia)). lia.
Qed.

(** The five loops of the conversion, on buffers: the output pointers
    are the column starts, and the output entries are the columns of
    the input, one after the other, each in the input's order. *)
Lemma transpose_loops nouter ninner Ap Aj Ax (p0 oi0 : list nat) (ov0 : list V) :
  Ap !!! 0 = 0 →
  (∀ i j, i ≤ j → j ≤ nouter → Ap !!! i ≤ Ap !!! j) →
  Ap !!! nouter = length Aj → length Ax = length Aj →
  (∀ j, j < length Aj → Aj !!! j < ninner) →
  length p0 = ninner + 1 →
  length oi0 = length Aj → length ov0 = length Aj →
  Forall (λ o, o < nouter) oi0 →
  let E := storage_entries zero nouter Ap Aj Ax in
  let p := cumsum_pointers ninner
             (count_columns (length Aj) Aj (init_pointers ninner p0)) in
  let st := copy_rows zero nouter Ap Aj Ax (p, oi0, ov0) in
  let p' := shift_pointers ninner st.1.1 in
  length p' = ninner + 1
  ∧ (∀ c, c ≤ ninner → p' !!! c = bucket_start c E)
  ∧ p' !!! ninner = length Aj
  ∧ length st.1.2 = length Aj ∧ length st.2 = length Aj
  ∧ Forall (λ o, o < nouter) st.1.2
  ∧ (∀ c, c < ninner →
       slice_at zero st.1.2 st.2 (bucket_start c E) (length (bucket c E))
       = (λ e, (e.1.1, e.2)) <$> bucket c E)
  ∧ storage_entries zero ninner p' st.1.2 st.2
    = (λ e, (e.1.2, e.1.1, e.2)) <$> flat_map (λ c, bucket c E) (seq 0 ninner).
Proof.
  intros Hfirst Hsorted Hlast Hvals Hbound Hp0 Hoi0 Hov0 Hall0 E p st p'.
  pose proof (storage_entries_keys nouter Ap Aj Ax Hfirst Hsorted Hlast)
    as Hkeys. fold E in Hkeys.
  assert (length E = length Aj) as HlenE.
  { rewrite <- (length_fmap (λ e : nat * nat * V, e.1.2) E). by rewrite Hkeys. }
  assert (∀ e, e ∈ E → e.1.2 < ninner ∧ e.1.1 < nouter) as HE.
  { intros e He. by apply (storage_entries_bounds nouter ninner Ap Aj Ax). }
  (* the counts *)
  destruct (init_pointers_spec ninner p0) as (Hl1 & Hz1 & _); [lia|].
  destruct (count_columns_spec Aj (init_pointers ninner p0)) as [Hl2 Hc2].
  { intros k Hk. rewrite Hl1, Hp0.
    apply list_elem_of_lookup_total in Hk as (j & Hj & <-).
    specialize (Hbound j Hj). lia. }
  assert (∀ c, c < ninner →
            count_columns (length Aj) Aj (init_pointers ninner p0) !!! c
            = length (bucket c E)) as Hcnt.
  { intros c Hc. rewrite Hc2, Hz1 by done. simpl.
    rewrite <- Hkeys. unfold bucket.
    apply (length_filter_fmap (λ e : nat * nat * V, e.1.2) (λ k, k = c)). }
  (* the column starts *)
  destruct (cumsum_pointers_spec ninner
              (count_columns (length Aj) Aj (init_pointers ninner p0))
              (λ c, bucket_start c E)) as [Hl3 Hs3].
  { by rewrite Hl2, Hl1. }
  { apply bucket_start_0. }
  { intros c Hc. rewrite bucket_start_S, Hcnt by done. done. }
  fold p in Hl3, Hs3.
  (* the copy *)
  assert (copy_inv zero ninner nouter (length Aj) E E st) as Hcopy.
  { unfold st. rewrite copy_rows_place. fold E.
    apply (fold_place_inv zero _ _ _ E []); [done|done|].
    unfold copy_inv. simpl. split_and!; try done; try lia.
    - intros c Hc. rewrite Hs3 by lia. simpl. lia.
    - rewrite Hs3 by lia. rewrite <- HlenE. apply bucket_start_all.
      intros e He. by apply HE. }
  destruct Hcopy as (Hlp & Hloi & Hlov & Hptr & Hslice & Hpn & Hforall).
  (* the shift *)
  destruct (shift_pointers_spec ninner st.1.1 Hlp) as (Hl4 & Hn4 & Hs4).
  fold p' in Hl4, Hn4, Hs4.
  assert (∀ c, c ≤ ninner → p' !!! c = bucket_start c E) as Hstart.
  { intros c Hc. destruct (decide (c = ninner)) as [->|Hne].
    - rewrite Hn4, Hpn, <- HlenE. symmetry. apply bucket_start_all.
      intros e He. by apply HE.
    - rewrite Hs4 by lia. case_decide as Hz.
      + subst c. by rewrite bucket_start_0.
      + rewrite Hptr by lia.
        replace c with (c - 1 + 1) at 3 by lia. by rewrite bucket_start_S. }
  split_and!; [done|done|lia|lia|lia|done|done|].
  (* the output entries *)
  unfold storage_entries at 1.
  rewrite <- flat_map_fmap. apply flat_map_ext_in. intros c Hc.
  apply list_elem_of_In, in_seq in Hc.
  rewrite !Hstart by lia. rewrite bucket_start_S.
  replace (bucket_start c E + length (bucket c E) - bucket_start c E)
    with (length (bucket c E)) by lia.
  transitivity ((λ x : nat * V, (c, x.1, x.2))
                <$> slice_at zero st.1.2 st.2 (bucket_start c E)
                      (length (bucket c E))).
  { unfold slice_at. by rewrite <- list_fmap_compose. }
  rewrite Hslice by lia. rewrite <- list_fmap_compose.
  apply Forall_fmap_ext_1, Forall_forall. intros e He.
  unfold bucket in He.
  apply list_elem_of_filter in He as [<- _]. done.
Qed.

End Transpose.

(** ** Counting sort keeps the order within a column *)

Section BucketOrder.
Context {V : Type} (zero : V).
Implicit Types (Ap Aj : list nat) (Ax : list V).

#[local] Hint Extern 0 (Inhabited V) =>
  exact (value_inhabited zero) : typeclass_instances.

Lemma filter_flat_map {A B} (P : B → Prop) `{∀ x, Decision (P x)}
    (f : A → list B) (l : list A) :
  filter P (flat_map f l) = flat_map (λ x, filter P (f x)) l.
Proof.
  induction l as [|x l IH]; simpl; [done|]. by rewrite filter_app, IH.
Qed.

Lemma StronglySorted_lookup_total_lt (l : list nat) a b :
  StronglySorted lt l → a < b → b < length l → l !!! a < l !!! b.
Proof.
  intros Hsorted. revert a b.
  induction Hsorted as [|x l Hl IH Hall]; intros a b Hab Hb; simpl in Hb;
    [lia|].
  destruct b as [|b]; [lia|]. destruct a as [|a].
  - change ((x :: l) !!! 0) with x. change ((x :: l) !!! S b) with (l !!! b).
    apply (Forall_lookup_total_1 (lt x)); [done|lia].
  - change ((x :: l) !!! S a) with (l !!! a).
    change ((x :: l) !!! S b) with (l !!! b). apply IH; lia.
Qed.

(** Pieces that hold at most their own number, one after the other. *)
Lemma flat_map_singletons_sorted (g : nat → list nat) s n :
  (∀ o, s ≤ o → o < s + n → g o = [] ∨ g o = [o]) →
  StronglySorted lt (flat_map g (seq s n))
  ∧ Forall (λ k, s ≤ k) (flat_map g (seq s n)).
Proof.
  revert s. induction n as [|n IH]; intros s Hg; simpl.
  { split; constructor. }
  destruct (IH (S s)) as [Hsorted Hall].
  { intros o Ho1 Ho2. apply Hg; lia. }
  destruct (Hg s ltac:(lia) ltac:(lia)) as [->| ->]; simpl.
  - split; [done|]. eapply Forall_impl; [exact Hall|]. simpl. lia.
  - split.
    + constructor; [done|]. eapply Forall_impl; [exact Hall|]. simpl. lia.
    + constructor; [lia|]. eapply Forall_impl; [exact Hall|]. simpl. lia.
Qed.

(** A segment with increasing indices has at most one entry in a
    column. *)
Lemma segment_bucket_singleton Aj Ax (o c s len : nat) :
  (∀ p q, s ≤ p → p < q → q < s + len → Aj !!! p < Aj !!! q) →
  let K := (λ e : nat * nat * V, e.1.1)
           <$> filter (λ e, e.1.2 = c)
                 ((λ jj, (o, Aj !!! jj, Ax !!! jj)) <$> seq s len) in
  K = [] ∨ K = [o].
Proof.
  intros Hinc. cbv zeta.
  assert (∀ n, n ≤ len →
            let K := (λ e : nat * nat * V, e.1.1)
                     <$> filter (λ e, e.1.2 = c)
                           ((λ jj, (o, Aj !!! jj, Ax !!! jj)) <$> seq s n) in
            (K = [] ∧ ∀ p, s ≤ p → p < s + n → Aj !!! p ≠ c)
            ∨ (K = [o] ∧ ∃ p, s ≤ p ∧ p < s + n ∧ Aj !!! p = c)) as Hgen.
  { induction n as [|n IH]; intros Hn; cbv zeta.
    { left. split; [done|lia]. }
    rewrite seq_S, fmap_app, filter_app, fmap_app. simpl.
    rewrite filter_cons, filter_nil. simpl.
    destruct IH as [[-> Hnone]|[-> (p & Hp1 & Hp2 & Hpc)]]; [lia| |].
    - case_decide as Hc; simpl.
      + right. split; [done|]. exists (s + n). split_and!; [lia|lia|done].
      + left. split; [done|]. intros p Hp1 Hp2.
        destruct (decide (p = s + n)) as [->|Hne]; [done|].
        apply Hnone; lia.
    - case_decide as Hc; simpl.
      + specialize (Hinc p (s + n) ltac:(lia) ltac:(lia) ltac:(lia)). lia.
      + right. split; [done|]. exists p. split_and!; [lia|lia|done]. }
  destruct (Hgen len ltac:(lia)) as [[-> _]|[-> _]]; [by left|by right].
Qed.

(** The entries of a column come in the order of their rows. *)
Lemma bucket_outer_sorted nouter Ap Aj Ax c :
  (∀ o p q, o < nouter → Ap !!! o ≤ p → p < q → q < Ap !!! (o + 1) →
     Aj !!! p < Aj !!! q) →
  StronglySorted lt
    ((λ e : nat * nat * V, e.1.1)
     <$> bucket c (storage_entries zero nouter Ap Aj Ax)).
Proof.
  intros Hinc. unfold bucket, storage_entries.
  rewrite filter_flat_map, <- flat_map_fmap.
  apply flat_map_singletons_sorted. intros o _ Ho.
  apply (segment_bucket_singleton Aj Ax o c).
  intros p q Hp Hpq Hq. apply (Hinc o); lia.
Qed.

End BucketOrder.

Section ConvertLayout.
Context {V : Type} (zero : V).

#[local] Hint Extern 0 (Inhabited V) =>
  exact (value_inhabited zero) : typeclass_instances.

(** The conversion on a rank-2 object, field by field. *)
Lemma convert_layout_rebuild_fields ty ty' s0 s1 r0 r1 ix P0 Ap I0 Aj
    (vals : list V) :
  ty_rank ty = 2 → ty_ordering ty' ≠ ty_ordering ty →
  let p0 := resize (s1 + 1) 0 (replicate (length Ap) 0) in
  let nnz := Ap !!! s0 in
  let p := cumsum_pointers s1 (count_columns nnz Aj (init_pointers s1 p0)) in
  let st := copy_rows zero s0 Ap Aj vals
              (p, resize nnz 0 [], resize nnz zero []) in
  convert_layout_rebuild zero ty ty'
    (mkStorage [s0; s1] [r0; r1] ix [P0; Ap] [I0; Aj] vals)
  = mkStorage [s1; s0] (if hasColumnOrdering ty' then [1; 0] else [0; 1]) []
      [replicate (length P0) 0; shift_pointers s1 st.1.1] [[]; st.1.2] st.2.
Proof.
  intros Hrank Hord. destruct ty as [rk o], ty' as [rk' o'].
  simpl in Hrank, Hord. subst rk.
  destruct o, o'; try done; reflexivity.
Qed.

Lemma convert_layout_rebuild_spec ty ty' (t : SparseTensorStorage V) :
  ty_rank ty = 2 → ty_ordering ty' ≠ ty_ordering ty → matrix_wf t →
  let t' := convert_layout_rebuild zero ty ty' t in
  matrix_wf t'
  ∧ sizes t' = [sizes t !!! 1; sizes t !!! 0]
  ∧ entries zero ty' t' ≡ₚ entries zero ty t
  ∧ (segments_increasing t → segments_increasing t').
Proof.
  intros Hrank Hord [Hs Hr Hp Hi Hpl Hpf Hps Hplast Hv Hb]. cbv zeta.
  destruct t as [sz rv ix ptrs inds vals].
  simpl in Hs, Hr, Hp, Hi, Hpl, Hpf, Hps, Hplast, Hv, Hb.
  destruct sz as [|s0 [|s1 [|? ?]]]; try done.
  destruct rv as [|r0 [|r1 [|? ?]]]; try done.
  destruct ptrs as [|P0 [|Ap [|? ?]]]; try done.
  destruct inds as [|I0 [|Aj [|? ?]]]; try done.
  change (([P0; Ap] : list (list nat)) !!! 1) with Ap in *.
  change (([I0; Aj] : list (list nat)) !!! 1) with Aj in *.
  change (([s0; s1] : list nat) !!! 0) with s0 in *.
  change (([s0; s1] : list nat) !!! 1) with s1 in *.
  rewrite convert_layout_rebuild_fields by done.
  rewrite Hplast.
  destruct (transpose_loops zero s0 s1 Ap Aj vals
              (resize (s1 + 1) 0 (replicate (length Ap) 0))
              (resize (length Aj) 0 []) (resize (length Aj) zero []))
    as (Hl & Hstart & Hn & Hloi & Hlov & Hall & Hslice & Hent); try done.
  { by rewrite length_resize. }
  { by rewrite length_resize. }
  { by rewrite length_resize. }
  { destruct (decide (s0 = 0)) as [->|Hne].
    - rewrite <- Hplast, Hpf. done.
    - apply Forall_forall. intros o Ho. rewrite resize_nil in Ho.
      apply elem_of_replicate in Ho as [-> _]. lia. }
  set (E := storage_entries zero s0 Ap Aj vals) in *.
  set (st := copy_rows zero s0 Ap Aj vals _) in *.
  set (p' := shift_pointers s1 st.1.1) in *.
  split_and!.
  - constructor; simpl; try done.
    + by destruct (hasColumnOrdering ty').
    + change (p' !!! 0 = 0). rewrite Hstart by lia. apply bucket_start_0.
    + intros i j Hij Hj. change (p' !!! i ≤ p' !!! j).
      rewrite !Hstart by lia. by apply bucket_start_mono.
    + change (p' !!! s1 = length st.1.2). lia.
    + change (length st.2 = length st.1.2). lia.
    + intros j Hj. change (st.1.2 !!! j < s0).
      by apply (Forall_lookup_total_1 (λ o, o < s0)).
  - done.
  - unfold entries. simpl.
    change (([replicate (length P0) 0; p'] : list (list nat)) !!! 1) with p'.
    change (([[]; st.1.2] : list (list nat)) !!! 1) with st.1.2.
    change (([P0; Ap] : list (list nat)) !!! 1) with Ap.
    change (([I0; Aj] : list (list nat)) !!! 1) with Aj.
    change (([s1; s0] : list nat) !!! 0) with s1.
    change (([s0; s1] : list nat) !!! 0) with s0.
    fold E. rewrite Hent, <- list_fmap_compose.
    rewrite (buckets_perm s1 E); cycle 1.
    { intros e He.
      by apply (storage_entries_bounds zero s0 s1 Ap Aj vals). }
    assert (logical_entry ty' ∘ (λ e : nat * nat * V, (e.1.2, e.1.1, e.2))
            <$> E = logical_entry ty <$> E) as ->; [|done].
    apply list_fmap_ext. intros _ [[a b] v] _.
    destruct ty as [rk o], ty' as [rk' o']. simpl in Hord.
    by destruct o, o'.
  - intros Hinc o p q Ho Hlo Hpq Hhi. simpl in Ho, Hlo, Hhi |- *.
    change (([s1; s0] : list nat) !!! 0) with s1 in Ho.
    change (([replicate (length P0) 0; p'] : list (list nat)) !!! 1)
      with p' in Hlo, Hhi.
    change (([[]; st.1.2] : list (list nat)) !!! 1) with st.1.2.
    rewrite Hstart in Hlo, Hhi by lia. rewrite bucket_start_S in Hhi.
    set (K := (λ e : nat * nat * V, e.1.1) <$> bucket o E).
    assert (∀ a, a < length (bucket o E) →
              st.1.2 !!! (bucket_start o E + a) = K !!! a) as HK.
    { intros a Ha. pose proof (Hslice o Ho) as Hsl.
      apply (f_equal (fmap fst)) in Hsl.
      unfold slice_at in Hsl. rewrite <- !list_fmap_compose in Hsl.
      change (fst ∘ (λ e : nat * nat * V, (e.1.1, e.2)) <$> bucket o E)
        with K in Hsl.
      rewrite <- Hsl.
      rewrite (list_lookup_total_fmap
                 (fst ∘ (λ pos : nat,
                    (st.1.2 !!! pos,
                     @lookup_total _ _ _
                       (@list_lookup_total _ (value_inhabited zero))
                       pos st.2))))
        by (by rewrite length_seq).
      simpl. by rewrite lookup_total_seq_lt. }
    replace p with (bucket_start o E + (p - bucket_start o E)) by lia.
    replace q with (bucket_start o E + (q - bucket_start o E)) by lia.
    rewrite !HK by lia.
    apply StronglySorted_lookup_total_lt.
    + apply bucket_outer_sorted. intros o' p0 q0 Ho' Hp0 Hpq0 Hq0.
      by apply (Hinc o').
    + lia.
    + unfold K. rewrite length_fmap. lia.
Qed.

End ConvertLayout.

(** ** Layout conversion: the round trip *)

Section RoundTrip.
Context {V : Type} (zero : V).

(** C3: converting a matrix to the other layout and back gives a
    matrix with the same (row, column, value) entries, each as often as
    before, and the same numbers of rows and columns; the intermediate
    matrix has these entries as well.  The order of the entries within
    a row or column may differ. *)
Theorem convert_layout_round_trip ty ty' (t : SparseTensorStorage V) :
  ty_rank ty = 2 → ty_rank ty' = 2 → matrix_wf t →
  let t' := convert_layout zero ty ty' t in
  let t'' := convert_layout zero ty' ty t' in
  entries zero ty' t' ≡ₚ entries zero ty t
  ∧ entries zero ty t'' ≡ₚ entries zero ty t
  ∧ num_rows ty t'' = num_rows ty t
  ∧ num_cols ty t'' = num_cols ty t.
Proof.
  intros Hrank Hrank' Hwf. cbv zeta. unfold convert_layout.
  destruct (decide (ty = ty')) as [<-|Hne].
  { by rewrite decide_True. }
  rewrite decide_False by done.
  assert (ty_ordering ty' ≠ ty_ordering ty) as Hord.
  { intros Heq. apply Hne. destruct ty, ty'. simpl in *. congruence. }
  destruct (convert_layout_rebuild_spec zero ty ty' t Hrank Hord Hwf)
    as (Hwf' & Hsz' & Hent' & _).
  destruct (convert_layout_rebuild_spec zero ty' ty
              (convert_layout_rebuild zero ty ty' t) Hrank'
              (not_eq_sym Hord) Hwf') as (_ & Hsz'' & Hent'' & _).
  split_and!.
  - done.
  - by rewrite Hent''.
  - unfold num_rows, tensor_dim. rewrite Hsz'', Hsz'.
    by destruct (ty_ordering ty).
  - unfold num_cols, tensor_dim. rewrite Hsz'', Hsz'.
    by destruct (ty_ordering ty).
Qed.

End RoundTrip.

(** The operand [A] of the multiplication test, to CSC and back. *)
Lemma convert_layout_round_trip_witness :
  let t := mkStorage [2; 4] [0; 1] [] [[]; [0; 2; 3]] [[]; [1; 2; 3]]
                     [1; 2; 3]%Z in
  let t' := convert_layout 0%Z CSR CSC t in
  let t'' := convert_layout 0%Z CSC CSR t' in
  entries 0%Z CSC t' ≡ₚ entries 0%Z CSR t
  ∧ entries 0%Z CSR t'' ≡ₚ entries 0%Z CSR t
  ∧ num_rows CSR t'' = num_rows CSR t
  ∧ num_cols CSR t'' = num_cols CSR t.
Proof.
  apply (convert_layout_round_trip 0%Z CSR CSC); [reflexivity|reflexivity|].
  constructor; simpl; try reflexivity.
  - intros i j Hij Hj.
    destruct i as [|[|[|?]]], j as [|[|[|?]]]; simpl; lia.
  - intros j Hj. destruct j as [|[|[|?]]]; simpl in *; lia.
Defined.

(** ** Matrix multiplication: the loops *)

Section WriteSlice.
Context {V : Type} (zero : V).
Implicit Types (l : list (nat * V)) (out : list nat * list V).

#[local] Hint Extern 0 (Inhabited V) =>
  exact (value_inhabited zero) : typeclass_instances.

Lemma write_slice_length s l out :
  length (write_slice s l out).1 = length out.1
  ∧ length (write_slice s l out).2 = length out.2.
Proof.
  revert s out. induction l as [|x l IH]; intros s out; simpl; [done|].
  destruct (IH (S s) (<[s := x.1]> out.1, <[s := x.2]> out.2)) as [-> ->].
  simpl. by rewrite !length_insert.
Qed.

Lemma write_slice_outside s l out q :
  q < s ∨ s + length l ≤ q →
  (write_slice s l out).1 !!! q = out.1 !!! q
  ∧ (write_slice s l out).2 !!! q = out.2 !!! q.
Proof.
  revert s out. induction l as [|x l IH]; intros s out Hq; simpl; [done|].
  simpl in Hq.
  destruct (IH (S s) (<[s := x.1]> out.1, <[s := x.2]> out.2)) as [-> ->];
    [lia|].
  simpl. by rewrite !list_lookup_total_insert_ne by lia.
Qed.

Lemma write_slice_app s l1 l2 out :
  write_slice s (l1 ++ l2) out
  = write_slice (s + length l1) l2 (write_slice s l1 out).
Proof.
  revert s out. induction l1 as [|x l1 IH]; intros s out; simpl.
  - by rewrite Nat.add_0_r.
  - rewrite IH. f_equal. lia.
Qed.

(** The slice written holds the list. *)
Lemma write_slice_inside s l out :
  s + length l ≤ length out.1 → s + length l ≤ length out.2 →
  slice_at zero (write_slice s l out).1 (write_slice s l out).2 s (length l)
  = l.
Proof.
  revert s out. induction l as [|x l IH]; intros s out H1 H2; [done|].
  simpl in H1, H2. simpl write_slice. simpl length.
  unfold slice_at. rewrite <- cons_seq, fmap_cons.
  destruct (write_slice_outside (S s) l
              (<[s := x.1]> out.1, <[s := x.2]> out.2) s) as [-> ->]; [lia|].
  simpl. rewrite !list_lookup_total_insert_eq by lia.
  destruct x as [c v]. simpl. f_equal.
  apply (IH (S s)); simpl; rewrite length_insert; lia.
Qed.

(** Slices elsewhere are not touched. *)
Lemma write_slice_frame s l out s' k :
  s' + k ≤ s ∨ s + length l ≤ s' →
  slice_at zero (write_slice s l out).1 (write_slice s l out).2 s' k
  = slice_at zero out.1 out.2 s' k.
Proof.
  intros Hout. unfold slice_at. apply Forall_fmap_ext_1, Forall_forall.
  intros pos Hpos. apply elem_of_seq in Hpos.
  destruct (write_slice_outside s l out pos) as [-> ->]; [lia|done].
Qed.

End WriteSlice.

Section InnerProduct.
Context {V : Type} (zero : V) (extBlocks : ExtensionBlocks V).
Implicit Types (Aj Bp Bi Cj : list nat) (Ax Bx Cx : list V).

#[local] Hint Extern 0 (Inhabited V) =>
  exact (value_inhabited zero) : typeclass_instances.

(** The marks of the count pass are those of the fill pass. *)
Lemma scatter_row_marks nk Aj Ax colStart colEnd :
  (scatter_row zero nk Aj Ax colStart colEnd).1
  = mark_row nk Aj colStart colEnd.
Proof.
  unfold scatter_row, mark_row.
  generalize (replicate nk zero) (replicate nk false).
  induction (seq colStart (colEnd - colStart)) as [|jj l IH];
    intros kvec kvec_i1; simpl; [done|]. apply IH.
Qed.

(** The flag of a column product says whether a position is shared. *)
Lemma column_product_alive row col kvec_i1 kvec Bp Bi Bx swapMultOps :
  (column_product zero extBlocks row col kvec_i1 kvec Bp Bi Bx swapMultOps).2
  = fold_left (λ found ii, found || marked kvec_i1 (Bi !!! ii))
              (seq (Bp !!! col) (Bp !!! (col + 1) - Bp !!! col)) false.
Proof.
  unfold column_product.
  change false with (addIdentity extBlocks, false).2 at 2.
  generalize (addIdentity extBlocks, false).
  induction (seq (Bp !!! col) (Bp !!! (col + 1) - Bp !!! col)) as [|ii l IH];
    intros acc; simpl; [done|].
  rewrite IH. f_equal.
  destruct (marked kvec_i1 (Bi !!! ii)); simpl; [by rewrite orb_true_r|].
  by rewrite orb_false_r.
Qed.

(** The fill of a row writes the row of the product at [baseIndex]. *)
Lemma computeInnerProduct_write nk row Aj Ax colStart colEnd Bp Bi Bx
    maskIndices maskStart maskEnd Cj Cx baseIndex :
  computeInnerProduct zero extBlocks nk row Aj Ax colStart colEnd Bp Bi Bx
    maskIndices maskStart maskEnd Cj Cx baseIndex false
  = write_slice baseIndex
      (flat_map
         (λ col,
            let kv := scatter_row zero nk Aj Ax colStart colEnd in
            let total := column_product zero extBlocks row col kv.1 kv.2
                           Bp Bi Bx false in
            if total.2 then [(col, total.1)] else [])
         (iteration_column maskIndices
          <$> seq maskStart (maskEnd - maskStart)))
      (Cj, Cx).
Proof.
  unfold computeInnerProduct. cbv zeta.
  set (kv := scatter_row zero nk Aj Ax colStart colEnd).
  set (g := λ col : nat,
         if (column_product zero extBlocks row col kv.1 kv.2 Bp Bi Bx false).2
         then [(col, (column_product zero extBlocks row col kv.1 kv.2
                        Bp Bi Bx false).1)]
         else []).
  set (step := λ (st : nat * list nat * list V) (mm : nat), _).
  assert (∀ mms off out,
            fold_left step mms (off, out.1, out.2)
            = (off + length (flat_map g (iteration_column maskIndices <$> mms)),
               (write_slice (baseIndex + off)
                  (flat_map g (iteration_column maskIndices <$> mms)) out).1,
               (write_slice (baseIndex + off)
                  (flat_map g (iteration_column maskIndices <$> mms)) out).2))
    as Hfold.
  { induction mms as [|mm mms IH]; intros off out.
    - simpl. by rewrite Nat.add_0_r.
    - rewrite fmap_cons. simpl flat_map. simpl fold_left.
      unfold step at 2. cbv zeta. simpl. unfold g at 1 3 5.
      destruct (column_product zero extBlocks row
                  (iteration_column maskIndices mm) kv.1 kv.2 Bp Bi Bx false)
        as [total alive].
      simpl. destruct alive; simpl.
      + pose proof (IH (off + 1)
                      (<[baseIndex + off := iteration_column maskIndices mm]>
                         out.1,
                       <[baseIndex + off := total]> out.2)) as Hstep.
        simpl in Hstep. rewrite Hstep.
        replace (baseIndex + (off + 1)) with (S (baseIndex + off)) by lia.
        do 2 f_equal. lia.
      + exact (IH off out). }
  rewrite (Hfold _ 0 (Cj, Cx)). simpl. rewrite Nat.add_0_r.
  by destruct (write_slice baseIndex _ _).
Qed.

(** The count of a row is the length of the row of the product. *)
Lemma computeNumOverlaps_length nk (row : nat) Aj Ax colStart colEnd Bp Bi Bx
    maskIndices maskStart maskEnd :
  computeNumOverlaps nk Aj colStart colEnd Bp Bi
    maskIndices maskStart maskEnd
  = length
      (flat_map
         (λ col,
            let kv := scatter_row zero nk Aj Ax colStart colEnd in
            let total := column_product zero extBlocks row col kv.1 kv.2
                           Bp Bi Bx false in
            if total.2 then [(col, total.1)] else [])
         (iteration_column maskIndices
          <$> seq maskStart (maskEnd - maskStart))).
Proof.
  unfold computeNumOverlaps. cbv zeta.
  rewrite <- (scatter_row_marks nk Aj Ax).
  set (kv := scatter_row zero nk Aj Ax colStart colEnd).
  set (g := λ col : nat,
         if (column_product zero extBlocks row col kv.1 kv.2 Bp Bi Bx false).2
         then [(col, (column_product zero extBlocks row col kv.1 kv.2
                        Bp Bi Bx false).1)]
         else []).
  set (count := λ (total mm : nat), _).
  assert (∀ mms total,
            fold_left count mms total
            = total + length (flat_map g (iteration_column maskIndices
                                          <$> mms))) as Hfold.
  { induction mms as [|mm mms IH]; intros total; [simpl; lia|].
    rewrite fmap_cons. simpl flat_map. simpl fold_left.
    rewrite IH, length_app. unfold count at 1.
    rewrite <- (column_product_alive row _ kv.1 kv.2 Bp Bi Bx false).
    subst g. cbv beta.
    destruct (column_product zero extBlocks row
                (iteration_column maskIndices mm) kv.1 kv.2 Bp Bi Bx false).2;
      simpl; lia. }
  by rewrite Hfold.
Qed.

End InnerProduct.

Section MultiplyPasses.
Context {V : Type} (zero : V).
Implicit Types (rows : nat → list (nat * V)) (Cp : list nat)
  (out : list nat * list V).

#[local] Hint Extern 0 (Inhabited V) =>
  exact (value_inhabited zero) : typeclass_instances.

(** The first pass: one store per row. *)
Lemma fold_store_spec (f : nat → nat) n Cp :
  n ≤ length Cp →
  length (fold_left (λ Cp row, <[row := f row]> Cp) (seq 0 n) Cp) = length Cp
  ∧ (∀ r, r < n →
       fold_left (λ Cp row, <[row := f row]> Cp) (seq 0 n) Cp !!! r = f r)
  ∧ (∀ r, n ≤ r →
       fold_left (λ Cp row, <[row := f row]> Cp) (seq 0 n) Cp !!! r
       = Cp !!! r).
Proof.
  induction n as [|n IH]; intros Hn.
  { simpl. split_and!; [done|lia|done]. }
  destruct IH as (Hlen & Hlow & Hhigh); [lia|].
  rewrite fold_left_seq_S. split_and!.
  - by rewrite length_insert.
  - intros r Hr. destruct (decide (r = n)) as [->|Hne].
    + rewrite list_lookup_total_insert_eq by lia. done.
    + rewrite list_lookup_total_insert_ne by done. apply Hlow. lia.
  - intros r Hr. rewrite list_lookup_total_insert_ne by lia. apply Hhigh. lia.
Qed.

(** The number of entries before a row grows with the row. *)
Lemma rows_before_mono rows a b :
  a ≤ b →
  length (flat_map rows (seq 0 a)) ≤ length (flat_map rows (seq 0 b)).
Proof.
  intros Hab. replace b with (a + (b - a)) by lia.
  rewrite seq_app, flat_map_app, length_app. lia.
Qed.

Lemma rows_before_S rows a :
  length (flat_map rows (seq 0 (a + 1)))
  = length (flat_map rows (seq 0 a)) + length (rows a).
Proof.
  rewrite seq_app, flat_map_app, length_app. simpl.
  by rewrite app_nil_r.
Qed.

(** The third pass: every row of the product lands in its slice. *)
Lemma fill_rows_spec rows n Cp out0 m :
  (∀ c, c ≤ n → Cp !!! c = length (flat_map rows (seq 0 c))) →
  length out0.1 = length (flat_map rows (seq 0 n)) →
  length out0.2 = length (flat_map rows (seq 0 n)) →
  m ≤ n →
  let out :=
    fold_left (λ out row, if Cp !!! row =? Cp !!! (row + 1) then out
                          else write_slice (Cp !!! row) (rows row) out)
              (seq 0 m) out0 in
  length out.1 = length (flat_map rows (seq 0 n))
  ∧ length out.2 = length (flat_map rows (seq 0 n))
  ∧ ∀ r, r < m →
      slice_at zero out.1 out.2 (Cp !!! r) (length (rows r)) = rows r.
Proof.
  intros HCp Hl1 Hl2. induction m as [|m IH]; intros Hm; cbv zeta.
  { simpl. split_and!; [done|done|lia]. }
  destruct IH as (IH1 & IH2 & IH3); [lia|].
  rewrite fold_left_seq_S.
  set (prev := fold_left _ (seq 0 m) out0) in *.
  pose proof (rows_before_S rows m) as HS.
  pose proof (rows_before_mono rows (m + 1) n ltac:(lia)) as Hmono.
  rewrite (HCp m), (HCp (m + 1)) by lia.
  destruct (Nat.eqb_spec (length (flat_map rows (seq 0 m)))
              (length (flat_map rows (seq 0 (m + 1))))) as [Heq|Hne].
  - split_and!; [done|done|]. intros r Hr.
    destruct (decide (r = m)) as [->|Hrm]; [|apply IH3; lia].
    assert (length (rows m) = 0) as Hz by lia.
    rewrite Hz. by destruct (rows m).
  - destruct (write_slice_length (length (flat_map rows (seq 0 m)))
                (rows m) prev) as [Hw1 Hw2].
    split_and!; [by rewrite Hw1|by rewrite Hw2|]. intros r Hr.
    destruct (decide (r = m)) as [->|Hrm].
    + rewrite (HCp m) by lia. apply write_slice_inside; lia.
    + rewrite write_slice_frame; [apply IH3; lia|].
      left. rewrite (HCp r) by lia. rewrite <- rows_before_S.
      apply rows_before_mono. lia.
Qed.

(** Buffers whose slices hold the rows store the rows' entries. *)
Lemma rows_entries rows n Cp out :
  (∀ c, c ≤ n → Cp !!! c = length (flat_map rows (seq 0 c))) →
  (∀ r, r < n →
     slice_at zero out.1 out.2 (Cp !!! r) (length (rows r)) = rows r) →
  storage_entries zero n Cp out.1 out.2
  = flat_map (λ o, (λ x, (o, x.1, x.2)) <$> rows o) (seq 0 n).
Proof.
  intros HCp Hslice. unfold storage_entries. apply flat_map_ext_in.
  intros o Ho. apply elem_of_seq in Ho.
  rewrite (HCp (o + 1)), (HCp o), rows_before_S by lia.
  replace (length (flat_map rows (seq 0 o)) + length (rows o)
           - length (flat_map rows (seq 0 o))) with (length (rows o)) by lia.
  rewrite <- (Hslice o) at 2 by lia. rewrite (HCp o) by lia.
  unfold slice_at. by rewrite <- list_fmap_compose.
Qed.

End MultiplyPasses.

(** ** Matrix multiplication: the entries of the product *)

Section MultiplyEntries.
Context {V W : Type} (zero : V) (extBlocks : ExtensionBlocks V).
Implicit Types (A B : SparseTensorStorage V)
  (mask : option (SparseTensorStorage W)).

#[local] Hint Extern 0 (Inhabited V) =>
  exact (value_inhabited zero) : typeclass_instances.

(** A row that stores nothing marks nothing, and has no product. *)
Lemma column_product_unmarked row col nk kvec Bp Bi Bx swapMultOps :
  (column_product zero extBlocks row col (replicate nk false) kvec
     Bp Bi Bx swapMultOps).2 = false.
Proof.
  rewrite column_product_alive.
  induction (seq (Bp !!! col) (Bp !!! (col + 1) - Bp !!! col)) as [|ii l IH];
    simpl; [done|].
  assert (marked (replicate nk false) (Bi !!! ii) = false) as ->; [|done].
  unfold marked.
  destruct (replicate nk false !! (Bi !!! ii)) as [b|] eqn:Hlook; [|done].
  by apply lookup_replicate in Hlook as [-> _].
Qed.

Lemma product_row_empty A B row cols :
  (pointers A !!! 1) !!! row = (pointers A !!! 1) !!! (row + 1) →
  product_row zero extBlocks A B row cols = [].
Proof.
  intros Heq. unfold product_row, scatter_row. cbv zeta.
  rewrite Heq, Nat.sub_diag. simpl.
  induction cols as [|col cols IH]; simpl; [done|].
  by rewrite column_product_unmarked.
Qed.

(** The product of a rank-2 object, field by field. *)
Lemma multiply_fields s0 s1 rv ix P0 Ap I0 Aj (Ax : list V) B mask
    isMaskComplement :
  let A := mkStorage [s0; s1] rv ix [P0; Ap] [I0; Aj] Ax in
  let ncol := num_cols CSC B in
  let Bp := pointers B !!! 1 in
  let Bi := indices B !!! 1 in
  let Cp1 :=
    fold_left
      (λ Cp row,
         <[row := if Ap !!! row =? Ap !!! (row + 1) then 0
                  else let range :=
                         iteration_range mask isMaskComplement ncol row in
                       computeNumOverlaps s1 Aj (Ap !!! row) (Ap !!! (row + 1))
                         Bp Bi range.1.1 range.1.2 range.2]> Cp)
      (seq 0 s0) (resize (s0 + 1) 0 (replicate (length Ap) 0)) in
  let Cp :=
    fold_left
      (λ Cp cs_i, <[s0 := Cp !!! s0 + Cp !!! cs_i]> (<[cs_i := Cp !!! s0]> Cp))
      (seq 0 s0) Cp1 in
  let out :=
    fold_left
      (λ (out : list nat * list V) row,
         if Cp !!! row =? Cp !!! (row + 1) then out
         else let range := iteration_range mask isMaskComplement ncol row in
              computeInnerProduct zero extBlocks s1 row Aj Ax
                (Ap !!! row) (Ap !!! (row + 1)) Bp Bi (values B)
                range.1.1 range.1.2 range.2 out.1 out.2 (Cp !!! row) false)
      (seq 0 s0) (resize (Cp !!! s0) 0 [], resize (Cp !!! s0) zero []) in
  rewriteMatrixMatrixMultiplication zero extBlocks A B mask isMaskComplement
  = mkStorage [s0; ncol] rv []
      [replicate (length P0) 0; Cp] [[]; out.1] out.2.
Proof. reflexivity. Qed.

(** The multiplication stores the rows of the product, one after the
    other, in a matrix with the rows of [A] and the columns of [B]. *)
Lemma multiply_entries A B mask isMaskComplement :
  length (sizes A) = 2 → length (pointers A) = 2 → length (indices A) = 2 →
  let C := rewriteMatrixMatrixMultiplication zero extBlocks A B mask
             isMaskComplement in
  sizes C = [num_rows CSR A; num_cols CSC B]
  ∧ entries zero CSR C
    = product_entries zero extBlocks A B mask isMaskComplement.
Proof.
  intros Hs Hp Hi. cbv zeta.
  destruct A as [sz rv ix ptrs inds Ax]. simpl in Hs, Hp, Hi.
  destruct sz as [|s0 [|s1 [|? ?]]]; try done.
  destruct ptrs as [|P0 [|Ap [|? ?]]]; try done.
  destruct inds as [|I0 [|Aj [|? ?]]]; try done.
  rewrite multiply_fields. cbv zeta.
  set (A := mkStorage [s0; s1] rv ix [P0; Ap] [I0; Aj] Ax).
  set (ncol := num_cols CSC B).
  set (rows := λ row,
         product_row zero extBlocks A B row
           (range_columns (iteration_range mask isMaskComplement ncol row))).
  set (f := λ row : nat,
         if Ap !!! row =? Ap !!! (row + 1) then 0
         else let range := iteration_range mask isMaskComplement ncol row in
              computeNumOverlaps s1 Aj (Ap !!! row) (Ap !!! (row + 1))
                (pointers B !!! 1) (indices B !!! 1)
                range.1.1 range.1.2 range.2).
  (* the counts *)
  assert (∀ r, f r = length (rows r)) as Hf.
  { intros r. unfold f, rows.
    destruct (Nat.eqb_spec (Ap !!! r) (Ap !!! (r + 1))) as [Heq|Hne].
    - by rewrite product_row_empty.
    - cbv zeta.
      by rewrite (computeNumOverlaps_length zero extBlocks s1 r Aj Ax _ _ _ _
                    (values B)). }
  destruct (fold_store_spec f s0 (resize (s0 + 1) 0 (replicate (length Ap) 0)))
    as (Hl1 & Hlow1 & Hhigh1).
  { rewrite length_resize. lia. }
  set (Cp1 := fold_left _ (seq 0 s0) (resize _ _ _)) in *.
  rewrite length_resize in Hl1.
  assert (Cp1 !!! s0 = 0) as Hlast1.
  { rewrite Hhigh1 by lia. rewrite resize_replicate.
    apply lookup_total_replicate_2. lia. }
  (* the pointers *)
  destruct (cumsum_pointers_spec s0 Cp1
              (λ c, length (flat_map rows (seq 0 c)))) as [Hl2 HCp];
    [done|done| |].
  { intros c Hc. by rewrite rows_before_S, Hlow1, Hf. }
  assert (cumsum_pointers s0 Cp1
          = fold_left
              (λ Cp cs_i,
                 <[s0 := Cp !!! s0 + Cp !!! cs_i]> (<[cs_i := Cp !!! s0]> Cp))
              (seq 0 s0) Cp1) as Hcum.
  { unfold cumsum_pointers. f_equal. apply list_insert_id.
    rewrite <- Hlast1. apply list_lookup_lookup_total_lt. lia. }
  rewrite Hcum in Hl2, HCp.
  set (Cp := fold_left _ (seq 0 s0) Cp1) in *.
  (* the fill *)
  set (out0 := (resize (Cp !!! s0) 0 [], resize (Cp !!! s0) zero [])).
  set (fill := λ (out : list nat * list V) (row : nat), _).
  assert (fold_left fill (seq 0 s0) out0
          = fold_left (λ out row,
                         if Cp !!! row =? Cp !!! (row + 1) then out
                         else write_slice (Cp !!! row) (rows row) out)
                      (seq 0 s0) out0) as Hfill.
  { apply fold_left_ext_in. intros out row _. unfold fill.
    destruct (Cp !!! row =? Cp !!! (row + 1)); [done|]. cbv zeta.
    rewrite computeInnerProduct_write. by destruct out. }
  rewrite Hfill. clear Hfill.
  destruct (fill_rows_spec zero rows s0 Cp out0 s0) as (Ho1 & Ho2 & Hslice);
    [done| | |done|].
  { simpl. by rewrite length_resize, HCp. }
  { simpl. by rewrite length_resize, HCp. }
  cbv zeta in Ho1, Ho2, Hslice.
  set (out := fold_left _ (seq 0 s0) out0) in *.
  split; [done|].
  unfold entries, product_entries. simpl.
  change (([replicate (length P0) 0; Cp] : list (list nat)) !!! 1) with Cp.
  change (([[]; out.1] : list (list nat)) !!! 1) with out.1.
  change (([s0; ncol] : list nat) !!! 0) with s0.
  rewrite (rows_entries zero rows s0 Cp out HCp Hslice).
  unfold logical_entry. simpl. by rewrite list_fmap_id.
Qed.

End MultiplyEntries.

(** ** Searching a segment with increasing keys *)

Section SortedKeys.
Context {A : Type}.

Lemma find_snoc (f : nat → bool) l x :
  find f (l ++ [x])
  = match find f l with
    | Some y => Some y
    | None => if f x then Some x else None
    end.
Proof.
  induction l as [|y l IH]; simpl; [done|]. by destruct (f y).
Qed.

Lemma find_all_false (f : nat → bool) l :
  (∀ x, x ∈ l → f x = false) → find f l = None.
Proof.
  induction l as [|y l IH]; intros Hall; simpl; [done|].
  rewrite (Hall y) by (by left). apply IH. intros x Hx. apply Hall. by right.
Qed.

(** Folding over the keys in increasing order, or over the positions of
    a segment whose keys increase, is the same. *)
Lemma fold_sorted_keys (key : nat → nat) (h : A → nat → nat → A) n s len a :
  (∀ p q, s ≤ p → p < q → q < s + len → key p < key q) →
  (∀ p, s ≤ p → p < s + len → key p < n) →
  fold_left (λ acc k,
               match find (λ ii, key ii =? k) (seq s len) with
               | Some ii => h acc k ii
               | None => acc
               end) (seq 0 n) a
  = fold_left (λ acc ii, h acc (key ii) ii) (seq s len) a.
Proof.
  revert len. induction n as [|n IH]; intros len Hinc Hbound.
  { destruct len as [|len]; [done|].
    specialize (Hbound s ltac:(lia) ltac:(lia)). lia. }
  rewrite fold_left_seq_S.
  assert ((∃ len', len = S len' ∧ key (s + len') = n)
          ∨ ¬ (∃ len', len = S len' ∧ key (s + len') = n))
    as [(len' & -> & Hlast)|Hnot].
  { destruct len as [|len']; [right; intros (? & ? & ?); lia|].
    destruct (decide (key (s + len') = n)) as [Heq|Hne]; [left; eauto|].
    right. intros (l2 & Hl2 & Hk). assert (l2 = len') as -> by lia. done. }
  - rewrite seq_S, fold_left_app. simpl.
    rewrite find_snoc, find_all_false, Hlast, Nat.eqb_refl; cycle 1.
    { intros p Hp. apply elem_of_seq in Hp. apply Nat.eqb_neq.
      specialize (Hinc p (s + len') ltac:(lia) ltac:(lia) ltac:(lia)). lia. }
    f_equal. rewrite <- (IH len'); cycle 1.
    { intros p q Hp Hpq Hq. apply Hinc; lia. }
    { intros p Hp1 Hp2.
      specialize (Hinc p (s + len') ltac:(lia) ltac:(lia) ltac:(lia)). lia. }
    apply fold_left_ext_in. intros acc k Hk. apply elem_of_seq in Hk.
    rewrite find_snoc.
    destruct (find (λ ii, key ii =? k) (seq s len')); [done|].
    rewrite Hlast. destruct (Nat.eqb_spec n k); [lia|done].
  - assert (∀ p, s ≤ p → p < s + len → key p < n) as Hbound'.
    { intros p Hp1 Hp2. destruct len as [|len']; [lia|].
      assert (key (s + len') ≠ n) as Hne.
      { intros Heq. apply Hnot. by exists len'. }
      pose proof (Hbound (s + len') ltac:(lia) ltac:(lia)).
      destruct (decide (p = s + len')) as [->|Hp]; [lia|].
      specialize (Hinc p (s + len') ltac:(lia) ltac:(lia) ltac:(lia)). lia. }
    rewrite find_all_false; [by apply IH|].
    intros p Hp. apply elem_of_seq in Hp. apply Nat.eqb_neq.
    specialize (Hbound' p ltac:(lia) ltac:(lia)). lia.
Qed.

End SortedKeys.

(** ** Matrix multiplication: the values of the product *)

Section ProductValues.
Context {V : Type} (zero : V) (extBlocks : ExtensionBlocks V).
Implicit Types (A B : SparseTensorStorage V) (Aj Bp Bi : list nat)
  (Ax Bx : list V).

#[local] Hint Extern 0 (Inhabited V) =>
  exact (value_inhabited zero) : typeclass_instances.

Lemma marked_replicate nk k : marked (replicate nk false) k = false.
Proof.
  unfold marked.
  destruct (replicate nk false !! k) as [b|] eqn:Hlook; [|done].
  by apply lookup_replicate in Hlook as [-> _].
Qed.

Lemma marked_insert_eq kvec_i1 k :
  k < length kvec_i1 → marked (<[k := true]> kvec_i1) k = true.
Proof. intros Hk. unfold marked. by rewrite list_lookup_insert_eq. Qed.

Lemma marked_insert_ne kvec_i1 c k :
  c ≠ k → marked (<[c := true]> kvec_i1) k = marked kvec_i1 k.
Proof. intros Hk. unfold marked. by rewrite list_lookup_insert_ne. Qed.

(** The scratch of a row with increasing indices holds, at every
    position, what the row stores there. *)
Lemma scatter_row_spec nk Aj Ax colStart colEnd k :
  (∀ p q, colStart ≤ p → p < q → q < colEnd → Aj !!! p < Aj !!! q) →
  (∀ p, colStart ≤ p → p < colEnd → Aj !!! p < nk) →
  (λ jj, Ax !!! jj)
  <$> find (λ jj, Aj !!! jj =? k) (seq colStart (colEnd - colStart))
  = if marked (scatter_row zero nk Aj Ax colStart colEnd).1 k
    then Some ((scatter_row zero nk Aj Ax colStart colEnd).2 !!! k)
    else None.
Proof.
  intros Hinc Hbound. unfold scatter_row.
  set (step := λ (kv : list bool * list V) (jj : nat), _).
  assert (∀ len, colStart + len ≤ colStart + (colEnd - colStart) →
            let kv := fold_left step (seq colStart len)
                        (replicate nk false, replicate nk zero) in
            length kv.1 = nk ∧ length kv.2 = nk
            ∧ ∀ k, (λ jj, Ax !!! jj)
                   <$> find (λ jj, Aj !!! jj =? k) (seq colStart len)
                   = if marked kv.1 k then Some (kv.2 !!! k) else None)
    as Hgen.
  { induction len as [|len IH]; intros Hlen; cbv zeta.
    { simpl. rewrite !length_replicate. split_and!; [done|done|].
      intros k'. by rewrite marked_replicate. }
    destruct IH as (IH1 & IH2 & IH3); [lia|].
    rewrite seq_S, fold_left_app. simpl fold_left.
    set (kv := fold_left step (seq colStart len) _) in *.
    unfold step at 1 2 3. cbv zeta. simpl.
    assert (Aj !!! (colStart + len) < nk) as Hc by (apply Hbound; lia).
    rewrite !length_insert. split_and!; [done|done|].
    intros k'. rewrite find_snoc.
    destruct (decide (Aj !!! (colStart + len) = k')) as [<-|Hne].
    - rewrite find_all_false, Nat.eqb_refl; cycle 1.
      { intros p Hp. apply elem_of_seq in Hp. apply Nat.eqb_neq.
        specialize (Hinc p (colStart + len) ltac:(lia) ltac:(lia)
                      ltac:(lia)). lia. }
      rewrite marked_insert_eq by lia.
      rewrite list_lookup_total_insert_eq by lia. done.
    - rewrite marked_insert_ne by done.
      rewrite list_lookup_total_insert_ne by done.
      rewrite <- IH3.
      destruct (find (λ jj, Aj !!! jj =? k') (seq colStart len)); [done|].
      destruct (Nat.eqb_spec (Aj !!! (colStart + len)) k'); done. }
  destruct (Hgen (colEnd - colStart) ltac:(lia)) as (_ & _ & Hk).
  apply Hk.
Qed.

End ProductValues.

Section ColumnProduct.
Context {V : Type} (zero : V) (extBlocks : ExtensionBlocks V).
Implicit Types (A B : SparseTensorStorage V).

#[local] Hint Extern 0 (Inhabited V) =>
  exact (value_inhabited zero) : typeclass_instances.

(** The value of a column product, without the flag. *)
Lemma column_product_value row col kvec_i1 (kvec : list V) Bp Bi Bx :
  (column_product zero extBlocks row col kvec_i1 kvec Bp Bi Bx false).1
  = fold_left
      (λ acc ii,
         if marked kvec_i1 (Bi !!! ii)
         then add extBlocks acc
                (mult extBlocks (kvec !!! (Bi !!! ii)) (Bx !!! ii)
                      row col (Bi !!! ii))
         else acc)
      (seq (Bp !!! col) (Bp !!! (col + 1) - Bp !!! col))
      (addIdentity extBlocks).
Proof.
  unfold column_product.
  change (addIdentity extBlocks) with (addIdentity extBlocks, false).1 at 2.
  generalize (addIdentity extBlocks, false).
  induction (seq (Bp !!! col) (Bp !!! (col + 1) - Bp !!! col)) as [|ii l IH];
    intros acc; simpl; [done|].
  rewrite IH. by destruct (marked kvec_i1 (Bi !!! ii)).
Qed.

(** A column product is alive exactly when a position is marked. *)
Lemma column_product_alive_iff row col kvec_i1 (kvec : list V) Bp Bi Bx :
  (column_product zero extBlocks row col kvec_i1 kvec Bp Bi Bx false).2 = true
  ↔ ∃ ii, Bp !!! col ≤ ii < Bp !!! (col + 1)
          ∧ marked kvec_i1 (Bi !!! ii) = true.
Proof.
  rewrite column_product_alive.
  assert (∀ l found,
            fold_left (λ found ii, found || marked kvec_i1 (Bi !!! ii)) l found
            = true
            ↔ found = true ∨ ∃ ii, ii ∈ l ∧ marked kvec_i1 (Bi !!! ii) = true)
    as Hfold.
  { induction l as [|ii l IH]; intros found; simpl.
    - split; [by left|]. intros [?|(ii & Hii & _)]; [done|].
      by apply elem_of_nil in Hii.
    - rewrite IH. split.
      + intros [Hor|(ii' & Hii' & Hm)].
        * apply orb_true_iff in Hor as [?|?]; [by left|].
          right. exists ii. split; [by left|done].
        * right. exists ii'. split; [by right|done].
      + intros [->|(ii' & Hii' & Hm)]; [by left|].
        apply elem_of_cons in Hii' as [->|Hii'].
        * left. rewrite Hm. apply orb_true_r.
        * right. by exists ii'. }
  rewrite Hfold. split.
  - intros [?|(ii & Hii & Hm)]; [done|]. apply elem_of_seq in Hii.
    exists ii. split; [lia|done].
  - intros (ii & Hii & Hm). right. exists ii. split; [|done].
    apply elem_of_seq. lia.
Qed.

End ColumnProduct.

Section SemiringSum.
Context {V : Type} (zero : V) (extBlocks : ExtensionBlocks V).
Implicit Types (A B : SparseTensorStorage V).

#[local] Hint Extern 0 (Inhabited V) =>
  exact (value_inhabited zero) : typeclass_instances.

(** The positions of a segment are positions of the index buffer. *)
Lemma segment_position {W} (t : SparseTensorStorage W) o p :
  matrix_wf t → o < sizes t !!! 0 →
  p < (pointers t !!! 1) !!! (o + 1) →
  p < length (indices t !!! 1).
Proof.
  intros Hwf Ho Hp. rewrite <- (mw_ptr_last t Hwf).
  pose proof (mw_ptr_sorted t Hwf (o + 1) (sizes t !!! 0) ltac:(lia)
                ltac:(lia)). lia.
Qed.

(** What a row of a CSR matrix stores is what its scratch holds. *)
Lemma stored_at_scratch A i k :
  matrix_wf A → segments_increasing A → i < sizes A !!! 0 →
  let Ap := pointers A !!! 1 in
  let kv := scatter_row zero (num_cols CSR A) (indices A !!! 1) (values A)
                        (Ap !!! i) (Ap !!! (i + 1)) in
  stored_at zero CSR A i k
  = if marked kv.1 k then Some (kv.2 !!! k) else None.
Proof.
  intros Hwf Hinc Hi. cbv zeta. unfold stored_at. simpl.
  rewrite decide_True by done.
  apply scatter_row_spec.
  - intros p q Hp Hpq Hq. by apply (Hinc i).
  - intros p Hp1 Hp2. apply (mw_bound A Hwf).
    by apply (segment_position A i).
Qed.

(** The inner product of a row of [A] and a column of [B], as the fill
    pass computes it, is the sum the semiring prescribes. *)
Lemma column_product_sum A B i j :
  matrix_wf A → matrix_wf B → segments_increasing A → segments_increasing B →
  sizes B !!! 1 = sizes A !!! 1 → i < sizes A !!! 0 → j < sizes B !!! 0 →
  let Ap := pointers A !!! 1 in
  let kv := scatter_row zero (num_cols CSR A) (indices A !!! 1) (values A)
                        (Ap !!! i) (Ap !!! (i + 1)) in
  (column_product zero extBlocks i j kv.1 kv.2
     (pointers B !!! 1) (indices B !!! 1) (values B) false).1
  = semiring_sum zero extBlocks CSR CSC A B i j.
Proof.
  intros HwfA HwfB HincA HincB Hk Hi Hj. cbv zeta.
  rewrite column_product_value. unfold semiring_sum.
  set (kv := scatter_row zero _ _ _ _ _).
  set (Bp := pointers B !!! 1). set (Bi := indices B !!! 1).
  rewrite <- (fold_sorted_keys (λ ii, Bi !!! ii)
                (λ acc k ii,
                   if marked kv.1 k
                   then add extBlocks acc
                          (mult extBlocks (kv.2 !!! k) (values B !!! ii) i j k)
                   else acc)
                (num_cols CSR A)); cycle 1.
  { intros p q Hp Hpq Hq. apply (HincB j); [done|done|done|]. fold Bp. lia. }
  { intros p Hp1 Hp2. unfold num_cols, tensor_dim. simpl. rewrite <- Hk.
    apply (mw_bound B HwfB), (segment_position B j); [done|done|].
    fold Bp. lia. }
  apply fold_left_ext_in. intros acc k _.
  rewrite (stored_at_scratch A i k) by done. fold kv.
  unfold stored_at. simpl. rewrite decide_True by done. fold Bp Bi.
  destruct (find (λ jj, Bi !!! jj =? k) _); simpl;
    by destruct (marked kv.1 k).
Qed.

(** An inner product is alive only if the row and the column share a
    stored position. *)
Lemma column_product_shared A B i j :
  matrix_wf A → segments_increasing A →
  i < sizes A !!! 0 → j < sizes B !!! 0 →
  let Ap := pointers A !!! 1 in
  let kv := scatter_row zero (num_cols CSR A) (indices A !!! 1) (values A)
                        (Ap !!! i) (Ap !!! (i + 1)) in
  (column_product zero extBlocks i j kv.1 kv.2
     (pointers B !!! 1) (indices B !!! 1) (values B) false).2 = true
  ↔ ∃ k, is_Some (stored_at zero CSR A i k)
         ∧ is_Some (stored_at zero CSC B k j).
Proof.
  intros HwfA HincA Hi Hj. cbv zeta. rewrite column_product_alive_iff.
  set (kv := scatter_row zero _ _ _ _ _).
  set (Bp := pointers B !!! 1). set (Bi := indices B !!! 1).
  assert (∀ k, is_Some (stored_at zero CSC B k j)
               ↔ ∃ ii, Bp !!! j ≤ ii < Bp !!! (j + 1) ∧ Bi !!! ii = k)
    as HB.
  { intros k. unfold stored_at. simpl. rewrite decide_True by done.
    fold Bp Bi. rewrite fmap_is_Some. split.
    - intros [ii Hfind]. apply find_some in Hfind as [Hin Heq].
      apply in_seq in Hin. apply Nat.eqb_eq in Heq. exists ii. split; [lia|done].
    - intros (ii & Hii & Heq).
      destruct (find (λ jj, Bi !!! jj =? k) _) as [ii'|] eqn:Hfind; [done|].
      pose proof (find_none _ _ Hfind ii) as Hnone. simpl in Hnone.
      rewrite Heq, Nat.eqb_refl in Hnone.
      discriminate Hnone. apply in_seq. lia. }
  split.
  - intros (ii & Hii & Hm). exists (Bi !!! ii). split.
    + rewrite (stored_at_scratch A i) by done. fold kv. by rewrite Hm.
    + apply HB. by exists ii.
  - intros (k & HA & HBk). apply HB in HBk as (ii & Hii & <-).
    exists ii. split; [done|].
    rewrite (stored_at_scratch A i) in HA by done. fold kv in HA.
    destruct (marked kv.1 (Bi !!! ii)); [done|]. by destruct HA.
Qed.

End SemiringSum.

Section ProductLaw.
Context {V W : Type} (zero : V) (extBlocks : ExtensionBlocks V).
Implicit Types (A B : SparseTensorStorage V)
  (mask : option (SparseTensorStorage W)).

#[local] Hint Extern 0 (Inhabited V) =>
  exact (value_inhabited zero) : typeclass_instances.

(** The entries of the product are the live inner products of the rows
    with the columns of their iteration ranges. *)
Lemma elem_of_product_entries A B mask isMaskComplement i j v :
  (i, j, v) ∈ product_entries zero extBlocks A B mask isMaskComplement
  ↔ i < num_rows CSR A
    ∧ j ∈ range_columns
            (iteration_range mask isMaskComplement (num_cols CSC B) i)
    ∧ let Ap := pointers A !!! 1 in
      let kv := scatter_row zero (num_cols CSR A) (indices A !!! 1) (values A)
                            (Ap !!! i) (Ap !!! (i + 1)) in
      column_product zero extBlocks i j kv.1 kv.2
        (pointers B !!! 1) (indices B !!! 1) (values B) false = (v, true).
Proof.
  unfold product_entries. rewrite list_elem_of_In, in_flat_map. cbv zeta.
  set (cols := λ row, range_columns
                        (iteration_range mask isMaskComplement
                           (num_cols CSC B) row)).
  split.
  - intros (row & Hrow & Hin). apply in_seq in Hrow.
    apply list_elem_of_In, list_elem_of_fmap in Hin as ([j' v'] & Heq & Hin).
    simpl in Heq. injection Heq as -> -> ->.
    unfold product_row in Hin. cbv zeta in Hin.
    apply list_elem_of_In, in_flat_map in Hin as (col & Hcol & Hin).
    destruct (column_product zero extBlocks row col _ _ _ _ _ false)
      as [total alive] eqn:Hprod.
    simpl in Hin. destruct alive; [|done].
    destruct Hin as [Heq|[]]. injection Heq as -> ->.
    split_and!; [lia|by apply list_elem_of_In|done].
  - intros (Hi & Hj & Hprod). exists i. split; [apply in_seq; lia|].
    apply list_elem_of_In, list_elem_of_fmap. exists (j, v). split; [done|].
    unfold product_row. cbv zeta.
    apply list_elem_of_In, in_flat_map. exists j.
    split; [by apply list_elem_of_In|].
    rewrite Hprod. simpl. by left.
Qed.

(** The multiplication of a CSR matrix with a CSC matrix: the shape of
    the product, and its entries, which are the sums the semiring
    prescribes at the positions of the iteration ranges where a row and
    a column share a stored position. *)
Lemma multiply_csr_csc A B mask isMaskComplement :
  matrix_wf A → matrix_wf B → segments_increasing A → segments_increasing B →
  sizes B !!! 1 = sizes A !!! 1 →
  (∀ i j, i < sizes A !!! 0 →
     j ∈ range_columns
           (iteration_range mask isMaskComplement (sizes B !!! 0) i) →
     j < sizes B !!! 0) →
  let C := rewriteMatrixMatrixMultiplication zero extBlocks A B mask
             isMaskComplement in
  sizes C = [sizes A !!! 0; sizes B !!! 0]
  ∧ ∀ i j v,
      (i, j, v) ∈ entries zero CSR C
      ↔ i < sizes A !!! 0
        ∧ j ∈ range_columns
                (iteration_range mask isMaskComplement (sizes B !!! 0) i)
        ∧ (∃ k, is_Some (stored_at zero CSR A i k)
                ∧ is_Some (stored_at zero CSC B k j))
        ∧ v = semiring_sum zero extBlocks CSR CSC A B i j.
Proof.
  intros HwfA HwfB HincA HincB Hk Hrange. cbv zeta.
  destruct (multiply_entries zero extBlocks A B mask isMaskComplement)
    as [Hsizes Hentries];
    [apply HwfA|apply HwfA|apply HwfA|].
  split; [done|]. intros i j v. rewrite Hentries, elem_of_product_entries.
  change (num_rows CSR A) with (sizes A !!! 0).
  change (num_cols CSC B) with (sizes B !!! 0).
  cbv zeta. split.
  - intros (Hi & Hj & Hprod). specialize (Hrange i j Hi Hj).
    split_and!; [done|done| |].
    + apply (column_product_shared zero extBlocks A B i j); [done..|].
      by rewrite Hprod.
    + rewrite <- (column_product_sum zero extBlocks A B i j) by done.
      cbv zeta. by rewrite Hprod.
  - intros (Hi & Hj & Hshared & ->). specialize (Hrange i j Hi Hj).
    split_and!; [done|done|].
    apply (column_product_shared zero extBlocks A B i j) in Hshared;
      [|done..].
    cbv zeta in Hshared.
    rewrite <- (column_product_sum zero extBlocks A B i j) by done.
    cbv zeta. rewrite <- Hshared. by destruct (column_product _ _ _ _ _ _ _ _ _ _).
Qed.

End ProductLaw.

(** ** Stored values and entries *)

Section StoredAt.
Context {V : Type} (zero : V).
Implicit Types (t : SparseTensorStorage V).

#[local] Hint Extern 0 (Inhabited V) =>
  exact (value_inhabited zero) : typeclass_instances.

(** In a segment with increasing indices, the search finds the one
    position of an index. *)
Lemma find_segment_entry (ptrs inds : list nat) (vals : list V)
    nouter o c v :
  (∀ o p q, o < nouter → ptrs !!! o ≤ p → p < q → q < ptrs !!! (o + 1) →
     inds !!! p < inds !!! q) →
  (o < nouter
   ∧ (λ jj, vals !!! jj)
     <$> find (λ jj, inds !!! jj =? c)
              (seq (ptrs !!! o) (ptrs !!! (o + 1) - ptrs !!! o)) = Some v)
  ↔ (o, c, v) ∈ storage_entries zero nouter ptrs inds vals.
Proof.
  intros Hinc. unfold storage_entries.
  rewrite list_elem_of_In, in_flat_map. split.
  - intros [Ho Hfind]. apply fmap_Some in Hfind as (jj & Hfind & ->).
    apply find_some in Hfind as [Hin Heq]. apply Nat.eqb_eq in Heq.
    exists o. split; [apply in_seq; lia|].
    apply list_elem_of_In, list_elem_of_fmap. exists jj.
    split; [by rewrite Heq|by apply list_elem_of_In].
  - intros (o' & Ho' & Hin). apply in_seq in Ho'.
    apply list_elem_of_In, list_elem_of_fmap in Hin as (jj & Heq & Hjj).
    injection Heq as -> -> ->. apply elem_of_seq in Hjj.
    split; [lia|].
    destruct (find (λ jj0, inds !!! jj0 =? inds !!! jj) _) as [jj'|] eqn:Hfind.
    + apply find_some in Hfind as [Hin Heq]. apply Nat.eqb_eq in Heq.
      apply in_seq in Hin. simpl. f_equal.
      destruct (Nat.lt_trichotomy jj' jj) as [Hlt|[->|Hgt]]; [|done|].
      * specialize (Hinc o' jj' jj ltac:(lia) ltac:(lia) ltac:(lia)
                      ltac:(lia)). lia.
      * specialize (Hinc o' jj jj' ltac:(lia) ltac:(lia) ltac:(lia)
                      ltac:(lia)). lia.
    + pose proof (find_none _ _ Hfind jj) as Hnone. simpl in Hnone.
      rewrite Nat.eqb_refl in Hnone. discriminate Hnone. apply in_seq. lia.
Qed.

(** What a matrix stores at a position is its entry there. *)
Lemma stored_at_entries ty t i j v :
  segments_increasing t →
  stored_at zero ty t i j = Some v ↔ (i, j, v) ∈ entries zero ty t.
Proof.
  intros Hinc. unfold stored_at, entries, logical_entry, hasRowOrdering.
  destruct (ty_ordering ty); cbv zeta.
  - rewrite list_fmap_id.
    rewrite <- (find_segment_entry _ _ _ _ _ _ _ Hinc).
    case_decide; [tauto|]. split; [done|]. by intros [? _].
  - split.
    + intros Hstored. case_decide as Hj; [|done].
      apply list_elem_of_fmap. exists (j, i, v). split; [done|].
      by apply (find_segment_entry _ _ _ _ _ _ _ Hinc).
    + intros Hin. apply list_elem_of_fmap in Hin as ([[o c] v'] & Heq & Hin).
      simpl in Heq. injection Heq as -> -> ->.
      apply (find_segment_entry _ _ _ _ _ _ _ Hinc) in Hin as [Ho Hfind].
      by rewrite decide_True.
Qed.

End StoredAt.

(** ** Operands in the layout the lowering takes *)

Section Normalise.
Context {V : Type} (zero : V).
Implicit Types (t A B : SparseTensorStorage V).

(** The conversion to the other layout keeps the structure, the shape,
    the entries and, for increasing segments, what is stored where. *)
Lemma convert_layout_flip_spec ty t :
  ty_rank ty = 2 → matrix_wf t →
  let ty' := getFlippedLayoutType ty in
  let t' := convert_layout zero ty ty' t in
  matrix_wf t'
  ∧ sizes t' = [sizes t !!! 1; sizes t !!! 0]
  ∧ entries zero ty' t' ≡ₚ entries zero ty t
  ∧ (segments_increasing t →
     segments_increasing t'
     ∧ ∀ i j, stored_at zero ty' t' i j = stored_at zero ty t i j).
Proof.
  intros Hrank Hwf. cbv zeta.
  assert (ty_ordering (getFlippedLayoutType ty) ≠ ty_ordering ty) as Hord.
  { unfold getFlippedLayoutType. simpl. by destruct (ty_ordering ty). }
  unfold convert_layout.
  rewrite decide_False by (intros Heq; apply Hord; by rewrite <- Heq).
  destruct (convert_layout_rebuild_spec zero ty (getFlippedLayoutType ty) t
              Hrank Hord Hwf) as (Hwf' & Hsizes & Hperm & Hinc).
  split_and!; [done|done|done|]. intros Hinct.
  split; [by apply Hinc|]. intros i j. apply option_eq. intros v.
  rewrite !stored_at_entries by auto. by rewrite Hperm.
Qed.

Lemma dwim_first_arg_spec aType A :
  ty_rank aType = 2 → matrix_wf A →
  let A' := MatrixMultiplyGenericDWIMFirstArgRewrite zero aType A in
  matrix_wf A'
  ∧ sizes A' !!! 0 = num_rows aType A ∧ sizes A' !!! 1 = num_cols aType A
  ∧ entries zero CSR A' ≡ₚ entries zero aType A
  ∧ (segments_increasing A →
     segments_increasing A'
     ∧ ∀ i k, stored_at zero CSR A' i k = stored_at zero aType A i k).
Proof.
  intros Hrank Hwf. cbv zeta.
  destruct aType as [rk [|]]; simpl in Hrank; subst rk.
  - change (MatrixMultiplyGenericDWIMFirstArgRewrite zero (mkType 2 RowMajor) A)
      with A.
    by split_and!.
  - change (MatrixMultiplyGenericDWIMFirstArgRewrite zero
              (mkType 2 ColumnMajor) A)
      with (convert_layout zero CSC (getFlippedLayoutType CSC) A).
    destruct (convert_layout_flip_spec CSC A eq_refl Hwf)
      as (Hwf' & Hsizes & Hperm & Hinc).
    split_and!; [done| | |done|done]; by rewrite Hsizes.
Qed.

Lemma dwim_second_arg_spec bType B :
  ty_rank bType = 2 → matrix_wf B →
  let B' := MatrixMultiplyGenericDWIMSecondArgRewrite zero bType B in
  matrix_wf B'
  ∧ sizes B' !!! 0 = num_cols bType B ∧ sizes B' !!! 1 = num_rows bType B
  ∧ entries zero CSC B' ≡ₚ entries zero bType B
  ∧ (segments_increasing B →
     segments_increasing B'
     ∧ ∀ k j, stored_at zero CSC B' k j = stored_at zero bType B k j).
Proof.
  intros Hrank Hwf. cbv zeta.
  destruct bType as [rk [|]]; simpl in Hrank; subst rk.
  - change (MatrixMultiplyGenericDWIMSecondArgRewrite zero
              (mkType 2 RowMajor) B)
      with (convert_layout zero CSR (getFlippedLayoutType CSR) B).
    destruct (convert_layout_flip_spec CSR B eq_refl Hwf)
      as (Hwf' & Hsizes & Hperm & Hinc).
    split_and!; [done| | |done|done]; by rewrite Hsizes.
  - change (MatrixMultiplyGenericDWIMSecondArgRewrite zero
              (mkType 2 ColumnMajor) B)
      with B.
    by split_and!.
Qed.

End Normalise.

(** ** Iteration ranges and masks *)

Section Ranges.
Context {W : Type}.
Implicit Types (M : SparseTensorStorage W).

Lemma range_columns_none isMaskComplement ncol i j :
  j ∈ range_columns
        (iteration_range (None : option (SparseTensorStorage W))
           isMaskComplement ncol i)
  ↔ j < ncol.
Proof.
  unfold range_columns, iteration_range. simpl.
  rewrite list_elem_of_fmap. split.
  - intros (mm & -> & Hmm). apply elem_of_seq in Hmm. simpl. lia.
  - intros Hj. exists j. split; [done|]. apply elem_of_seq. lia.
Qed.

(** The positions of a CSR matrix, row by row. *)
Lemma elem_of_coordinates_csr M i j :
  (i, j) ∈ coordinates CSR M
  ↔ i < sizes M !!! 0
    ∧ j ∈ (λ mm, (indices M !!! 1) !!! mm)
          <$> seq ((pointers M !!! 1) !!! i)
                  ((pointers M !!! 1) !!! (i + 1) - (pointers M !!! 1) !!! i).
Proof.
  unfold coordinates, storage_coordinates. simpl. rewrite list_fmap_id.
  rewrite list_elem_of_In, in_flat_map. split.
  - intros (o & Ho & Hin). apply in_seq in Ho.
    apply list_elem_of_In, list_elem_of_fmap in Hin as (jj & Heq & Hjj).
    injection Heq as -> ->. split; [lia|].
    apply list_elem_of_fmap. by exists jj.
  - intros (Hi & Hin). apply list_elem_of_fmap in Hin as (jj & -> & Hjj).
    exists i. split; [apply in_seq; lia|].
    apply list_elem_of_In, list_elem_of_fmap. by exists jj.
Qed.

(** With a mask, a row visits the columns of the mask's row. *)
Lemma range_columns_mask M ncol i j :
  i < sizes M !!! 0 →
  j ∈ range_columns (iteration_range (Some M) false ncol i)
  ↔ (i, j) ∈ coordinates CSR M.
Proof.
  intros Hi. rewrite elem_of_coordinates_csr.
  unfold range_columns, iteration_range. simpl. tauto.
Qed.

(** With the complement, a row visits the other columns. *)
Lemma range_columns_complement M ncol i j :
  i < sizes M !!! 0 →
  j ∈ range_columns (iteration_range (Some M) true ncol i)
  ↔ j < ncol ∧ (i, j) ∉ coordinates CSR M.
Proof.
  intros Hi. rewrite elem_of_coordinates_csr.
  unfold range_columns, iteration_range, buildMaskComplement,
    iteration_column. simpl.
  rewrite Nat.sub_0_r, fmap_lookup_total_seq, list_elem_of_filter,
    elem_of_seq.
  split; [intros [Hnot Hj]|intros [Hj Hnot]].
  - split; [lia|]. by intros [_ Hin].
  - split; [|lia]. intros Hin. by apply Hnot.
Qed.

(** The columns a well-formed mask names are columns of the mask. *)
Lemma coordinates_bound M i j :
  matrix_wf M → (i, j) ∈ coordinates CSR M →
  i < sizes M !!! 0 ∧ j < sizes M !!! 1.
Proof.
  intros Hwf Hin. apply elem_of_coordinates_csr in Hin as [Hi Hin].
  split; [done|]. apply list_elem_of_fmap in Hin as (mm & -> & Hmm).
  apply elem_of_seq in Hmm. apply (mw_bound M Hwf).
  apply (segment_position M i); [done|done|lia].
Qed.

End Ranges.

(** ** Positions and entries *)

Section Coordinates.
Context {V : Type} (zero : V).
Implicit Types (t : SparseTensorStorage V).

#[local] Hint Extern 0 (Inhabited V) =>
  exact (value_inhabited zero) : typeclass_instances.

Lemma coordinates_entries ty t :
  coordinates ty t = (λ e, e.1) <$> entries zero ty t.
Proof.
  unfold coordinates, entries, storage_coordinates, storage_entries,
    logical_entry.
  rewrite <- !list_fmap_compose, <- !flat_map_fmap.
  apply flat_map_ext_in. intros o _. rewrite <- !list_fmap_compose.
  apply list_fmap_ext. intros _ jj _. simpl. by destruct (ty_ordering ty).
Qed.

Lemma elem_of_coordinates ty t i j :
  (i, j) ∈ coordinates ty t ↔ ∃ v, (i, j, v) ∈ entries zero ty t.
Proof.
  rewrite coordinates_entries, list_elem_of_fmap. split.
  - intros ([[i' j'] v] & Heq & Hin). simpl in Heq.
    injection Heq as -> ->. by exists v.
  - intros (v & Hin). by exists (i, j, v).
Qed.

(** A mask converted to the layout the lowering takes names the same
    positions. *)
Lemma dwim_mask_spec maskType t :
  ty_rank maskType = 2 → matrix_wf t →
  let t' := MatrixMultiplyGenericDWIMFirstArgRewrite zero maskType t in
  matrix_wf t'
  ∧ sizes t' !!! 0 = num_rows maskType t
  ∧ sizes t' !!! 1 = num_cols maskType t
  ∧ ∀ i j, (i, j) ∈ coordinates CSR t' ↔ (i, j) ∈ coordinates maskType t.
Proof.
  intros Hrank Hwf. cbv zeta.
  destruct (dwim_first_arg_spec zero maskType t Hrank Hwf)
    as (Hwf' & Hrows & Hcols & Hperm & _).
  split_and!; [done|done|done|]. intros i j.
  rewrite !elem_of_coordinates. by setoid_rewrite Hperm.
Qed.

End Coordinates.

Section MaskLaw.
Context {V W : Type} (zero : V) (extBlocks : ExtensionBlocks V).
Implicit Types (A B : SparseTensorStorage V) (M : SparseTensorStorage W).

#[local] Hint Extern 0 (Inhabited V) =>
  exact (value_inhabited zero) : typeclass_instances.

(** The multiplication of a CSR matrix with a CSC matrix under a CSR
    mask stores the entries of the unmasked product at the positions
    of the mask, or at the others with the complement. *)
Lemma multiply_mask_csr A B M isMaskComplement i j v :
  length (sizes A) = 2 → length (pointers A) = 2 → length (indices A) = 2 →
  matrix_wf M →
  sizes M !!! 0 = sizes A !!! 0 → sizes M !!! 1 = sizes B !!! 0 →
  (i, j, v) ∈ entries zero CSR
                (rewriteMatrixMatrixMultiplication zero extBlocks A B
                   (Some M) isMaskComplement)
  ↔ (i, j, v) ∈ entries zero CSR
                  (rewriteMatrixMatrixMultiplication zero extBlocks A B
                     (None : option (SparseTensorStorage W)) false)
    ∧ if isMaskComplement then (i, j) ∉ coordinates CSR M
      else (i, j) ∈ coordinates CSR M.
Proof.
  intros Hs Hp Hi HwfM Hrows Hcols.
  destruct (multiply_entries zero extBlocks A B (Some M) isMaskComplement
              Hs Hp Hi) as [_ ->].
  destruct (multiply_entries zero extBlocks A B
              (None : option (SparseTensorStorage W)) false Hs Hp Hi)
    as [_ ->].
  rewrite !elem_of_product_entries, range_columns_none.
  change (num_rows CSR A) with (sizes A !!! 0).
  change (num_cols CSC B) with (sizes B !!! 0).
  destruct isMaskComplement.
  - split.
    + intros (Hrow & Hj & Hprod).
      apply range_columns_complement in Hj as [Hj Hnot]; [|lia].
      by split_and!.
    + intros ((Hrow & Hj & Hprod) & Hnot).
      split_and!; [done| |done].
      apply range_columns_complement; [lia|done].
  - split.
    + intros (Hrow & Hj & Hprod).
      apply range_columns_mask in Hj; [|lia].
      destruct (coordinates_bound M i j HwfM Hj) as [_ Hbound].
      split_and!; [done|lia|done|done].
    + intros ((Hrow & Hj & Hprod) & Hin).
      split_and!; [done| |done].
      apply range_columns_mask; [lia|done].
Qed.

End MaskLaw.

(** ** The operands of the multiplication test *)

Lemma a_csr_wf : matrix_wf a_csr.
Proof.
  constructor; simpl; try reflexivity.
  - intros i j Hij Hj.
    destruct i as [|[|[|?]]], j as [|[|[|?]]]; simpl; lia.
  - intros j Hj. destruct j as [|[|[|?]]]; simpl in *; lia.
Qed.

Lemma b_csr_wf : matrix_wf b_csr.
Proof.
  constructor; simpl; try reflexivity.
  - intros i j Hij Hj.
    destruct i as [|[|[|[|[|?]]]]], j as [|[|[|[|[|?]]]]]; simpl; lia.
  - intros j Hj. destruct j as [|[|[|[|[|?]]]]]; simpl in *; lia.
Qed.

Lemma mask_csr_wf : matrix_wf mask_csr.
Proof.
  constructor; simpl; try reflexivity.
  - intros i j Hij Hj.
    destruct i as [|[|[|?]]], j as [|[|[|?]]]; simpl; lia.
  - intros j Hj. destruct j as [|[|?]]; simpl in *; lia.
Qed.

Lemma a_csr_increasing : segments_increasing a_csr.
Proof.
  intros o p q Ho Hp Hpq Hq. simpl in Ho.
  destruct o as [|[|?]]; simpl in Hp, Hq |- *; [|lia..].
  assert (p = 0) as -> by lia. assert (q = 1) as -> by lia. simpl. lia.
Qed.

Lemma b_csr_increasing : segments_increasing b_csr.
Proof.
  intros o p q Ho Hp Hpq Hq. simpl in Ho.
  destruct o as [|[|[|[|?]]]]; simpl in Hp, Hq |- *; [lia..| |lia].
  assert (p = 3) as -> by lia. assert (q = 4) as -> by lia. simpl. lia.
Qed.

(** ** The multiplication laws *)

Lemma semiring_sum_ext {V} (zero : V) (extBlocks : ExtensionBlocks V)
    ty1 tb1 ty2 tb2 (A1 B1 A2 B2 : SparseTensorStorage V) i j :
  num_cols ty1 A1 = num_cols ty2 A2 →
  (∀ k, stored_at zero ty1 A1 i k = stored_at zero ty2 A2 i k) →
  (∀ k, stored_at zero tb1 B1 k j = stored_at zero tb2 B2 k j) →
  semiring_sum zero extBlocks ty1 tb1 A1 B1 i j
  = semiring_sum zero extBlocks ty2 tb2 A2 B2 i j.
Proof.
  intros Hn HA HB. unfold semiring_sum. rewrite Hn.
  apply fold_left_ext_in. intros acc k _. by rewrite HA, HB.
Qed.

(** C1: for matrices [A] (m x k) and [B] (k x n) in either layout, the
    product has m rows and n columns, and it stores a value at (i, j)
    exactly when row [i] of [A] and column [j] of [B] share a stored
    position; the value is the additive combine, from the additive
    identity, of the products over exactly the shared positions.  With
    the plus_times semiring the matrices of the test multiply to
    [[14, _], [18, 24]]. *)
Theorem matrix_multiply_semiring_law :
  (∀ (V : Type) (zero : V) (extBlocks : ExtensionBlocks V)
     (aType bType : TensorType) (A B : SparseTensorStorage V),
     ty_rank aType = 2 → ty_rank bType = 2 →
     matrix_wf A → matrix_wf B →
     segments_increasing A → segments_increasing B →
     num_cols aType A = num_rows bType B →
     let C := LowerMatrixMultiplyGenericRewrite zero zero extBlocks
                aType bType CSR A B None false in
     num_rows CSR C = num_rows aType A
     ∧ num_cols CSR C = num_cols bType B
     ∧ ∀ i j v,
         (i, j, v) ∈ entries zero CSR C
         ↔ i < num_rows aType A ∧ j < num_cols bType B
           ∧ (∃ k, is_Some (stored_at zero aType A i k)
                   ∧ is_Some (stored_at zero bType B k j))
           ∧ v = semiring_sum zero extBlocks aType bType A B i j)
  ∧ entries 0%Z CSR
      (LowerMatrixMultiplyGenericRewrite 0%Z 0%Z plus_times CSR CSR CSR
         a_csr b_csr None false)
    = [(0, 0, 14%Z); (1, 0, 18%Z); (1, 1, 24%Z)].
Proof.
  split; [|by vm_compute].
  intros V zero extBlocks aType bType A B HrA HrB HwfA HwfB HincA HincB Hk.
  cbv zeta. unfold LowerMatrixMultiplyGenericRewrite.
  change (MatrixMultiplyGenericDWIMMaskRewrite zero CSR None)
    with (@None (SparseTensorStorage V)).
  destruct (dwim_first_arg_spec zero aType A HrA HwfA)
    as (HwfA' & HrowsA & HcolsA & _ & HA).
  destruct (HA HincA) as [HincA' HstA]. clear HA.
  destruct (dwim_second_arg_spec zero bType B HrB HwfB)
    as (HwfB' & HcolsB & HrowsB & _ & HB).
  destruct (HB HincB) as [HincB' HstB]. clear HB.
  set (A' := MatrixMultiplyGenericDWIMFirstArgRewrite zero aType A) in *.
  set (B' := MatrixMultiplyGenericDWIMSecondArgRewrite zero bType B) in *.
  destruct (multiply_csr_csc zero extBlocks A' B'
              (None : option (SparseTensorStorage V)) false)
    as [Hsizes Hent]; [done|done|done|done| | |].
  { by rewrite HrowsB, HcolsA. }
  { intros i j _ Hj. by apply range_columns_none in Hj. }
  split_and!.
  - change (sizes (rewriteMatrixMatrixMultiplication zero extBlocks A' B'
                     (None : option (SparseTensorStorage V)) false) !!! 0
            = num_rows aType A).
    rewrite Hsizes. exact HrowsA.
  - change (sizes (rewriteMatrixMatrixMultiplication zero extBlocks A' B'
                     (None : option (SparseTensorStorage V)) false) !!! 1
            = num_cols bType B).
    rewrite Hsizes. exact HcolsB.
  - intros i j v. rewrite Hent, range_columns_none, HrowsA, HcolsB.
    assert (semiring_sum zero extBlocks CSR CSC A' B' i j
            = semiring_sum zero extBlocks aType bType A B i j) as ->.
    { apply semiring_sum_ext; [done| |]; intros k; [apply HstA|apply HstB]. }
    split; intros (Hi & Hj & (k & HkA & HkB) & Hv);
      (split_and!; [done|done| |done]); exists k.
    + by rewrite <- HstA, <- HstB.
    + by rewrite HstA, HstB.
Qed.

Lemma matrix_multiply_semiring_law_witness :
  let C := LowerMatrixMultiplyGenericRewrite 0%Z 0%Z plus_times
             CSR CSR CSR a_csr b_csr None false in
  num_rows CSR C = num_rows CSR a_csr
  ∧ num_cols CSR C = num_cols CSR b_csr
  ∧ ∀ i j v,
      (i, j, v) ∈ entries 0%Z CSR C
      ↔ i < num_rows CSR a_csr ∧ j < num_cols CSR b_csr
        ∧ (∃ k, is_Some (stored_at 0%Z CSR a_csr i k)
                ∧ is_Some (stored_at 0%Z CSR b_csr k j))
        ∧ v = semiring_sum 0%Z plus_times CSR CSR a_csr b_csr i j.
Proof.
  apply (proj1 matrix_multiply_semiring_law Z 0%Z plus_times CSR CSR
           a_csr b_csr);
    [reflexivity|reflexivity|exact a_csr_wf|exact b_csr_wf
    |exact a_csr_increasing|exact b_csr_increasing|reflexivity].
Defined.

(** C2: with a mask, the product stores exactly the entries of the
    unmasked product whose positions the mask stores, and with the
    complemented mask exactly those whose positions the mask does not
    store; in both cases the values are those of the unmasked product.
    Masking the plus_times product of the test matrices with the mask
    [[9, _], [_, 8]] gives [[14, _], [_, 24]]. *)
Theorem matrix_multiply_mask_law :
  (∀ (V W : Type) (zero : V) (zeroW : W) (extBlocks : ExtensionBlocks V)
     (aType bType maskType : TensorType) (A B : SparseTensorStorage V)
     (M : SparseTensorStorage W),
     ty_rank aType = 2 → ty_rank bType = 2 → ty_rank maskType = 2 →
     matrix_wf A → matrix_wf B → matrix_wf M →
     num_rows maskType M = num_rows aType A →
     num_cols maskType M = num_cols bType B →
     let product :=
       LowerMatrixMultiplyGenericRewrite zero zeroW extBlocks
         aType bType maskType A B None false in
     let masked isMaskComplement :=
       LowerMatrixMultiplyGenericRewrite zero zeroW extBlocks
         aType bType maskType A B (Some M) isMaskComplement in
     ∀ i j,
       ((i, j) ∈ coordinates CSR (masked false)
        ↔ (i, j) ∈ coordinates CSR product
          ∧ (i, j) ∈ coordinates maskType M)
       ∧ ((i, j) ∈ coordinates CSR (masked true)
          ↔ (i, j) ∈ coordinates CSR product
            ∧ (i, j) ∉ coordinates maskType M)
       ∧ ∀ isMaskComplement v,
           (i, j, v) ∈ entries zero CSR (masked isMaskComplement) →
           (i, j, v) ∈ entries zero CSR product)
  ∧ entries 0%Z CSR
      (LowerMatrixMultiplyGenericRewrite 0%Z 0%Z plus_times CSR CSR CSR
         a_csr b_csr (Some mask_csr) false)
    = [(0, 0, 14%Z); (1, 1, 24%Z)].
Proof.
  split; [|by vm_compute].
  intros V W zero zeroW extBlocks aType bType maskType A B M
    HrA HrB HrM HwfA HwfB HwfM Hrows Hcols.
  cbv zeta. unfold LowerMatrixMultiplyGenericRewrite.
  change (MatrixMultiplyGenericDWIMMaskRewrite zeroW maskType None)
    with (@None (SparseTensorStorage W)).
  change (MatrixMultiplyGenericDWIMMaskRewrite zeroW maskType (Some M))
    with (Some (MatrixMultiplyGenericDWIMFirstArgRewrite zeroW maskType M)).
  destruct (dwim_first_arg_spec zero aType A HrA HwfA)
    as (HwfA' & HrowsA & _).
  destruct (dwim_second_arg_spec zero bType B HrB HwfB)
    as (_ & HcolsB & _).
  destruct (dwim_mask_spec zeroW maskType M HrM HwfM)
    as (HwfM' & HrowsM & HcolsM & HcoordM).
  set (A' := MatrixMultiplyGenericDWIMFirstArgRewrite zero aType A) in *.
  set (B' := MatrixMultiplyGenericDWIMSecondArgRewrite zero bType B) in *.
  set (M' := MatrixMultiplyGenericDWIMFirstArgRewrite zeroW maskType M) in *.
  assert (∀ isMaskComplement i j v,
            (i, j, v) ∈ entries zero CSR
                          (rewriteMatrixMatrixMultiplication zero extBlocks
                             A' B' (Some M') isMaskComplement)
            ↔ (i, j, v) ∈ entries zero CSR
                            (rewriteMatrixMatrixMultiplication zero extBlocks
                               A' B' (None : option (SparseTensorStorage W))
                               false)
              ∧ if isMaskComplement then (i, j) ∉ coordinates CSR M'
                else (i, j) ∈ coordinates CSR M') as Hcore.
  { intros isMaskComplement i j v.
    apply multiply_mask_csr; [apply HwfA'..|done| |].
    - by rewrite HrowsM, HrowsA.
    - by rewrite HcolsM, HcolsB. }
  intros i j. split_and!.
  - rewrite !(elem_of_coordinates zero). setoid_rewrite (Hcore false).
    rewrite <- HcoordM. split.
    + intros (v & Hin & HM). split; [by exists v|done].
    + intros ((v & Hin) & HM). by exists v.
  - rewrite !(elem_of_coordinates zero). setoid_rewrite (Hcore true).
    rewrite <- HcoordM. split.
    + intros (v & Hin & HM). split; [by exists v|done].
    + intros ((v & Hin) & HM). by exists v.
  - intros isMaskComplement v Hin. by apply Hcore in Hin as [Hin _].
Qed.

(** The position (1, 0), which the unmasked product of the test stores
    and the mask does not. *)
Lemma matrix_multiply_mask_law_witness :
  let product :=
    LowerMatrixMultiplyGenericRewrite 0%Z 0%Z plus_times
      CSR CSR CSR a_csr b_csr None false in
  let masked isMaskComplement :=
    LowerMatrixMultiplyGenericRewrite 0%Z 0%Z plus_times
      CSR CSR CSR a_csr b_csr (Some mask_csr) isMaskComplement in
  ((1, 0) ∈ coordinates CSR (masked false)
   ↔ (1, 0) ∈ coordinates CSR product ∧ (1, 0) ∈ coordinates CSR mask_csr)
  ∧ ((1, 0) ∈ coordinates CSR (masked true)
     ↔ (1, 0) ∈ coordinates CSR product ∧ (1, 0) ∉ coordinates CSR mask_csr)
  ∧ ∀ isMaskComplement v,
      (1, 0, v) ∈ entries 0%Z CSR (masked isMaskComplement) →
      (1, 0, v) ∈ entries 0%Z CSR product.
Proof.
  apply (proj1 matrix_multiply_mask_law Z Z 0%Z 0%Z plus_times CSR CSR CSR
           a_csr b_csr mask_csr);
    [reflexivity|reflexivity|reflexivity|exact a_csr_wf|exact b_csr_wf
    |exact mask_csr_wf|reflexivity|reflexivity].
Defined.

(* ================================================================== *)
(** * Further properties of the runtime *)
(* ================================================================== *)

(** ** The order checks *)

Lemma issorted_loop_spec arr n i :
  0 < i →
  issorted_loop arr n i (arr !!! (i - 1)) = true
  ↔ ∀ k, i - 1 ≤ k → k + 1 < i + n → arr !!! k ≤ arr !!! (k + 1).
Proof.
  revert i. induction n as [|n IH]; intros i Hi.
  { simpl. split; [|done]. intros _ k Hk1 Hk2. lia. }
  simpl.
  assert ((∀ k, i - 1 ≤ k → k + 1 < i + S n → arr !!! k ≤ arr !!! (k + 1))
          ↔ arr !!! (i - 1) ≤ arr !!! i
            ∧ ∀ k, S i - 1 ≤ k → k + 1 < S i + n →
                   arr !!! k ≤ arr !!! (k + 1)) as ->.
  { split.
    - intros Hall. split.
      + specialize (Hall (i - 1) ltac:(lia) ltac:(lia)).
        by replace (i - 1 + 1) with i in Hall by lia.
      + intros k Hk1 Hk2. apply Hall; lia.
    - intros [Hfirst Hrest] k Hk1 Hk2.
      destruct (decide (k = i - 1)) as [->|Hne].
      + by replace (i - 1 + 1) with i by lia.
      + apply Hrest; lia. }
  destruct (Nat.eqb_spec (arr !!! i) (arr !!! (i - 1))) as [Heq|Hne].
  - rewrite <- Heq at 1.
    assert (arr !!! i = arr !!! (S i - 1)) as -> by (f_equal; lia).
    rewrite IH by lia.
    assert (arr !!! (S i - 1) = arr !!! i) as Hi' by (f_equal; lia).
    split; [intros Hrest; split; [lia|done]|by intros [_ Hrest]].
  - destruct (Nat.ltb_spec (arr !!! i) (arr !!! (i - 1))) as [Hlt|Hge].
    + split; [done|]. intros [Hle _]. lia.
    + assert (arr !!! i = arr !!! (S i - 1)) as -> by (f_equal; lia).
      rewrite IH by lia.
      assert (arr !!! (S i - 1) = arr !!! i) as Hi' by (f_equal; lia).
      split; [intros Hrest; split; [lia|done]|by intros [_ Hrest]].
Qed.

Lemma issorted_adjacent arr start stop :
  issorted arr start stop = true
  ↔ ∀ i, start ≤ i → i + 1 < stop → arr !!! i ≤ arr !!! (i + 1).
Proof.
  unfold issorted. destruct (Nat.leb_spec stop (start + 1)) as [Hle|Hlt].
  { split; [|done]. intros _ i Hi1 Hi2. lia. }
  assert (arr !!! start = arr !!! (start + 1 - 1)) as -> by (f_equal; lia).
  rewrite issorted_loop_spec by lia.
  split; intros Hall i Hi1 Hi2; apply Hall; lia.
Qed.

Lemma isincreasing_loop_spec arr n i :
  0 < i →
  isincreasing_loop arr n i (arr !!! (i - 1)) = true
  ↔ ∀ k, i - 1 ≤ k → k + 1 < i + n → arr !!! k < arr !!! (k + 1).
Proof.
  revert i. induction n as [|n IH]; intros i Hi.
  { simpl. split; [|done]. intros _ k Hk1 Hk2. lia. }
  simpl.
  assert ((∀ k, i - 1 ≤ k → k + 1 < i + S n → arr !!! k < arr !!! (k + 1))
          ↔ arr !!! (i - 1) < arr !!! i
            ∧ ∀ k, S i - 1 ≤ k → k + 1 < S i + n →
                   arr !!! k < arr !!! (k + 1)) as ->.
  { split.
    - intros Hall. split.
      + specialize (Hall (i - 1) ltac:(lia) ltac:(lia)).
        by replace (i - 1 + 1) with i in Hall by lia.
      + intros k Hk1 Hk2. apply Hall; lia.
    - intros [Hfirst Hrest] k Hk1 Hk2.
      destruct (decide (k = i - 1)) as [->|Hne].
      + by replace (i - 1 + 1) with i by lia.
      + apply Hrest; lia. }
  destruct (Nat.leb_spec (arr !!! i) (arr !!! (i - 1))) as [Hle|Hgt].
  - split; [done|]. intros [Hlt _]. lia.
  - assert (arr !!! i = arr !!! (S i - 1)) as -> by (f_equal; lia).
    rewrite IH by lia.
    split; [intros Hrest; split; [|done]|by intros [_ Hrest]].
    assert (arr !!! (S i - 1) = arr !!! i) as -> by (f_equal; lia). done.
Qed.

Lemma isincreasing_adjacent arr start stop :
  isincreasing arr start stop = true
  ↔ ∀ i, start ≤ i → i + 1 < stop → arr !!! i < arr !!! (i + 1).
Proof.
  unfold isincreasing. destruct (Nat.leb_spec stop (start + 1)) as [Hle|Hlt].
  { split; [|done]. intros _ i Hi1 Hi2. lia. }
  assert (arr !!! start = arr !!! (start + 1 - 1)) as -> by (f_equal; lia).
  rewrite isincreasing_loop_spec by lia.
  split; intros Hall i Hi1 Hi2; apply Hall; lia.
Qed.

Lemma adjacent_le_all (arr : list nat) start stop :
  (∀ i, start ≤ i → i + 1 < stop → arr !!! i ≤ arr !!! (i + 1)) →
  ∀ i j, start ≤ i → i ≤ j → j < stop → arr !!! i ≤ arr !!! j.
Proof.
  intros Hadj i j Hi Hij Hj. induction Hij as [|j Hij IH]; [done|].
  etrans; [apply IH; lia|].
  replace (S j) with (j + 1) by lia. apply Hadj; lia.
Qed.

Lemma adjacent_lt_all (arr : list nat) start stop :
  (∀ i, start ≤ i → i + 1 < stop → arr !!! i < arr !!! (i + 1)) →
  increasing_on arr start stop.
Proof.
  intros Hadj a b Ha Hab Hb.
  assert (∀ d, a + 1 + d < stop → arr !!! a < arr !!! (a + 1 + d)) as Hd.
  { intros d. induction d as [|d IH]; intros Hd.
    - rewrite Nat.add_0_r. apply Hadj; lia.
    - etrans; [apply IH; lia|].
      replace (a + 1 + S d) with (a + 1 + d + 1) by lia. apply Hadj; lia. }
  replace b with (a + 1 + (b - a - 1)) by lia. apply Hd. lia.
Qed.

Lemma isincreasing_increasing_on arr start stop :
  isincreasing arr start stop = true ↔ increasing_on arr start stop.
Proof.
  rewrite isincreasing_adjacent. split.
  - apply adjacent_lt_all.
  - intros Hinc i Hi1 Hi2. apply Hinc; lia.
Qed.

(** [issorted] accepts exactly the ranges [start, stop) that are in
    non-decreasing order: equal neighbours pass, a range of at most one
    entry passes, and a single descent anywhere makes it fail. *)
Theorem issorted_spec arr start stop :
  issorted arr start stop = true
  ↔ ∀ i j, start ≤ i → i ≤ j → j < stop → arr !!! i ≤ arr !!! j.
Proof.
  rewrite issorted_adjacent. split.
  - apply adjacent_le_all.
  - intros Hall i Hi1 Hi2. apply Hall; lia.
Qed.

(** [isincreasing] accepts exactly the ranges [start, stop) that are in
    strictly increasing order: unlike [issorted] it rejects a repeated
    entry. *)
Theorem isincreasing_spec arr start stop :
  isincreasing arr start stop = true
  ↔ ∀ i j, start ≤ i → i < j → j < stop → arr !!! i < arr !!! j.
Proof. apply isincreasing_increasing_on. Qed.

(** ** The order of the coordinate scheme *)

Lemma lexOrder_loop_lex_lt (i1 i2 : list nat) n r :
  length i1 = r + n → length i2 = r + n →
  lexOrder_loop i1 i2 n r = true ↔ lex_lt (drop r i1) (drop r i2).
Proof.
  revert r. induction n as [|n IH]; intros r H1 H2.
  - rewrite !drop_ge by lia. simpl. split; [done|]. intros Hlt. inversion Hlt.
  - rewrite (drop_lookup_total_cons i1), (drop_lookup_total_cons i2) by lia.
    simpl. destruct (Nat.eqb_spec (i1 !!! r) (i2 !!! r)) as [Heq|Hne].
    + rewrite IH by lia. rewrite Heq. split.
      * apply lex_lt_next.
      * intros Hlt. inversion Hlt; [lia|done].
    + split.
      * intros Hlt%Nat.ltb_lt. by apply lex_lt_here.
      * intros Hlt. inversion Hlt; [by apply Nat.ltb_lt|congruence].
Qed.

(** On two elements of the same rank [lexOrder] decides the strict
    lexicographic order of the index vectors: it holds exactly when the
    vectors agree up to some dimension in which the first is smaller. *)
Theorem lexOrder_lex_lt {V} (e1 e2 : Element V) :
  length (e_indices e1) = length (e_indices e2) →
  lexOrder e1 e2 = true
  ↔ ∃ r, r < length (e_indices e1)
         ∧ (∀ j, j < r → e_indices e1 !!! j = e_indices e2 !!! j)
         ∧ e_indices e1 !!! r < e_indices e2 !!! r.
Proof.
  intros Hlen. unfold lexOrder.
  rewrite lexOrder_loop_lex_lt by (simpl; lia).
  rewrite !drop_0. revert Hlen.
  generalize (e_indices e1) (e_indices e2). clear e1 e2.
  intros a. induction a as [|x a IH]; intros [|y b] Hlen; simpl in Hlen;
    try done.
  - split; [intros H; inversion H|]. intros (r & Hr & _). simpl in Hr. lia.
  - split.
    + intros Hlt. inversion Hlt; subst.
      * exists 0. split_and!; [simpl; lia| |done]. intros j ?. lia.
      * destruct (proj1 (IH b ltac:(lia)) ltac:(done)) as (r & Hr & Heq & Hlt').
        exists (S r). split_and!; [simpl; lia| |done].
        intros [|j] Hj; [done|]. apply Heq. lia.
    + intros (r & Hr & Heq & Hlt). destruct r as [|r].
      * by apply lex_lt_here.
      * specialize (Heq 0 ltac:(lia)) as Hhd. simpl in Hhd. subst y.
        apply lex_lt_next, IH; [lia|].
        exists r. split_and!; [simpl in Hr; lia| |done].
        intros j Hj. apply (Heq (S j)). lia.
Qed.

(** Two elements of rank 3 that first differ in the last dimension. *)
Lemma lexOrder_lex_lt_witness :
  lexOrder (mkElement [1; 2; 3] 0%Z) (mkElement [1; 2; 5] 0%Z) = true
  ↔ ∃ r, r < 3 ∧ (∀ j, j < r → [1; 2; 3] !!! j = [1; 2; 5] !!! j)
         ∧ [1; 2; 3] !!! r < [1; 2; 5] !!! r.
Proof.
  apply (lexOrder_lex_lt (mkElement [1; 2; 3] 0%Z) (mkElement [1; 2; 5] 0%Z)).
  reflexivity.
Defined.

(** ** Coordinates out of bounds *)

Section OutOfBounds.
Context {V : Type} (zero : V) (lim : VectorLimits).
Context (std_sort : list (Element V) → list (Element V)).

#[local] Hint Extern 0 (Inhabited V) =>
  exact (value_inhabited zero) : typeclass_instances.

(** The loop over the rows stops at the assertion of [add] as soon as
    it meets a row with a coordinate outside the shape. *)
Lemma add_elements_out_of_bounds rank vals inds n i (c : SparseTensorCOO V) :
  length (coo_sizes c) = rank →
  (∃ j r, i ≤ j ∧ j < i + n ∧ r < rank
          ∧ coo_sizes c !!! r ≤ inds !!! (j * rank + r)) →
  add_elements zero rank vals inds n i (i * rank) c
  = AssertionFailure "ind[r] < sizes[r]".
Proof.
  revert i c. induction n as [|n IH]; intros i c Hlen (j & r & Hj1 & Hj2 & Hr & Hout);
    [lia|].
  simpl. unfold coo_add.
  rewrite Hlen, length_fmap, length_seq, Nat.eqb_refl. simpl.
  destruct (forallb _ (seq 0 rank)) eqn:Hall; simpl; [|done].
  replace (i * rank + rank) with (S i * rank) by lia.
  apply IH; [done|]. simpl.
  exists j, r. split_and!; [|lia|done|done].
  destruct (decide (j = i)) as [->|]; [|lia].
  rewrite forallb_forall in Hall.
  specialize (Hall r ltac:(apply in_seq; lia)).
  rewrite (list_lookup_total_fmap (λ r0, inds !!! (i * rank + r0)))
    in Hall by (rewrite length_seq; lia).
  rewrite lookup_total_seq_lt in Hall by lia.
  apply Nat.ltb_lt in Hall. simpl in Hall. lia.
Qed.

(** [convertToMLIRSparseTensor] does not clip or drop a coordinate that
    lies outside the shape: one such coordinate in any row makes the
    call stop at the bounds assertion of [add], and no storage is
    built.  (Only a number of rows above the limit of the element
    vector stops the call earlier, in the [reserve] of the coordinate
    scheme.) *)
Theorem convertToMLIRSparseTensor_out_of_bounds rank nse shape vals inds :
  length shape = rank →
  (∃ j r, j < nse ∧ r < rank ∧ shape !!! r ≤ inds !!! (j * rank + r)) →
  convertToMLIRSparseTensor zero lim std_sort rank nse shape vals inds
  = if (limit_E lim <? Z.of_nat nse)%Z then CapacityError
    else AssertionFailure "ind[r] < sizes[r]".
Proof.
  intros <- (j & r & Hj & Hr & Hout). unfold convertToMLIRSparseTensor.
  unfold newSparseTensorCOO. rewrite permute_sizes_identity.
  destruct (Nat.eqb_spec nse 0) as [?|_]; [lia|].
  unfold reserve. destruct (limit_E lim <? Z.of_nat nse)%Z; [done|].
  simpl mbind.
  change 0 with (0 * length shape) at 2.
  rewrite add_elements_out_of_bounds; [done|done|].
  exists j, r. simpl. split_and!; [lia|lia|done|done].
Qed.

End OutOfBounds.

(** A 2 x 3 matrix given with an entry in column 3. *)
Lemma convertToMLIRSparseTensor_out_of_bounds_witness :
  convertToMLIRSparseTensor 0%Z limits_64 insertion_sort 2 3 [2; 3]
    [1%Z; 5%Z; 3%Z] [0; 0; 1; 3; 1; 2]
  = AssertionFailure "ind[r] < sizes[r]".
Proof.
  apply (convertToMLIRSparseTensor_out_of_bounds 0%Z limits_64 insertion_sort
           2 3 [2; 3] [1%Z; 5%Z; 3%Z] [0; 0; 1; 3; 1; 2]); [reflexivity|].
  exists 1, 1. simpl. lia.
Defined.


(** ** The integrity check on matrices *)

Lemma verify_segments_inv p ix n i :
  0 < i →
  verify_segments p ix n i (p !!! (i - 1)) = true →
  ∀ k, i ≤ k → k < i + n → increasing_on ix (p !!! (k - 1)) (p !!! k).
Proof.
  revert i. induction n as [|n IH]; intros i Hi Hv k Hk1 Hk2; [lia|].
  simpl in Hv. apply andb_true_iff in Hv as [Hseg Hrest].
  destruct (Nat.ltb_spec (length ix) (p !!! i)); [done|].
  destruct (decide (k = i)) as [->|Hne].
  - by apply isincreasing_increasing_on.
  - apply (IH (S i)); [lia| |lia|lia].
    by replace (S i - 1) with i by lia.
Qed.

Lemma verify_rev_two (rev : list nat) :
  verify_rev rev 2 = true ↔ rev = [0; 1] ∨ rev = [1; 0].
Proof.
  split.
  - destruct rev as [|a [|b [|c rev]]]; try done.
    destruct a as [|[|a]], b as [|[|b]]; try done; auto.
  - by intros [->| ->].
Qed.

Section VerifyMatrix.
Context {V : Type}.
Implicit Types (t : SparseTensorStorage V).

(** The structure of a matrix and the order within its segments, as a
    closed level of the compressed dimension. *)
Lemma matrix_level_closed t :
  matrix_wf t → segments_increasing t →
  level_closed (sizes t !!! 1) (pointers t !!! 1) (indices t !!! 1).
Proof.
  intros [_ _ _ _ Hlen Hfirst Hsorted Hlast _ Hbound] Hinc.
  assert (length (pointers t !!! 1) - 1 = sizes t !!! 0) as Hn by lia.
  split; [split|]; rewrite ?Hn; try done; try lia.
  - intros i j Hij Hj. apply Hsorted; lia.
  - intros i Hi a b Ha Hab Hb. apply (Hinc i); [lia|done|done|].
    by replace (i + 1) with (S i) by lia.
  - intros a b Ha Hab Hb. lia.
Qed.


Lemma verify_matrix_dims t a :
  length (sizes t) = 2 →
  isCompressedDim t 0 = false → isCompressedDim t 1 = true →
  0 < sizes t !!! 0 → 0 < sizes t !!! 1 →
  (Z.of_nat (sizes t !!! 0%nat) * Z.of_nat (sizes t !!! 1%nat) < 2 ^ 64 - 1)%Z →
  is_dense a = true → cum_size a = 1%Z →
  prev_ptr_len a = 0 → prev_idx_len a = 0 →
  ∃ a', verify_dims t 2 0 a = Some a' ∧ is_dense a' = false
        ∧ prev_idx_len a' = length (indices t !!! 1)
        ∧ (rv a' = true
           ↔ rv a = true ∧ indices t !!! 0 = []
             ∧ length (pointers t !!! 1) = sizes t !!! 0 + 1
             ∧ level_closed (sizes t !!! 1) (pointers t !!! 1)
                            (indices t !!! 1)).
Proof.
  intros Hsz Hd0 Hd1 Hs0 Hs1 Hprod Hdense Hcum Hpp Hpi.
  unfold isCompressedDim in Hd0, Hd1.
  apply negb_false_iff, Nat.eqb_eq in Hd0.
  apply negb_true_iff, Nat.eqb_neq in Hd1.
  change (verify_dims t 2 0 a)
    with (match verify_dim t 0 a with
          | None => None
          | Some a' => match verify_dim t 1 a' with
                       | None => None
                       | Some a'' => Some a''
                       end
          end).
  assert (verify_dim t 0 a
          = Some (mkVerify (rv a && (length (indices t !!! 0) =? 0)) true
                           (u64 (1 * Z.of_nat (sizes t !!! 0))) 0 0)) as ->.
  { unfold verify_dim. cbv zeta.
    destruct (Nat.leb_spec (sizes t !!! 0) 0); [lia|].
    by rewrite Hd0, Hdense, Hcum, Hpp, Hpi. }
  unfold verify_dim. cbv zeta.
  destruct (Nat.leb_spec (sizes t !!! 1) 0); [lia|].
  destruct (Nat.eqb_spec (length (pointers t !!! 1)) 0); [lia|].
  eexists. split; [done|]. split; [done|]. split; [done|].
  cbn [rv is_dense cum_size prev_ptr_len prev_idx_len Nat.eqb].
  set (ptr := pointers t !!! 1). set (ix := indices t !!! 1).
  set (s0 := sizes t !!! 0) in *. set (s1 := sizes t !!! 1) in *.
  assert (u64 (1 * Z.of_nat s0) = Z.of_nat s0) as ->
    by (rewrite Z.mul_1_l; apply u64_small; lia).
  assert (u64 (Z.of_nat s0 * Z.of_nat s1) = (Z.of_nat s0 * Z.of_nat s1)%Z)
    as -> by (apply u64_small; nia).
  rewrite Z.div_mul by lia.
  assert (u64 (Z.of_nat s0 + 1) = (Z.of_nat s0 + 1)%Z)
    as -> by (apply u64_small; nia).
  assert (u64 (Z.of_nat s0 * Z.of_nat s1 + 1) = (Z.of_nat s0 * Z.of_nat s1 + 1)%Z)
    as -> by (apply u64_small; nia).
  fold ptr in Hd1.
  split.
  - intros Hrv. repeat (apply andb_true_iff in Hrv as [Hrv ?]).
    repeat match goal with
           | H : _ && _ = true |- _ => apply andb_true_iff in H as [? ?]
           end.
    assert (length ptr = s0 + 1) as Hlen.
    { match goal with H : (_ =? _)%Z = true |- _ => apply Z.eqb_eq in H end.
      lia. }
    assert (ptr !!! 0 = 0) as Hfirst by (by apply Nat.eqb_eq).
    assert (ptr !!! (length ptr - 1) = length ix) as Hlast
      by (by apply Nat.eqb_eq).
    assert (∀ i j, i ≤ j → j < length ptr → ptr !!! i ≤ ptr !!! j) as Hsorted.
    { match goal with H : issorted _ _ _ = true |- _ =>
        rewrite issorted_adjacent in H; pose proof (adjacent_le_all _ _ _ H) as Hs
      end.
      intros i j Hij Hj. apply Hs; lia. }
    assert (∀ j, j < length ix → ix !!! j < s1) as Hbound.
    { match goal with H : forallb _ ix = true |- _ =>
        rewrite forallb_forall in H; rename H into Hb end.
      intros j Hj. specialize (Hb (ix !!! j)).
      destruct (Nat.leb_spec s1 (ix !!! j)); [|done].
      exfalso. enough (false = true) by done. apply Hb.
      apply list_elem_of_In, list_elem_of_lookup_total. eauto. }
    match goal with H : (if _ then _ else _) = true |- _ => rename H into Hseg end.
    rewrite (proj2 (andb_true_iff _ _)) in Hseg; cycle 1.
    { split; [|by apply forallb_forall; intros x Hx%list_elem_of_In
                 %list_elem_of_lookup_total; destruct Hx as (j & Hj & <-);
                 specialize (Hbound j Hj); destruct (Nat.leb_spec s1 (ix !!! j)); [lia|]].
      rewrite Hfirst, Hlast, !Nat.eqb_refl, !andb_true_r.
      rewrite issorted_adjacent. intros i ? ?. apply Hsorted; lia. }
    split_and!; [done| |done|].
    { apply nil_length_inv. by apply Nat.eqb_eq. }
    split; [split|]; try done; try lia.
    + intros i Hi.
      change (ptr !!! 0) with (ptr !!! (1 - 1)) in Hseg.
      pose proof (verify_segments_inv ptr ix (length ptr - 1) 1 ltac:(lia)
                    Hseg (S i) ltac:(lia) ltac:(lia)) as Hinc.
      by replace (S i - 1) with i in Hinc by lia.
    + intros a0 b0 ? ? ?. lia.
  - intros (Hrv & Hi0 & Hlen & Hclosed).
    pose proof (level_closed_count _ _ _ Hclosed) as Hcount.
    pose proof (verify_segments_true _ _ _ (length ptr - 1) 1
                  Hclosed ltac:(lia) ltac:(lia)) as Hsegs.
    destruct Hclosed as [[Hne Hfirst Hsorted Hlast Hsegments Htail Hbound] Hend].
    fold ptr ix s1 in Hcount, Hsegs, Hfirst, Hsorted, Hlast, Hbound, Hend.
    rewrite Hrv, Hi0. simpl.
    rewrite issorted_true by done.
    rewrite Hfirst, Hend, !Nat.eqb_refl. simpl.
    assert (forallb (λ i, negb (s1 <=? i)) ix = true) as ->.
    { apply forallb_forall. intros x Hx.
      apply list_elem_of_In, list_elem_of_lookup_total in Hx as (j & Hj & <-).
      specialize (Hbound j Hj).
      destruct (Nat.leb_spec s1 (ix !!! j)); [lia|done]. }
    change (1 - 1) with 0 in Hsegs. rewrite Hfirst in Hsegs.
    rewrite Hsegs. simpl.
    destruct (Z.eqb_spec (Z.of_nat (length ptr)) (Z.of_nat s0 + 1)); [|lia].
    destruct (Nat.ltb_spec (length ptr) 1); [lia|].
    destruct (Z.ltb_spec (Z.of_nat s0 * Z.of_nat s1 + 1) (Z.of_nat (length ptr)));
      [nia|].
    destruct (Z.ltb_spec (Z.of_nat s0 * Z.of_nat s1) (Z.of_nat (length ix)));
      [nia|].
    destruct (Nat.leb_spec (length ptr) 0); [lia|done].
Qed.


Lemma level_closed_matrix t :
  length (sizes t) = 2 → length (rev t) = 2 →
  length (pointers t) = 2 → length (indices t) = 2 →
  length (pointers t !!! 1) = sizes t !!! 0 + 1 →
  length (values t) = length (indices t !!! 1) →
  level_closed (sizes t !!! 1) (pointers t !!! 1) (indices t !!! 1) →
  matrix_wf t ∧ segments_increasing t.
Proof.
  intros Hsz Hrev Hp Hi Hlen Hval
         [[Hne Hfirst Hsorted Hlast Hsegments Htail Hbound] Hend].
  rewrite Hlen in Hend.
  replace (sizes t !!! 0 + 1 - 1) with (sizes t !!! 0) in Hend by lia.
  split; [split; try done|].
  - intros i j Hij Hj. apply Hsorted; lia.
  - intros o p q Ho Hp1 Hpq Hq.
    apply (Hsegments o); [lia|done|done|].
    by replace (S o) with (o + 1) by lia.
Qed.

Lemma verify_matrix_iff t :
  length (sizes t) = 2 →
  isCompressedDim t 0 = false → isCompressedDim t 1 = true →
  (Z.of_nat (sizes t !!! 0%nat) * Z.of_nat (sizes t !!! 1%nat) < 2 ^ 64 - 1)%Z →
  verify t = true
  ↔ (rev t = [0; 1] ∨ rev t = [1; 0])
    ∧ 0 < sizes t !!! 0 ∧ 0 < sizes t !!! 1
    ∧ indices t !!! 0 = []
    ∧ matrix_wf t ∧ segments_increasing t.
Proof.
  intros Hsz Hd0 Hd1 Hprod. unfold verify, getRank. rewrite Hsz.
  change (2 =? 0) with false. cbv iota zeta.
  destruct (Nat.eqb_spec (length (pointers t)) 2) as [Hp|Hp]; cycle 1.
  { simpl. split; [done|]. intros (_ & _ & _ & _ & [] & _). done. }
  destruct (Nat.eqb_spec (length (indices t)) 2) as [Hi|Hi]; cycle 1.
  { simpl. split; [done|]. intros (_ & _ & _ & _ & [] & _). done. }
  simpl negb. cbv iota.
  destruct (decide (sizes t !!! 0 = 0)) as [Hz0|Hnz0].
  { rewrite (verify_dims_zero_extent t 2 0 0) by (done || lia).
    split; [done|]. intros (_ & ? & _). lia. }
  destruct (decide (sizes t !!! 1 = 0)) as [Hz1|Hnz1].
  { rewrite (verify_dims_zero_extent t 2 0 1) by (done || lia).
    split; [done|]. intros (_ & _ & ? & _). lia. }
  destruct (verify_matrix_dims t (mkVerify (verify_rev (rev t) 2) true 1 0 0))
    as (a' & -> & -> & -> & Hrv); [done..|lia|lia|done|done|done|done|done|].
  simpl in Hrv. rewrite andb_true_iff, Hrv, verify_rev_two, Nat.eqb_eq.
  split.
  - intros ((Hrev & Hi0 & Hlen & Hclosed) & Hval).
    destruct (level_closed_matrix t) as [Hwf Hinc]; try done.
    { by destruct Hrev as [-> | ->]. }
    split_and!; [done|lia|lia|done|done|done].
  - intros (Hrev & _ & _ & Hi0 & Hwf & Hinc).
    split_and!; [done|done|apply Hwf| |symmetry; apply Hwf].
    by apply matrix_level_closed.
Qed.

(** For a tensor of rank 2 whose first dimension is dense and whose
    second is compressed, and whose extents multiply without 64-bit
    overflow, [verify] passes exactly when [rev] is a permutation of the
    two dimensions, both extents are positive, the dense dimension has
    no indices, the pointer, index and value buffers have the structure
    of a matrix and the indices increase strictly within every
    segment. *)
Theorem verify_matrix t :
  length (sizes t) = 2 →
  isCompressedDim t 0 = false → isCompressedDim t 1 = true →
  (Z.of_nat (sizes t !!! 0%nat) * Z.of_nat (sizes t !!! 1%nat) < 2 ^ 64 - 1)%Z →
  verify t = true
  ↔ (rev t = [0; 1] ∨ rev t = [1; 0])
    ∧ 0 < sizes t !!! 0 ∧ 0 < sizes t !!! 1
    ∧ indices t !!! 0 = []
    ∧ matrix_wf t ∧ segments_increasing t.
Proof. apply verify_matrix_iff. Qed.

End VerifyMatrix.

(** The matrix [[1, 2], [0, 3]] in CSR form. *)
Lemma verify_matrix_witness :
  verify (mkStorage [2; 2] [0; 1] [] [[]; [0; 2; 3]] [[]; [0; 1; 1]]
                    [1%Z; 2%Z; 3%Z]) = true
  ↔ ([0; 1] = [0; 1] ∨ [0; 1] = [1; 0]) ∧ 0 < 2 ∧ 0 < 2
    ∧ ([] : list nat) = []
    ∧ matrix_wf (mkStorage [2; 2] [0; 1] [] [[]; [0; 2; 3]] [[]; [0; 1; 1]]
                           [1%Z; 2%Z; 3%Z])
    ∧ segments_increasing
        (mkStorage [2; 2] [0; 1] [] [[]; [0; 2; 3]] [[]; [0; 1; 1]]
                   [1%Z; 2%Z; 3%Z]).
Proof.
  apply (verify_matrix (mkStorage [2; 2] [0; 1] [] [[]; [0; 2; 3]]
                                  [[]; [0; 1; 1]] [1%Z; 2%Z; 3%Z]));
    [reflexivity|reflexivity|reflexivity|simpl; lia].
Defined.

(** ** Layout conversion keeps tensors valid *)

Section ConvertLayoutVerify.
Context {V : Type} (zero : V).

#[local] Hint Extern 0 (Inhabited V) =>
  exact (value_inhabited zero) : typeclass_instances.

Lemma convert_layout_rebuild_frame ty ty' (t : SparseTensorStorage V) :
  ty_rank ty = 2 → ty_ordering ty' ≠ ty_ordering ty → matrix_wf t →
  let t' := convert_layout_rebuild zero ty ty' t in
  rev t' = (if hasColumnOrdering ty' then [1; 0] else [0; 1])
  ∧ pointers t' !!! 0 = replicate (length (pointers t !!! 0)) 0
  ∧ indices t' !!! 0 = [].
Proof.
  intros Hrank Hord [Hs Hr Hp Hi _ _ _ _ _ _]. cbv zeta.
  destruct t as [sz rv ix ptrs inds vals]. simpl in Hs, Hr, Hp, Hi.
  destruct sz as [|s0 [|s1 [|? ?]]]; try done.
  destruct rv as [|r0 [|r1 [|? ?]]]; try done.
  destruct ptrs as [|P0 [|Ap [|? ?]]]; try done.
  destruct inds as [|I0 [|Aj [|? ?]]]; try done.
  by rewrite convert_layout_rebuild_fields.
Qed.

(** [convert_layout] between the two matrix layouts keeps a tensor
    valid: if the input has a dense first and a compressed second
    dimension, extents whose product is below 2^64 - 1, and passes
    [verify], so does the result. *)
Theorem convert_layout_verifies ty ty' (t : SparseTensorStorage V) :
  ty_rank ty = 2 → ty_rank ty' = 2 →
  length (sizes t) = 2 →
  isCompressedDim t 0 = false → isCompressedDim t 1 = true →
  (Z.of_nat (sizes t !!! 0%nat) * Z.of_nat (sizes t !!! 1%nat) < 2 ^ 64 - 1)%Z →
  verify t = true →
  verify (convert_layout zero ty ty' t) = true.
Proof.
  intros Hrank Hrank' Hsz Hd0 Hd1 Hprod Hv. unfold convert_layout.
  case_decide as Hty; [done|].
  assert (ty_ordering ty' ≠ ty_ordering ty) as Hord.
  { intros Heq. apply Hty. destruct ty, ty'. simpl in *. congruence. }
  apply verify_matrix_iff in Hv as (Hrev & Hs0 & Hs1 & Hi0 & Hwf & Hinc);
    try done.
  destruct (convert_layout_rebuild_spec zero ty ty' t Hrank Hord Hwf)
    as (Hwf' & Hsizes & _ & Hinc').
  destruct (convert_layout_rebuild_frame ty ty' t Hrank Hord Hwf)
    as (Hrev' & Hp0' & Hi0').
  cbv zeta in Hwf', Hsizes, Hinc', Hrev', Hp0', Hi0'.
  unfold isCompressedDim in Hd0.
  apply negb_false_iff, Nat.eqb_eq in Hd0.
  apply verify_matrix_iff.
  - by rewrite Hsizes.
  - unfold isCompressedDim. by rewrite Hp0', Hd0.
  - unfold isCompressedDim. rewrite (mw_ptr_len _ Hwf').
    apply negb_true_iff, Nat.eqb_neq. lia.
  - rewrite Hsizes. simpl. lia.
  - split_and!; [|rewrite Hsizes; simpl; lia..|done|done|by apply Hinc'].
    rewrite Hrev'. destruct (hasColumnOrdering ty'); auto.
Qed.

End ConvertLayoutVerify.

(** The matrix [[1, 2], [0, 3]] from CSR to CSC. *)
Lemma convert_layout_verifies_witness :
  verify (convert_layout 0%Z CSR CSC
            (mkStorage [2; 2] [0; 1] [] [[]; [0; 2; 3]] [[]; [0; 1; 1]]
                       [1%Z; 2%Z; 3%Z])) = true.
Proof.
  apply convert_layout_verifies;
    [reflexivity|reflexivity|reflexivity|reflexivity|reflexivity|simpl; lia
    |reflexivity].
Defined.


Lemma filter_fmap {A B} (f : A → B) (P : B → Prop) `{∀ x, Decision (P x)}
    (l : list A) :
  filter P (f <$> l) = f <$> filter (λ x, P (f x)) l.
Proof.
  induction l as [|x l IH]; [done|].
  rewrite fmap_cons, !filter_cons, IH. by case_decide.
Qed.

Lemma StronglySorted_filter {A} (R : relation A) (P : A → Prop)
    `{∀ x, Decision (P x)} (l : list A) :
  StronglySorted R l → StronglySorted R (filter P l).
Proof.
  induction 1 as [|x l Hl IH Hx]; [constructor|].
  rewrite filter_cons. case_decide; [|done].
  constructor; [done|]. apply Forall_forall. intros y Hy.
  apply list_elem_of_filter in Hy as [_ Hy].
  rewrite Forall_forall in Hx. by apply Hx.
Qed.

Lemma take_fmap_lookup_total {A} `{!Inhabited A} (l : list A) n :
  n ≤ length l → take n l = (λ pos, l !!! pos) <$> seq 0 n.
Proof.
  intros Hn. apply list_eq. intros j. rewrite list_lookup_fmap.
  destruct (decide (j < n)).
  - rewrite lookup_take_lt, lookup_seq_lt by done. simpl.
    apply list_lookup_lookup_total_lt. lia.
  - by rewrite lookup_take_ge, lookup_seq_ge by lia.
Qed.

Section Slices.
Context {V : Type} (zero : V).
Implicit Types (l : list (nat * V)) (rows : nat → list (nat * V)).

#[local] Hint Extern 0 (Inhabited V) =>
  exact (value_inhabited zero) : typeclass_instances.

(** The slice of a list of pairs, read through its two projections. *)
Lemma slice_at_zip l s k :
  s + k ≤ length l → slice_at zero l.*1 l.*2 s k = take k (drop s l).
Proof.
  revert s. induction k as [|k IH]; intros s Hs; [done|].
  unfold slice_at in *. rewrite <- cons_seq, fmap_cons, IH by lia.
  destruct (lookup_lt_is_Some_2 l s) as [x Hx]; [lia|].
  rewrite (drop_S l x s Hx). simpl. f_equal.
  assert (l.*1 !! s = Some x.1) as H1 by (by rewrite list_lookup_fmap, Hx).
  assert (l.*2 !! s = Some x.2) as H2 by (by rewrite list_lookup_fmap, Hx).
  rewrite (list_lookup_total_correct _ _ _ H1).
  rewrite (list_lookup_total_correct _ _ _ H2). by destruct x.
Qed.

Lemma slice_at_rows rows n r :
  r < n →
  let K := flat_map rows (seq 0 n) in
  slice_at zero K.*1 K.*2 (length (flat_map rows (seq 0 r)))
           (length (rows r)) = rows r.
Proof.
  intros Hr. cbv zeta.
  replace n with (r + (1 + (n - r - 1))) by lia.
  rewrite !seq_app, !flat_map_app. simpl flat_map. rewrite app_nil_r.
  rewrite slice_at_zip by (rewrite !length_app; lia).
  by rewrite drop_app_length, take_app_length.
Qed.

(** Trimming the buffers to the pairs written at their front. *)
Lemma write_slice_resize l (out : list nat * list V) :
  length l ≤ length out.1 → length l ≤ length out.2 →
  resize (length l) 0 (write_slice 0 l out).1 = l.*1
  ∧ resize (length l) zero (write_slice 0 l out).2 = l.*2.
Proof.
  intros H1 H2.
  pose proof (write_slice_inside zero 0 l out ltac:(lia) ltac:(lia)) as Hin.
  destruct (write_slice_length 0 l out) as [Hl1 Hl2].
  set (W := write_slice 0 l out) in *.
  rewrite !resize_le, !take_fmap_lookup_total by lia.
  split.
  - rewrite <- Hin at 2. unfold slice_at. by rewrite <- list_fmap_compose.
  - rewrite <- Hin at 2. unfold slice_at. by rewrite <- list_fmap_compose.
Qed.

End Slices.

(** ** Selection *)

Section SelectLoops.
Context {V : Type} (zero : V) (func : V → nat → nat → bool).
Implicit Types (Ap Aj Bp Bj : list nat) (Ax Bx : list V).

#[local] Hint Extern 0 (Inhabited V) =>
  exact (value_inhabited zero) : typeclass_instances.

(** The inner loop appends the entries kept to the row. *)
Lemma select_inner_spec rank colWise Aj Ax row js Bp Bj Bx s :
  row + 1 < length Bp → Bp !!! (row + 1) = s →
  let K := filter (λ x, select_keep func rank colWise row x.1 x.2 = true)
                  ((λ jj, (Aj !!! jj, Ax !!! jj)) <$> js) in
  fold_left (λ st jj, select_entry zero func rank colWise Aj Ax row jj st)
            js (Bp, Bj, Bx)
  = (<[row + 1 := s + length K]> Bp,
     (write_slice s K (Bj, Bx)).1, (write_slice s K (Bj, Bx)).2).
Proof.
  revert Bp Bj Bx s. induction js as [|jj js IH]; intros Bp Bj Bx s Hlen Hs;
    cbv zeta.
  - simpl. rewrite Nat.add_0_r. f_equal. f_equal. symmetry.
    apply list_insert_id. rewrite <- Hs.
    by apply list_lookup_lookup_total_lt.
  - rewrite fmap_cons, filter_cons. simpl fold_left.
    unfold select_entry at 2. cbv zeta. simpl fst. simpl snd.
    case_decide as Hk.
    + rewrite Hk, Hs.
      rewrite (IH _ _ _ (s + 1)); cycle 1.
      { by rewrite length_insert. }
      { rewrite list_lookup_total_insert_eq by done. done. }
      cbv zeta. rewrite list_insert_insert_eq. simpl length. simpl write_slice.
      replace (s + 1) with (S s) by lia.
      do 2 f_equal. f_equal. lia.
    + apply not_true_is_false in Hk. rewrite Hk.
      by apply IH.
Qed.


(** The outer loop: after [n] rows the pointers of the rows visited
    count the entries kept, the later pointers are those of the input,
    and the entries kept fill the front of the buffers. *)
Lemma select_rows_spec rank colWise nrow Ap Aj Ax n :
  length Ap = nrow + 1 → Ap !!! 0 = 0 → n ≤ nrow →
  let rows := kept_row zero func rank colWise Ap Aj Ax in
  let st := select_rows zero func rank colWise n Ap Aj Ax (Ap, Aj, Ax) in
  length st.1.1 = length Ap
  ∧ (∀ c, c ≤ n → st.1.1 !!! c = length (flat_map rows (seq 0 c)))
  ∧ (∀ c, n < c → st.1.1 !!! c = Ap !!! c)
  ∧ (st.1.2, st.2) = write_slice 0 (flat_map rows (seq 0 n)) (Aj, Ax).
Proof.
  intros Hlen Hfirst. induction n as [|n IH]; intros Hn; cbv zeta.
  { simpl. split_and!; [done| |done|done].
    intros c Hc. replace c with 0 by lia. done. }
  destruct IH as (IH1 & IH2 & IH3 & IH4); [lia|].
  unfold select_rows in *. rewrite fold_left_seq_S.
  set (prev := fold_left _ (seq 0 n) (Ap, Aj, Ax)) in *.
  destruct prev as [[Bp Bj] Bx]. simpl in IH1, IH2, IH3, IH4.
  cbv zeta. simpl fst. simpl snd.
  rewrite (select_inner_spec rank colWise Aj Ax n _ _ Bj Bx (Bp !!! n));
    cycle 1.
  { rewrite length_insert. lia. }
  { rewrite list_lookup_total_insert_eq by lia. done. }
  cbv zeta. fold (kept_row zero func rank colWise Ap Aj Ax n).
  rewrite list_insert_insert_eq. simpl fst. simpl snd.
  rewrite (IH2 n) by lia.
  split_and!.
  - by rewrite length_insert.
  - intros c Hc. destruct (decide (c = S n)) as [->|Hne].
    + replace (n + 1) with (S n) by lia.
      rewrite list_lookup_total_insert_eq by lia.
      replace (S n) with (n + 1) by lia. by rewrite rows_before_S.
    + rewrite list_lookup_total_insert_ne by lia. apply IH2. lia.
  - intros c Hc. rewrite list_lookup_total_insert_ne by lia. apply IH3. lia.
  - replace (S n) with (n + 1) by lia.
    rewrite seq_app, flat_map_app. simpl flat_map. rewrite app_nil_r.
    rewrite write_slice_app, <- IH4. simpl.
    symmetry. apply surjective_pairing.
Qed.

End SelectLoops.

Lemma StronglySorted_fmap_seq {A} (R : relation A) (f : nat → A) a k :
  (∀ i j, a ≤ i → i < j → j < a + k → R (f i) (f j)) →
  StronglySorted R (f <$> seq a k).
Proof.
  revert a. induction k as [|k IH]; intros a HR; [constructor|].
  simpl. constructor.
  - apply IH. intros i j ? ? ?. apply HR; lia.
  - apply Forall_forall. intros y Hy.
    apply list_elem_of_fmap in Hy as (j & -> & Hj).
    apply elem_of_seq in Hj. apply HR; lia.
Qed.

Section SelectMatrix.
Context {V : Type} (zero : V) (func : V → nat → nat → bool).
Implicit Types (Ap Aj Bp Bj : list nat) (Ax Bx : list V)
  (t : SparseTensorStorage V).

#[local] Hint Extern 0 (Inhabited V) =>
  exact (value_inhabited zero) : typeclass_instances.

Lemma kept_rows_count rank colWise Ap Aj Ax nrow c :
  (∀ i j, i ≤ j → j ≤ nrow → Ap !!! i ≤ Ap !!! j) → c ≤ nrow →
  length (flat_map (kept_row zero func rank colWise Ap Aj Ax) (seq 0 c))
  ≤ Ap !!! c - Ap !!! 0.
Proof.
  intros Hsorted. induction c as [|c IH]; intros Hc; [simpl; lia|].
  replace (S c) with (c + 1) by lia. rewrite rows_before_S.
  specialize (IH ltac:(lia)).
  pose proof (Hsorted 0 c ltac:(lia) ltac:(lia)).
  pose proof (Hsorted c (c + 1) ltac:(lia) ltac:(lia)).
  unfold kept_row at 2.
  pose proof (length_filter
    (λ x : nat * V, select_keep func rank colWise c x.1 x.2 = true)
    ((λ jj, (Aj !!! jj, Ax !!! jj))
     <$> seq (Ap !!! c) (Ap !!! (c + 1) - Ap !!! c))) as Hf.
  rewrite length_fmap, length_seq in Hf. lia.
Qed.

Lemma elem_of_kept_rows rank colWise Ap Aj Ax nrow x :
  (∀ i j, i ≤ j → j ≤ nrow → Ap !!! i ≤ Ap !!! j) →
  x ∈ flat_map (kept_row zero func rank colWise Ap Aj Ax) (seq 0 nrow) →
  ∃ jj, jj < Ap !!! nrow ∧ x.1 = Aj !!! jj.
Proof.
  intros Hsorted Hx.
  apply list_elem_of_In, in_flat_map in Hx as (o & Ho & Hx).
  apply in_seq in Ho. apply list_elem_of_In in Hx.
  unfold kept_row in Hx.
  apply list_elem_of_filter in Hx as [_ Hx].
  apply list_elem_of_fmap in Hx as (jj & -> & Hjj).
  apply elem_of_seq in Hjj. exists jj. split; [|done].
  pose proof (Hsorted (o + 1) nrow ltac:(lia) ltac:(lia)). lia.
Qed.

(** The storage that [buildAlgorithm] returns for a matrix whose outer
    extent is its number of rows. *)
Lemma buildAlgorithm_fields ty s0 s1 rv ix P0 Ap I0 Aj (vals : list V) :
  ty_rank ty = 2 →
  num_rows ty (mkStorage [s0; s1] rv ix [P0; Ap] [I0; Aj] vals) = s0 →
  let st := select_rows zero func 2 (hasColumnOrdering ty) s0 Ap Aj vals
                        (Ap, Aj, vals) in
  let nnz := st.1.1 !!! s0 in
  buildAlgorithm zero func ty
    (mkStorage [s0; s1] rv ix [P0; Ap] [I0; Aj] vals)
  = mkStorage [s0; s1] rv [] [P0; st.1.1] [I0; resize nnz 0 st.1.2]
              (resize nnz zero st.2).
Proof.
  intros Hrank Hrows. cbv zeta. unfold buildAlgorithm. cbv zeta.
  rewrite Hrank, Hrows. destruct ty as [rk o]. simpl in Hrank. subst rk.
  destruct o; reflexivity.
Qed.

Lemma select_storage_entries colWise s0 Ap Aj (vals : list V) :
  length Ap = s0 + 1 → Ap !!! 0 = 0 →
  (∀ i j, i ≤ j → j ≤ s0 → Ap !!! i ≤ Ap !!! j) →
  Ap !!! s0 = length Aj → length vals = length Aj →
  let rows := kept_row zero func 2 colWise Ap Aj vals in
  let K := flat_map rows (seq 0 s0) in
  let st := select_rows zero func 2 colWise s0 Ap Aj vals (Ap, Aj, vals) in
  let nnz := st.1.1 !!! s0 in
  length st.1.1 = s0 + 1
  ∧ (∀ c, c ≤ s0 → st.1.1 !!! c = length (flat_map rows (seq 0 c)))
  ∧ resize nnz 0 st.1.2 = K.*1
  ∧ resize nnz zero st.2 = K.*2
  ∧ storage_entries zero s0 st.1.1 K.*1 K.*2
    = filter (λ e, select_keep func 2 colWise e.1.1 e.1.2 e.2 = true)
             (storage_entries zero s0 Ap Aj vals).
Proof.
  intros Hlen Hfirst Hsorted Hlast Hvals. cbv zeta.
  destruct (select_rows_spec zero func 2 colWise s0 Ap Aj vals s0
              Hlen Hfirst ltac:(lia)) as (Hl & Hcnt & _ & Hbuf).
  cbv zeta in Hl, Hcnt, Hbuf.
  set (rows := kept_row zero func 2 colWise Ap Aj vals) in *.
  set (st := select_rows zero func 2 colWise s0 Ap Aj vals (Ap, Aj, vals))
    in *.
  pose proof (kept_rows_count 2 colWise Ap Aj vals s0 s0 Hsorted
                ltac:(lia)) as Hcount.
  fold rows in Hcount.
  destruct (write_slice_resize zero (flat_map rows (seq 0 s0)) (Aj, vals))
    as [Hr1 Hr2]; [simpl; lia..|].
  rewrite <- Hbuf in Hr1, Hr2. simpl in Hr1, Hr2.
  rewrite (Hcnt s0) by lia.
  split_and!; [lia|done|done|done|].
  pose proof (rows_entries zero rows s0 st.1.1
                ((flat_map rows (seq 0 s0)).*1, (flat_map rows (seq 0 s0)).*2))
    as He.
  cbn [fst snd] in He. rewrite He; cycle 1.
  { done. }
  { intros r Hr. rewrite (Hcnt r) by lia. by apply slice_at_rows. }
  unfold storage_entries. rewrite filter_flat_map.
  apply flat_map_ext_in. intros o Ho.
  unfold rows, kept_row.
  rewrite (filter_fmap (λ jj, (o, Aj !!! jj, vals !!! jj))).
  rewrite (filter_fmap (λ jj, (Aj !!! jj, vals !!! jj))).
  by rewrite <- list_fmap_compose.
Qed.


Lemma select_matrix_spec ty t :
  ty_rank ty = 2 → matrix_wf t → num_rows ty t = sizes t !!! 0 →
  let t' := buildAlgorithm zero func ty t in
  matrix_wf t'
  ∧ sizes t' = sizes t ∧ rev t' = rev t
  ∧ pointers t' !!! 0 = pointers t !!! 0
  ∧ indices t' !!! 0 = indices t !!! 0
  ∧ entries zero ty t'
    = filter (λ e, func e.2 e.1.1 e.1.2 = true) (entries zero ty t)
  ∧ (segments_increasing t → segments_increasing t').
Proof.
  intros Hrank [Hs Hr Hp Hi Hpl Hpf Hps Hplast Hv Hb] Hrows. cbv zeta.
  destruct t as [sz rv ix ptrs inds vals].
  simpl in Hs, Hr, Hp, Hi, Hpl, Hpf, Hps, Hplast, Hv, Hb.
  destruct sz as [|s0 [|s1 [|? ?]]]; try done.
  destruct ptrs as [|P0 [|Ap [|? ?]]]; try done.
  destruct inds as [|I0 [|Aj [|? ?]]]; try done.
  change (([P0; Ap] : list (list nat)) !!! 1) with Ap in *.
  change (([I0; Aj] : list (list nat)) !!! 1) with Aj in *.
  change (([s0; s1] : list nat) !!! 0) with s0 in *.
  change (([s0; s1] : list nat) !!! 1) with s1 in *.
  rewrite buildAlgorithm_fields by done.
  destruct (select_storage_entries (hasColumnOrdering ty) s0 Ap Aj vals)
    as (Hl & Hcnt & -> & -> & Hent); try done.
  cbv zeta in Hl, Hcnt, Hent.
  set (rows := kept_row zero func 2 (hasColumnOrdering ty) Ap Aj vals) in *.
  set (K := flat_map rows (seq 0 s0)) in *.
  set (st := select_rows zero func 2 (hasColumnOrdering ty) s0 Ap Aj vals
                         (Ap, Aj, vals)) in *.
  assert (Forall (λ c, c < s1) K.*1) as Hbound.
  { apply Forall_forall. intros c Hc.
    apply list_elem_of_fmap in Hc as (x & -> & Hx).
    apply (elem_of_kept_rows 2 (hasColumnOrdering ty) Ap Aj vals s0)
      in Hx as (jj & Hjj & ->); [|done].
    apply Hb. lia. }
  split_and!; try done.
  - split; simpl; try done.
    + change (([P0; st.1.1] : list (list nat)) !!! 1) with st.1.1.
      rewrite Hcnt by lia. done.
    + change (([P0; st.1.1] : list (list nat)) !!! 1) with st.1.1.
      intros i j Hij Hj. rewrite !Hcnt by lia. by apply rows_before_mono.
    + change (([P0; st.1.1] : list (list nat)) !!! 1) with st.1.1.
      change (([I0; K.*1] : list (list nat)) !!! 1) with K.*1.
      rewrite Hcnt by lia. by rewrite length_fmap.
    + change (([I0; K.*1] : list (list nat)) !!! 1) with K.*1.
      by rewrite !length_fmap.
    + change (([I0; K.*1] : list (list nat)) !!! 1) with K.*1.
      intros j Hj. by apply (Forall_lookup_total_1 _ _ _ Hbound).
  - unfold entries. simpl sizes. simpl values.
    change (pointers (mkStorage [s0; s1] rv [] [P0; st.1.1] [I0; K.*1] K.*2)
            !!! 1) with st.1.1.
    change (indices (mkStorage [s0; s1] rv [] [P0; st.1.1] [I0; K.*1] K.*2)
            !!! 1) with K.*1.
    change (pointers (mkStorage [s0; s1] rv ix [P0; Ap] [I0; Aj] vals) !!! 1)
      with Ap.
    change (indices (mkStorage [s0; s1] rv ix [P0; Ap] [I0; Aj] vals) !!! 1)
      with Aj.
    change (([s0; s1] : list nat) !!! 0) with s0.
    rewrite Hent, filter_fmap. f_equal.
    apply list_filter_iff. intros [[o c] v].
    unfold logical_entry, select_keep, hasColumnOrdering. simpl.
    by destruct (ty_ordering ty).
  - intros Hinc o p q Ho Hp1 Hpq Hq. simpl in Ho, Hp1, Hq |- *.
    change (([P0; st.1.1] : list (list nat)) !!! 1) with st.1.1 in *.
    change (([I0; K.*1] : list (list nat)) !!! 1) with K.*1.
    change (([s0; s1] : list nat) !!! 0) with s0 in *.
    rewrite Hcnt in Hp1, Hq by lia. rewrite rows_before_S in Hq.
    pose proof (slice_at_rows zero rows s0 o Ho) as Hslice.
    cbv zeta in Hslice. fold K in Hslice.
    assert (∀ i, i < length (rows o) →
              K.*1 !!! (length (flat_map rows (seq 0 o)) + i)
              = (rows o).*1 !!! i) as Hread.
    { intros i Hi'. rewrite <- Hslice at 1. unfold slice_at.
      rewrite <- list_fmap_compose.
      rewrite (list_lookup_total_fmap _ (seq _ _))
        by (rewrite length_seq; lia).
      by rewrite lookup_total_seq_lt by lia. }
    assert (StronglySorted lt (rows o).*1) as Hsorted.
    { apply (StronglySorted_fmap fst (λ x y : nat * V, x.1 < y.1) lt);
        [done|].
      apply StronglySorted_filter, StronglySorted_fmap_seq.
      intros i j Hi1 Hij Hj. simpl.
      apply (Hinc o); simpl; [done|done|done|].
      change (([P0; Ap] : list (list nat)) !!! 1) with Ap.
      pose proof (Hps o (o + 1) ltac:(lia) ltac:(lia)). lia. }
    replace p with (length (flat_map rows (seq 0 o))
                    + (p - length (flat_map rows (seq 0 o)))) by lia.
    replace q with (length (flat_map rows (seq 0 o))
                    + (q - length (flat_map rows (seq 0 o)))) by lia.
    rewrite !Hread by lia.
    apply StronglySorted_lookup_total_lt; [done|lia|].
    rewrite length_fmap. lia.
Qed.

End SelectMatrix.

(** [select] on a matrix whose outer storage extent is its number of
    rows (every CSR matrix, and every square CSC matrix): the result
    stores exactly the entries [(row, column, value)] of the input for
    which the [select_out] block yields true, in the order of the
    input; it is again a well-formed matrix of the same shape, and its
    rows stay strictly increasing if those of the input are. *)
Theorem select_generic_filters {V} (zero : V)
    (selectOut : V → nat → nat → bool) ty (t : SparseTensorStorage V) :
  ty_rank ty = 2 → matrix_wf t → num_rows ty t = sizes t !!! 0 →
  let t' := LowerSelectGenericRewrite zero selectOut ty t in
  entries zero ty t'
  = filter (λ e, selectOut e.2 e.1.1 e.1.2 = true) (entries zero ty t)
  ∧ matrix_wf t' ∧ sizes t' = sizes t
  ∧ (segments_increasing t → segments_increasing t').
Proof.
  intros Hrank Hwf Hrows. cbv zeta. unfold LowerSelectGenericRewrite.
  destruct (select_matrix_spec zero selectOut ty t Hrank Hwf Hrows)
    as (Hwf' & Hsz & _ & _ & _ & Hent & Hinc).
  done.
Qed.

(** The entries above the diagonal of a 2 x 4 matrix. *)
Lemma select_generic_filters_witness :
  let t' := LowerSelectGenericRewrite 0%Z (λ _ row col, row <? col) CSR a_csr in
  entries 0%Z CSR t'
  = filter (λ e, (e.1.1 <? e.1.2) = true) (entries 0%Z CSR a_csr)
  ∧ matrix_wf t' ∧ sizes t' = sizes a_csr
  ∧ (segments_increasing a_csr → segments_increasing t').
Proof.
  apply (select_generic_filters 0%Z (λ _ row col, row <? col) CSR a_csr);
    [reflexivity|apply a_csr_wf|reflexivity].
Defined.

(** [select] keeps a matrix valid when the outer storage extent is
    the number of rows (every CSR matrix, and every square CSC matrix;
    the loop runs over the number of rows whatever the layout) and the
    product of the extents fits 64 bits: if the input passes [verify],
    so does the result. *)
Theorem select_generic_verifies {V} (zero : V)
    (selectOut : V → nat → nat → bool) ty (t : SparseTensorStorage V) :
  ty_rank ty = 2 → num_rows ty t = sizes t !!! 0 →
  length (sizes t) = 2 →
  isCompressedDim t 0 = false → isCompressedDim t 1 = true →
  (Z.of_nat (sizes t !!! 0%nat) * Z.of_nat (sizes t !!! 1%nat) < 2 ^ 64 - 1)%Z →
  verify t = true →
  verify (LowerSelectGenericRewrite zero selectOut ty t) = true.
Proof.
  intros Hrank Hrows Hsz Hd0 Hd1 Hprod Hv. unfold LowerSelectGenericRewrite.
  apply verify_matrix_iff in Hv as (Hrev & Hs0 & Hs1 & Hi0 & Hwf & Hinc);
    try done.
  destruct (select_matrix_spec zero selectOut ty t Hrank Hwf Hrows)
    as (Hwf' & Hsizes & Hrev' & Hp0' & Hi0' & _ & Hinc').
  cbv zeta in Hwf', Hsizes, Hrev', Hp0', Hi0', Hinc'.
  apply verify_matrix_iff.
  - by rewrite Hsizes.
  - unfold isCompressedDim in *. by rewrite Hp0'.
  - unfold isCompressedDim. rewrite (mw_ptr_len _ Hwf').
    apply negb_true_iff, Nat.eqb_neq. lia.
  - by rewrite Hsizes.
  - rewrite Hsizes, Hrev', Hi0'. split_and!; try done. by apply Hinc'.
Qed.

(** The entries with value above 1 of a valid 2 x 4 matrix. *)
Lemma select_generic_verifies_witness :
  verify (LowerSelectGenericRewrite 0%Z (λ v _ _, (1 <? v)%Z) CSR a_csr)
  = true.
Proof.
  apply select_generic_verifies;
    [reflexivity|reflexivity|reflexivity|reflexivity|reflexivity|simpl; lia
    |reflexivity].
Defined.

(** Two selections in a row, on a matrix whose outer storage extent is
    its number of rows (every CSR matrix, and every square CSC matrix),
    keep the entries that pass both blocks: the result stores the same
    entries as one selection with the conjunction of the two blocks. *)
Theorem select_generic_compose {V} (zero : V)
    (f g : V → nat → nat → bool) ty (t : SparseTensorStorage V) :
  ty_rank ty = 2 → matrix_wf t → num_rows ty t = sizes t !!! 0 →
  entries zero ty
    (LowerSelectGenericRewrite zero g ty
       (LowerSelectGenericRewrite zero f ty t))
  = entries zero ty
      (LowerSelectGenericRewrite zero (λ v r c, f v r c && g v r c) ty t).
Proof.
  intros Hrank Hwf Hrows. unfold LowerSelectGenericRewrite.
  destruct (select_matrix_spec zero f ty t Hrank Hwf Hrows)
    as (Hwf' & Hsz & _ & _ & _ & Hent & _).
  cbv zeta in Hwf', Hsz, Hent.
  destruct (select_matrix_spec zero (λ v r c, f v r c && g v r c) ty t
              Hrank Hwf Hrows) as (_ & _ & _ & _ & _ & -> & _).
  destruct (select_matrix_spec zero g ty (buildAlgorithm zero f ty t)
              Hrank Hwf') as (_ & _ & _ & _ & _ & -> & _).
  { unfold num_rows, tensor_dim in *. by rewrite Hsz. }
  rewrite Hent, list_filter_filter. apply list_filter_iff.
  intros e. rewrite andb_true_iff. tauto.
Qed.

(** Above the diagonal, then value above 1, on a 2 x 4 matrix. *)
Lemma select_generic_compose_witness :
  entries 0%Z CSR
    (LowerSelectGenericRewrite 0%Z (λ v _ _, (1 <? v)%Z) CSR
       (LowerSelectGenericRewrite 0%Z (λ _ row col, row <? col) CSR a_csr))
  = entries 0%Z CSR
      (LowerSelectGenericRewrite 0%Z
         (λ v row col, (row <? col) && (1 <? v)%Z) CSR a_csr).
Proof.
  apply (select_generic_compose 0%Z (λ _ row col, row <? col)
           (λ v _ _, (1 <? v)%Z) CSR a_csr);
    [reflexivity|apply a_csr_wf|reflexivity].
Defined.

(** ** Transposition *)

Section TransposeOp.
Context {V : Type} (zero : V).
Implicit Types (t : SparseTensorStorage V).

#[local] Hint Extern 0 (Inhabited V) =>
  exact (value_inhabited zero) : typeclass_instances.

(** Without a layout conversion the buffers are those of the input,
    read with the other layout. *)
Lemma LowerTransposeRewrite_spec inputType outputType t :
  hasRowOrdering outputType = negb (hasRowOrdering inputType) →
  matrix_wf t →
  let t' := LowerTransposeRewrite inputType t in
  matrix_wf t' ∧ sizes t' = sizes t
  ∧ entries zero outputType t'
    = (λ e, (e.1.2, e.1.1, e.2)) <$> entries zero inputType t
  ∧ (segments_increasing t → segments_increasing t')
  ∧ (∀ i j, stored_at zero outputType t' i j = stored_at zero inputType t j i).
Proof.
  intros Hord [Hs Hr Hp Hi Hpl Hpf Hps Hplast Hv Hb]. cbv zeta.
  assert (sizes (LowerTransposeRewrite inputType t) = sizes t
          ∧ pointers (LowerTransposeRewrite inputType t) = pointers t
          ∧ indices (LowerTransposeRewrite inputType t) = indices t
          ∧ values (LowerTransposeRewrite inputType t) = values t
          ∧ length (rev (LowerTransposeRewrite inputType t)) = 2)
    as (Hs' & Hp' & Hi' & Hv' & Hr').
  { unfold LowerTransposeRewrite.
    destruct (hasRowOrdering inputType); simpl;
      by rewrite !length_insert. }
  split_and!.
  - split; rewrite ?Hs', ?Hp', ?Hi', ?Hv'; done.
  - done.
  - unfold entries. rewrite Hs', Hp', Hi', Hv', <- list_fmap_compose.
    apply list_fmap_ext. intros k [[o c] v] _.
    unfold hasRowOrdering, logical_entry in *. simpl.
    by destruct (ty_ordering inputType), (ty_ordering outputType).
  - unfold segments_increasing. by rewrite Hs', Hp', Hi'.
  - intros i j. unfold stored_at. rewrite Hs', Hp', Hi', Hv', Hord.
    by destruct (hasRowOrdering inputType).
Qed.

Lemma hasRowOrdering_flipped ty :
  hasRowOrdering (getFlippedLayoutType ty) = negb (hasRowOrdering ty).
Proof. unfold hasRowOrdering. simpl. by destruct (ty_ordering ty). Qed.

Lemma transpose_op_spec inputType outputType t :
  ty_rank inputType = 2 → matrix_wf t →
  let t' := TransposeOp zero inputType outputType t in
  matrix_wf t'
  ∧ num_rows outputType t' = num_cols inputType t
  ∧ num_cols outputType t' = num_rows inputType t
  ∧ entries zero outputType t'
    ≡ₚ (λ e, (e.1.2, e.1.1, e.2)) <$> entries zero inputType t
  ∧ (segments_increasing t →
     segments_increasing t'
     ∧ ∀ i j, stored_at zero outputType t' i j = stored_at zero inputType t j i).
Proof.
  intros Hrank Hwf. cbv zeta. unfold TransposeOp, needsDWIM.
  case_bool_decide as Hdwim.
  - destruct (convert_layout_flip_spec zero inputType t Hrank Hwf)
      as (Hwf1 & Hsz1 & Hent1 & Hinc1).
    cbv zeta in Hwf1, Hsz1, Hent1, Hinc1.
    set (t1 := convert_layout zero inputType
                 (getFlippedLayoutType inputType) t) in *.
    destruct (LowerTransposeRewrite_spec (getFlippedLayoutType inputType)
                outputType t1) as (Hwf' & Hsz' & Hent' & Hinc' & Hst');
      [|done|].
    { by rewrite hasRowOrdering_flipped, negb_involutive. }
    cbv zeta in Hwf', Hsz', Hent', Hinc', Hst'.
    split_and!; [done| | | |].
    + unfold num_rows, num_cols, tensor_dim, hasRowOrdering in *.
      rewrite Hsz', Hsz1.
      by destruct (ty_ordering inputType), (ty_ordering outputType).
    + unfold num_rows, num_cols, tensor_dim, hasRowOrdering in *.
      rewrite Hsz', Hsz1.
      by destruct (ty_ordering inputType), (ty_ordering outputType).
    + by rewrite Hent', Hent1.
    + intros Hinc. destruct (Hinc1 Hinc) as [Hinc1' Hst1].
      split; [by apply Hinc'|]. intros i j. by rewrite Hst', Hst1.
  - destruct (LowerTransposeRewrite_spec inputType outputType t)
      as (Hwf' & Hsz' & Hent' & Hinc' & Hst'); [|done|].
    { by destruct (hasRowOrdering inputType), (hasRowOrdering outputType). }
    cbv zeta in Hwf', Hsz', Hent', Hinc', Hst'.
    assert (length (sizes t) = 2) as Hlen by apply Hwf.
    split_and!; [done| | | |].
    + unfold num_rows, num_cols, tensor_dim, hasRowOrdering in *.
      rewrite Hsz'.
      by destruct (ty_ordering inputType), (ty_ordering outputType).
    + unfold num_rows, num_cols, tensor_dim, hasRowOrdering in *.
      rewrite Hsz'.
      by destruct (ty_ordering inputType), (ty_ordering outputType).
    + by rewrite Hent'.
    + intros Hinc. split; [by apply Hinc'|done].
Qed.

(** [transpose] of a matrix, for each of the four combinations of
    input and output layout: the result is a well-formed matrix with
    the extents exchanged that stores the entries of the input with row
    and column exchanged; if the rows of the input are strictly
    increasing, the result holds at [(i, j)] what the input holds at
    [(j, i)]. *)
Theorem transpose_exchanges_coordinates inputType outputType t :
  ty_rank inputType = 2 → matrix_wf t →
  let t' := TransposeOp zero inputType outputType t in
  matrix_wf t'
  ∧ num_rows outputType t' = num_cols inputType t
  ∧ num_cols outputType t' = num_rows inputType t
  ∧ entries zero outputType t'
    ≡ₚ (λ e, (e.1.2, e.1.1, e.2)) <$> entries zero inputType t
  ∧ (segments_increasing t →
     segments_increasing t'
     ∧ ∀ i j, stored_at zero outputType t' i j = stored_at zero inputType t j i).
Proof. apply transpose_op_spec. Qed.

(** Transposing twice gives back the entries of the input, whatever
    the layouts of the intermediate and of the final result. *)
Theorem transpose_involutive ty1 ty2 ty3 t :
  ty_rank ty1 = 2 → ty_rank ty2 = 2 → matrix_wf t →
  entries zero ty3 (TransposeOp zero ty2 ty3 (TransposeOp zero ty1 ty2 t))
  ≡ₚ entries zero ty1 t.
Proof.
  intros Hr1 Hr2 Hwf.
  destruct (transpose_op_spec ty1 ty2 t Hr1 Hwf) as (Hwf' & _ & _ & Hent & _).
  destruct (transpose_op_spec ty2 ty3 _ Hr2 Hwf') as (_ & _ & _ & Hent' & _).
  cbv zeta in Hent, Hent'. rewrite Hent', Hent, <- list_fmap_compose.
  rewrite (list_fmap_ext _ id (entries zero ty1 t)).
  - by rewrite list_fmap_id.
  - by intros k [[i j] v] _.
Qed.

End TransposeOp.

(** A 2 x 4 CSR matrix transposed into a CSR matrix. *)
Lemma transpose_exchanges_coordinates_witness :
  let t' := TransposeOp 0%Z CSR CSR a_csr in
  matrix_wf t'
  ∧ num_rows CSR t' = num_cols CSR a_csr
  ∧ num_cols CSR t' = num_rows CSR a_csr
  ∧ entries 0%Z CSR t'
    ≡ₚ (λ e, (e.1.2, e.1.1, e.2)) <$> entries 0%Z CSR a_csr
  ∧ (segments_increasing a_csr →
     segments_increasing t'
     ∧ ∀ i j, stored_at 0%Z CSR t' i j = stored_at 0%Z CSR a_csr j i).
Proof.
  apply (transpose_exchanges_coordinates 0%Z CSR CSR a_csr);
    [reflexivity|apply a_csr_wf].
Defined.

(** A 2 x 4 CSR matrix transposed into CSC and back into CSR. *)
Lemma transpose_involutive_witness :
  entries 0%Z CSR (TransposeOp 0%Z CSC CSR (TransposeOp 0%Z CSR CSC a_csr))
  ≡ₚ entries 0%Z CSR a_csr.
Proof.
  apply (transpose_involutive 0%Z CSR CSC CSR a_csr);
    [reflexivity|reflexivity|apply a_csr_wf].
Defined.

(** ** Comparison *)

(** The AND-reduction yields 1 if every word is all ones and 0 as soon
    as one is zero. *)
Lemma and_reduce_spec {A} (f : A → bool) (l : list A) :
  fold_left (λ lhs x, Z.land lhs (extsi_i1 (f x))) l 1%Z
  = (if forallb f l then 1 else 0)%Z.
Proof.
  assert (∀ l, fold_left (λ lhs x, Z.land lhs (extsi_i1 (f x))) l 0%Z = 0%Z)
    as Hzero.
  { intros l'. induction l' as [|x l' IH]; [done|]. simpl.
    by rewrite Z.land_0_l. }
  induction l as [|x l IH]; [done|]. simpl.
  destruct (f x); simpl; [done|apply Hzero].
Qed.

Section Equal.
Context {V : Type} (zero : V) (cmp : V → V → bool).
Implicit Types (A B : SparseTensorStorage V).

#[local] Hint Extern 0 (Inhabited V) =>
  exact (value_inhabited zero) : typeclass_instances.

Lemma num_vals_matrix ty A :
  ty_rank ty = 2 → matrix_wf A → num_vals ty A = length (indices A !!! 1).
Proof.
  intros Hrank Hwf. unfold num_vals, tensor_dim, hasRowOrdering.
  rewrite Hrank. simpl. rewrite <- (mw_ptr_last _ Hwf).
  by destruct (ty_ordering ty).
Qed.

Lemma equal_matrix_spec aType bType A B :
  ty_rank aType = 2 → ty_rank bType = 2 → matrix_wf A → matrix_wf B →
  LowerEqualRewrite zero cmp aType bType A B = true
  ↔ num_rows aType A = num_rows bType B
    ∧ num_cols aType A = num_cols bType B
    ∧ length (indices A !!! 1) = length (indices B !!! 1)
    ∧ ∀ k, k < length (indices A !!! 1) →
        (indices A !!! 1) !!! k = (indices B !!! 1) !!! k
        ∧ cmp (values A !!! k) (values B !!! k) = true.
Proof.
  intros Ha Hb HwfA HwfB. unfold LowerEqualRewrite. cbv zeta.
  rewrite Ha. change (2 =? 2) with true. cbv iota.
  rewrite !num_vals_matrix by done.
  destruct (Nat.eqb_spec (num_rows aType A) (num_rows bType B)) as [Hr|Hr];
    [|simpl; split; [done|tauto]].
  destruct (Nat.eqb_spec (num_cols aType A) (num_cols bType B)) as [Hc|Hc];
    [|simpl; split; [done|tauto]].
  simpl andb. cbv iota.
  destruct (Nat.eqb_spec (length (indices A !!! 1)) (length (indices B !!! 1)))
    as [Hn|Hn]; [|split; [done|tauto]].
  rewrite (and_reduce_spec
             (λ loopIdx,
                ((indices A !!! 1) !!! loopIdx =? (indices B !!! 1) !!! loopIdx)
                && cmp (values A !!! loopIdx) (values B !!! loopIdx))).
  destruct (forallb _ _) eqn:Hall.
  - split; [intros _|done]. split_and!; try done.
    rewrite forallb_forall in Hall. intros k Hk.
    specialize (Hall k ltac:(apply in_seq; lia)).
    apply andb_true_iff in Hall as [Hi%Nat.eqb_eq Hv]. done.
  - split; [done|]. intros (_ & _ & _ & Hk).
    assert (forallb
              (λ loopIdx,
                 ((indices A !!! 1) !!! loopIdx
                  =? (indices B !!! 1) !!! loopIdx)
                 && cmp (values A !!! loopIdx) (values B !!! loopIdx))
              (seq 0 (length (indices A !!! 1))) = true) as Hall'.
    { apply forallb_forall. intros k Hin. apply in_seq in Hin.
      destruct (Hk k ltac:(lia)) as [-> ->]. by rewrite Nat.eqb_refl. }
    congruence.
Qed.


Lemma storage_entries_values nouter Ap Aj (Ax : list V) :
  Ap !!! 0 = 0 →
  (∀ i j, i ≤ j → j ≤ nouter → Ap !!! i ≤ Ap !!! j) →
  Ap !!! nouter = length Ax →
  (λ e, e.2) <$> storage_entries zero nouter Ap Aj Ax = Ax.
Proof.
  intros Hfirst Hsorted Hlast. unfold storage_entries.
  rewrite <- flat_map_fmap.
  rewrite (flat_map_ext_in _
             (λ o, (λ jj, Ax !!! jj)
                   <$> seq (Ap !!! o) (Ap !!! (o + 1) - Ap !!! o))); cycle 1.
  { intros o _. by rewrite <- list_fmap_compose. }
  rewrite flat_map_fmap, flat_map_segments, Hlast by done.
  rewrite <- (take_fmap_lookup_total Ax (length Ax)) by done.
  apply firstn_all.
Qed.

Lemma logical_entry_inj ty (l1 l2 : list (nat * nat * V)) :
  logical_entry ty <$> l1 = logical_entry ty <$> l2 → l1 = l2.
Proof.
  apply list_fmap_eq_inj. intros [[a b] c] [[a' b'] c'].
  unfold logical_entry. destruct (ty_ordering ty); simpl; congruence.
Qed.

Lemma equal_buffers_spec aType bType A B :
  (∀ x y, cmp x y = true ↔ x = y) →
  ty_rank aType = 2 → ty_rank bType = 2 → matrix_wf A → matrix_wf B →
  LowerEqualRewrite zero cmp aType bType A B = true
  ↔ num_rows aType A = num_rows bType B
    ∧ num_cols aType A = num_cols bType B
    ∧ indices A !!! 1 = indices B !!! 1
    ∧ values A = values B.
Proof.
  intros Hcmp Ha Hb HwfA HwfB. rewrite equal_matrix_spec by done.
  pose proof (mw_values _ HwfA) as HvA. pose proof (mw_values _ HwfB) as HvB.
  split.
  - intros (Hr & Hc & Hlen & Hk). split_and!; [done|done| |].
    + apply list_eq_same_length with (length (indices A !!! 1)); [done|done|].
      intros k x y Hk' Hx Hy. destruct (Hk k Hk') as [Hi _].
      rewrite (list_lookup_total_correct _ _ _ Hx),
        (list_lookup_total_correct _ _ _ Hy) in Hi. exact Hi.
    + apply list_eq_same_length with (length (indices A !!! 1));
        [lia|lia|].
      intros k x y Hk' Hx Hy. destruct (Hk k Hk') as [_ Hv].
      rewrite (list_lookup_total_correct _ _ _ Hx),
        (list_lookup_total_correct _ _ _ Hy) in Hv. by apply Hcmp.
  - intros (Hr & Hc & Hi & Hv). rewrite Hi, Hv.
    split_and!; [done|done|done|]. intros k _. split; [done|]. by apply Hcmp.
Qed.

(** [equal] on two well-formed matrices, for an element comparison that
    decides equality: the result is true exactly when the two have the
    same numbers of rows and columns, the same index buffer and the same
    value buffer. *)
Theorem equal_compares_buffers aType bType A B :
  (∀ x y, cmp x y = true ↔ x = y) →
  ty_rank aType = 2 → ty_rank bType = 2 → matrix_wf A → matrix_wf B →
  LowerEqualRewrite zero cmp aType bType A B = true
  ↔ num_rows aType A = num_rows bType B
    ∧ num_cols aType A = num_cols bType B
    ∧ indices A !!! 1 = indices B !!! 1
    ∧ values A = values B.
Proof. apply equal_buffers_spec. Qed.

(** The pointer buffer takes part in [equal] only through its last
    entry: for a reflexive element comparison, a matrix compares equal
    to every well-formed matrix obtained from it by moving its row
    boundaries. *)
Theorem equal_ignores_row_boundaries ty A P :
  (∀ x, cmp x x = true) →
  ty_rank ty = 2 → matrix_wf A →
  matrix_wf (set_pointers (<[1 := P]> (pointers A)) A) →
  LowerEqualRewrite zero cmp ty ty A (set_pointers (<[1 := P]> (pointers A)) A)
  = true.
Proof.
  intros Hrefl Hrank HwfA HwfB. apply equal_matrix_spec; [done..|].
  split_and!; [done|done|done|]. intros k _. split; [done|apply Hrefl].
Qed.

(** [equal], for an element comparison that decides equality, is
    complete, and it is sound for two matrices with the same row
    pointers: matrices of the same type and shape with the same
    entries compare equal, and two matrices with the same pointer buffer
    that compare equal have the same entries. *)
Theorem equal_entries ty A B :
  (∀ x y, cmp x y = true ↔ x = y) →
  ty_rank ty = 2 → matrix_wf A → matrix_wf B →
  (sizes A = sizes B → entries zero ty A = entries zero ty B →
   LowerEqualRewrite zero cmp ty ty A B = true)
  ∧ (LowerEqualRewrite zero cmp ty ty A B = true →
     pointers A !!! 1 = pointers B !!! 1 →
     entries zero ty A = entries zero ty B).
Proof.
  intros Hcmp Hrank HwfA HwfB. rewrite equal_buffers_spec by done. split.
  - intros Hsz Hent. unfold num_rows, num_cols, tensor_dim. rewrite Hsz.
    split_and!; [done|done| |].
    + assert (storage_entries zero (sizes A !!! 0) (pointers A !!! 1)
                (indices A !!! 1) (values A)
              = storage_entries zero (sizes B !!! 0) (pointers B !!! 1)
                  (indices B !!! 1) (values B)) as Hst.
      { by apply (logical_entry_inj ty) in Hent. }
      destruct HwfA, HwfB.
      rewrite <- (storage_entries_keys zero (sizes A !!! 0) (pointers A !!! 1)
                    (indices A !!! 1) (values A)) by done.
      rewrite Hst. by apply storage_entries_keys.
    + assert (storage_entries zero (sizes A !!! 0) (pointers A !!! 1)
                (indices A !!! 1) (values A)
              = storage_entries zero (sizes B !!! 0) (pointers B !!! 1)
                  (indices B !!! 1) (values B)) as Hst.
      { by apply (logical_entry_inj ty) in Hent. }
      destruct HwfA, HwfB.
      rewrite <- (storage_entries_values (sizes A !!! 0) (pointers A !!! 1)
                    (indices A !!! 1) (values A)) by (done || lia).
      rewrite Hst. apply storage_entries_values; (done || lia).
  - intros (Hr & Hc & Hi & Hv) Hp. unfold entries.
    assert (sizes A !!! 0 = sizes B !!! 0) as ->.
    { unfold num_rows, num_cols, tensor_dim in Hr, Hc.
      by destruct (ty_ordering ty). }
    by rewrite Hp, Hi, Hv.
Qed.

End Equal.

(** Two 2 x 2 matrices with the same entries. *)
Lemma equal_compares_buffers_witness :
  let A := mkStorage [2; 2] [0; 1] [] [[]; [0; 1; 2]] [[]; [0; 1]]
                     [5%Z; 7%Z] in
  LowerEqualRewrite 0%Z Z.eqb CSR CSR A A = true
  ↔ num_rows CSR A = num_rows CSR A ∧ num_cols CSR A = num_cols CSR A
    ∧ indices A !!! 1 = indices A !!! 1 ∧ values A = values A.
Proof.
  apply (equal_compares_buffers 0%Z Z.eqb CSR CSR);
    [apply Z.eqb_eq|reflexivity|reflexivity| |].
  - split; try done; simpl.
    + intros i j ? ?. destruct i as [|[|[|?]]], j as [|[|[|?]]]; simpl; lia.
    + intros j Hj. destruct j as [|[|?]]; simpl in *; lia.
  - split; try done; simpl.
    + intros i j ? ?. destruct i as [|[|[|?]]], j as [|[|[|?]]]; simpl; lia.
    + intros j Hj. destruct j as [|[|?]]; simpl in *; lia.
Defined.

(** The matrix with its only entry at (0, 0) compares equal to the one
    with its only entry at (1, 0). *)
Lemma equal_ignores_row_boundaries_witness :
  let A := mkStorage [2; 2] [0; 1] [] [[]; [0; 1; 1]] [[]; [0]] [5%Z] in
  let B := set_pointers (<[1 := [0; 0; 1]]> (pointers A)) A in
  LowerEqualRewrite 0%Z Z.eqb CSR CSR A B = true
  ∧ entries 0%Z CSR A = [(0, 0, 5%Z)] ∧ entries 0%Z CSR B = [(1, 0, 5%Z)].
Proof.
  split; [|split; reflexivity].
  apply (equal_ignores_row_boundaries 0%Z Z.eqb CSR);
    [apply Z.eqb_refl|reflexivity| |].
  - split; try done; simpl.
    + intros i j ? ?. destruct i as [|[|[|?]]], j as [|[|[|?]]]; simpl; lia.
    + intros j Hj. destruct j as [|?]; simpl in *; lia.
  - split; try done; simpl.
    + intros i j ? ?. destruct i as [|[|[|?]]], j as [|[|[|?]]]; simpl; lia.
    + intros j Hj. destruct j as [|?]; simpl in *; lia.
Defined.

(** A 2 x 2 matrix and a copy of it with another cursor. *)
Lemma equal_entries_witness :
  let A := mkStorage [2; 2] [0; 1] [] [[]; [0; 1; 2]] [[]; [0; 1]]
                     [5%Z; 7%Z] in
  let B := mkStorage [2; 2] [0; 1] [1; 1] [[]; [0; 1; 2]] [[]; [0; 1]]
                     [5%Z; 7%Z] in
  (sizes A = sizes B → entries 0%Z CSR A = entries 0%Z CSR B →
   LowerEqualRewrite 0%Z Z.eqb CSR CSR A B = true)
  ∧ (LowerEqualRewrite 0%Z Z.eqb CSR CSR A B = true →
     pointers A !!! 1 = pointers B !!! 1 →
     entries 0%Z CSR A = entries 0%Z CSR B).
Proof.
  apply (equal_entries 0%Z Z.eqb CSR); [apply Z.eqb_eq|reflexivity| |].
  - split; try done; simpl.
    + intros i j ? ?. destruct i as [|[|[|?]]], j as [|[|[|?]]]; simpl; lia.
    + intros j Hj. destruct j as [|[|?]]; simpl in *; lia.
  - split; try done; simpl.
    + intros i j ? ?. destruct i as [|[|[|?]]], j as [|[|[|?]]]; simpl; lia.
    + intros j Hj. destruct j as [|[|?]]; simpl in *; lia.
Defined.


(** ** Reduction to a scalar *)

(** The loop of [rewriteArgMinMax] over the positions [1 .. n] keeps
    the first extremal value met and its position. *)
Lemma argminmax_loop_spec (useMinimum : bool) (values : list Z) v0 n :
  values !! 0 = Some v0 → n < length values →
  ∃ p v,
    fold_left
      (λ (iter : Z * nat) currentValuePosition,
         let currentValue :=
           @lookup_total _ _ _ (@list_lookup_total _ (value_inhabited 0%Z))
             currentValuePosition values in
         if cmpi_replace useMinimum currentValue iter.1
         then (currentValue, currentValuePosition)
         else (iter.1, iter.2))
      (seq 1 n) (v0, 0) = (v, p)
    ∧ p ≤ n ∧ values !! p = Some v
    ∧ (∀ k w, k ≤ n → values !! k = Some w →
         if useMinimum then (v ≤ w)%Z else (w ≤ v)%Z)
    ∧ (∀ k w, k < p → values !! k = Some w →
         if useMinimum then (v < w)%Z else (w < v)%Z).
Proof.
  intros H0. induction n as [|n IH]; intros Hn.
  { exists 0, v0. split_and!; [done|done|done| |intros k w ?; lia].
    intros k w Hk Hw. replace k with 0 in Hw by lia.
    assert (w = v0) as -> by congruence. destruct useMinimum; lia. }
  destruct IH as (p & v & Hloop & Hp & Hv & Hall & Hbefore); [lia|].
  rewrite seq_S, fold_left_app, Hloop. simpl.
  destruct (lookup_lt_is_Some_2 values (S n) Hn) as [c Hc].
  rewrite (list_lookup_total_correct _ _ _ Hc).
  destruct (cmpi_replace useMinimum c v) eqn:Hcmp.
  - exists (S n), c. split_and!; [done|done|done| |].
    + intros k w Hk Hw. destruct (decide (k = S n)) as [->|Hne].
      * assert (w = c) as -> by congruence. destruct useMinimum; lia.
      * specialize (Hall k w ltac:(lia) Hw). unfold cmpi_replace in Hcmp.
        destruct useMinimum; lia.
    + intros k w Hk Hw. specialize (Hall k w ltac:(lia) Hw).
      unfold cmpi_replace in Hcmp. destruct useMinimum; lia.
  - exists p, v. split_and!; [done|lia|done| |done].
    intros k w Hk Hw. destruct (decide (k = S n)) as [->|Hne].
    + assert (w = c) as -> by congruence. unfold cmpi_replace in Hcmp.
      destruct useMinimum; lia.
    + apply (Hall k); [lia|done].
Qed.

(** [argmin] and [argmax] on a sparse vector of signed integers with at
    least one stored value: the result is the index stored at the first
    position that holds the smallest (respectively largest) stored
    value. *)
Theorem argminmax_first_extremum (useMinimum : bool)
    (input : SparseTensorStorage Z) :
  let nnz := (pointers input !!! 0) !!! 1 in
  0 < nnz → length (values input) = nnz →
  ∃ p v,
    p < nnz ∧ values input !! p = Some v
    ∧ rewriteArgMinMax 0%Z cmpi_replace useMinimum input
      = (indices input !!! 0) !!! p
    ∧ (∀ k w, values input !! k = Some w →
         if useMinimum then (v ≤ w)%Z else (w ≤ v)%Z)
    ∧ (∀ k w, k < p → values input !! k = Some w →
         if useMinimum then (v < w)%Z else (w < v)%Z).
Proof.
  intros nnz Hpos Hlen.
  destruct (lookup_lt_is_Some_2 (values input) 0 ltac:(lia)) as [v0 H0].
  destruct (argminmax_loop_spec useMinimum (values input) v0 (nnz - 1) H0
              ltac:(lia)) as (p & v & Hloop & Hp & Hv & Hall & Hbefore).
  exists p, v. split_and!; [lia|done| | |done].
  - unfold rewriteArgMinMax. cbv zeta. fold nnz.
    rewrite (list_lookup_total_correct _ _ _ H0).
    cbv zeta in Hloop. by rewrite Hloop.
  - intros k w Hw. apply (Hall k); [|done].
    apply lookup_lt_Some in Hw. lia.
Qed.

(** The vector with 4, 2, 9, 2 at the indices 1, 3, 5, 8. *)
Lemma argminmax_first_extremum_witness :
  let input := mkStorage [10] [0] [] [[0; 4]] [[1; 3; 5; 8]]
                         [4%Z; 2%Z; 9%Z; 2%Z] in
  rewriteArgMinMax 0%Z cmpi_replace true input = 3
  ∧ ∃ p v,
      p < 4 ∧ values input !! p = Some v
      ∧ rewriteArgMinMax 0%Z cmpi_replace true input
        = (indices input !!! 0) !!! p
      ∧ (∀ k w, values input !! k = Some w → (v ≤ w)%Z)
      ∧ (∀ k w, k < p → values input !! k = Some w → (v < w)%Z).
Proof.
  split; [reflexivity|].
  apply (argminmax_first_extremum true
           (mkStorage [10] [0] [] [[0; 4]] [[1; 3; 5; 8]]
                      [4%Z; 2%Z; 9%Z; 2%Z])); simpl; [lia|reflexivity].
Defined.

Lemma fold_left_permutation {A B} (f : A → B → A) (l1 l2 : list B) a :
  (∀ a x y, f (f a x) y = f (f a y) x) → l1 ≡ₚ l2 →
  fold_left f l1 a = fold_left f l2 a.
Proof.
  intros Hf Hperm. revert a.
  induction Hperm as [|x l1 l2 _ IH|x y l|l1 l2 l3 _ IH1 _ IH2]; intros a;
    simpl; [done|apply IH|by rewrite Hf|by rewrite IH1].
Qed.

Section ReduceGeneric.
Context {V : Type} (zero : V) (aggIdentity : V) (agg : V → V → V).
Implicit Types (t : SparseTensorStorage V).

#[local] Hint Extern 0 (Inhabited V) =>
  exact (value_inhabited zero) : typeclass_instances.

Lemma reduce_generic_spec ty t :
  ty_rank ty = 2 → matrix_wf t →
  LowerReduceToScalarGenericRewrite zero aggIdentity agg ty t
  = fold_left agg ((λ e, e.2) <$> entries zero ty t) aggIdentity.
Proof.
  intros Hrank Hwf. unfold LowerReduceToScalarGenericRewrite. cbv zeta.
  rewrite (num_vals_matrix ty t Hrank Hwf).
  pose proof Hwf as [_ _ _ _ _ Hfirst Hsorted Hlast Hval _].
  unfold entries. rewrite <- list_fmap_compose.
  rewrite (list_fmap_ext _ (λ e, e.2) (storage_entries _ _ _ _ _)); cycle 1.
  { intros k [[o c] v] _. unfold logical_entry. simpl.
    by destruct (ty_ordering ty). }
  rewrite storage_entries_values by (done || lia).
  rewrite <- (fold_left_fmap agg (λ k, values t !!! k)).
  rewrite <- Hval, <- take_fmap_lookup_total by done.
  by rewrite firstn_all.
Qed.

(** [reduce_to_scalar_generic] on a well-formed matrix combines, from
    the identity, the values of the entries in storage order. *)
Theorem reduce_to_scalar_generic_entries ty t :
  ty_rank ty = 2 → matrix_wf t →
  LowerReduceToScalarGenericRewrite zero aggIdentity agg ty t
  = fold_left agg ((λ e, e.2) <$> entries zero ty t) aggIdentity.
Proof. apply reduce_generic_spec. Qed.

(** With an associative and commutative aggregator the result depends
    neither on the layout nor on the orientation of the matrix: a layout
    conversion and a transposition both leave it unchanged. *)
Theorem reduce_to_scalar_generic_layout_independent ty ty' t :
  (∀ x y z, agg (agg x y) z = agg x (agg y z)) →
  (∀ x y, agg x y = agg y x) →
  ty_rank ty = 2 → ty_rank ty' = 2 → matrix_wf t →
  LowerReduceToScalarGenericRewrite zero aggIdentity agg ty'
    (convert_layout zero ty ty' t)
  = LowerReduceToScalarGenericRewrite zero aggIdentity agg ty t
  ∧ LowerReduceToScalarGenericRewrite zero aggIdentity agg ty'
      (TransposeOp zero ty ty' t)
    = LowerReduceToScalarGenericRewrite zero aggIdentity agg ty t.
Proof.
  intros Hassoc Hcomm Hrank Hrank' Hwf.
  assert (∀ a x y, agg (agg a x) y = agg (agg a y) x) as Hswap.
  { intros a x y. by rewrite Hassoc, (Hcomm x y), <- Hassoc. }
  destruct (transpose_op_spec zero ty ty' t Hrank Hwf)
    as (HwfT & _ & _ & HentT & _). cbv zeta in HwfT, HentT.
  assert (matrix_wf (convert_layout zero ty ty' t)
          ∧ entries zero ty' (convert_layout zero ty ty' t)
            ≡ₚ entries zero ty t) as [HwfC HentC].
  { unfold convert_layout. case_decide as Hty; [by subst|].
    assert (ty_ordering ty' ≠ ty_ordering ty) as Hord.
    { intros Heq. apply Hty. destruct ty, ty'. simpl in *. congruence. }
    destruct (convert_layout_rebuild_spec zero ty ty' t Hrank Hord Hwf)
      as (? & _ & ? & _). done. }
  rewrite !reduce_generic_spec by done. split.
  - apply fold_left_permutation; [done|]. by rewrite HentC.
  - apply fold_left_permutation; [done|]. rewrite HentT.
    rewrite <- list_fmap_compose.
    apply eq_subrelation; [apply _|].
    apply list_fmap_ext. by intros k [[i j] v] _.
Qed.

End ReduceGeneric.

(** The sum of the values of a 2 x 4 matrix. *)
Lemma reduce_to_scalar_generic_entries_witness :
  LowerReduceToScalarGenericRewrite 0%Z 0%Z Z.add CSR a_csr
  = fold_left Z.add ((λ e, e.2) <$> entries 0%Z CSR a_csr) 0%Z.
Proof.
  apply (reduce_to_scalar_generic_entries 0%Z 0%Z Z.add CSR a_csr);
    [reflexivity|apply a_csr_wf].
Defined.

(** The sum of a 2 x 4 matrix, of its CSC form and of its transpose. *)
Lemma reduce_to_scalar_generic_layout_independent_witness :
  LowerReduceToScalarGenericRewrite 0%Z 0%Z Z.add CSC
    (convert_layout 0%Z CSR CSC a_csr)
  = LowerReduceToScalarGenericRewrite 0%Z 0%Z Z.add CSR a_csr
  ∧ LowerReduceToScalarGenericRewrite 0%Z 0%Z Z.add CSC
      (TransposeOp 0%Z CSR CSC a_csr)
    = LowerReduceToScalarGenericRewrite 0%Z 0%Z Z.add CSR a_csr.
Proof.
  apply (reduce_to_scalar_generic_layout_independent 0%Z 0%Z Z.add CSR CSC
           a_csr);
    [intros; lia|intros; lia|reflexivity|reflexivity|apply a_csr_wf].
Defined.


(** ** Coordinate lists *)

(** Writing the images of a list into consecutive positions of a
    buffer, one position after the other. *)
Lemma fold_write_consecutive {A B} (pos : B → nat) (f : B → A) (l : list B)
    s (buf : list A) :
  pos <$> l = seq s (length l) → s + length l ≤ length buf →
  fold_left (λ buf x, <[pos x := f x]> buf) l buf
  = take s buf ++ (f <$> l) ++ drop (s + length l) buf.
Proof.
  revert s buf. induction l as [|x l IH]; intros s buf Hpos Hlen.
  { simpl. by rewrite Nat.add_0_r, take_drop. }
  simpl in Hpos, Hlen. injection Hpos as Hx Hpos. simpl fold_left.
  rewrite (IH (S s)); [|done|rewrite length_insert; lia].
  rewrite Hx. rewrite drop_insert_lt by lia.
  rewrite (take_S_r _ _ (f x)); cycle 1.
  { apply list_lookup_insert_eq. lia. }
  rewrite take_insert_ge by lia. rewrite <- app_assoc. simpl.
  by replace (s + S (length l)) with (S (s + length l)) by lia.
Qed.

Section ToCoordinates.
Context {V : Type} (zero : V).
Implicit Types (t : SparseTensorStorage V).

#[local] Hint Extern 0 (Inhabited V) =>
  exact (value_inhabited zero) : typeclass_instances.

(** The positions of the entries, segment after segment. *)
Lemma segment_positions (Ip : list nat) n :
  Ip !!! 0 = 0 →
  (∀ i j, i ≤ j → j ≤ n → Ip !!! i ≤ Ip !!! j) →
  (λ p : nat * nat, p.2)
  <$> flat_map (λ row, (λ jj, (row, jj))
                       <$> seq (Ip !!! row) (Ip !!! (row + 1) - Ip !!! row))
               (seq 0 n)
  = seq 0 (Ip !!! n).
Proof.
  intros Hfirst Hsorted. rewrite <- flat_map_fmap.
  rewrite (flat_map_ext_in _
             (λ o, seq (Ip !!! o) (Ip !!! (o + 1) - Ip !!! o))); cycle 1.
  { intros o _. rewrite <- list_fmap_compose. apply list_fmap_id. }
  by apply flat_map_segments.
Qed.

Lemma to_coordinates_spec ty t indices0 (values0 : list V) :
  ty_rank ty = 2 → matrix_wf t → num_rows ty t = sizes t !!! 0 →
  length indices0 = num_vals ty t →
  Forall (λ r, length r = 2) indices0 →
  length values0 = num_vals ty t →
  LowerToCoordinatesRewrite zero ty t indices0 values0
  = ((λ e, [e.1.1; e.1.2])
     <$> storage_entries zero (sizes t !!! 0) (pointers t !!! 1)
           (indices t !!! 1) (values t),
     values t).
Proof.
  intros Hrank Hwf Hrows Hl1 Hrow2 Hl2.
  rewrite (num_vals_matrix ty t Hrank Hwf) in Hl1, Hl2.
  pose proof Hwf as [_ _ _ _ Hplen Hfirst Hsorted Hlast Hval _].
  unfold LowerToCoordinatesRewrite. cbv zeta. rewrite Hrank, Hrows.
  change (2 =? 1) with false. change (2 =? 2) with true. cbv iota.
  set (Ip := pointers t !!! 1) in *. set (Ii := indices t !!! 1) in *.
  set (n := sizes t !!! 0) in *.
  set (P := flat_map (λ row, (λ jj, (row, jj))
                             <$> seq (Ip !!! row)
                                     (Ip !!! (row + 1) - Ip !!! row))
                     (seq 0 n)).
  pose proof (segment_positions Ip n Hfirst Hsorted) as Hpos. fold P in Hpos.
  assert (length P = length Ii) as HlenP.
  { by rewrite <- (length_fmap (λ p : nat * nat, p.2) P), Hpos, length_seq. }
  rewrite Hlast, <- HlenP in Hpos.
  (* the two loops as one loop over the positions *)
  transitivity
    (fold_left
       (λ (st : list (list nat) * list V) (p : nat * nat),
          (<[p.2 := [p.1; Ii !!! p.2]]> st.1,
           <[p.2 := values t !!! p.2]> st.2))
       P (indices0, values0)).
  { unfold P. rewrite fold_left_flat_map.
    assert (∀ l (st : list (list nat) * list V),
              Forall (λ r, length r = 2) st.1 →
              Forall (λ r, length r = 2)
                (fold_left
                   (λ (st : list (list nat) * list V) (p : nat * nat),
                      (<[p.2 := [p.1; Ii !!! p.2]]> st.1,
                       <[p.2 := values t !!! p.2]> st.2)) l st).1) as Hkeep.
    { induction l as [|p l IHl]; intros st Hst; [done|]. simpl.
      apply IHl. simpl. apply Forall_insert; [done|done]. }
    assert (∀ rows (st : list (list nat) * list V),
              Forall (λ r, length r = 2) st.1 →
              fold_left
                (λ st row,
                   fold_left
                     (λ (st : list (list nat) * list V) jj,
                        (store2 jj 1 (Ii !!! jj) (store2 jj 0 row st.1),
                         <[jj := values t !!! jj]> st.2))
                     (seq (Ip !!! row) (Ip !!! (row + 1) - Ip !!! row)) st)
                rows st
              = fold_left
                  (λ st row,
                     fold_left
                       (λ (st : list (list nat) * list V) (p : nat * nat),
                          (<[p.2 := [p.1; Ii !!! p.2]]> st.1,
                           <[p.2 := values t !!! p.2]> st.2))
                       ((λ jj, (row, jj))
                        <$> seq (Ip !!! row) (Ip !!! (row + 1) - Ip !!! row))
                       st)
                  rows st) as Hloops.
    { induction rows as [|row rows IHr]; intros st Hst; [done|].
      simpl fold_left at 1 3.
      assert (∀ js (st : list (list nat) * list V),
                Forall (λ r, length r = 2) st.1 →
                fold_left
                  (λ (st : list (list nat) * list V) jj,
                     (store2 jj 1 (Ii !!! jj) (store2 jj 0 row st.1),
                      <[jj := values t !!! jj]> st.2)) js st
                = fold_left
                    (λ (st : list (list nat) * list V) (p : nat * nat),
                       (<[p.2 := [p.1; Ii !!! p.2]]> st.1,
                        <[p.2 := values t !!! p.2]> st.2))
                    ((λ jj, (row, jj)) <$> js) st) as Hinner.
      { induction js as [|jj js IHj]; intros st' Hst'; [done|].
        simpl. rewrite <- IHj; cycle 1.
        { simpl. apply Forall_insert; [done|done]. }
        f_equal. f_equal. unfold store2.
        destruct (decide (jj < length st'.1)) as [Hin|Hout].
        - rewrite list_lookup_total_insert_eq by done.
          rewrite list_insert_insert_eq. f_equal.
          pose proof (Forall_lookup_total_1 _ _ jj Hst' Hin) as Hr.
          simpl in Hr.
          destruct (st'.1 !!! jj) as [|a [|b [|? ?]]]; try done.
        - by rewrite !list_insert_ge by (rewrite ?length_insert; lia). }
      rewrite Hinner by done. apply IHr. rewrite <- Hinner by done.
      rewrite Hinner by done. apply Hkeep. done. }
    by apply Hloops. }
  (* each position is written once *)
  assert (∀ l (st : list (list nat) * list V),
            fold_left
              (λ (st : list (list nat) * list V) (p : nat * nat),
                 (<[p.2 := [p.1; Ii !!! p.2]]> st.1,
                  <[p.2 := values t !!! p.2]> st.2)) l st
            = (fold_left (λ buf (p : nat * nat),
                            <[p.2 := [p.1; Ii !!! p.2]]> buf) l st.1,
               fold_left (λ buf (p : nat * nat),
                            <[p.2 := values t !!! p.2]> buf) l st.2)) as Hsplit.
  { induction l as [|p l IHl]; intros st; [by destruct st|]. simpl.
    by rewrite IHl. }
  rewrite Hsplit. simpl fst. simpl snd.
  rewrite (fold_write_consecutive (λ p : nat * nat, p.2)
             (λ p, [p.1; Ii !!! p.2]) P 0) by (done || lia).
  rewrite (fold_write_consecutive (λ p : nat * nat, p.2)
             (λ p, values t !!! p.2) P 0) by (done || lia).
  rewrite !take_0. simpl app.
  rewrite !drop_ge, !app_nil_r by lia.
  f_equal.
  - unfold storage_entries, P. rewrite <- !flat_map_fmap.
    apply flat_map_ext_in. intros o _. by rewrite <- !list_fmap_compose.
  - etrans; [|apply (storage_entries_values zero n Ip Ii (values t));
                (done || lia)].
    unfold storage_entries, P. rewrite <- !flat_map_fmap.
    apply flat_map_ext_in. intros o _. by rewrite <- !list_fmap_compose.
Qed.

End ToCoordinates.


(** The number of keys below a bound grows with the bound. *)
Lemma count_below_mono (l : list nat) c c' :
  c ≤ c' →
  length (filter (λ k, k < c) l) ≤ length (filter (λ k, k < c') l).
Proof.
  intros Hc. induction l as [|x l IH]; [done|].
  rewrite !filter_cons. repeat case_decide; simpl; lia.
Qed.

Lemma count_below_S (l : list nat) c :
  length (filter (λ k, k < c + 1) l)
  = length (filter (λ k, k < c) l) + length (filter (λ k, k = c) l).
Proof.
  induction l as [|x l IH]; [done|].
  rewrite !filter_cons. repeat case_decide; simpl; lia.
Qed.

Lemma count_below_all (l : list nat) c :
  (∀ k, k ∈ l → k < c) → length (filter (λ k, k < c) l) = length l.
Proof.
  intros Hall. induction l as [|x l IH]; [done|].
  rewrite filter_cons. rewrite decide_True by (apply Hall; left).
  simpl. rewrite IH; [done|]. intros k Hk. apply Hall. by right.
Qed.

Lemma count_below_none (l : list nat) c :
  (∀ k, k ∈ l → c ≤ k) → length (filter (λ k, k < c) l) = 0.
Proof.
  intros Hall. induction l as [|x l IH]; [done|].
  rewrite filter_cons.
  pose proof (Hall x ltac:(left)).
  rewrite decide_False by lia.
  apply IH. intros k Hk. apply Hall. by right.
Qed.

(** In a list in non-decreasing order the keys below a bound are a
    prefix. *)
Lemma sorted_prefix_count (l : list nat) o k :
  (∀ a b, a ≤ b → b < length l → l !!! a ≤ l !!! b) →
  k < length l →
  l !!! k < o ↔ k < length (filter (λ x, x < o) l).
Proof.
  revert k. induction l as [|x l IH]; intros k Hsorted Hk; [simpl in Hk; lia|].
  assert (∀ a b, a ≤ b → b < length l → l !!! a ≤ l !!! b) as Hsorted'.
  { intros a b Hab Hb. apply (Hsorted (S a) (S b)); simpl; lia. }
  rewrite filter_cons. case_decide as Hx.
  - destruct k as [|k]; simpl; [split; [lia|done]|].
    rewrite (IH k Hsorted') by (simpl in Hk; lia). lia.
  - rewrite count_below_none; cycle 1.
    { intros y Hy. apply list_elem_of_lookup_total in Hy as (j & Hj & <-).
      specialize (Hsorted 0 (S j) ltac:(lia) ltac:(simpl; lia)).
      simpl in Hsorted. lia. }
    specialize (Hsorted 0 k ltac:(lia) Hk). simpl in Hsorted. lia.
Qed.

(** The cumulative sum with a loop-carried base. *)
Lemma cumSumLoop_spec npointers (Op : list nat) (S : nat → nat) :
  npointers ≤ length Op → S 0 = 0 →
  (∀ c, c < npointers → S (c + 1) = S c + Op !!! c) →
  length (cumSumLoop npointers Op) = length Op
  ∧ (∀ c, c < npointers → cumSumLoop npointers Op !!! c = S c)
  ∧ (∀ c, npointers ≤ c → cumSumLoop npointers Op !!! c = Op !!! c).
Proof.
  intros Hlen HS0 HS. unfold cumSumLoop.
  assert (∀ k, k ≤ npointers →
            let st := fold_left
                        (λ (st : list nat * nat) pos,
                           (<[pos := st.2]> st.1, st.2 + st.1 !!! pos))
                        (seq 0 k) (Op, 0) in
            length st.1 = length Op ∧ st.2 = S k
            ∧ (∀ c, c < k → st.1 !!! c = S c)
            ∧ (∀ c, k ≤ c → st.1 !!! c = Op !!! c)) as Hinv.
  { induction k as [|k IH]; intros Hk; cbv zeta.
    { simpl. split_and!; [done|done|intros c ?; lia|done]. }
    destruct IH as (IH1 & IH2 & IH3 & IH4); [lia|].
    rewrite fold_left_seq_S.
    set (prev := fold_left _ (seq 0 k) (Op, 0)) in *.
    simpl. split_and!.
    - by rewrite length_insert.
    - rewrite IH2, (IH4 k) by lia. replace (Datatypes.S k) with (k + 1) by lia.
      rewrite HS by lia. done.
    - intros c Hc. destruct (decide (c = k)) as [->|Hne].
      + rewrite list_lookup_total_insert_eq by lia. done.
      + rewrite list_lookup_total_insert_ne by done. apply IH3. lia.
    - intros c Hc. rewrite list_lookup_total_insert_ne by lia.
      apply IH4. lia. }
  destruct (Hinv npointers ltac:(lia)) as (H1 & _ & H3 & H4). done.
Qed.

Lemma fmap_lookup_total_seq_fmap {A B} `{!Inhabited A} (f : A → B)
    (l : list A) :
  (λ pos, f (l !!! pos)) <$> seq 0 (length l) = f <$> l.
Proof.
  pose proof (take_fmap_lookup_total l (length l) ltac:(done)) as Hl.
  rewrite firstn_all in Hl. rewrite Hl at 2.
  by rewrite <- list_fmap_compose.
Qed.

Section FromCoordinatesOp.
Context {V : Type} (zero : V) (lim : VectorLimits).
Implicit Types (t : SparseTensorStorage V).

#[local] Hint Extern 0 (Inhabited V) =>
  exact (value_inhabited zero) : typeclass_instances.

(** The first loop counts the rows and copies the second coordinate
    and the values. *)
Lemma populate_loop_spec (indices0 : list (list nat)) (values0 : list V)
    (Op0 : list nat) :
  length values0 = length indices0 →
  populate_loop zero 2 1 indices0 values0 (length indices0)
    (Op0, replicate (length indices0) 0, replicate (length indices0) zero)
  = (fold_left (λ p c, <[c := p !!! c + 1]> p)
               ((λ r, r !!! 0) <$> indices0) Op0,
     (λ r, r !!! 1) <$> indices0, values0).
Proof.
  intros Hlen. unfold populate_loop. change (2 =? 2) with true. cbv iota zeta.
  assert (∀ l (st : list nat * list nat * list V),
            fold_left
              (λ (st : list nat * list nat * list V) pos,
                 (<[(indices0 !!! pos) !!! 0
                    := st.1.1 !!! ((indices0 !!! pos) !!! 0) + 1]> st.1.1,
                  <[pos := (indices0 !!! pos) !!! 1]> st.1.2,
                  <[pos := values0 !!! pos]> st.2)) l st
            = (fold_left (λ p c, <[c := p !!! c + 1]> p)
                         ((λ pos, (indices0 !!! pos) !!! 0) <$> l) st.1.1,
               fold_left (λ buf pos, <[pos := (indices0 !!! pos) !!! 1]> buf)
                         l st.1.2,
               fold_left (λ buf pos, <[pos := values0 !!! pos]> buf) l st.2))
    as Hsplit.
  { induction l as [|p l IHl]; intros [[a b] c]; [done|]. simpl.
    by rewrite IHl. }
  rewrite Hsplit. simpl fst. simpl snd.
  assert ((λ pos : nat, pos) <$> seq 0 (length indices0)
          = seq 0 (length (seq 0 (length indices0)))) as Hid.
  { rewrite length_seq. apply list_fmap_id. }
  pose proof (fold_write_consecutive (λ pos : nat, pos)
                (λ pos, (indices0 !!! pos) !!! 1) (seq 0 (length indices0)) 0
                (replicate (length indices0) 0) Hid) as Hcols.
  pose proof (fold_write_consecutive (λ pos : nat, pos)
                (λ pos, values0 !!! pos) (seq 0 (length indices0)) 0
                (replicate (length indices0) zero) Hid) as Hvals.
  cbv beta in Hcols, Hvals.
  rewrite Hcols, Hvals by (rewrite length_seq, length_replicate; lia).
  rewrite length_seq.
  rewrite !take_0, !drop_ge, !app_nil_r by (rewrite length_replicate; lia).
  simpl app.
  rewrite (fmap_lookup_total_seq_fmap (λ r, r !!! 0) indices0).
  rewrite (fmap_lookup_total_seq_fmap (λ r, r !!! 1) indices0).
  rewrite <- Hlen.
  rewrite <- (take_fmap_lookup_total values0 (length values0)) by done.
  by rewrite firstn_all.
Qed.

Lemma InitOp_csr ty m n :
  ty_rank ty = 2 → ty_ordering ty = RowMajor →
  matrix_fits lim m n →
  InitOp zero lim ty [m; n]
  = Done (mkStorage [m; n] [0; 1] [0; 0] [[]; [0]] [[]; []] []).
Proof.
  intros Hrank Hord Hfits. unfold InitOp. rewrite Hrank, Hord.
  by apply newSparseTensor_fresh_matrix.
Qed.

Lemma from_coordinates_spec ty m n (indices0 : list (list nat))
    (values0 : list V) :
  ty_rank ty = 2 → ty_ordering ty = RowMajor →
  length values0 = length indices0 →
  (∀ a b, a ≤ b → b < length indices0 →
          (indices0 !!! a) !!! 0 ≤ (indices0 !!! b) !!! 0) →
  (∀ k, k < length indices0 →
        (indices0 !!! k) !!! 0 < m ∧ (indices0 !!! k) !!! 1 < n) →
  from_coordinates_fits lim m n (length indices0) →
  ∃ t, LowerFromCoordinatesRewrite zero lim ty indices0 values0 [m; n]
       = Done t
       ∧ matrix_wf t
       ∧ sizes t = [m; n] ∧ rev t = [0; 1] ∧ idx t = [0; 0]
       ∧ pointers t !!! 0 = [] ∧ indices t !!! 0 = []
       ∧ length (pointers t !!! 1) = m + 1
       ∧ (∀ c, c ≤ m →
            (pointers t !!! 1) !!! c
            = length (filter (λ k, k < c) ((λ r, r !!! 0) <$> indices0)))
       ∧ indices t !!! 1 = (λ r, r !!! 1) <$> indices0
       ∧ values t = values0
       ∧ entries zero ty t
         = (λ k, ((indices0 !!! k) !!! 0, (indices0 !!! k) !!! 1,
                  values0 !!! k))
           <$> seq 0 (length indices0).
Proof.
  intros Hrank Hord Hlen Hsorted Hbound (Hfits & HP & HI & HV).
  unfold LowerFromCoordinatesRewrite. rewrite InitOp_csr by done.
  rewrite Hrank. change (2 =? 1) with false. change (2 =? 2) with true.
  cbv iota zeta. simpl mbind.
  change (([m; n] : list nat) !!! 0) with m.
  rewrite !reserve_fits by lia. simpl mbind.
  set (nnz := length indices0) in *.
  set (rows := (λ r : list nat, r !!! 0) <$> indices0).
  set (cols := (λ r : list nat, r !!! 1) <$> indices0).
  change (pointers
            (resize_values zero nnz
               (resize_index 1 nnz
                  (resize_pointers 1 (m + 1)
                     (mkStorage [m; n] [0; 1] [0; 0] [[]; [0]] [[]; []] []))))
          !!! 1) with (resize (m + 1) 0 [0]).
  change (indices
            (resize_values zero nnz
               (resize_index 1 nnz
                  (resize_pointers 1 (m + 1)
                     (mkStorage [m; n] [0; 1] [0; 0] [[]; [0]] [[]; []] []))))
          !!! 1) with (resize nnz 0 ([] : list nat)).
  change (values
            (resize_values zero nnz
               (resize_index 1 nnz
                  (resize_pointers 1 (m + 1)
                     (mkStorage [m; n] [0; 1] [0; 0] [[]; [0]] [[]; []] [])))))
    with (resize nnz zero ([] : list V)).
  rewrite !resize_nil.
  change [0] with (replicate 1 0). rewrite resize_replicate.
  rewrite populate_loop_spec by done. fold rows cols. simpl fst. simpl snd.
  (* the counts *)
  assert (∀ k, k ∈ rows → k < m) as Hrows.
  { intros k Hk. apply list_elem_of_lookup_total in Hk as (j & Hj & <-).
    unfold rows in *. rewrite length_fmap in Hj.
    rewrite (list_lookup_total_fmap (λ r : list nat, r !!! 0)) by done.
    by apply Hbound. }
  destruct (count_keys_spec rows (replicate (m + 1) 0)) as [Hcl Hcount].
  { intros k Hk. rewrite length_replicate. specialize (Hrows k Hk). lia. }
  rewrite length_replicate in Hcl.
  set (Op1 := fold_left (λ p c, <[c := p !!! c + 1]> p) rows
                        (replicate (m + 1) 0)) in *.
  destruct (cumSumLoop_spec m Op1 (λ c, length (filter (λ k, k < c) rows)))
    as (Hl2 & Hlow & Hhigh); [lia| | |].
  { apply count_below_none. intros k _. lia. }
  { intros c Hc. rewrite count_below_S, Hcount.
    by rewrite lookup_total_replicate_2 by lia. }
  set (Op2 := cumSumLoop m Op1) in *.
  assert (∀ c, c ≤ m →
            <[m := nnz]> Op2 !!! c = length (filter (λ k, k < c) rows))
    as Hptr.
  { intros c Hc. destruct (decide (c = m)) as [->|Hne].
    - rewrite list_lookup_total_insert_eq by lia.
      rewrite count_below_all by done. unfold rows. by rewrite length_fmap.
    - rewrite list_lookup_total_insert_ne by done. apply Hlow. lia. }
  set (Op3 := <[m := nnz]> Op2) in *.
  assert (length Op3 = m + 1) as Hl3 by (unfold Op3; rewrite length_insert; lia).
  eexists. split; [done|]. simpl.
  change (([[]; Op3] : list (list nat)) !!! 1) with Op3.
  change (([[]; cols] : list (list nat)) !!! 1) with cols.
  assert (length cols = nnz) as Hlc by (unfold cols; by rewrite length_fmap).
  assert (length rows = nnz) as Hlr by (unfold rows; by rewrite length_fmap).
  split_and!; try done.
  - split; simpl; try done.
    + rewrite Hptr by lia. apply count_below_none. intros k _. lia.
    + change (([[]; Op3] : list (list nat)) !!! 1) with Op3.
      intros i j Hij Hj. rewrite !Hptr by lia. by apply count_below_mono.
    + change (([[]; Op3] : list (list nat)) !!! 1) with Op3.
      change (([[]; cols] : list (list nat)) !!! 1) with cols.
      rewrite Hptr by lia. rewrite count_below_all by done. lia.
    + change (([[]; cols] : list (list nat)) !!! 1) with cols. lia.
    + change (([[]; cols] : list (list nat)) !!! 1) with cols.
      intros j Hj. unfold cols.
      rewrite (list_lookup_total_fmap (λ r : list nat, r !!! 1)) by lia.
      apply Hbound. lia.
  - unfold entries. simpl.
    change (([[]; Op3] : list (list nat)) !!! 1) with Op3.
    change (([[]; cols] : list (list nat)) !!! 1) with cols.
    rewrite (list_fmap_ext (logical_entry ty) id); cycle 1.
    { intros k e _. unfold logical_entry. by rewrite Hord. }
    rewrite list_fmap_id. unfold storage_entries.
    rewrite (flat_map_ext_in _
               (λ o, (λ jj, ((indices0 !!! jj) !!! 0, (indices0 !!! jj) !!! 1,
                             values0 !!! jj))
                     <$> seq (Op3 !!! o) (Op3 !!! (o + 1) - Op3 !!! o)));
      cycle 1.
    { intros o Ho. apply elem_of_seq in Ho.
      apply list_fmap_ext. intros i jj Hjj.
      apply list_elem_of_lookup_2, elem_of_seq in Hjj.
      rewrite !Hptr in Hjj by lia.
      pose proof (count_below_mono rows (o + 1) m ltac:(lia)) as Hmono.
      rewrite (count_below_all rows m) in Hmono by done.
      assert (jj < nnz) as Hjn by lia.
      assert (rows !!! jj = o) as Hrow.
      { pose proof (sorted_prefix_count rows o jj) as H1.
        pose proof (sorted_prefix_count rows (o + 1) jj) as H2.
        assert (∀ a b, a ≤ b → b < length rows → rows !!! a ≤ rows !!! b)
          as Hs'.
        { intros a b Hab Hb. rewrite Hlr in Hb. unfold rows.
          rewrite !(list_lookup_total_fmap (λ r : list nat, r !!! 0))
            by (fold nnz; lia).
          by apply Hsorted. }
        specialize (H1 Hs' ltac:(lia)). specialize (H2 Hs' ltac:(lia)). lia. }
      unfold rows, cols in *.
      rewrite (list_lookup_total_fmap (λ r : list nat, r !!! 0)) in Hrow
        by (fold nnz; lia).
      rewrite (list_lookup_total_fmap (λ r : list nat, r !!! 1))
        by (fold nnz; lia).
      by rewrite Hrow. }
    rewrite flat_map_fmap, flat_map_segments; cycle 1.
    { rewrite Hptr by lia. apply count_below_none. intros k _. lia. }
    { intros i j Hij Hj. rewrite !Hptr by lia. by apply count_below_mono. }
    rewrite Hptr by lia. rewrite count_below_all by done. by rewrite Hlr.
Qed.


(** [from_coordinates] for a CSR result: for coordinates that are in
    bounds and ordered by row (the order the lowering assumes), and
    sizes within the limits of the vectors, the result is a
    well-formed matrix of the given shape whose entries are the given
    coordinates with their values, in the given order. *)
Theorem from_coordinates_entries ty m n (indices0 : list (list nat))
    (values0 : list V) :
  ty_rank ty = 2 → ty_ordering ty = RowMajor →
  length values0 = length indices0 →
  (∀ a b, a ≤ b → b < length indices0 →
          (indices0 !!! a) !!! 0 ≤ (indices0 !!! b) !!! 0) →
  (∀ k, k < length indices0 →
        (indices0 !!! k) !!! 0 < m ∧ (indices0 !!! k) !!! 1 < n) →
  from_coordinates_fits lim m n (length indices0) →
  ∃ t, LowerFromCoordinatesRewrite zero lim ty indices0 values0 [m; n]
       = Done t
       ∧ matrix_wf t ∧ num_rows ty t = m ∧ num_cols ty t = n
       ∧ entries zero ty t
         = (λ k, ((indices0 !!! k) !!! 0, (indices0 !!! k) !!! 1,
                  values0 !!! k))
           <$> seq 0 (length indices0).
Proof.
  intros Hrank Hord Hlen Hsorted Hbound Hfits.
  destruct (from_coordinates_spec ty m n indices0 values0)
    as (t & Ht & Hwf & Hsz & _ & _ & _ & _ & _ & _ & _ & _ & Hent); try done.
  exists t. split_and!; try done.
  - unfold num_rows, tensor_dim. by rewrite Hord, Hsz.
  - unfold num_cols, tensor_dim. by rewrite Hord, Hsz.
Qed.

(** For a CSR result: if moreover the coordinates are strictly
    increasing in lexicographic order (no duplicates) and the shape has
    positive extents whose product fits 64 bits, the tensor that
    [from_coordinates] builds passes [verify]. *)
Theorem from_coordinates_op_verifies ty m n (indices0 : list (list nat))
    (values0 : list V) :
  ty_rank ty = 2 → ty_ordering ty = RowMajor →
  length values0 = length indices0 →
  0 < m → 0 < n → (Z.of_nat m * Z.of_nat n < 2 ^ 64 - 1)%Z →
  (∀ a b, a < b → b < length indices0 →
          (indices0 !!! a) !!! 0 < (indices0 !!! b) !!! 0
          ∨ (indices0 !!! a) !!! 0 = (indices0 !!! b) !!! 0
            ∧ (indices0 !!! a) !!! 1 < (indices0 !!! b) !!! 1) →
  (∀ k, k < length indices0 →
        (indices0 !!! k) !!! 0 < m ∧ (indices0 !!! k) !!! 1 < n) →
  from_coordinates_fits lim m n (length indices0) →
  ∃ t, LowerFromCoordinatesRewrite zero lim ty indices0 values0 [m; n]
       = Done t
       ∧ verify t = true.
Proof.
  intros Hrank Hord Hlen Hm Hn Hprod Hlex Hbound Hfits.
  assert (∀ a b, a ≤ b → b < length indices0 →
            (indices0 !!! a) !!! 0 ≤ (indices0 !!! b) !!! 0) as Hsorted.
  { intros a b Hab Hb. destruct (decide (a = b)) as [->|Hne]; [done|].
    destruct (Hlex a b ltac:(lia) Hb) as [?|[? _]]; lia. }
  destruct (from_coordinates_spec ty m n indices0 values0)
    as (t & Ht & Hwf & Hsz & Hrev & _ & Hp0 & Hi0 & Hpl & Hptr & Hcols & _ & _);
    try done.
  exists t. split; [done|].
  apply verify_matrix_iff.
  - by rewrite Hsz.
  - unfold isCompressedDim. by rewrite Hp0.
  - unfold isCompressedDim. rewrite Hpl.
    apply negb_true_iff, Nat.eqb_neq. lia.
  - by rewrite Hsz.
  - rewrite Hsz, Hrev. split_and!; [by left|done|done|done|done|].
    intros o p q Ho Hp1 Hpq Hq. rewrite Hsz in Ho. simpl in Ho.
    rewrite !Hptr in Hp1, Hq by lia.
    set (rows := (λ r : list nat, r !!! 0) <$> indices0) in *.
    assert (length rows = length indices0) as Hlr
      by (unfold rows; by rewrite length_fmap).
    assert (∀ a b, a ≤ b → b < length rows → rows !!! a ≤ rows !!! b) as Hs'.
    { intros a b Hab Hb. rewrite Hlr in Hb. unfold rows.
      rewrite !(list_lookup_total_fmap (λ r : list nat, r !!! 0)) by lia.
      by apply Hsorted. }
    pose proof (length_filter (λ k, k < o + 1) rows) as Hle.
    assert (q < length rows) as Hql by lia.
    assert (rows !!! p = o ∧ rows !!! q = o) as [Hrp Hrq].
    { pose proof (sorted_prefix_count rows o p Hs' ltac:(lia)).
      pose proof (sorted_prefix_count rows (o + 1) p Hs' ltac:(lia)).
      pose proof (sorted_prefix_count rows o q Hs' ltac:(lia)).
      pose proof (sorted_prefix_count rows (o + 1) q Hs' ltac:(lia)).
      lia. }
    unfold rows in Hrp, Hrq.
    rewrite !(list_lookup_total_fmap (λ r : list nat, r !!! 0)) in Hrp, Hrq
      by lia.
    rewrite Hcols.
    rewrite !(list_lookup_total_fmap (λ r : list nat, r !!! 1)) by lia.
    destruct (Hlex p q Hpq ltac:(lia)) as [?|[_ ?]]; [lia|done].
Qed.

End FromCoordinatesOp.


Lemma StronglySorted_le_lookup_total (l : list nat) a b :
  StronglySorted le l → a ≤ b → b < length l → l !!! a ≤ l !!! b.
Proof.
  intros Hs. revert a b. induction Hs as [|x l Hl IH Hx]; intros a b Hab Hb;
    [simpl in Hb; lia|].
  destruct a as [|a], b as [|b]; simpl in *; try lia.
  - rewrite Forall_forall in Hx. apply Hx.
    apply list_elem_of_lookup_total. exists b. split; [lia|done].
  - apply IH; lia.
Qed.

Section StorageRows.
Context {V : Type} (zero : V).

#[local] Hint Extern 0 (Inhabited V) =>
  exact (value_inhabited zero) : typeclass_instances.

(** The outer coordinates of the entries in storage order. *)
Lemma storage_entries_rows nouter Ap Aj (Ax : list V) :
  (λ e, e.1.1) <$> storage_entries zero nouter Ap Aj Ax
  = flat_map (λ o, replicate (Ap !!! (o + 1) - Ap !!! o) o) (seq 0 nouter).
Proof.
  unfold storage_entries. rewrite <- flat_map_fmap.
  apply flat_map_ext_in. intros o _. rewrite <- list_fmap_compose.
  generalize (Ap !!! o) (Ap !!! (o + 1) - Ap !!! o). intros a d.
  revert a. induction d as [|d IH]; intros a; [done|]. simpl. by rewrite IH.
Qed.

Lemma elem_of_rows (d : nat → nat) a k x :
  x ∈ flat_map (λ o, replicate (d o) o) (seq a k) → a ≤ x < a + k.
Proof.
  intros Hx. apply list_elem_of_In, in_flat_map in Hx as (o & Ho & Hx).
  apply in_seq in Ho. apply list_elem_of_In, elem_of_replicate in Hx as [-> _].
  lia.
Qed.

Lemma rows_sorted (d : nat → nat) a k :
  StronglySorted le (flat_map (λ o, replicate (d o) o) (seq a k)).
Proof.
  revert a. induction k as [|k IH]; intros a; [constructor|].
  simpl. apply StronglySorted_app_2; [| |apply IH].
  - intros x y Hx Hy. apply elem_of_replicate in Hx as [-> _].
    apply elem_of_rows in Hy. lia.
  - generalize (d a). intros c. induction c as [|c IHc]; [constructor|].
    simpl. constructor; [done|]. apply Forall_forall.
    intros y Hy. apply elem_of_replicate in Hy as [-> _]. done.
Qed.

Lemma rows_count_below (Ap : list nat) m c :
  (∀ i j, i ≤ j → j ≤ m → Ap !!! i ≤ Ap !!! j) → c ≤ m →
  length (filter (λ k, k < c)
            (flat_map (λ o, replicate (Ap !!! (o + 1) - Ap !!! o) o)
                      (seq 0 m)))
  = Ap !!! c - Ap !!! 0.
Proof.
  intros Hsorted Hc. replace m with (c + (m - c)) at 1 by lia.
  rewrite seq_app, flat_map_app, filter_app, length_app.
  rewrite count_below_all; cycle 1.
  { intros k Hk. apply elem_of_rows in Hk. lia. }
  rewrite count_below_none; cycle 1.
  { intros k Hk. apply elem_of_rows in Hk. lia. }
  rewrite Nat.add_0_r.
  induction c as [|c IH]; [simpl; lia|].
  rewrite seq_S, flat_map_app, length_app, IH by lia. simpl.
  rewrite app_nil_r, length_replicate.
  replace (c + 1) with (S c) by lia.
  pose proof (Hsorted 0 c ltac:(lia) ltac:(lia)).
  pose proof (Hsorted c (S c) ltac:(lia) ltac:(lia)). lia.
Qed.

End StorageRows.

Section CoordinateRoundTrip.
Context {V : Type} (zero : V) (lim : VectorLimits).
Implicit Types (t : SparseTensorStorage V).

#[local] Hint Extern 0 (Inhabited V) =>
  exact (value_inhabited zero) : typeclass_instances.

(** [to_coordinates] on a well-formed matrix whose outer storage extent
    is its number of rows, with freshly allocated buffers of the right
    shape: the values come out in storage order, and the coordinates of
    each entry come out as (row, column) for a row-wise matrix and as
    (column, row) for a column-wise one. *)
Theorem to_coordinates_entries ty t (indices0 : list (list nat))
    (values0 : list V) :
  ty_rank ty = 2 → matrix_wf t → num_rows ty t = sizes t !!! 0 →
  length indices0 = num_vals ty t →
  Forall (λ r, length r = 2) indices0 →
  length values0 = num_vals ty t →
  LowerToCoordinatesRewrite zero ty t indices0 values0
  = ((λ e, if hasRowOrdering ty then [e.1.1; e.1.2] else [e.1.2; e.1.1])
     <$> entries zero ty t,
     (λ e, e.2) <$> entries zero ty t).
Proof.
  intros Hrank Hwf Hrows Hl1 Hr2 Hl2.
  rewrite to_coordinates_spec by done.
  pose proof Hwf as [_ _ _ _ _ Hfirst Hsorted Hlast Hval _].
  unfold entries. rewrite <- !list_fmap_compose. f_equal.
  - apply list_fmap_ext. intros k [[o c] v] _.
    unfold hasRowOrdering, logical_entry. simpl.
    by destruct (ty_ordering ty).
  - rewrite (list_fmap_ext _ (λ e, e.2) (storage_entries _ _ _ _ _)); cycle 1.
    { intros k [[o c] v] _. unfold logical_entry. simpl.
      by destruct (ty_ordering ty). }
    symmetry. apply storage_entries_values; (done || lia).
Qed.

(** Coordinates to matrix to coordinates: [to_coordinates] gives back
    the coordinates and values from which [from_coordinates] built a CSR
    matrix (from sizes within the limits of the vectors). *)
Theorem to_from_coordinates ty m n (indices0 : list (list nat))
    (values0 : list V) (indices1 : list (list nat)) (values1 : list V) :
  ty_rank ty = 2 → ty_ordering ty = RowMajor →
  Forall (λ r, length r = 2) indices0 →
  length values0 = length indices0 →
  (∀ a b, a ≤ b → b < length indices0 →
          (indices0 !!! a) !!! 0 ≤ (indices0 !!! b) !!! 0) →
  (∀ k, k < length indices0 →
        (indices0 !!! k) !!! 0 < m ∧ (indices0 !!! k) !!! 1 < n) →
  from_coordinates_fits lim m n (length indices0) →
  length indices1 = length indices0 →
  Forall (λ r, length r = 2) indices1 →
  length values1 = length indices0 →
  ∃ t, LowerFromCoordinatesRewrite zero lim ty indices0 values0 [m; n]
       = Done t
       ∧ LowerToCoordinatesRewrite zero ty t indices1 values1
         = (indices0, values0).
Proof.
  intros Hrank Hord Hr2 Hlen Hsorted Hbound Hfits Hl1 Hr1 Hlv1.
  destruct (from_coordinates_spec zero lim ty m n indices0 values0)
    as (t & Ht & Hwf & Hsz & _ & _ & _ & _ & _ & _ & Hcols & Hvals & Hent);
    try done.
  exists t. split; [done|].
  assert (num_vals ty t = length indices0) as Hnv.
  { rewrite (num_vals_matrix ty t Hrank Hwf), Hcols. by rewrite length_fmap. }
  rewrite to_coordinates_spec; try done; try lia; cycle 1.
  { unfold num_rows, tensor_dim. by rewrite Hord. }
  f_equal; [|done].
  assert (storage_entries zero (sizes t !!! 0) (pointers t !!! 1)
            (indices t !!! 1) (values t) = entries zero ty t) as ->.
  { unfold entries. rewrite (list_fmap_ext (logical_entry ty) id).
    - by rewrite list_fmap_id.
    - intros k e _. unfold logical_entry. by rewrite Hord. }
  rewrite Hent, <- list_fmap_compose.
  transitivity ((λ pos, indices0 !!! pos) <$> seq 0 (length indices0)).
  - apply list_fmap_ext. intros i k Hk.
    apply list_elem_of_lookup_2, elem_of_seq in Hk. simpl.
    pose proof (Forall_lookup_total_1 _ _ k Hr2 ltac:(lia)) as Hrow.
    simpl in Hrow. by destruct (indices0 !!! k) as [|a [|b [|? ?]]].
  - rewrite <- (take_fmap_lookup_total indices0 (length indices0)) by done.
    apply firstn_all.
Qed.

(** Matrix to coordinates to matrix: [from_coordinates] rebuilds a CSR
    matrix from what [to_coordinates] returned for it; only the
    insertion cursor is reset.  The sizes of the matrix are within
    the limits of the vectors. *)
Theorem from_to_coordinates ty t (indices1 : list (list nat))
    (values1 : list V) :
  ty_rank ty = 2 → ty_ordering ty = RowMajor → matrix_wf t →
  rev t = [0; 1] → pointers t !!! 0 = [] → indices t !!! 0 = [] →
  from_coordinates_fits lim (sizes t !!! 0) (sizes t !!! 1) (num_vals ty t) →
  length indices1 = num_vals ty t →
  Forall (λ r, length r = 2) indices1 →
  length values1 = num_vals ty t →
  let coo := LowerToCoordinatesRewrite zero ty t indices1 values1 in
  LowerFromCoordinatesRewrite zero lim ty coo.1 coo.2 (sizes t)
  = Done (set_idx [0; 0] t).
Proof.
  intros Hrank Hord Hwf Hrev Hp0 Hi0 Hfits Hl1 Hr1 Hlv1. cbv zeta.
  rewrite (num_vals_matrix ty t Hrank Hwf) in Hfits.
  rewrite to_coordinates_spec; try done; cycle 1.
  { unfold num_rows, tensor_dim. by rewrite Hord. }
  simpl fst. simpl snd.
  pose proof Hwf as [Hs Hr Hp Hi Hpl Hfirst Hsorted Hlast Hval Hb].
  set (SE := storage_entries zero (sizes t !!! 0) (pointers t !!! 1)
               (indices t !!! 1) (values t)).
  assert ((λ r : list nat, r !!! 0) <$> ((λ e : nat * nat * V, [e.1.1; e.1.2])
                                         <$> SE)
          = flat_map (λ o, replicate ((pointers t !!! 1) !!! (o + 1)
                                      - (pointers t !!! 1) !!! o) o)
                     (seq 0 (sizes t !!! 0))) as Hrowlist.
  { rewrite <- list_fmap_compose. apply storage_entries_rows. }
  assert ((λ r : list nat, r !!! 1) <$> ((λ e : nat * nat * V, [e.1.1; e.1.2])
                                         <$> SE)
          = indices t !!! 1) as Hcollist.
  { rewrite <- list_fmap_compose. by apply storage_entries_keys. }
  assert (length SE = length (indices t !!! 1)) as HlSE.
  { rewrite <- Hcollist. by rewrite !length_fmap. }
  destruct (sizes t) as [|m [|n [|? ?]]] eqn:Hsz; try done.
  change (([m; n] : list nat) !!! 0) with m in *.
  change (([m; n] : list nat) !!! 1) with n in *.
  destruct (from_coordinates_spec zero lim ty m n
              ((λ e : nat * nat * V, [e.1.1; e.1.2]) <$> SE) (values t))
    as (t' & Ht' & Hwf' & Hsz' & Hrev' & Hidx' & Hp0' & Hi0' & Hpl' & Hptr'
        & Hcols' & Hvals' & _); try done.
  { rewrite length_fmap. lia. }
  { intros a b Hab Hb'. rewrite length_fmap in Hb'.
    pose proof (StronglySorted_le_lookup_total _ a b
                  (rows_sorted (λ o, (pointers t !!! 1) !!! (o + 1)
                                     - (pointers t !!! 1) !!! o) 0 m)
                  Hab) as Hle.
    cbv beta in Hle. rewrite <- Hrowlist in Hle.
    rewrite !(list_lookup_total_fmap (λ r : list nat, r !!! 0)) in Hle
      by (rewrite length_fmap; lia).
    apply Hle. rewrite !length_fmap. lia. }
  { intros k Hk. rewrite length_fmap in Hk.
    rewrite (list_lookup_total_fmap (λ e : nat * nat * V, [e.1.1; e.1.2]))
      by lia.
    simpl.
    destruct (storage_entries_bounds zero m n (pointers t !!! 1)
                (indices t !!! 1) (values t) (SE !!! k)) as [? ?];
      try done.
    apply list_elem_of_lookup_total_2. exact Hk. }
  { by rewrite length_fmap, HlSE. }
  rewrite Ht'. f_equal.
  rewrite Hrowlist in Hptr'. rewrite Hcollist in Hcols'.
  assert (pointers t' !!! 1 = pointers t !!! 1) as Hptr.
  { apply list_eq_same_length with (m + 1); [done|lia|].
    intros c x y Hc Hx Hy.
    apply list_lookup_total_correct in Hx, Hy.
    rewrite <- Hx, <- Hy, Hptr' by lia.
    rewrite rows_count_below by (done || lia). rewrite Hfirst. lia. }
  pose proof (mw_pointers _ Hwf') as Hlp'.
  pose proof (mw_indices _ Hwf') as Hli'.
  clear - Hsz Hsz' Hrev Hrev' Hidx' Hp0 Hp0' Hi0 Hi0' Hptr Hcols' Hvals'
          Hlp' Hli' Hp Hi.
  destruct t as [sz rv ix ptrs inds vals], t' as [sz' rv' ix' ptrs' inds' vals'].
  simpl in *. subst.
  destruct ptrs as [|P0 [|Ap [|? ?]]]; try done.
  destruct inds as [|I0 [|Aj [|? ?]]]; try done.
  destruct ptrs' as [|P0' [|Ap' [|? ?]]]; try done.
  destruct inds' as [|I0' [|Aj' [|? ?]]]; try done.
  simpl in *. by subst.
Qed.

End CoordinateRoundTrip.

(** The 2 x 4 matrix [a_csr] written into buffers that held 9s. *)
Lemma to_coordinates_entries_witness :
  LowerToCoordinatesRewrite 0%Z CSR a_csr [[9; 9]; [9; 9]; [9; 9]]
    [0%Z; 0%Z; 0%Z]
  = ((λ e, [e.1.1; e.1.2]) <$> entries 0%Z CSR a_csr,
     (λ e, e.2) <$> entries 0%Z CSR a_csr).
Proof.
  apply (to_coordinates_entries 0%Z CSR a_csr);
    [reflexivity|apply a_csr_wf|reflexivity|reflexivity| |reflexivity].
  repeat constructor.
Defined.

(** Three entries of a 2 x 3 matrix, ordered by row. *)
Lemma from_coordinates_entries_witness :
  ∃ t, LowerFromCoordinatesRewrite 0%Z limits_64 CSR [[0; 1]; [0; 2]; [1; 0]]
         [5%Z; 6%Z; 7%Z] [2; 3] = Done t
       ∧ matrix_wf t ∧ num_rows CSR t = 2 ∧ num_cols CSR t = 3
       ∧ entries 0%Z CSR t = [(0, 1, 5%Z); (0, 2, 6%Z); (1, 0, 7%Z)].
Proof.
  apply (from_coordinates_entries 0%Z limits_64 CSR 2 3
           [[0; 1]; [0; 2]; [1; 0]] [5%Z; 6%Z; 7%Z]);
    [reflexivity|reflexivity|reflexivity| | |].
  - intros a b Hab Hb. simpl in Hb.
    destruct a as [|[|[|?]]], b as [|[|[|?]]]; simpl; lia.
  - intros k Hk. simpl in Hk. destruct k as [|[|[|?]]]; simpl; lia.
  - unfold from_coordinates_fits, matrix_fits; simpl; lia.
Defined.

(** The same three entries: they are in strict lexicographic order. *)
Lemma from_coordinates_op_verifies_witness :
  ∃ t, LowerFromCoordinatesRewrite 0%Z limits_64 CSR [[0; 1]; [0; 2]; [1; 0]]
         [5%Z; 6%Z; 7%Z] [2; 3] = Done t
       ∧ verify t = true.
Proof.
  apply (from_coordinates_op_verifies 0%Z limits_64 CSR 2 3
           [[0; 1]; [0; 2]; [1; 0]] [5%Z; 6%Z; 7%Z]);
    [reflexivity|reflexivity|reflexivity|lia|lia|lia| | |].
  - intros a b Hab Hb. simpl in Hb.
    destruct a as [|[|[|?]]], b as [|[|[|?]]]; simpl; lia.
  - intros k Hk. simpl in Hk. destruct k as [|[|[|?]]]; simpl; lia.
  - unfold from_coordinates_fits, matrix_fits; simpl; lia.
Defined.

(** Three entries into a matrix and out again. *)
Lemma to_from_coordinates_witness :
  ∃ t, LowerFromCoordinatesRewrite 0%Z limits_64 CSR [[0; 1]; [0; 2]; [1; 0]]
         [5%Z; 6%Z; 7%Z] [2; 3] = Done t
       ∧ LowerToCoordinatesRewrite 0%Z CSR t [[9; 9]; [9; 9]; [9; 9]]
           [0%Z; 0%Z; 0%Z]
         = ([[0; 1]; [0; 2]; [1; 0]], [5%Z; 6%Z; 7%Z]).
Proof.
  apply (to_from_coordinates 0%Z limits_64 CSR 2 3 [[0; 1]; [0; 2]; [1; 0]]
           [5%Z; 6%Z; 7%Z] [[9; 9]; [9; 9]; [9; 9]] [0%Z; 0%Z; 0%Z]);
    [reflexivity|reflexivity|repeat constructor|reflexivity| | |
    |reflexivity|repeat constructor|reflexivity].
  - intros a b Hab Hb. simpl in Hb.
    destruct a as [|[|[|?]]], b as [|[|[|?]]]; simpl; lia.
  - intros k Hk. simpl in Hk. destruct k as [|[|[|?]]]; simpl; lia.
  - unfold from_coordinates_fits, matrix_fits; simpl; lia.
Defined.

(** The matrix [a_csr] out into coordinates and in again. *)
Lemma from_to_coordinates_witness :
  let coo := LowerToCoordinatesRewrite 0%Z CSR a_csr
               [[9; 9]; [9; 9]; [9; 9]] [0%Z; 0%Z; 0%Z] in
  LowerFromCoordinatesRewrite 0%Z limits_64 CSR coo.1 coo.2 (sizes a_csr)
  = Done (set_idx [0; 0] a_csr).
Proof.
  apply (from_to_coordinates 0%Z limits_64 CSR a_csr [[9; 9]; [9; 9]; [9; 9]]
           [0%Z; 0%Z; 0%Z]);
    [reflexivity|reflexivity|apply a_csr_wf|reflexivity|reflexivity
    |reflexivity| |reflexivity|repeat constructor|reflexivity].
  unfold from_coordinates_fits, matrix_fits. vm_compute.
  repeat split; discriminate.
Defined.


(** ** Elementwise application *)

Section Apply.
Context {V : Type} (zero : V).
Implicit Types (t : SparseTensorStorage V).

#[local] Hint Extern 0 (Inhabited V) =>
  exact (value_inhabited zero) : typeclass_instances.

(** Replacing the value buffer by its image replaces the value of
    every entry by its image. *)
Lemma storage_entries_fmap_values (f : V → V) nouter Ap Aj (Ax : list V) :
  (∀ i j, i ≤ j → j ≤ nouter → Ap !!! i ≤ Ap !!! j) →
  Ap !!! nouter = length Ax →
  storage_entries zero nouter Ap Aj (f <$> Ax)
  = (λ e, (e.1.1, e.1.2, f e.2)) <$> storage_entries zero nouter Ap Aj Ax.
Proof.
  intros Hsorted Hlast. unfold storage_entries. rewrite <- flat_map_fmap.
  apply flat_map_ext_in. intros o Ho. apply elem_of_seq in Ho.
  rewrite <- list_fmap_compose. apply list_fmap_ext. intros i jj Hjj.
  apply list_elem_of_lookup_2, elem_of_seq in Hjj. simpl.
  pose proof (Hsorted o (o + 1) ltac:(lia) ltac:(lia)).
  pose proof (Hsorted (o + 1) nouter ltac:(lia) ltac:(lia)).
  by rewrite (list_lookup_total_fmap f Ax) by lia.
Qed.

Lemma apply_generic_spec (f : V → V) ty t :
  ty_rank ty = 2 → matrix_wf t →
  LowerApplyGenericRewrite zero f ty t
  = set_values (f <$> values t) (dup t).
Proof.
  intros Hrank Hwf. unfold LowerApplyGenericRewrite. cbv zeta.
  rewrite (num_vals_matrix ty t Hrank Hwf), <- (mw_values _ Hwf).
  f_equal. simpl values.
  assert ((λ pos : nat, pos) <$> seq 0 (length (values t))
          = seq 0 (length (seq 0 (length (values t))))) as Hid.
  { rewrite length_seq. apply list_fmap_id. }
  pose proof (fold_write_consecutive (λ pos : nat, pos)
                (λ pos, f (values t !!! pos)) (seq 0 (length (values t))) 0
                (values t) Hid) as Hw.
  cbv beta in Hw. rewrite Hw by (rewrite length_seq; lia).
  rewrite length_seq, take_0, drop_ge, app_nil_r by lia. simpl.
  apply fmap_lookup_total_seq_fmap.
Qed.

(** [apply_generic] with a one-argument block on a well-formed matrix:
    the result stores the entries of the input with the block applied
    to every value; shape, pointers and indices are those of the input,
    so the result is again well formed. *)
Theorem apply_generic_maps_values (f : V → V) ty t :
  ty_rank ty = 2 → matrix_wf t →
  let t' := LowerApplyGenericRewrite zero f ty t in
  entries zero ty t'
  = (λ e, (e.1.1, e.1.2, f e.2)) <$> entries zero ty t
  ∧ matrix_wf t'
  ∧ sizes t' = sizes t ∧ rev t' = rev t
  ∧ pointers t' = pointers t ∧ indices t' = indices t.
Proof.
  intros Hrank Hwf. cbv zeta. rewrite apply_generic_spec by done.
  pose proof Hwf as [Hs Hr Hp Hi Hpl Hfirst Hsorted Hlast Hval Hb].
  split_and!; try done.
  - unfold entries. simpl.
    rewrite storage_entries_fmap_values by (done || lia).
    rewrite <- !list_fmap_compose. apply list_fmap_ext.
    intros k [[o c] v] _. unfold logical_entry. simpl.
    by destruct (ty_ordering ty).
  - split; simpl; try done. by rewrite length_fmap.
Qed.

(** Two [apply_generic] ops in a row build the same storage object as
    one with the composed block. *)
Theorem apply_generic_compose (f g : V → V) ty t :
  ty_rank ty = 2 → matrix_wf t →
  LowerApplyGenericRewrite zero g ty (LowerApplyGenericRewrite zero f ty t)
  = LowerApplyGenericRewrite zero (λ v, g (f v)) ty t.
Proof.
  intros Hrank Hwf.
  rewrite (apply_generic_spec f ty t Hrank Hwf).
  rewrite (apply_generic_spec (λ v, g (f v)) ty t Hrank Hwf).
  rewrite apply_generic_spec; [|done|].
  - unfold set_values, dup. simpl. by rewrite <- list_fmap_compose.
  - destruct Hwf. split; simpl; try done. by rewrite length_fmap.
Qed.

End Apply.

(** Doubling the values of a 2 x 4 matrix. *)
Lemma apply_generic_maps_values_witness :
  let t' := LowerApplyGenericRewrite 0%Z (λ v, (2 * v)%Z) CSR a_csr in
  entries 0%Z CSR t'
  = (λ e, (e.1.1, e.1.2, (2 * e.2)%Z)) <$> entries 0%Z CSR a_csr
  ∧ matrix_wf t'
  ∧ sizes t' = sizes a_csr ∧ rev t' = rev a_csr
  ∧ pointers t' = pointers a_csr ∧ indices t' = indices a_csr.
Proof.
  apply (apply_generic_maps_values 0%Z (λ v, (2 * v)%Z) CSR a_csr);
    [reflexivity|apply a_csr_wf].
Defined.

(** Doubling, then adding one. *)
Lemma apply_generic_compose_witness :
  LowerApplyGenericRewrite 0%Z (λ v, (v + 1)%Z) CSR
    (LowerApplyGenericRewrite 0%Z (λ v, (2 * v)%Z) CSR a_csr)
  = LowerApplyGenericRewrite 0%Z (λ v, (2 * v + 1)%Z) CSR a_csr.
Proof.
  apply (apply_generic_compose 0%Z (λ v, (2 * v)%Z) (λ v, (v + 1)%Z) CSR
           a_csr); [reflexivity|apply a_csr_wf].
Defined.


(** ** Update *)

Section Update.
Context {V : Type} (zero : V).
Implicit Types (σ : store V) (t : SparseTensorStorage V).

Lemma swap_member_lookup {A} (get : SparseTensorStorage V → A)
    (set : A → SparseTensorStorage V → SparseTensorStorage V)
    (h other : nat) σ t o :
  h ≠ other → σ !! h = Some t → σ !! other = Some o →
  swap_member get set h other σ !! h = Some (set (get o) t)
  ∧ swap_member get set h other σ !! other = Some (set (get t) o)
  ∧ (∀ k, k ≠ h → k ≠ other → swap_member get set h other σ !! k = σ !! k)
  ∧ dom (swap_member get set h other σ) = dom σ.
Proof.
  intros Hne Hh Ho. unfold swap_member. rewrite Hh, Ho. split_and!.
  - by rewrite lookup_insert_ne, lookup_insert_eq by done.
  - by rewrite lookup_insert_eq.
  - intros k Hk1 Hk2. by rewrite !lookup_insert_ne by done.
  - rewrite !dom_insert_L.
    apply elem_of_dom_2 in Hh, Ho. set_solver.
Qed.

(** [update] without mask and accumulator: the output receives the
    pointer, index and value buffers of the input and keeps its own
    sizes and dimension order; every other tensor, the input included,
    is left as it was, and the intermediate copy is released. *)
Theorem update_replaces_buffers σ input output tin tout :
  σ !! input = Some tin → σ !! output = Some tout →
  ∃ σ', LowerUpdateRewrite zero σ input output = Some σ'
        ∧ σ' !! output
          = Some (set_values (values tin)
                    (set_indices (indices tin)
                       (set_pointers (pointers tin) tout)))
        ∧ (∀ h, h ≠ output → σ' !! h = σ !! h)
        ∧ dom σ' = dom σ.
Proof.
  intros Hin Hout. unfold LowerUpdateRewrite, dup_tensor.
  rewrite Hin. simpl.
  set (h' := fresh (dom σ)).
  assert (h' ∉ dom σ) as Hfresh by apply is_fresh.
  assert (h' ≠ output) as Hne.
  { intros ->. apply Hfresh. by apply elem_of_dom_2 in Hout. }
  set (σ1 := <[h' := dup tin]> σ).
  assert (σ1 !! h' = Some (dup tin)) as H1 by apply lookup_insert_eq.
  assert (σ1 !! output = Some tout) as H1o
    by (unfold σ1; by rewrite lookup_insert_ne).
  destruct (swap_member_lookup pointers set_pointers h' output σ1 _ _
              Hne H1 H1o) as (H2 & H2o & H2k & H2d).
  set (σ2 := swap_member pointers set_pointers h' output σ1) in *.
  destruct (swap_member_lookup indices set_indices h' output σ2 _ _
              Hne H2 H2o) as (H3 & H3o & H3k & H3d).
  set (σ3 := swap_member indices set_indices h' output σ2) in *.
  destruct (swap_member_lookup values set_values h' output σ3 _ _
              Hne H3 H3o) as (H4 & H4o & H4k & H4d).
  set (σ4 := swap_member values set_values h' output σ3) in *.
  eexists. split; [done|]. split_and!.
  - rewrite lookup_delete_ne by done. by rewrite H4o.
  - intros h Hh. destruct (decide (h = h')) as [->|Hh'].
    + rewrite lookup_delete_eq. symmetry. by apply not_elem_of_dom.
    + rewrite lookup_delete_ne by done.
      rewrite H4k, H3k, H2k by done. unfold σ1.
      by rewrite lookup_insert_ne.
  - rewrite dom_delete_L, H4d, H3d, H2d. unfold σ1.
    rewrite dom_insert_L. set_solver.
Qed.

End Update.

(** A 2 x 4 matrix written over a 2 x 2 one. *)
Lemma update_replaces_buffers_witness :
  ∃ σ', LowerUpdateRewrite 0%Z (<[1 := a_csr]> {[2 := b_csr]}) 1 2 = Some σ'
        ∧ σ' !! 2
          = Some (set_values (values a_csr)
                    (set_indices (indices a_csr)
                       (set_pointers (pointers a_csr) b_csr)))
        ∧ (∀ h, h ≠ 2 → σ' !! h = (<[1 := a_csr]> {[2 := b_csr]} : store Z) !! h)
        ∧ dom σ' = dom (<[1 := a_csr]> {[2 := b_csr]} : store Z).
Proof.
  apply (update_replaces_buffers 0%Z (<[1 := a_csr]> {[2 := b_csr]}) 1 2
           a_csr b_csr); reflexivity.
Defined.

(** ** Layout conversion keeps the matrix *)

Section ConvertLayoutKeeps.
Context {V : Type} (zero : V).

(** [convert_layout] to the other layout does not change the matrix: the
    result is well formed, has the same numbers of rows and columns and
    the same entries up to their order in storage; if the indices of
    the input increase strictly within every segment, so do those of
    the result, and the result holds at every position what the input
    holds there. *)
Theorem convert_layout_keeps_matrix ty (t : SparseTensorStorage V) :
  ty_rank ty = 2 → matrix_wf t →
  let ty' := getFlippedLayoutType ty in
  let t' := convert_layout zero ty ty' t in
  matrix_wf t'
  ∧ num_rows ty' t' = num_rows ty t ∧ num_cols ty' t' = num_cols ty t
  ∧ entries zero ty' t' ≡ₚ entries zero ty t
  ∧ (segments_increasing t →
     segments_increasing t'
     ∧ ∀ i j, stored_at zero ty' t' i j = stored_at zero ty t i j).
Proof.
  intros Hrank Hwf. cbv zeta.
  destruct (convert_layout_flip_spec zero ty t Hrank Hwf)
    as (Hwf' & Hsz & Hent & Hinc).
  cbv zeta in Hwf', Hsz, Hent, Hinc.
  split_and!; [done| | |done|done].
  - unfold num_rows, tensor_dim. rewrite Hsz.
    unfold getFlippedLayoutType. simpl. by destruct (ty_ordering ty).
  - unfold num_cols, tensor_dim. rewrite Hsz.
    unfold getFlippedLayoutType. simpl. by destruct (ty_ordering ty).
Qed.

End ConvertLayoutKeeps.

(** The 2 x 4 matrix [a_csr] converted to CSC. *)
Lemma convert_layout_keeps_matrix_witness :
  let t' := convert_layout 0%Z CSR CSC a_csr in
  matrix_wf t'
  ∧ num_rows CSC t' = num_rows CSR a_csr ∧ num_cols CSC t' = num_cols CSR a_csr
  ∧ entries 0%Z CSC t' ≡ₚ entries 0%Z CSR a_csr
  ∧ (segments_increasing a_csr →
     segments_increasing t'
     ∧ ∀ i j, stored_at 0%Z CSC t' i j = stored_at 0%Z CSR a_csr i j).
Proof.
  apply (convert_layout_keeps_matrix 0%Z CSR a_csr);
    [reflexivity|apply a_csr_wf].
Defined.


(** ** Building a matrix by lexicographic insertion *)

Section InsertCSR.
Context {V : Type} (zero : V) (lim : VectorLimits).
Implicit Types (P I rv ix : list nat) (X : list V).

#[local] Hint Extern 0 (Inhabited V) =>
  exact (value_inhabited zero) : typeclass_instances.

#[local] Abbreviation csr m n rv ix P I X :=
  (mkStorage [m; n] rv ix [[]; P] [[]; I] X).

Lemma endDim_inner m n rv ix P I X :
  P ≠ [] →
  endDim zero 1 (csr m n rv ix P I X) = csr m n rv ix (P ++ [length I]) I X.
Proof. intros HP. destruct P as [|p P]; [done|]. reflexivity. Qed.

Lemma iter_endDim_inner k m n rv ix P I X :
  P ≠ [] →
  Nat.iter k (endDim zero 1) (csr m n rv ix P I X)
  = csr m n rv ix (P ++ replicate k (length I)) I X.
Proof.
  intros HP. induction k as [|k IH]; simpl.
  - by rewrite app_nil_r.
  - rewrite IH, endDim_inner by (by destruct P).
    rewrite <- app_assoc. by rewrite <- replicate_cons_app.
Qed.

(** The first insertion pads the rows before the first row. *)
Lemma lexInsert_first m n rv a b P I r c v :
  P ≠ [] →
  lexInsert zero [r; c] v (csr m n rv [a; b] P I [])
  = Done (csr m n rv [r; c] (P ++ replicate r (length I)) (I ++ [c]) [v]).
Proof.
  intros HP. unfold lexInsert. simpl values. cbv iota.
  unfold insPath. change (getRank (csr m n rv [a; b] P I [])) with 2.
  change (negb (0 <? 2)) with false. cbv iota. change (2 - 0) with 2.
  simpl insPath_loop.
  change (isCompressedDim (csr m n rv [a; b] P I []) 0) with false.
  cbv iota. rewrite Nat.sub_0_r, iter_endDim_inner by done.
  unfold isCompressedDim. simpl.
  destruct (P ++ replicate r (length I)) eqn:HPP.
  { by destruct P. }
  reflexivity.
Qed.


(** An insertion into a later row closes the current row and pads the
    rows in between. *)
Lemma lexInsert_next_row m n rv r0 c0 P I x X r c v :
  P ≠ [] → r0 < r →
  lexInsert zero [r; c] v (csr m n rv [r0; c0] P I (x :: X))
  = Done (csr m n rv [r; c]
              (P ++ replicate (r - r0) (length I)) (I ++ [c])
              ((x :: X) ++ [v])).
Proof.
  intros HP Hr. unfold lexInsert. simpl values. cbv iota.
  unfold lexDiff. change (getRank (csr m n rv [r0; c0] P I (x :: X))) with 2.
  simpl idx. simpl lexDiff_loop.
  destruct (Nat.ltb_spec r0 r); [|lia]. simpl mbind.
  unfold endPath. change (getRank (csr m n rv [r0; c0] P I (x :: X))) with 2.
  change (2 <? 0 + 1) with false. cbv iota. change (2 - (0 + 1)) with 1.
  simpl endPath_loop.
  assert (isCompressedDim (csr m n rv [r0; c0] P I (x :: X)) 1 = true) as ->.
  { by destruct P. }
  simpl mbind. unfold insPath.
  change (getRank (push_pointer 1 (length I)
                     (csr m n rv [r0; c0] P I (x :: X)))) with 2.
  change (negb (0 <? 2)) with false. cbv iota. change (2 - 0) with 2.
  change (push_pointer 1 (length I) (csr m n rv [r0; c0] P I (x :: X)))
    with (csr m n rv [r0; c0] (P ++ [length I]) I (x :: X)).
  simpl insPath_loop.
  change (isCompressedDim (csr m n rv [r0; c0] (P ++ [length I]) I (x :: X)) 0)
    with false.
  cbv iota. rewrite iter_endDim_inner by (by destruct P).
  unfold isCompressedDim. simpl.
  rewrite <- app_assoc.
  replace ([length I] ++ replicate (r - (r0 + 1)) (length I))
    with (replicate (r - r0) (length I)); cycle 1.
  { replace (r - r0) with (S (r - (r0 + 1))) by lia. done. }
  destruct (P ++ replicate (r - r0) (length I)) eqn:HPP.
  { by destruct P. }
  reflexivity.
Qed.

(** An insertion into the current row appends to it. *)
Lemma lexInsert_same_row m n rv r0 c0 P I x X c v :
  P ≠ [] → c0 < c →
  lexInsert zero [r0; c] v (csr m n rv [r0; c0] P I (x :: X))
  = Done (csr m n rv [r0; c] P (I ++ [c]) ((x :: X) ++ [v])).
Proof.
  intros HP Hc. unfold lexInsert. simpl values. cbv iota.
  unfold lexDiff. change (getRank (csr m n rv [r0; c0] P I (x :: X))) with 2.
  simpl idx. simpl lexDiff_loop.
  rewrite Nat.ltb_irrefl, Nat.eqb_refl.
  destruct (Nat.ltb_spec c0 c); [|lia]. simpl mbind.
  unfold endPath. change (getRank (csr m n rv [r0; c0] P I (x :: X))) with 2.
  change (2 <? 1 + 1) with false. cbv iota. change (2 - (1 + 1)) with 0.
  simpl endPath_loop. simpl mbind. unfold insPath.
  change (getRank (csr m n rv [r0; c0] P I (x :: X))) with 2.
  change (negb (1 <? 2)) with false. cbv iota. change (2 - 1) with 1.
  simpl insPath_loop.
  assert (isCompressedDim (csr m n rv [r0; c0] P I (x :: X)) 1 = true) as ->.
  { by destruct P. }
  reflexivity.
Qed.

(** Any other insertion stops at an assertion. *)
Lemma lexInsert_not_after m n rv r0 c0 P I x X r c v :
  ¬ (r0 < r ∨ r0 = r ∧ c0 < c) →
  ∃ msg, lexInsert zero [r; c] v (csr m n rv [r0; c0] P I (x :: X))
         = AssertionFailure msg.
Proof.
  intros Hnot. unfold lexInsert. simpl values. cbv iota.
  unfold lexDiff. change (getRank (csr m n rv [r0; c0] P I (x :: X))) with 2.
  simpl idx. simpl lexDiff_loop.
  destruct (Nat.ltb_spec r0 r); [lia|].
  destruct (Nat.eqb_spec r r0); [|by eexists].
  destruct (Nat.ltb_spec c0 c); [lia|].
  destruct (Nat.eqb_spec c c0); by eexists.
Qed.

Lemma iter_endDim_rec_inner k m n rv ix P I X :
  P ≠ [] →
  Nat.iter k (endDim_rec zero 1 1) (csr m n rv ix P I X)
  = csr m n rv ix (P ++ replicate k (length I)) I X.
Proof.
  intros HP. induction k as [|k IH].
  - simpl. by rewrite app_nil_r.
  - rewrite Nat.iter_succ, IH.
    change (endDim_rec zero 1 1
              (csr m n rv ix (P ++ replicate k (length I)) I X))
      with (endDim zero 1 (csr m n rv ix (P ++ replicate k (length I)) I X)).
    rewrite endDim_inner by (by destruct P).
    rewrite <- app_assoc. by rewrite <- replicate_cons_app.
Qed.

Lemma endInsert_empty m n rv ix P I :
  P ≠ [] →
  endInsert zero (csr m n rv ix P I [])
  = Done (csr m n rv ix (P ++ replicate m (length I)) I []).
Proof.
  intros HP. unfold endInsert. simpl values. cbv iota. f_equal.
  unfold endDim. change (getRank (csr m n rv ix P I [])) with 2.
  change (2 - 0) with 2. simpl endDim_rec.
  change (isCompressedDim (csr m n rv ix P I []) 0) with false. cbv iota.
  by apply (iter_endDim_rec_inner m m n rv ix P I []).
Qed.

Lemma endInsert_nonempty m n rv r0 c0 P I x X :
  P ≠ [] → r0 < m →
  endInsert zero (csr m n rv [r0; c0] P I (x :: X))
  = Done (csr m n rv [r0; c0] (P ++ replicate (m - r0) (length I)) I
              (x :: X)).
Proof.
  intros HP Hr. destruct P as [|p P]; [done|].
  unfold endInsert. simpl values. cbv iota.
  unfold endPath. cbn -[endDim Nat.iter].
  rewrite (iter_endDim_inner _ m n rv [r0; c0] (p :: P ++ [length I]) I
             (x :: X)) by done.
  replace (m - r0) with (S (m - (r0 + 1))) by lia.
  simpl. by rewrite <- app_assoc.
Qed.


#[local] Abbreviation rows L := ((λ e : nat * nat * V, e.1.1) <$> L).
#[local] Abbreviation cols L := ((λ e : nat * nat * V, e.1.2) <$> L).
#[local] Abbreviation vals L := ((λ e : nat * nat * V, e.2) <$> L).
#[local] Abbreviation ptrs L k :=
  ((λ c, length (filter (λ x, x < c) (rows L))) <$> seq 0 k).

Lemma lexInsert_all_snoc (L : list (nat * nat * V)) e t :
  lexInsert_all zero (L ++ [e]) t
  = (t' ← lexInsert_all zero L t; lexInsert zero [e.1.1; e.1.2] e.2 t').
Proof. unfold lexInsert_all. by rewrite foldl_app. Qed.

(** The pointers after one more insertion into row [r]. *)
Lemma ptrs_snoc (L : list (nat * nat * V)) e r0 :
  (∀ x, x ∈ rows L → x ≤ r0) → r0 ≤ e.1.1 →
  ptrs (L ++ [e]) (e.1.1 + 1)
  = ptrs L (r0 + 1) ++ replicate (e.1.1 - r0) (length L).
Proof.
  intros Hrows Hr.
  replace (e.1.1 + 1) with ((r0 + 1) + (e.1.1 - r0)) by lia.
  rewrite seq_app, fmap_app. f_equal.
  - apply list_fmap_ext. intros i c Hc.
    apply list_elem_of_lookup_2, elem_of_seq in Hc.
    rewrite fmap_app, filter_app, length_app. simpl.
    rewrite filter_cons, decide_False by lia. simpl. lia.
  - rewrite <- (fmap_replicate (λ _ : nat, length L) (e.1.1 - r0) 0).
    assert (∀ l : list nat, length l = e.1.1 - r0 →
              (∀ c, c ∈ l → r0 < c ∧ c ≤ e.1.1) →
              (λ c, length (filter (λ x, x < c) (rows (L ++ [e])))) <$> l
              = (λ _ : nat, length L) <$> replicate (e.1.1 - r0) 0) as Hgen.
    { intros l. generalize (e.1.1 - r0). intros k. revert k.
      induction l as [|c l IH]; intros k Hk Hl; simpl in Hk; subst k; [done|].
      simpl. f_equal.
      - destruct (Hl c ltac:(left)) as [? ?].
        rewrite fmap_app, filter_app, length_app. simpl.
        rewrite filter_cons, decide_False by lia. simpl.
        rewrite count_below_all; [by rewrite length_fmap; lia|].
        intros x Hx. specialize (Hrows x Hx). lia.
      - apply IH; [done|]. intros c' Hc'. apply Hl. by right. }
    apply Hgen; [by rewrite length_seq|].
    intros c Hc. apply elem_of_seq in Hc. lia.
Qed.

Lemma entry_lt_rows (L : list (nat * nat * V)) e :
  StronglySorted entry_lt (L ++ [e]) →
  ∀ x, x ∈ rows (L ++ [e]) → x ≤ e.1.1.
Proof.
  intros Hs x Hx. apply list_elem_of_fmap in Hx as (y & -> & Hy).
  apply elem_of_app in Hy as [Hy|Hy].
  - apply StronglySorted_app in Hs as (Hlt & _ & _).
    specialize (Hlt y e Hy ltac:(left)). unfold entry_lt in Hlt. lia.
  - apply list_elem_of_singleton in Hy as ->. done.
Qed.

(** The storage after a sequence of insertions in strictly increasing
    lexicographic order: the rows up to the last one inserted into are
    delimited, and the last row is open. *)
Lemma lexInsert_all_spec m n rv a b (L : list (nat * nat * V)) e :
  StronglySorted entry_lt (L ++ [e]) →
  lexInsert_all zero (L ++ [e]) (csr m n rv [a; b] [0] [] [])
  = Done (csr m n rv [e.1.1; e.1.2] (ptrs (L ++ [e]) (e.1.1 + 1))
              (cols (L ++ [e])) (vals (L ++ [e]))).
Proof.
  revert e. induction L as [|e0 L IH] using rev_ind; intros e Hs.
  - simpl app. unfold lexInsert_all. simpl foldl. simpl mbind.
    rewrite lexInsert_first by done. simpl length.
    assert ((λ c : nat, length (filter (λ x : nat, x < c) [e.1.1])) <$>
              seq 0 (e.1.1 + 1) = [0] ++ replicate e.1.1 0) as ->; [|done].
    change ([0] ++ replicate e.1.1 0) with (replicate (S e.1.1) 0).
    replace (e.1.1 + 1) with (S e.1.1) by lia.
    transitivity ((λ _ : nat, 0) <$> seq 0 (S e.1.1)); cycle 1.
    { rewrite (const_fmap (λ _ : nat, 0) (seq 0 (S e.1.1)) 0) by done.
      by rewrite length_seq. }
    apply list_fmap_ext.
    intros i c Hc. apply list_elem_of_lookup_2, elem_of_seq in Hc.
    rewrite filter_cons, decide_False by lia. done.
  - rewrite lexInsert_all_snoc.
    pose proof (StronglySorted_app_1_l _ _ _ Hs) as Hs0.
    rewrite (IH e0 Hs0). simpl mbind.
    assert (entry_lt e0 e) as Hlt.
    { apply StronglySorted_app in Hs as (Hlt & _ & _).
      apply Hlt; [|left]. apply elem_of_app. right. left. }
    pose proof (entry_lt_rows L e0 Hs0) as Hrows.
    destruct (vals (L ++ [e0])) as [|x X] eqn:HX.
    { by destruct L. }
    assert (length (cols (L ++ [e0])) = length (L ++ [e0])) as Hlc
      by (by rewrite length_fmap).
    assert (ptrs (L ++ [e0]) (e0.1.1 + 1) ≠ []) as HP.
    { replace (e0.1.1 + 1) with (S e0.1.1) by lia. done. }
    rewrite (ptrs_snoc (L ++ [e0]) e e0.1.1) by (done || unfold entry_lt in Hlt; lia).
    rewrite (fmap_app (λ e : nat * nat * V, e.2) (L ++ [e0]) [e]), HX.
    rewrite (fmap_app (λ e : nat * nat * V, e.1.2) (L ++ [e0]) [e]).
    rewrite <- Hlc.
    destruct Hlt as [Hrow|[Hrow Hcol]].
    + by rewrite lexInsert_next_row by (done || lia).
    + rewrite <- Hrow, Nat.sub_diag. cbn [replicate]. rewrite app_nil_r.
      by rewrite lexInsert_same_row by (done || lia).
Qed.

Lemma ptrs_lookup (L : list (nat * nat * V)) k c :
  c < k → ptrs L k !!! c = length (filter (λ x, x < c) (rows L)).
Proof.
  intros Hc.
  rewrite (list_lookup_total_fmap
             (λ c, length (filter (λ x, x < c) (rows L))))
    by (rewrite length_seq; lia).
  by rewrite lookup_total_seq_lt by done.
Qed.

(** Delimiting the rows after the last one. *)
Lemma ptrs_extend (L : list (nat * nat * V)) r0 r :
  (∀ x, x ∈ rows L → x ≤ r0) → r0 ≤ r →
  ptrs L (r + 1) = ptrs L (r0 + 1) ++ replicate (r - r0) (length L).
Proof.
  intros Hrows Hr. apply list_eq_same_length with (r + 1).
  - rewrite length_app, length_fmap, length_seq, length_replicate. lia.
  - by rewrite length_fmap, length_seq.
  - intros i x y Hi Hx Hy.
    apply list_lookup_total_correct in Hx, Hy. subst x y.
    rewrite ptrs_lookup by done.
    destruct (decide (i < r0 + 1)) as [Hlt|Hge].
    + rewrite lookup_total_app_l by (rewrite length_fmap, length_seq; lia).
      by rewrite ptrs_lookup by done.
    + rewrite lookup_total_app_r by (rewrite length_fmap, length_seq; lia).
      rewrite length_fmap, length_seq.
      rewrite lookup_total_replicate_2 by lia.
      rewrite count_below_all; [by rewrite length_fmap|].
      intros x Hx. specialize (Hrows x Hx). lia.
Qed.

Lemma entry_lt_lookup (L : list (nat * nat * V)) a b x y :
  StronglySorted entry_lt L → a < b →
  L !! a = Some x → L !! b = Some y → entry_lt x y.
Proof.
  intros Hs. revert a b.
  induction Hs as [|z l Hl IH Hz]; intros a b Hab Ha Hb; [done|].
  destruct b as [|b]; [lia|]. destruct a as [|a]; simpl in *.
  - injection Ha as ->. rewrite Forall_forall in Hz. apply Hz.
    by eapply list_elem_of_lookup_2.
  - apply (IH a b); [lia|done|done].
Qed.

(** A storage whose pointers count the rows of a list of entries in
    strictly increasing lexicographic order is a matrix with exactly
    these entries, without duplicates. *)
Lemma counted_rows_matrix m n rv ix (L : list (nat * nat * V)) :
  length rv = 2 →
  StronglySorted entry_lt L →
  (∀ e, e ∈ L → e.1.1 < m ∧ e.1.2 < n) →
  matrix_wf (csr m n rv ix (ptrs L (m + 1)) (cols L) (vals L))
  ∧ storage_entries zero m (ptrs L (m + 1)) (cols L) (vals L) = L
  ∧ segments_increasing (csr m n rv ix (ptrs L (m + 1)) (cols L) (vals L)).
Proof.
  intros Hrv Hs Hbound.
  assert (∀ k, k ∈ rows L → k < m) as Hrows.
  { intros k Hk. apply list_elem_of_fmap in Hk as (e & -> & He).
    by apply Hbound. }
  assert (∀ j e, L !! j = Some e →
            rows L !!! j = e.1.1 ∧ cols L !!! j = e.1.2 ∧ vals L !!! j = e.2)
    as Hat.
  { intros j e He. split_and!; apply list_lookup_total_correct;
      by rewrite list_lookup_fmap, He. }
  assert (∀ a b, a ≤ b → b < length (rows L) →
            rows L !!! a ≤ rows L !!! b) as Hs'.
  { intros a b Hab Hb. rewrite length_fmap in Hb.
    destruct (decide (a = b)) as [->|Hne]; [done|].
    destruct (lookup_lt_is_Some_2 L a ltac:(lia)) as [x Hx].
    destruct (lookup_lt_is_Some_2 L b ltac:(lia)) as [y Hy].
    destruct (Hat a x Hx) as (-> & _). destruct (Hat b y Hy) as (-> & _).
    pose proof (entry_lt_lookup L a b x y Hs ltac:(lia) Hx Hy) as Hlt.
    unfold entry_lt in Hlt. lia. }
  assert (∀ o jj, o < m →
            ptrs L (m + 1) !!! o ≤ jj → jj < ptrs L (m + 1) !!! (o + 1) →
            jj < length L ∧ rows L !!! jj = o) as Hseg.
  { intros o jj Ho H1 H2. rewrite !ptrs_lookup in H1, H2 by lia.
    pose proof (length_filter (λ k, k < o + 1) (rows L)) as Hle.
    rewrite length_fmap in Hle. split; [lia|].
    pose proof (sorted_prefix_count (rows L) o jj Hs'
                  ltac:(rewrite length_fmap; lia)).
    pose proof (sorted_prefix_count (rows L) (o + 1) jj Hs'
                  ltac:(rewrite length_fmap; lia)).
    lia. }
  assert (ptrs L (m + 1) !!! 0 = 0) as Hfirst.
  { rewrite ptrs_lookup by lia. apply count_below_none. intros k _. lia. }
  assert (∀ i j, i ≤ j → j ≤ m →
            ptrs L (m + 1) !!! i ≤ ptrs L (m + 1) !!! j) as Hmono.
  { intros i j Hij Hj. rewrite !ptrs_lookup by lia.
    by apply count_below_mono. }
  assert (ptrs L (m + 1) !!! m = length L) as Hlast.
  { rewrite ptrs_lookup by lia. rewrite count_below_all by done.
    by rewrite length_fmap. }
  split_and!.
  - split; simpl; try done.
    + change (([[]; ptrs L (m + 1)] : list (list nat)) !!! 1)
        with (ptrs L (m + 1)).
      by rewrite length_fmap, length_seq.
    + change (([[]; ptrs L (m + 1)] : list (list nat)) !!! 1)
        with (ptrs L (m + 1)).
      change (([[]; cols L] : list (list nat)) !!! 1) with (cols L).
      by rewrite Hlast, length_fmap.
    + change (([[]; cols L] : list (list nat)) !!! 1) with (cols L).
      by rewrite !length_fmap.
    + change (([[]; cols L] : list (list nat)) !!! 1) with (cols L).
      intros j Hj. rewrite length_fmap in Hj.
      destruct (lookup_lt_is_Some_2 L j Hj) as [e He].
      destruct (Hat j e He) as (_ & -> & _).
      apply Hbound. by eapply list_elem_of_lookup_2.
  - unfold storage_entries.
    rewrite (flat_map_ext_in _
               (λ o, (λ jj, L !!! jj)
                     <$> seq (ptrs L (m + 1) !!! o)
                           (ptrs L (m + 1) !!! (o + 1)
                            - ptrs L (m + 1) !!! o))); cycle 1.
    { intros o Ho. apply elem_of_seq in Ho.
      apply list_fmap_ext. intros i jj Hjj.
      apply list_elem_of_lookup_2, elem_of_seq in Hjj.
      destruct (Hseg o jj) as [Hjl Hrow]; [lia..|].
      destruct (lookup_lt_is_Some_2 L jj Hjl) as [e He].
      destruct (Hat jj e He) as (Hr & -> & ->).
      rewrite (list_lookup_total_correct _ _ _ He).
      rewrite <- Hrow, Hr. by destruct e as [[? ?] ?]. }
    rewrite flat_map_fmap, flat_map_segments by done.
    rewrite Hlast.
    pose proof (fmap_lookup_total_seq_fmap id L) as HL.
    rewrite list_fmap_id in HL. exact HL.
  - intros o p q Ho Hp Hpq Hq. simpl in Ho.
    change (sizes _ !!! 0) with m in *.
    change (pointers _ !!! 1) with (ptrs L (m + 1)) in *.
    change (indices _ !!! 1) with (cols L).
    destruct (Hseg o p) as [Hpl Hrp]; [lia..|].
    destruct (Hseg o q) as [Hql Hrq]; [lia..|].
    destruct (lookup_lt_is_Some_2 L p Hpl) as [x Hx].
    destruct (lookup_lt_is_Some_2 L q Hql) as [y Hy].
    destruct (Hat p x Hx) as (Hr1 & -> & _).
    destruct (Hat q y Hy) as (Hr2 & -> & _).
    pose proof (entry_lt_lookup L p q x y Hs Hpq Hx Hy) as Hlt.
    unfold entry_lt in Hlt. lia.
Qed.

(** The storage that a sequence of insertions followed by [endInsert]
    leaves. *)
Lemma lexInsert_endInsert_spec m n rv a b (L : list (nat * nat * V)) :
  StronglySorted entry_lt L →
  (∀ e, e ∈ L → e.1.1 < m) →
  ∃ ix, (t ← lexInsert_all zero L (csr m n rv [a; b] [0] [] []);
         endInsert zero t)
        = Done (csr m n rv ix (ptrs L (m + 1)) (cols L) (vals L)).
Proof.
  intros Hs Hbound. destruct L as [|e L _] using rev_ind.
  - exists [a; b]. unfold lexInsert_all. simpl foldl. simpl mbind.
    rewrite endInsert_empty by done.
    assert (ptrs ([] : list (nat * nat * V)) (m + 1) = [0] ++ replicate m 0)
      as Hp.
    { rewrite (ptrs_extend [] 0 m) by (lia || by intros x Hx; inversion Hx).
      by rewrite Nat.sub_0_r. }
    exact (f_equal (λ P, Done (csr m n rv [a; b] P [] [])) (eq_sym Hp)).
  - exists [e.1.1; e.1.2]. rewrite lexInsert_all_spec by done. simpl mbind.
    pose proof (Hbound e ltac:(apply elem_of_app; right; left)) as He.
    destruct (vals (L ++ [e])) as [|x X] eqn:HX; [by destruct L|].
    rewrite endInsert_nonempty
      by (done || by replace (e.1.1 + 1) with (S e.1.1) by lia).
    rewrite (ptrs_extend (L ++ [e]) e.1.1 m)
      by (by apply entry_lt_rows || lia).
    by rewrite !length_fmap.
Qed.

Lemma entry_lt_trans (x y z : nat * nat * V) :
  entry_lt x y → entry_lt y z → entry_lt x z.
Proof. unfold entry_lt. lia. Qed.

(** The insertions succeed exactly for strictly increasing
    coordinates. *)
Lemma lexInsert_all_iff m n rv a b (L : list (nat * nat * V)) :
  (∃ t, lexInsert_all zero L (csr m n rv [a; b] [0] [] []) = Done t)
  ↔ StronglySorted entry_lt L.
Proof.
  split.
  - induction L as [|e L IH] using rev_ind; intros [t Ht]; [constructor|].
    rewrite lexInsert_all_snoc in Ht.
    destruct (lexInsert_all zero L _) as [t1|msg|] eqn:H1; [|done..].
    specialize (IH ltac:(by eexists)). simpl in Ht.
    destruct L as [|e0 L _] using rev_ind; [repeat constructor|].
    rewrite lexInsert_all_spec in H1 by done. injection H1 as <-.
    assert (entry_lt e0 e) as Hlt.
    { destruct (vals (L ++ [e0])) as [|x X] eqn:HX; [by destruct L|].
      destruct (decide (e0.1.1 < e.1.1 ∨ e0.1.1 = e.1.1 ∧ e0.1.2 < e.1.2))
        as [?|Hnot]; [done|].
      destruct (lexInsert_not_after m n rv e0.1.1 e0.1.2
                  (ptrs (L ++ [e0]) (e0.1.1 + 1)) (cols (L ++ [e0]))
                  x X e.1.1 e.1.2 e.2 Hnot) as [msg Hmsg].
      by rewrite Hmsg in Ht. }
    apply StronglySorted_app_2; [|done|repeat constructor].
    intros x y Hx Hy. apply list_elem_of_singleton in Hy as ->.
    apply elem_of_app in Hx as [Hx|Hx].
    + apply StronglySorted_app in IH as (Hall & _ & _).
      apply (entry_lt_trans x e0 e); [|done]. apply Hall; [done|left].
    + by apply list_elem_of_singleton in Hx as ->.
  - intros Hs. destruct L as [|e L _] using rev_ind; [by eexists|].
    rewrite lexInsert_all_spec by done. by eexists.
Qed.

(** Inserting into a fresh matrix storage, one that the constructor
    could build because the sizes it reserves are within the limits:
    a sequence of [lexInsert] calls succeeds exactly when the
    coordinates are strictly increasing in lexicographic order; a
    repeated or an earlier coordinate makes the sequence fail, and the
    coordinates are not compared with the extents. *)
Theorem lexInsert_succeeds_iff_increasing m n (L : list (nat * nat * V)) :
  matrix_fits lim m n →
  (∃ t, (t0 ← newSparseTensor zero lim (λ els, els) 2 [m; n] [0; 1]
                 [kDense; kCompressed] None;
         lexInsert_all zero L t0) = Done t)
  ↔ StronglySorted entry_lt L.
Proof.
  intros Hfits. rewrite newSparseTensor_fresh_matrix by done.
  apply lexInsert_all_iff.
Qed.

(** Entries inserted into a fresh matrix storage (of sizes within
    the limits) in strictly increasing lexicographic order, all
    within the extents, and closed by [endInsert] give a well-formed
    matrix of the given shape whose entries are exactly the inserted
    ones, in the order of insertion. *)
Theorem lexInsert_builds_matrix m n (L : list (nat * nat * V)) :
  matrix_fits lim m n →
  StronglySorted entry_lt L →
  (∀ e, e ∈ L → e.1.1 < m ∧ e.1.2 < n) →
  ∃ t, (t0 ← newSparseTensor zero lim (λ els, els) 2 [m; n] [0; 1]
                [kDense; kCompressed] None;
        t1 ← lexInsert_all zero L t0;
        endInsert zero t1) = Done t
       ∧ matrix_wf t ∧ num_rows CSR t = m ∧ num_cols CSR t = n
       ∧ entries zero CSR t = L.
Proof.
  intros Hfits Hs Hbound. rewrite newSparseTensor_fresh_matrix by done.
  destruct (lexInsert_endInsert_spec m n [0; 1] 0 0 L Hs) as [ix Hix].
  { intros e He. by apply Hbound. }
  destruct (counted_rows_matrix m n [0; 1] ix L) as (Hwf & Hent & _);
    [done..|].
  eexists. split; [exact Hix|]. split_and!; [done|done|done|].
  unfold entries. rewrite (list_fmap_ext (logical_entry CSR) id); cycle 1.
  { by intros. }
  rewrite list_fmap_id. exact Hent.
Qed.

(** If moreover both extents are positive and their product fits 64
    bits, the matrix that the insertions and [endInsert] leave passes
    [verify]. *)
Theorem lexInsert_result_verifies m n (L : list (nat * nat * V)) :
  matrix_fits lim m n →
  0 < m → 0 < n → (Z.of_nat m * Z.of_nat n < 2 ^ 64 - 1)%Z →
  StronglySorted entry_lt L →
  (∀ e, e ∈ L → e.1.1 < m ∧ e.1.2 < n) →
  ∃ t, (t0 ← newSparseTensor zero lim (λ els, els) 2 [m; n] [0; 1]
                [kDense; kCompressed] None;
        t1 ← lexInsert_all zero L t0;
        endInsert zero t1) = Done t
       ∧ verify t = true.
Proof.
  intros Hfits Hm Hn Hprod Hs Hbound.
  rewrite newSparseTensor_fresh_matrix by done.
  destruct (lexInsert_endInsert_spec m n [0; 1] 0 0 L Hs) as [ix Hix].
  { intros e He. by apply Hbound. }
  destruct (counted_rows_matrix m n [0; 1] ix L) as (Hwf & _ & Hinc);
    [done..|].
  eexists. split; [exact Hix|].
  apply verify_matrix_iff; try done.
  - unfold isCompressedDim. simpl.
    rewrite length_fmap, length_seq.
    apply negb_true_iff, Nat.eqb_neq. lia.
  - split_and!; [by left|done..].
Qed.

End InsertCSR.

(** Three insertions into a 2 x 3 matrix, in increasing order. *)
Lemma lexInsert_succeeds_iff_increasing_witness :
  (∃ t, (t0 ← newSparseTensor 0%Z limits_64 (λ els, els) 2 [2; 3] [0; 1]
                 [kDense; kCompressed] None;
         lexInsert_all 0%Z [(0, 1, 5%Z); (0, 2, 6%Z); (1, 0, 7%Z)] t0)
        = Done t)
  ↔ StronglySorted entry_lt [(0, 1, 5%Z); (0, 2, 6%Z); (1, 0, 7%Z)].
Proof.
  apply (lexInsert_succeeds_iff_increasing 0%Z limits_64 2 3
           [(0, 1, 5%Z); (0, 2, 6%Z); (1, 0, 7%Z)]).
  unfold matrix_fits; simpl; lia.
Defined.

(** Three entries inserted into a 2 x 3 matrix. *)
Lemma lexInsert_builds_matrix_witness :
  ∃ t, (t0 ← newSparseTensor 0%Z limits_64 (λ els, els) 2 [2; 3] [0; 1]
                [kDense; kCompressed] None;
        t1 ← lexInsert_all 0%Z [(0, 1, 5%Z); (0, 2, 6%Z); (1, 0, 7%Z)] t0;
        endInsert 0%Z t1) = Done t
       ∧ matrix_wf t ∧ num_rows CSR t = 2 ∧ num_cols CSR t = 3
       ∧ entries 0%Z CSR t = [(0, 1, 5%Z); (0, 2, 6%Z); (1, 0, 7%Z)].
Proof.
  apply (lexInsert_builds_matrix 0%Z limits_64 2 3
           [(0, 1, 5%Z); (0, 2, 6%Z); (1, 0, 7%Z)]).
  - unfold matrix_fits; simpl; lia.
  - repeat constructor; unfold entry_lt; simpl; lia.
  - intros e He. repeat (apply elem_of_cons in He as [->|He]; [simpl; lia|]).
    by apply elem_of_nil in He.
Defined.

(** The same three insertions: the result passes [verify]. *)
Lemma lexInsert_result_verifies_witness :
  ∃ t, (t0 ← newSparseTensor 0%Z limits_64 (λ els, els) 2 [2; 3] [0; 1]
                [kDense; kCompressed] None;
        t1 ← lexInsert_all 0%Z [(0, 1, 5%Z); (0, 2, 6%Z); (1, 0, 7%Z)] t0;
        endInsert 0%Z t1) = Done t
       ∧ verify t = true.
Proof.
  apply (lexInsert_result_verifies 0%Z limits_64 2 3
           [(0, 1, 5%Z); (0, 2, 6%Z); (1, 0, 7%Z)]);
    [unfold matrix_fits; simpl; lia|lia|lia|lia| |].
  - repeat constructor; unfold entry_lt; simpl; lia.
  - intros e He. repeat (apply elem_of_cons in He as [->|He]; [simpl; lia|]).
    by apply elem_of_nil in He.
Defined.
